(** * 3d-moba-experience: the per-frame simulation of [ThreeScene], the
      input merge and movement keys of [App], and the [Joystick]

    A shallow embedding of [src/App.tsx] (keyboard / joystick merge, the
    movement-key handlers), of [src/components/Joystick.tsx] (knob position
    and the interaction handlers) and of the scene component (math
    utilities, [shuffleArray], roam-target sampling, smoke-puff pool,
    attack-trigger effect, camera pointer handlers and the [animate] frame
    function with its player, enemy, smoke and camera parts).

    In the frame function JavaScript numbers are idealised as real
    numbers: [+], [-], [*], [/] are exact, comparisons are the order of
    [R], and the library functions of [Math] are their mathematical
    counterparts; this is the code up to rounding, at the magnitudes the
    scene works with.  [shortestAngleDiff] is embedded a second time on
    binary64 numbers ([Double]), where the difference of two large angles
    overflows and [Math.PI] is a rounded constant.  [Math.random] is an
    oracle: a stream [nat -> R] of the numbers the successive calls return,
    together with the count of calls made so far. *)

From Stdlib Require Import Reals Lra Lia ZArith List Bool String.
From Stdlib Require Import Zfloor.
From Stdlib Require Import Permutation.
From Stdlib Require Import Machin.
From Stdlib Require Import SpecFloat.
Import ListNotations.
Open Scope R_scope.

(** ** JavaScript arithmetic *)

Module JS.

Definition ltb (a b : R) : bool := if Rlt_dec a b then true else false.
Definition leb (a b : R) : bool := if Rle_dec a b then true else false.
Definition gtb (a b : R) : bool := ltb b a.
Definition geb (a b : R) : bool := leb b a.
Definition eqb (a b : R) : bool := if Req_dec_T a b then true else false.

(** [Math.trunc]: rounding toward zero, used by the remainder operator. *)
Definition trunc (a : R) : Z :=
  if Rle_dec 0 a then Zfloor a else Zceil a.

(** The remainder operator [a % b] on finite operands, [b <> 0]: the
    result takes the sign of the dividend. *)
Definition rem (a b : R) : R := a - b * IZR (trunc (a / b)).

Definition Math_floor (a : R) : R := IZR (Zfloor a).
Definition Math_max (a b : R) : R := Rmax a b.
Definition Math_min (a b : R) : R := Rmin a b.
Definition Math_abs (a : R) : R := Rabs a.
Definition Math_sqrt (a : R) : R := sqrt a.
Definition Math_sin (a : R) : R := sin a.
Definition Math_acos (a : R) : R := acos a.
Definition Math_PI : R := PI.

(** [Math.atan2(y, x)]. *)
Definition Math_atan2 (y x : R) : R :=
  if Rlt_dec 0 x then atan (y / x)
  else if Rlt_dec x 0 then
    (if Rle_dec 0 y then atan (y / x) + PI else atan (y / x) - PI)
  else if Rlt_dec 0 y then PI / 2
  else if Rlt_dec y 0 then - (PI / 2)
  else 0.

(** The oracle behind [Math.random]. *)
Definition Random := nat -> R.
Definition in_unit (rnd : Random) : Prop := forall n, 0 <= rnd n < 1.

End JS.

Infix "<?" := JS.ltb (at level 70, no associativity) : R_scope.
Infix "<=?" := JS.leb (at level 70, no associativity) : R_scope.
Infix ">?" := JS.gtb (at level 70, no associativity) : R_scope.
Infix ">=?" := JS.geb (at level 70, no associativity) : R_scope.

(** ** Binary64 arithmetic *)

(** JavaScript numbers as they are: IEEE 754 binary64 values, with the
    operators rounding to nearest, ties to even.  [shortestAngleDiff] is
    embedded a second time over these numbers, so that overflow and the
    rounded constant [Math.PI] show. *)

Module Double.

Definition prec : Z := 53.
Definition emax : Z := 1024.

(** A number is a zero, an infinity, [NaN], or [(-1)^s * m * 2^e]. *)
Definition number := spec_float.

Definition sub (a b : number) : number := SFsub prec emax a b.
Definition add (a b : number) : number := SFadd prec emax a b.
Definition mul (a b : number) : number := SFmul prec emax a b.
Definition neg (a : number) : number := SFopp a.
Definition ltb (a b : number) : bool := SFltb a b.
Definition gtb (a b : number) : bool := SFltb b a.
Definition leb (a b : number) : bool := SFleb a b.

(** The remainder operator [n % d]: [NaN] when the dividend is not finite
    or the divisor is a zero, the dividend itself when it is a zero or the
    divisor is infinite, and otherwise the exact remainder of the
    truncating division, with the sign of the dividend. *)
Definition rem (n d : number) : number :=
  match n, d with
  | S754_nan, _ | _, S754_nan => S754_nan
  | S754_infinity _, _ => S754_nan
  | _, S754_zero _ => S754_nan
  | S754_zero _, _ => n
  | S754_finite _ _ _, S754_infinity _ => n
  | S754_finite sn mn en, S754_finite _ md ed =>
      let e := Z.min en ed in
      let N := (Zpos mn * 2 ^ (en - e))%Z in
      let D := (Zpos md * 2 ^ (ed - e))%Z in
      binary_normalize prec emax (cond_Zopp sn (Z.rem N D)) e sn
  end.

(** The literal [2] and the constant [Math.PI] = 3.141592653589793. *)
Definition two : number := S754_finite false 4503599627370496 (-51).
Definition Math_PI : number := S754_finite false 7074237752028440 (-51).

Definition shortestAngleDiff (current target : number) : number :=
  let M2PI := mul Math_PI two in
  let d := rem (sub target current) M2PI in
  if gtb d Math_PI then sub d M2PI
  else if ltb d (neg Math_PI) then add d M2PI
  else d.

(** [Math.PI * 2], the modulus [shortestAngleDiff] reduces by. *)
Definition M2PI : number := mul Math_PI two.

(** The real number a finite double stands for (0 for the others). *)
Definition bpow (e : Z) : R := powerRZ 2 e.

Definition B2R (f : number) : R :=
  match f with
  | S754_finite s m e => IZR (cond_Zopp s (Zpos m)) * bpow e
  | _ => 0
  end.

Definition is_finite (f : number) : bool :=
  match f with
  | S754_finite _ _ _ | S754_zero _ => true
  | _ => false
  end.

(** The values a JavaScript number can take: the mantissa has at most 53
    bits and is normalised, the exponent lies between -1074 and 971. *)
Definition valid (f : number) : Prop := valid_binary prec emax f = true.

(** Sample angles: 0, 0.5, 7, 1e22 and 1.7e308. *)
Definition zero : number := S754_zero false.
Definition half : number := S754_finite false 4503599627370496 (-53).
Definition seven : number := S754_finite false 7881299347898368 (-50).
Definition ten_to_22 : number := S754_finite false 4768371582031250 21.
Definition huge : number := S754_finite false 8517715530038134 971.

End Double.

(** ** The parts of three.js the scene uses *)

Module THREE.

Record Vector3 := mkVector3 { x : R; y : R; z : R }.

Definition add (a v : Vector3) : Vector3 :=
  mkVector3 (x a + x v) (y a + y v) (z a + z v).
Definition sub (a v : Vector3) : Vector3 :=
  mkVector3 (x a - x v) (y a - y v) (z a - z v).
Definition subVectors (a b : Vector3) : Vector3 := sub a b.
Definition multiplyScalar (a : Vector3) (s : R) : Vector3 :=
  mkVector3 (x a * s) (y a * s) (z a * s).
Definition addScaledVector (a v : Vector3) (s : R) : Vector3 :=
  mkVector3 (x a + x v * s) (y a + y v * s) (z a + z v * s).
Definition lengthSq (a : Vector3) : R := x a * x a + y a * y a + z a * z a.
Definition length (a : Vector3) : R := JS.Math_sqrt (lengthSq a).
Definition divideScalar (a : Vector3) (s : R) : Vector3 :=
  multiplyScalar a (1 / s).
(** [normalize] divides by [length() || 1]. *)
Definition normalize (a : Vector3) : Vector3 :=
  divideScalar a (if JS.eqb (length a) 0 then 1 else length a).
Definition distanceToSquared (a v : Vector3) : R :=
  let dx := x a - x v in
  let dy := y a - y v in
  let dz := z a - z v in
  dx * dx + dy * dy + dz * dz.
Definition crossVectors (a b : Vector3) : Vector3 :=
  mkVector3 (y a * z b - z a * y b)
            (z a * x b - x a * z b)
            (x a * y b - y a * x b).

Module MathUtils.
Definition clamp (value min max : R) : R :=
  JS.Math_max min (JS.Math_min max value).
Definition lerp (a b t : R) : R := (1 - t) * a + t * b.
End MathUtils.

Record Color := mkColor { r : R; g : R; b : R }.

(** [setHex] without colour-space conversion: each channel is its byte
    over 255.  Black is (0, 0, 0) and white (1, 1, 1) in any case. *)
Definition setHex (hex : Z) : Color :=
  mkColor (IZR (Z.land (Z.shiftr hex 16) 255) / 255)
          (IZR (Z.land (Z.shiftr hex 8) 255) / 255)
          (IZR (Z.land hex 255) / 255).
Definition lerpColors (c1 c2 : Color) (alpha : R) : Color :=
  mkColor (r c1 + (r c2 - r c1) * alpha)
          (g c1 + (g c2 - g c1) * alpha)
          (b c1 + (b c2 - b c1) * alpha).

(** The fields of [MeshStandardMaterial] the scene writes. *)
Record Material := mkMaterial {
  color : Color;
  emissive : Color;
  emissiveIntensity : R
}.

End THREE.

(** ** [src/App.tsx]: merging the two directional sources *)

Module App.

Record JoystickOutput := mkJoystickOutput {
  x : R;
  y : R;
  active : bool
}.

Definition initialJoystickData : JoystickOutput :=
  mkJoystickOutput 0 0 false.

Definition effectiveJoystickData
    (keyboardMovement joystickData : JoystickOutput) : JoystickOutput :=
  if active keyboardMovement then keyboardMovement
  else if active joystickData then joystickData
  else initialJoystickData.

(** [pressedKeys] is the set of held movement keys. *)
Definition has (pressedKeys : list string) (k : string) : bool :=
  existsb (String.eqb k) pressedKeys.

Definition updateKeyboardMovementState (pressedKeys : list string)
    : JoystickOutput :=
  let x0 := 0 in
  let y0 := 0 in
  let active0 := false in
  let '(y1, active1) :=
    if has pressedKeys "w" then (-1, true) else (y0, active0) in
  let '(y2, active2) :=
    if has pressedKeys "s" then (1, true) else (y1, active1) in
  let '(x3, active3) :=
    if has pressedKeys "a" then (-1, true) else (x0, active2) in
  let '(x4, active4) :=
    if has pressedKeys "d" then (1, true) else (x3, active3) in
  if negb (JS.eqb x4 0) && negb (JS.eqb y2 0) then
    let length := JS.Math_sqrt (x4 * x4 + y2 * y2) in
    mkJoystickOutput (x4 / length) (y2 / length) active4
  else mkJoystickOutput x4 y2 active4.

End App.

(** ** The scene component *)

Module ThreeScene.
Import THREE.

Definition PLAYER_ATTACK_EFFECT_DURATION : R := 0.3.
Definition CHARACTER_BASE_Y : R := (0.8 / 2) + 0.4.
Definition MIN_CAMERA_Y_POSITION : R := 0.5.

Definition ENEMY_MOVE_SPEED : R := 3.2.
Definition ENEMY_ROTATION_SPEED : R := PI * 1.8.
Definition ENEMY_ROAM_TARGET_UPDATE_MIN_INTERVAL : R := 4.
Definition ENEMY_ROAM_TARGET_UPDATE_MAX_INTERVAL : R := 8.
Definition ENEMY_TARGET_REACH_THRESHOLD : R := 0.5.

Definition ENEMY_DETECTION_RANGE_SQR : R := (50 * 0.45) * (50 * 0.45).
Definition ENEMY_ATTACK_RANGE_SQR : R := 2.2 * 2.2.
Definition ENEMY_ATTACK_COOLDOWN : R := 2.5.
Definition ENEMY_ATTACK_EFFECT_DURATION : R := 0.45.
Definition TOWER_AVOIDANCE_RANGE_ENEMY_SQR : R := (50 * 0.20) * (50 * 0.20).
Definition FLEE_DISTANCE_FROM_TOWER : R := 50 * 0.1.

Definition mapRadius : R := 50.

(** *** Math and utility functions *)

(** [shortestAngleDiff] over the reals, as the frame function uses it on
    the rotations of the scene; [Double.shortestAngleDiff] is the function
    on binary64 numbers. *)
Definition shortestAngleDiff (current target : R) : R :=
  let M2PI := PI * 2 in
  let d := JS.rem (target - current) M2PI in
  if d >? PI then d - M2PI
  else if d <? - PI then d + M2PI
  else d.


(** [getRandomRoamTarget]: the body of one iteration of the sampling loop
    is [roamCandidate]; [k] counts the calls of [Math.random] so far. *)
Definition roamBoundary (mapRadius : R) : R := mapRadius * 0.95.

Definition roamCandidate (mapRadius : R) (rnd : JS.Random) (k : nat)
    : Vector3 :=
  let boundary := roamBoundary mapRadius in
  mkVector3 ((rnd k - 0.5) * 2 * boundary) 0
            ((rnd (S k) - 0.5) * 2 * boundary).

Definition roamRejected (mapRadius : R)
    (currentPos blueFountainPos redFountainPos targetPos : Vector3) : bool :=
  let boundary := roamBoundary mapRadius in
  let blueBaseAvoidRadius := mapRadius * 0.3 in
  let redBaseAvoidRadius := mapRadius * 0.2 in
  if lengthSq targetPos >? boundary * boundary then true
  else if (distanceToSquared targetPos blueFountainPos
             <? blueBaseAvoidRadius * blueBaseAvoidRadius)
          && (z currentPos >? 0) then true
  else if distanceToSquared targetPos redFountainPos
            <? redBaseAvoidRadius * redBaseAvoidRadius then true
  else false.

Definition roamFallback (mapRadius : R) (rnd : JS.Random) (k : nat)
    : Vector3 :=
  let boundary := roamBoundary mapRadius in
  mkVector3 ((rnd k - 0.5) * boundary) 0 ((rnd (S k) - 0.5) * boundary).

Fixpoint roamLoop (attempts : nat) (mapRadius : R)
    (currentPos blueFountainPos redFountainPos : Vector3)
    (rnd : JS.Random) (k : nat) : Vector3 * nat :=
  match attempts with
  | O => (roamFallback mapRadius rnd k, (k + 2)%nat)
  | S n =>
      let targetPos := roamCandidate mapRadius rnd k in
      if roamRejected mapRadius currentPos blueFountainPos redFountainPos
           targetPos
      then roamLoop n mapRadius currentPos blueFountainPos redFountainPos
             rnd (k + 2)%nat
      else (targetPos, (k + 2)%nat)
  end.

Definition getRandomRoamTarget (mapRadius : R)
    (currentPos blueFountainPos redFountainPos : Vector3)
    (rnd : JS.Random) (k : nat) : Vector3 * nat :=
  roamLoop 10 mapRadius currentPos blueFountainPos redFountainPos rnd k.

Definition blueFountainPosition : Vector3 :=
  mkVector3 0 0 (- mapRadius * 0.88).
Definition redFountainPosition : Vector3 :=
  mkVector3 0 0 (mapRadius * 0.88).

(** *** The smoke-puff pool *)

Definition NUM_SMOKE_PUFFS : nat := 15.
Definition SMOKE_PUFF_LIFETIME : R := 1.2.
Definition SMOKE_PUFF_START_OPACITY : R := 0.6.
Definition SMOKE_PUFF_START_SCALE : R := 0.2.
Definition SMOKE_PUFF_END_SCALE : R := 1.5.

(** A puff mesh is a heap object; [===] on meshes is equality of their
    identities, here natural numbers.  [PuffMesh] holds the fields of the
    object the scene writes (the billboard orientation copied from the
    camera is a rendering attribute and is left out). *)
Definition MeshId := nat.

Record PuffMesh := mkPuffMesh {
  puff_visible : bool;
  puff_position : Vector3;
  puff_opacity : R;
  puff_scale : R
}.

Record ActiveSmokePuff := mkActiveSmokePuff {
  mesh : MeshId;
  lifetime : R;
  initialLifetime : R;
  velocity : Vector3
}.

Record Smoke := mkSmoke {
  smokeTexture : bool;                       (* [smokeTextureRef.current] is set *)
  smokePuffsPool : list MeshId;
  activeSmokePuffs : list ActiveSmokePuff;
  puffMeshes : MeshId -> PuffMesh            (* the heap of puff meshes *)
}.

Definition writeMesh (h : MeshId -> PuffMesh) (i : MeshId) (m : PuffMesh)
    : MeshId -> PuffMesh :=
  fun j => if Nat.eqb j i then m else h j.

Definition isActive (active : list ActiveSmokePuff) (puffMesh : MeshId)
    : bool :=
  existsb (fun p => Nat.eqb (mesh p) puffMesh) active.

Fixpoint emitLoop (pool : list MeshId) (puffsEmitted : nat)
    (puffsToEmit : R) (position : Vector3) (rnd : JS.Random) (k : nat)
    (active : list ActiveSmokePuff) (meshes : MeshId -> PuffMesh)
    : list ActiveSmokePuff * (MeshId -> PuffMesh) * nat :=
  match pool with
  | [] => (active, meshes, k)
  | puffMesh :: rest =>
      if INR puffsEmitted >=? puffsToEmit then (active, meshes, k)
      else if isActive active puffMesh then
        emitLoop rest puffsEmitted puffsToEmit position rnd k active meshes
      else
        let pos := mkVector3 (x position + (rnd k - 0.5) * 0.5)
                             (y position + 0.2)
                             (z position + (rnd (k + 1)%nat - 0.5) * 0.5) in
        let m := mkPuffMesh true pos SMOKE_PUFF_START_OPACITY
                   SMOKE_PUFF_START_SCALE in
        let velocity := mkVector3 ((rnd (k + 2)%nat - 0.5) * 0.8)
                                  (0.8 + rnd (k + 3)%nat * 0.7)
                                  ((rnd (k + 4)%nat - 0.5) * 0.8) in
        let puff := mkActiveSmokePuff puffMesh
                      (SMOKE_PUFF_LIFETIME * (0.8 + rnd (k + 5)%nat * 0.4))
                      SMOKE_PUFF_LIFETIME velocity in
        emitLoop rest (S puffsEmitted) puffsToEmit position rnd (k + 6)%nat
          (active ++ [puff]) (writeMesh meshes puffMesh m)
  end.

Definition emitSmokePuffs (position : Vector3) (countMultiplier : R)
    (rnd : JS.Random) (k : nat) (s : Smoke) : Smoke * nat :=
  if negb (smokeTexture s) then (s, k)
  else
    let puffsToEmit :=
      JS.Math_floor ((5 + JS.Math_floor (rnd k * 4)) * countMultiplier) in
    let '(active, meshes, k') :=
      emitLoop (smokePuffsPool s) 0 puffsToEmit position rnd (S k)
        (activeSmokePuffs s) (puffMeshes s) in
    (mkSmoke (smokeTexture s) (smokePuffsPool s) active meshes, k').

(** The smoke update of [animate]: the filter over the active puffs. *)
Fixpoint updatePuffs (delta : R) (active : list ActiveSmokePuff)
    (meshes : MeshId -> PuffMesh)
    : list ActiveSmokePuff * (MeshId -> PuffMesh) :=
  match active with
  | [] => ([], meshes)
  | puff :: rest =>
      let lifetime' := lifetime puff - delta in
      if lifetime' <=? 0 then
        let m := meshes (mesh puff) in
        updatePuffs delta rest
          (writeMesh meshes (mesh puff)
             (mkPuffMesh false (puff_position m) (puff_opacity m)
                (puff_scale m)))
      else
        let m := meshes (mesh puff) in
        let t := 1 - lifetime' / initialLifetime puff in
        let m' := mkPuffMesh (puff_visible m)
                    (addScaledVector (puff_position m) (velocity puff) delta)
                    (SMOKE_PUFF_START_OPACITY * (1 - t))
                    (MathUtils.lerp SMOKE_PUFF_START_SCALE
                       SMOKE_PUFF_END_SCALE t) in
        let '(kept, meshes') :=
          updatePuffs delta rest (writeMesh meshes (mesh puff) m') in
        (mkActiveSmokePuff (mesh puff) lifetime' (initialLifetime puff)
           (velocity puff) :: kept, meshes')
  end.

Definition smokeUpdate (delta : R) (s : Smoke) : Smoke :=
  let '(active, meshes) :=
    updatePuffs delta (activeSmokePuffs s) (puffMeshes s) in
  mkSmoke (smokeTexture s) (smokePuffsPool s) active meshes.

(** The pool as the setup effect builds it: [NUM_SMOKE_PUFFS] fresh,
    invisible meshes, none of them active, the texture loaded. *)
Definition initialSmoke : Smoke :=
  mkSmoke true (seq 0 NUM_SMOKE_PUFFS) []
    (fun _ => mkPuffMesh false (mkVector3 0 0 0) 0 1).


(** *** Actors *)

(** The fields of a character mesh the frame function writes. *)
Record Mesh := mkMesh {
  mesh_position : Vector3;
  mesh_rotation_y : R;
  mesh_material : Material
}.

Definition setMaterial (m : Mesh) (mat : Material) : Mesh :=
  mkMesh (mesh_position m) (mesh_rotation_y m) mat.

Record PlayerState := mkPlayerState {
  player_mesh : Mesh;                        (* [meshRef.current] *)
  player_position : Vector3;
  player_rotationY : R;
  player_originalColor : Color
}.

Inductive AiState :=
| ROAMING | CHASING_PLAYER | ATTACKING_PLAYER | FLEEING_TOWER.

Definition AiState_eqb (a b : AiState) : bool :=
  match a, b with
  | ROAMING, ROAMING | CHASING_PLAYER, CHASING_PLAYER
  | ATTACKING_PLAYER, ATTACKING_PLAYER | FLEEING_TOWER, FLEEING_TOWER => true
  | _, _ => false
  end.

Record EnemyState := mkEnemyState {
  enemy_mesh : Mesh;                         (* [meshRef.current] *)
  enemy_position : Vector3;
  enemy_rotationY : R;
  enemy_originalColor : Color;
  currentTarget : Vector3;
  roamTimer : R;
  isMoving : bool;
  walkAnimationTime : R;
  aiState : AiState;
  attackCooldownTimer : R;
  isAttackingVisual : bool;
  attackEffectTimer : R
}.

Inductive Team := blue | red.

Record TowerInfo := mkTowerInfo {
  tower_position : Vector3;
  tower_name : string;
  tower_isBase : bool;
  tower_team : Team
}.

(** The player's side of the component state: the player object and the
    refs that belong to it. *)
Record PlayerRefs := mkPlayerRefs {
  playerState : PlayerState;
  playerWalkAnimationTime : R;
  lastAttackTrigger : R;
  playerAttackEffectActive : bool;
  playerAttackEffectTimer : R
}.

(** The material a finished attack visual writes back. *)
Definition restMaterial (originalColor : Color) : Material :=
  mkMaterial originalColor (setHex 0) 0.

(** *** The attack-trigger effect (player) *)

Definition attackTriggerEffect (attackTrigger : R) (rnd : JS.Random)
    (k : nat) (p : PlayerRefs) (s : Smoke) : PlayerRefs * Smoke * nat :=
  if attackTrigger >? lastAttackTrigger p then
    let player := playerState p in
    let material :=
      mkMaterial
        (lerpColors (player_originalColor player) (setHex 0xffffff) 0.3)
        (player_originalColor player)
        0.7 in
    let player' :=
      mkPlayerState (setMaterial (player_mesh player) material)
        (player_position player) (player_rotationY player)
        (player_originalColor player) in
    let burst := emitSmokePuffs (player_position player) 1 rnd k s in
    (mkPlayerRefs player' (playerWalkAnimationTime p) attackTrigger true 0,
     fst burst, snd burst)
  else (p, s, k).

(** *** Player logic of [animate] *)

Definition outOfArena (position : Vector3) : bool :=
  JS.Math_abs (x position) + JS.Math_abs (z position) >? mapRadius * 0.98.

(** The movement vector and target facing derived from the input and the
    camera heading; [worldDirection] is what [getWorldDirection] returns
    and [up] the camera's up vector. *)
Definition playerSteering (joyInput : App.JoystickOutput)
    (worldDirection up : Vector3) (rotationY : R) : Vector3 * R :=
  let cameraWorldDirection :=
    normalize (mkVector3 (x worldDirection) 0 (z worldDirection)) in
  if App.active joyInput then
    let forwardAmount := - App.y joyInput in
    let strafeAmount := - App.x joyInput in
    let moveForward := multiplyScalar cameraWorldDirection forwardAmount in
    let cameraRight := normalize (crossVectors up cameraWorldDirection) in
    let moveStrafe := multiplyScalar cameraRight strafeAmount in
    let moveVector := add (add (mkVector3 0 0 0) moveForward) moveStrafe in
    if lengthSq moveVector >? 0.01 then
      let moveVector := normalize moveVector in
      (moveVector, JS.Math_atan2 (x moveVector) (z moveVector))
    else (moveVector, rotationY)
  else (mkVector3 0 0 0, rotationY).

Definition playerLogic (delta : R) (joyInput : App.JoystickOutput)
    (worldDirection up : Vector3) (p : PlayerRefs) : PlayerRefs :=
  let player := playerState p in
  let moveSpeed := 4.0 in
  let rotationSpeed := PI * 2 in
  let '(moveVector, targetRotation) :=
    playerSteering joyInput worldDirection up (player_rotationY player) in
  let walk :=
    if App.active joyInput then playerWalkAnimationTime p + delta * 8
    else 0 in
  let rotationY :=
    player_rotationY player
    + shortestAngleDiff (player_rotationY player) targetRotation
      * rotationSpeed * delta in
  let actualMoveSpeed := moveSpeed * delta in
  let prevPlayerPos := player_position player in
  let moved :=
    add (player_position player) (multiplyScalar moveVector actualMoveSpeed) in
  let position := if outOfArena moved then prevPlayerPos else moved in
  let meshPosition :=
    mkVector3 (x position)
      (CHARACTER_BASE_Y
       + (if App.active joyInput then JS.Math_sin walk * 0.08 else 0))
      (z position) in
  let material := mesh_material (player_mesh player) in
  let '(active, timer, material) :=
    if playerAttackEffectActive p then
      let timer := playerAttackEffectTimer p + delta in
      if timer >=? PLAYER_ATTACK_EFFECT_DURATION then
        (false, 0, restMaterial (player_originalColor player))
      else (true, timer, material)
    else (false, playerAttackEffectTimer p, material) in
  mkPlayerRefs
    (mkPlayerState (mkMesh meshPosition rotationY material) position
       rotationY (player_originalColor player))
    walk (lastAttackTrigger p) active timer.


(** *** Enemy logic of [animate] *)

(** Timers count down to zero. *)
Definition enemyTimers (delta : R) (e : EnemyState) : EnemyState :=
  mkEnemyState (enemy_mesh e) (enemy_position e) (enemy_rotationY e)
    (enemy_originalColor e) (currentTarget e)
    (JS.Math_max 0 (roamTimer e - delta))
    (isMoving e) (walkAnimationTime e) (aiState e)
    (JS.Math_max 0 (attackCooldownTimer e - delta))
    (isAttackingVisual e) (attackEffectTimer e).

(** The attack visual: a half-sine pulse, written back to rest at expiry. *)
Definition enemyAttackVisual (delta : R) (e : EnemyState) : EnemyState :=
  if isAttackingVisual e then
    let timer := attackEffectTimer e + delta in
    if timer >=? ENEMY_ATTACK_EFFECT_DURATION then
      mkEnemyState
        (setMaterial (enemy_mesh e) (restMaterial (enemy_originalColor e)))
        (enemy_position e) (enemy_rotationY e) (enemy_originalColor e)
        (currentTarget e) (roamTimer e) (isMoving e) (walkAnimationTime e)
        (aiState e) (attackCooldownTimer e) false 0
    else
      let lerpFactor :=
        JS.Math_sin (timer / ENEMY_ATTACK_EFFECT_DURATION * PI) * 0.7 in
      let material :=
        mkMaterial
          (lerpColors (enemy_originalColor e) (setHex 0xffcc66) lerpFactor)
          (setHex 0xffaa33)
          (lerpFactor * 1.5) in
      mkEnemyState (setMaterial (enemy_mesh e) material)
        (enemy_position e) (enemy_rotationY e) (enemy_originalColor e)
        (currentTarget e) (roamTimer e) (isMoving e) (walkAnimationTime e)
        (aiState e) (attackCooldownTimer e) true timer
  else e.

(** The scan for the nearest hostile tower; [None] stands for the initial
    pair of [Infinity] and [null]. *)
Definition closestTower (towers : list TowerInfo) (enemyPos : Vector3)
    : option (R * Vector3) :=
  fold_left
    (fun acc tower =>
       let distSq := distanceToSquared enemyPos (tower_position tower) in
       match acc with
       | None => Some (distSq, tower_position tower)
       | Some (closest, _) =>
           if distSq <? closest then Some (distSq, tower_position tower)
           else acc
       end)
    towers None.

Definition towerThreat (towers : list TowerInfo) (enemyPos : Vector3)
    : option Vector3 :=
  match closestTower towers enemyPos with
  | Some (closest, threateningTowerPos) =>
      if closest <? TOWER_AVOIDANCE_RANGE_ENEMY_SQR
      then Some threateningTowerPos else None
  | None => None
  end.

(** The locals the priority evaluation computes. *)
Record Decision := mkDecision {
  newAiState : AiState;
  newTarget : Vector3;
  forceNewRoamTarget : bool
}.

Definition startAttack (e : EnemyState) : EnemyState :=
  mkEnemyState (enemy_mesh e) (enemy_position e) (enemy_rotationY e)
    (enemy_originalColor e) (currentTarget e) (roamTimer e) (isMoving e)
    (walkAnimationTime e) (aiState e) ENEMY_ATTACK_COOLDOWN true 0.

Definition enemyDecide (playerPos : Vector3) (towers : list TowerInfo)
    (rnd : JS.Random) (k : nat) (e : EnemyState) (s : Smoke)
    : Decision * EnemyState * Smoke * nat :=
  let enemyPos := enemy_position e in
  let distanceToPlayerSq := distanceToSquared enemyPos playerPos in
  match towerThreat towers enemyPos with
  | Some threateningTowerPos =>
      let directionAwayFromTower :=
        normalize (sub enemyPos threateningTowerPos) in
      (mkDecision FLEEING_TOWER
         (addScaledVector enemyPos directionAwayFromTower
            FLEE_DISTANCE_FROM_TOWER)
         false, e, s, k)
  | None =>
      let '(state1, force1) :=
        if AiState_eqb (aiState e) FLEEING_TOWER then (ROAMING, true)
        else (aiState e, false) in
      if negb (AiState_eqb state1 FLEEING_TOWER)
         && (distanceToPlayerSq <? ENEMY_ATTACK_RANGE_SQR)
         && (attackCooldownTimer e <=? 0)
         && negb (isAttackingVisual e)
      then
        let '(s', k') := emitSmokePuffs enemyPos 0.8 rnd k s in
        (mkDecision ATTACKING_PLAYER playerPos force1, startAttack e, s', k')
      else if negb (AiState_eqb state1 FLEEING_TOWER)
              && negb (AiState_eqb state1 ATTACKING_PLAYER)
              && (distanceToPlayerSq <? ENEMY_DETECTION_RANGE_SQR)
      then (mkDecision CHASING_PLAYER playerPos force1, e, s, k)
      else if negb (AiState_eqb state1 FLEEING_TOWER)
              && negb (AiState_eqb state1 ATTACKING_PLAYER)
      then
        if AiState_eqb state1 CHASING_PLAYER
           && (distanceToPlayerSq >=? ENEMY_DETECTION_RANGE_SQR)
        then (mkDecision ROAMING (currentTarget e) true, e, s, k)
        else if AiState_eqb state1 ROAMING
                && ((roamTimer e <=? 0)
                    || (distanceToSquared enemyPos (currentTarget e)
                          <? ENEMY_TARGET_REACH_THRESHOLD
                             * ENEMY_TARGET_REACH_THRESHOLD))
        then (mkDecision state1 (currentTarget e) true, e, s, k)
        else (mkDecision state1 (currentTarget e) force1, e, s, k)
      else (mkDecision state1 (currentTarget e) force1, e, s, k)
  end.

(** After the evaluation: hold during the visual, or re-evaluate in the
    tick that ended it. *)
Definition enemySettle (playerPos : Vector3) (d : Decision)
    (e : EnemyState) : Decision * EnemyState :=
  let distanceToPlayerSq := distanceToSquared (enemy_position e) playerPos in
  if AiState_eqb (newAiState d) ATTACKING_PLAYER
     && isAttackingVisual e
     && (attackEffectTimer e <? ENEMY_ATTACK_EFFECT_DURATION)
  then
    (d, mkEnemyState (enemy_mesh e) (enemy_position e) (enemy_rotationY e)
          (enemy_originalColor e) (currentTarget e) (roamTimer e) false
          (walkAnimationTime e) (aiState e) (attackCooldownTimer e)
          (isAttackingVisual e) (attackEffectTimer e))
  else if AiState_eqb (newAiState d) ATTACKING_PLAYER
          && negb (isAttackingVisual e)
  then
    if distanceToPlayerSq <? ENEMY_DETECTION_RANGE_SQR
    then (mkDecision CHASING_PLAYER playerPos (forceNewRoamTarget d), e)
    else (mkDecision ROAMING (newTarget d) true, e)
  else (d, e).

(** The state and target are stored; a forced retarget draws a roam
    target and a roam timer. *)
Definition enemyCommit (d : Decision) (rnd : JS.Random) (k : nat)
    (e : EnemyState) : EnemyState * nat :=
  if forceNewRoamTarget d then
    let '(target, k') :=
      getRandomRoamTarget mapRadius (enemy_position e) blueFountainPosition
        redFountainPosition rnd k in
    (mkEnemyState (enemy_mesh e) (enemy_position e) (enemy_rotationY e)
       (enemy_originalColor e) target
       (ENEMY_ROAM_TARGET_UPDATE_MIN_INTERVAL
        + rnd k' * (ENEMY_ROAM_TARGET_UPDATE_MAX_INTERVAL
                    - ENEMY_ROAM_TARGET_UPDATE_MIN_INTERVAL))
       (isMoving e) (walkAnimationTime e) (newAiState d)
       (attackCooldownTimer e) (isAttackingVisual e) (attackEffectTimer e),
     S k')
  else
    (mkEnemyState (enemy_mesh e) (enemy_position e) (enemy_rotationY e)
       (enemy_originalColor e) (newTarget d) (roamTimer e)
       (isMoving e) (walkAnimationTime e) (newAiState d)
       (attackCooldownTimer e) (isAttackingVisual e) (attackEffectTimer e),
     k).

(** Movement and walk animation for the stored state and target. *)
Definition enemyMove (delta : R) (e : EnemyState) : EnemyState :=
  let enemyPos := enemy_position e in
  let m := enemy_mesh e in
  if negb (AiState_eqb (aiState e) ATTACKING_PLAYER)
     || negb (isAttackingVisual e)
  then
    let directionToTarget := subVectors (currentTarget e) enemyPos in
    if lengthSq directionToTarget >? 0.01 then
      let directionToTarget := normalize directionToTarget in
      let targetRotation :=
        JS.Math_atan2 (x directionToTarget) (z directionToTarget) in
      let rotationY :=
        enemy_rotationY e
        + shortestAngleDiff (enemy_rotationY e) targetRotation
          * ENEMY_ROTATION_SPEED * delta in
      let actualMoveSpeed := ENEMY_MOVE_SPEED * delta in
      let prevEnemyPos := enemy_position e in
      let moved :=
        addScaledVector (enemy_position e) directionToTarget
          actualMoveSpeed in
      let position := if outOfArena moved then prevEnemyPos else moved in
      let roam :=
        if outOfArena moved && negb (AiState_eqb (aiState e) FLEEING_TOWER)
        then 0 else roamTimer e in
      let walk := walkAnimationTime e + delta * 7 in
      mkEnemyState
        (mkMesh (mkVector3 (x position)
                   (CHARACTER_BASE_Y + JS.Math_sin walk * 0.07)
                   (z position))
           rotationY (mesh_material m))
        position rotationY (enemy_originalColor e) (currentTarget e) roam
        true walk (aiState e) (attackCooldownTimer e)
        (isAttackingVisual e) (attackEffectTimer e)
    else
      let roam :=
        if AiState_eqb (aiState e) ROAMING
           || AiState_eqb (aiState e) FLEEING_TOWER
        then 0 else roamTimer e in
      mkEnemyState
        (mkMesh (mkVector3 (x enemyPos) CHARACTER_BASE_Y (z enemyPos))
           (mesh_rotation_y m) (mesh_material m))
        enemyPos (enemy_rotationY e) (enemy_originalColor e)
        (currentTarget e) roam false 0 (aiState e) (attackCooldownTimer e)
        (isAttackingVisual e) (attackEffectTimer e)
  else
    mkEnemyState
      (mkMesh (mkVector3 (x enemyPos) CHARACTER_BASE_Y (z enemyPos))
         (mesh_rotation_y m) (mesh_material m))
      enemyPos (enemy_rotationY e) (enemy_originalColor e)
      (currentTarget e) (roamTimer e) false 0 (aiState e)
      (attackCooldownTimer e) (isAttackingVisual e) (attackEffectTimer e).

(** The enemy logic up to the point where state and target are stored. *)
Definition enemyPlan (delta : R) (playerPos : Vector3)
    (towers : list TowerInfo) (rnd : JS.Random) (k : nat)
    (e : EnemyState) (s : Smoke) : EnemyState * Smoke * nat :=
  let e1 := enemyAttackVisual delta (enemyTimers delta e) in
  let '(d, e2, s', k1) := enemyDecide playerPos towers rnd k e1 s in
  let '(d', e3) := enemySettle playerPos d e2 in
  let '(e4, k2) := enemyCommit d' rnd k1 e3 in
  (e4, s', k2).

Definition enemyLogic (delta : R) (playerPos : Vector3)
    (towers : list TowerInfo) (rnd : JS.Random) (k : nat)
    (e : EnemyState) (s : Smoke) : EnemyState * Smoke * nat :=
  let r := enemyPlan delta playerPos towers rnd k e s in
  (enemyMove delta (fst (fst r)), snd (fst r), snd r).


(** *** The orbit camera *)

Record CameraRig := mkCameraRig {
  cameraIsDragging : bool;
  cameraLastPointerPos : R * R;
  cameraPhi : R;
  cameraTheta : R;
  cameraRadius : R;
  cameraTarget : Vector3;
  activeCameraPointerId : option Z;          (* [null] is [None] *)
  cameraPosition : Vector3                   (* [camera.position] *)
}.

Record PointerEvent := mkPointerEvent {
  pointerId : Z;
  clientX : R;
  clientY : R;
  isMouse : bool;                            (* [pointerType === 'mouse'] *)
  button : Z
}.

Definition isActivePointer (c : CameraRig) (event : PointerEvent) : bool :=
  match activeCameraPointerId c with
  | Some id => Z.eqb (pointerId event) id
  | None => false
  end.

Definition MIN_PHI_ABS : R := 0.1.
Definition MAX_PHI_ABS : R := PI - 0.1.

Definition maxPhiForGround (targetYForCamera radius : R) : R :=
  if radius >? 0.001 then
    let cosVal := (MIN_CAMERA_Y_POSITION - targetYForCamera) / radius in
    if (cosVal >=? -1) && (cosVal <=? 1) then
      JS.Math_min MAX_PHI_ABS (JS.Math_acos cosVal)
    else if cosVal >? 1 then JS.Math_min MAX_PHI_ABS (PI / 2)
    else MAX_PHI_ABS
  else MAX_PHI_ABS.

Definition onWindowPointerMoveCallback (event : PointerEvent)
    (c : CameraRig) : CameraRig :=
  if negb (cameraIsDragging c) || negb (isActivePointer c event) then c
  else
    let deltaX := clientX event - fst (cameraLastPointerPos c) in
    let deltaY := clientY event - snd (cameraLastPointerPos c) in
    let newPhi := cameraPhi c - deltaY * 0.005 in
    let maxPhi := maxPhiForGround (y (cameraTarget c)) (cameraRadius c) in
    mkCameraRig (cameraIsDragging c) (clientX event, clientY event)
      (MathUtils.clamp newPhi MIN_PHI_ABS maxPhi)
      (cameraTheta c - deltaX * 0.005)
      (cameraRadius c) (cameraTarget c) (activeCameraPointerId c)
      (cameraPosition c).

Definition onWindowPointerUpOrCancelCallback (event : PointerEvent)
    (c : CameraRig) : CameraRig :=
  if isActivePointer c event then
    mkCameraRig false (cameraLastPointerPos c) (cameraPhi c)
      (cameraTheta c) (cameraRadius c) (cameraTarget c) None
      (cameraPosition c)
  else c.

(** [captured] tells whether [setPointerCapture] succeeded. *)
Definition handleCanvasPointerDown (event : PointerEvent) (captured : bool)
    (c : CameraRig) : CameraRig :=
  if isMouse event && negb (Z.eqb (button event) 0) then c
  else if cameraIsDragging c && negb (isActivePointer c event) then c
  else if captured then
    mkCameraRig true (clientX event, clientY event) (cameraPhi c)
      (cameraTheta c) (cameraRadius c) (cameraTarget c)
      (Some (pointerId event)) (cameraPosition c)
  else
    mkCameraRig false (clientX event, clientY event) (cameraPhi c)
      (cameraTheta c) (cameraRadius c) (cameraTarget c) None
      (cameraPosition c).

(** The camera part of [animate]: follow the player, then place the eye. *)
Definition cameraUpdate (playerPos : Vector3) (c : CameraRig) : CameraRig :=
  let target :=
    mkVector3 (x playerPos) (CHARACTER_BASE_Y + 0.5) (z playerPos) in
  let camX :=
    x target + cameraRadius c * sin (cameraPhi c) * sin (cameraTheta c) in
  let camY := y target + cameraRadius c * cos (cameraPhi c) in
  let camZ :=
    z target + cameraRadius c * sin (cameraPhi c) * cos (cameraTheta c) in
  mkCameraRig (cameraIsDragging c) (cameraLastPointerPos c) (cameraPhi c)
    (cameraTheta c) (cameraRadius c) target (activeCameraPointerId c)
    (mkVector3 camX camY camZ).

(** *** The frame function and the events of the mounted scene

    The model covers the mounted scene: the refs to the player, the enemy,
    the camera and the renderer are set by the setup effect before the
    first frame and cleared only on unmount, so the guards of [animate]
    on them succeed. *)

Record Scene := mkScene {
  playerRefs : PlayerRefs;
  enemyState : EnemyState;
  blueTowers : list TowerInfo;
  cameraRig : CameraRig;
  smoke : Smoke;
  randomCalls : nat
}.

Record FrameInput := mkFrameInput {
  delta : R;                                 (* [clock.getDelta()] *)
  joyInput : App.JoystickOutput;             (* [joystickOutputRef.current] *)
  worldDirection : Vector3                   (* [camera.getWorldDirection] *)
}.

Definition DEFAULT_UP : Vector3 := mkVector3 0 1 0.

Definition animate (rnd : JS.Random) (i : FrameInput) (sc : Scene) : Scene :=
  let p := playerLogic (delta i) (joyInput i) (worldDirection i) DEFAULT_UP
             (playerRefs sc) in
  let playerPos := player_position (playerState p) in
  let r :=
    enemyLogic (delta i) playerPos (blueTowers sc) rnd (randomCalls sc)
      (enemyState sc) (smoke sc) in
  mkScene p (fst (fst r)) (blueTowers sc)
    (cameraUpdate playerPos (cameraRig sc))
    (smokeUpdate (delta i) (snd (fst r))) (snd r).

Inductive Event :=
| Frame (i : FrameInput)
| AttackTrigger (attackTrigger : R)
| PointerDown (event : PointerEvent) (captured : bool)
| PointerMove (event : PointerEvent)
| PointerUpOrCancel (event : PointerEvent).

Definition step (rnd : JS.Random) (sc : Scene) (ev : Event) : Scene :=
  match ev with
  | Frame i => animate rnd i sc
  | AttackTrigger n =>
      let r :=
        attackTriggerEffect n rnd (randomCalls sc) (playerRefs sc)
          (smoke sc) in
      mkScene (fst (fst r)) (enemyState sc) (blueTowers sc) (cameraRig sc)
        (snd (fst r)) (snd r)
  | PointerDown event captured =>
      mkScene (playerRefs sc) (enemyState sc) (blueTowers sc)
        (handleCanvasPointerDown event captured (cameraRig sc))
        (smoke sc) (randomCalls sc)
  | PointerMove event =>
      mkScene (playerRefs sc) (enemyState sc) (blueTowers sc)
        (onWindowPointerMoveCallback event (cameraRig sc))
        (smoke sc) (randomCalls sc)
  | PointerUpOrCancel event =>
      mkScene (playerRefs sc) (enemyState sc) (blueTowers sc)
        (onWindowPointerUpOrCancelCallback event (cameraRig sc))
        (smoke sc) (randomCalls sc)
  end.

Definition run (rnd : JS.Random) (sc : Scene) (evs : list Event) : Scene :=
  fold_left (step rnd) evs sc.

(** *** The scene as the setup effect leaves it *)

Definition blueTeamColor : Color := setHex 0x2563eb.
Definition redTeamColor : Color := setHex 0xdc2626.

(** [createCharacterMesh]: a standard material of the given colour; the
    emissive colour and intensity are the defaults of
    [MeshStandardMaterial], black and 1. *)
Definition createCharacterMesh (color : Color) : Mesh :=
  mkMesh (mkVector3 0 CHARACTER_BASE_Y 0) 0 (mkMaterial color (setHex 0) 1).

Definition towerDefinitions_blue : list TowerInfo :=
  [ mkTowerInfo (mkVector3 0 0 (- mapRadius * 0.85)) "BlueBaseTower" true blue;
    mkTowerInfo (mkVector3 0 0 (- mapRadius * 0.5)) "BlueMidTower" false blue;
    mkTowerInfo (mkVector3 (- mapRadius * 0.45) 0 (- mapRadius * 0.2))
      "BlueLeftTower" false blue;
    mkTowerInfo (mkVector3 (mapRadius * 0.45) 0 (- mapRadius * 0.2))
      "BlueRightTower" false blue ].

(** [k] is the number of calls of [Math.random] made while the scenery
    was built, [attackTrigger] the counter at mount time. *)
Definition setupScene (rnd : JS.Random) (k : nat) (attackTrigger : R)
    : Scene :=
  let playerMesh := createCharacterMesh blueTeamColor in
  let player :=
    mkPlayerState
      (mkMesh (mkVector3 (x blueFountainPosition) CHARACTER_BASE_Y
                 (z blueFountainPosition))
         (mesh_rotation_y playerMesh) (mesh_material playerMesh))
      blueFountainPosition 0 blueTeamColor in
  let enemyMesh := createCharacterMesh redTeamColor in
  let roam :=
    getRandomRoamTarget mapRadius redFountainPosition blueFountainPosition
      redFountainPosition rnd k in
  let initialEnemyTarget := fst roam in
  let k1 := snd roam in
  let enemy :=
    mkEnemyState
      (mkMesh (mkVector3 (x redFountainPosition) CHARACTER_BASE_Y
                 (z redFountainPosition))
         PI (mesh_material enemyMesh))
      redFountainPosition PI redTeamColor initialEnemyTarget
      (ENEMY_ROAM_TARGET_UPDATE_MIN_INTERVAL
       + rnd k1 * (ENEMY_ROAM_TARGET_UPDATE_MAX_INTERVAL
                   - ENEMY_ROAM_TARGET_UPDATE_MIN_INTERVAL))
      false 0 ROAMING 0 false 0 in
  let camera :=
    mkCameraRig false (0, 0) (PI / 3.5) 0 18
      (mkVector3 0 CHARACTER_BASE_Y 0) None (mkVector3 0 0 0) in
  mkScene (mkPlayerRefs player 0 attackTrigger false 0) enemy
    towerDefinitions_blue camera initialSmoke (S k1).

(** The setup effect ends by running the first frame; the scene is
    interactive from then on. *)
Definition mountedScene (rnd : JS.Random) (k : nat) (attackTrigger : R)
    (i : FrameInput) : Scene :=
  animate rnd i (setupScene rnd k attackTrigger).

Inductive reachable (rnd : JS.Random) : Scene -> Prop :=
| reachable_mounted : forall k attackTrigger i,
    reachable rnd (mountedScene rnd k attackTrigger i)
| reachable_step : forall sc ev,
    reachable rnd sc -> reachable rnd (step rnd sc ev).

End ThreeScene.

(** ** [shuffleArray] of the scene file *)

Module Shuffle.

Section Array.

Variable T : Type.

(** [array[i] = v]; within the bounds of the array. *)
Fixpoint assign (i : nat) (v : T) (array : list T) : list T :=
  match array, i with
  | [], _ => []
  | _ :: rest, O => v :: rest
  | a :: rest, S i' => a :: assign i' v rest
  end.

(** The destructuring swap [[array[i], array[j]] = [array[j], array[i]]].
    Both indices are within bounds whenever [Math.random] keeps to its
    range [0, 1); outside the bounds, where JavaScript would store
    [undefined], the model leaves the array as it is. *)
Definition swap (i j : nat) (array : list T) : list T :=
  match nth_error array i, nth_error array j with
  | Some ai, Some aj => assign j ai (assign i aj array)
  | _, _ => array
  end.

(** The loop [for (let i = array.length - 1; i > 0; i--)], entered with
    the current value of [i]. *)
Fixpoint shuffleLoop (i : nat) (array : list T) (rnd : JS.Random) (k : nat)
    : list T * nat :=
  match i with
  | O => (array, k)
  | S i' =>
      let j := Z.to_nat (Zfloor (rnd k * (INR i + 1))) in
      shuffleLoop i' (swap i j array) rnd (S k)
  end.

Definition shuffleArray (array : list T) (rnd : JS.Random) (k : nat)
    : list T * nat :=
  shuffleLoop (List.length array - 1) array rnd k.

End Array.

Arguments assign {T}.
Arguments swap {T}.
Arguments shuffleLoop {T}.
Arguments shuffleArray {T}.

End Shuffle.

(** ** [src/App.tsx]: the movement keys *)

Module AppKeyboard.

(** [toLowerCase] on the ASCII letters, which is all that can turn a key
    name into one of the movement keys. *)
Definition lowerAscii (c : Ascii.ascii) : Ascii.ascii :=
  let n := Ascii.nat_of_ascii c in
  if (65 <=? n)%nat && (n <=? 90)%nat then Ascii.ascii_of_nat (n + 32)
  else c.

Fixpoint toLowerCase (s : string) : string :=
  match s with
  | EmptyString => EmptyString
  | String c rest => String (lowerAscii c) (toLowerCase rest)
  end.

Definition isMovementKey (key : string) : bool :=
  existsb (String.eqb key) ["w"; "a"; "s"; "d"]%string.

(** [pressedKeys] is a [Set]: [add] keeps one copy, [delete] removes it. *)
Definition add (pressedKeys : list string) (key : string) : list string :=
  if App.has pressedKeys key then pressedKeys else pressedKeys ++ [key].

Definition delete (pressedKeys : list string) (key : string) : list string :=
  filter (fun k => negb (String.eqb key k)) pressedKeys.

Record State := mkState {
  pressedKeys : list string;
  keyboardMovement : App.JoystickOutput
}.

Definition initialState : State := mkState [] App.initialJoystickData.

(** [eventKey] is [event.key]. *)
Definition handleMovementKeyDown (eventKey : string) (st : State) : State :=
  let key := toLowerCase eventKey in
  if isMovementKey key then
    if negb (App.has (pressedKeys st) key) then
      let pressed := add (pressedKeys st) key in
      mkState pressed (App.updateKeyboardMovementState pressed)
    else st
  else st.

Definition handleMovementKeyUp (eventKey : string) (st : State) : State :=
  let key := toLowerCase eventKey in
  if isMovementKey key then
    if App.has (pressedKeys st) key then
      let pressed := delete (pressedKeys st) key in
      mkState pressed (App.updateKeyboardMovementState pressed)
    else st
  else st.

Inductive KeyEvent :=
| KeyDown (eventKey : string)
| KeyUp (eventKey : string).

Definition handle (st : State) (ev : KeyEvent) : State :=
  match ev with
  | KeyDown eventKey => handleMovementKeyDown eventKey st
  | KeyUp eventKey => handleMovementKeyUp eventKey st
  end.

Definition run (evs : list KeyEvent) : State := fold_left handle evs initialState.

End AppKeyboard.

(** ** [src/components/Joystick.tsx] *)

Module Joystick.

Record Touch := mkTouch {
  identifier : Z;
  touchClientX : R;
  touchClientY : R
}.

Inductive NativeEvent :=
| MouseEvent (clientX clientY : R)
| TouchEvent (touches changedTouches : list Touch).

(** The part of [getBoundingClientRect()] that is read. *)
Record DOMRect := mkDOMRect { left : R; top : R }.

Record Props := mkProps { size : R; stickSize : R }.

Definition defaultProps : Props := mkProps 120 60.

Definition maxOffset (p : Props) : R := (size p - stickSize p) / 2.

Record State := mkState {
  isDragging : bool;
  knobPosition : R * R;
  activeTouchIdRef : option Z                   (* [null] is [None] *)
}.

Definition initialState : State := mkState false (0, 0) None.

(** The first touch of the list whose identifier is the active one. *)
Fixpoint findTouch (list : list Touch) (active : option Z) : option Touch :=
  match list with
  | [] => None
  | t :: rest =>
      match active with
      | Some id => if Z.eqb (identifier t) id then Some t
                   else findTouch rest active
      | None => findTouch rest active
      end
  end.

(** [baseRect] is [None] when [baseRef.current] is not set.  The result
    pairs the new state with the value passed to [onMove], if any. *)
Definition updateKnobPosition (p : Props) (baseRect : option DOMRect)
    (event : NativeEvent) (isInitialTouch : bool) (st : State)
    : State * option App.JoystickOutput :=
  match baseRect with
  | None => (st, None)
  | Some rect =>
      let client :=
        match event with
        | TouchEvent touches changedTouches =>
            let touchToProcess :=
              if isInitialTouch then
                findTouch changedTouches (activeTouchIdRef st)
              else
                match activeTouchIdRef st with
                | None => None
                | Some _ => findTouch touches (activeTouchIdRef st)
                end in
            match touchToProcess with
            | None => None
            | Some t => Some (touchClientX t, touchClientY t)
            end
        | MouseEvent clientX clientY => Some (clientX, clientY)
        end in
      match client with
      | None => (st, None)
      | Some (clientX, clientY) =>
          let x := clientX - (left rect + size p / 2) in
          let y := clientY - (top rect + size p / 2) in
          let distance := JS.Math_sqrt (x * x + y * y) in
          let x' :=
            if distance >? maxOffset p then x / distance * maxOffset p
            else x in
          let y' :=
            if distance >? maxOffset p then y / distance * maxOffset p
            else y in
          (mkState (isDragging st) (x', y') (activeTouchIdRef st),
           Some (App.mkJoystickOutput (x' / maxOffset p) (y' / maxOffset p)
                   true))
      end
  end.

(** [None] stands for the [TypeError] of reading [changedTouches[0]] of a
    touch event without changed touches. *)
Definition handleInteractionStart (p : Props) (baseRect : option DOMRect)
    (nativeEvent : NativeEvent) (st : State)
    : option (State * option App.JoystickOutput) :=
  match nativeEvent with
  | TouchEvent touches changedTouches =>
      match changedTouches with
      | [] => None
      | first :: _ =>
          Some (updateKnobPosition p baseRect nativeEvent true
                  (mkState true (knobPosition st) (Some (identifier first))))
      end
  | MouseEvent _ _ =>
      Some (updateKnobPosition p baseRect nativeEvent false
              (mkState true (knobPosition st) None))
  end.

Definition handleInteractionMove (p : Props) (baseRect : option DOMRect)
    (event : NativeEvent) (st : State) : State * option App.JoystickOutput :=
  if negb (isDragging st) then (st, None)
  else updateKnobPosition p baseRect event false st.

Definition released : State * option App.JoystickOutput :=
  (mkState false (0, 0) None, Some (App.mkJoystickOutput 0 0 false)).

Definition globalTouchEndHandler (changedTouches : list Touch) (st : State)
    : State * option App.JoystickOutput :=
  if negb (isDragging st) then (st, None)
  else
    match activeTouchIdRef st with
    | None => (st, None)
    | Some _ =>
        match findTouch changedTouches (activeTouchIdRef st) with
        | Some _ => released
        | None => (st, None)
        end
    end.

Definition globalMouseUpHandler (st : State)
    : State * option App.JoystickOutput :=
  if negb (isDragging st) then (st, None) else released.

Inductive Event :=
| InteractionStart (baseRect : option DOMRect) (nativeEvent : NativeEvent)
| InteractionMove (baseRect : option DOMRect) (nativeEvent : NativeEvent)
| TouchEnd (changedTouches : list Touch)
| MouseUp.

Definition handle (p : Props) (st : State) (ev : Event)
    : option (State * option App.JoystickOutput) :=
  match ev with
  | InteractionStart baseRect nativeEvent =>
      handleInteractionStart p baseRect nativeEvent st
  | InteractionMove baseRect nativeEvent =>
      Some (handleInteractionMove p baseRect nativeEvent st)
  | TouchEnd changedTouches => Some (globalTouchEndHandler changedTouches st)
  | MouseUp => Some (globalMouseUpHandler st)
  end.

(** The component over a sequence of events, together with the value the
    parent holds: [joystickData] is the last value passed to [onMove]. *)
Fixpoint run (p : Props) (st : State) (joystickData : App.JoystickOutput)
    (evs : list Event) : option (State * App.JoystickOutput) :=
  match evs with
  | [] => Some (st, joystickData)
  | ev :: rest =>
      match handle p st ev with
      | None => None
      | Some (st', Some output) => run p st' output rest
      | Some (st', None) => run p st' joystickData rest
      end
  end.

End Joystick.

(** ** Histories of the smoke-puff pool

    The pool is touched by [emitSmokePuffs] and by the smoke update of each
    frame only; a history is any sequence of the two. *)

Module SmokeHistory.
Import THREE ThreeScene.

Inductive Op :=
| Emit (position : Vector3) (countMultiplier : R) (rnd : JS.Random)
       (k : nat)
| Tick (delta : R).

Definition apply (s : Smoke) (op : Op) : Smoke :=
  match op with
  | Emit position countMultiplier rnd k =>
      fst (emitSmokePuffs position countMultiplier rnd k s)
  | Tick delta => smokeUpdate delta s
  end.

Definition run (ops : list Op) : Smoke := fold_left apply ops initialSmoke.

Definition activeCount (s : Smoke) : nat :=
  List.length (activeSmokePuffs s).

(** Three bursts of five puffs each fill the pool. *)
Definition origin : Vector3 := mkVector3 0 0 0.
Definition zeros : JS.Random := fun _ => 0.
Definition fillPool : list Op :=
  [Emit origin 1 zeros 0; Emit origin 1 zeros 0; Emit origin 1 zeros 0].

(** The pool meshes a scan of [emitSmokePuffs] finds free. *)
Definition freeMeshes (pool : list MeshId) (active : list ActiveSmokePuff)
    : nat :=
  List.length (filter (fun m => negb (isActive active m)) pool).

(** Histories in which [Math.random] returns numbers of [[0, 1)] and the
    clock never runs backwards. *)
Definition wellFormed (op : Op) : Prop :=
  match op with
  | Emit _ _ rnd _ => JS.in_unit rnd
  | Tick delta => 0 <= delta
  end.

Definition totalTime (deltas : list R) : R := fold_right Rplus 0 deltas.

(** An oracle whose numbers are close to 1: long lifetimes. *)
Definition almostOne : JS.Random := fun _ => 99 / 100.

End SmokeHistory.

(** ** Sample states and inputs used by the examples *)

Module Scenario.
Import THREE ThreeScene.

(** An enemy at rest at [position], heading for [target]. *)
Definition enemyAt (position target : Vector3) (state : AiState)
    : EnemyState :=
  mkEnemyState
    (mkMesh (mkVector3 (x position) CHARACTER_BASE_Y (z position)) PI
       (restMaterial redTeamColor))
    position PI redTeamColor target 5 false 0 state 0 false 0.

(** A player at rest at [position]. *)
Definition playerAt (position : Vector3) : PlayerRefs :=
  mkPlayerRefs
    (mkPlayerState
       (mkMesh (mkVector3 (x position) CHARACTER_BASE_Y (z position)) 0
          (restMaterial blueTeamColor))
       position 0 blueTeamColor)
    0 0 false 0.

(** A rig in the middle of a drag by pointer 1, pressed at (0, 0). *)
Definition draggingRig (phi radius targetY : R) : CameraRig :=
  mkCameraRig true (0, 0) phi 0 radius (mkVector3 0 targetY 0) (Some 1%Z)
    (mkVector3 0 0 0).

Definition pointerAt (clientX clientY : R) : PointerEvent :=
  mkPointerEvent 1 clientX clientY false 0.

Definition idleFrame : FrameInput :=
  mkFrameInput 0 App.initialJoystickData (mkVector3 0 0 (-1)).

(** Pushing the stick forward while the camera looks along +x. *)
Definition joyForward : App.JoystickOutput := App.mkJoystickOutput 0 (-1) true.
Definition lookAlongX : Vector3 := mkVector3 1 0 0.

(** Actors next to the eastern tip of the arena, heading outwards. *)
Definition borderPlayer : PlayerRefs := playerAt (mkVector3 49 0 0).
Definition borderEnemy : EnemyState :=
  enemyAt (mkVector3 48.9 0 0) (mkVector3 49.9 0 0) ROAMING.

(** An enemy south of the blue mid tower, just outside its avoidance
    radius, with the player two units away. *)
Definition skirmishEnemy (state : AiState) : EnemyState :=
  enemyAt (mkVector3 0 0 (-14.9)) (mkVector3 0 0 (-9.9)) state.
Definition skirmishPlayerPos : Vector3 := mkVector3 0 0 (-12.9).

(** A scene with both actors at rest at their fountains. *)
Definition arena : Scene :=
  mkScene (playerAt blueFountainPosition)
    (enemyAt redFountainPosition (mkVector3 0 0 0) ROAMING)
    towerDefinitions_blue
    (mkCameraRig false (0, 0) (PI / 3.5) 0 18
       (mkVector3 0 (CHARACTER_BASE_Y + 0.5) 0) None (mkVector3 0 0 0))
    initialSmoke 0.

(** A scene in which the enemy has just started its attack visual. *)
Definition skirmish : Scene :=
  mkScene (playerAt skirmishPlayerPos)
    (startAttack (skirmishEnemy ROAMING))
    towerDefinitions_blue
    (mkCameraRig false (0, 0) (PI / 3.5) 0 18
       (mkVector3 0 (CHARACTER_BASE_Y + 0.5) 0) None (mkVector3 0 0 0))
    initialSmoke 0.

Definition idleFor (seconds : R) : FrameInput :=
  mkFrameInput seconds App.initialJoystickData (mkVector3 0 0 (-1)).

(** Oracles returning one number for ever. *)
Definition always (r : R) : JS.Random := fun _ => r.

(** The skirmish before the first attack: the enemy roams two units from
    the idle player, outside every tower's avoidance radius. *)
Definition standoff : Scene :=
  mkScene (playerAt skirmishPlayerPos) (skirmishEnemy ROAMING)
    towerDefinitions_blue
    (mkCameraRig false (0, 0) (PI / 3.5) 0 18
       (mkVector3 0 (CHARACTER_BASE_Y + 0.5) 0) None (mkVector3 0 0 0))
    initialSmoke 0.

(** A tenth of a second later the enemy has attacked; half a second after
    that its visual is over and it chases the player. *)
Definition afterFirstAttack : Scene :=
  animate (always (1 / 2)) (idleFor (1 / 10)) standoff.
Definition chasing : Scene :=
  animate (always (1 / 2)) (idleFor (1 / 2)) afterFirstAttack.

End Scenario.

(** ** Histories of the enemy

    The enemy is created without a playing attack visual and is advanced by
    the enemy logic of each frame, against a tower list that never
    changes. *)

Module EnemyHistory.
Import THREE ThreeScene.

Inductive reachable (towers : list TowerInfo) : EnemyState -> Prop :=
| created : forall e,
    isAttackingVisual e = false -> reachable towers e
| advanced : forall e delta playerPos rnd k s,
    reachable towers e ->
    reachable towers
      (fst (fst (enemyLogic delta playerPos towers rnd k e s))).

End EnemyHistory.

(** ** Runs of frames *)

Module Frames.
Import THREE ThreeScene.

(** The scene after the given frames, with no other event in between. *)
Definition after (rnd : JS.Random) (sc : Scene) (frames : list FrameInput)
    : Scene :=
  run rnd sc (map Frame frames).

(** The time the frames take. *)
Definition elapsed (frames : list FrameInput) : R :=
  fold_right (fun i t => delta i + t) 0 frames.

Definition playerMaterial (sc : Scene) : Material :=
  mesh_material (player_mesh (playerState (playerRefs sc))).
Definition enemyMaterial (sc : Scene) : Material :=
  mesh_material (enemy_mesh (enemyState sc)).

End Frames.

(** * Properties *)

Import THREE ThreeScene.

(** ** Comparisons and arithmetic helpers *)

Lemma ltb_true (a b : R) : (a <? b) = true <-> a < b.
Proof. unfold JS.ltb; destruct (Rlt_dec a b); split; intros; try easy. Qed.

Lemma ltb_false (a b : R) : (a <? b) = false <-> b <= a.
Proof.
  unfold JS.ltb; destruct (Rlt_dec a b); split; intros; try easy; lra.
Qed.

Lemma leb_true (a b : R) : (a <=? b) = true <-> a <= b.
Proof. unfold JS.leb; destruct (Rle_dec a b); split; intros; try easy. Qed.

Lemma leb_false (a b : R) : (a <=? b) = false <-> b < a.
Proof.
  unfold JS.leb; destruct (Rle_dec a b); split; intros; try easy; lra.
Qed.

Lemma gtb_true (a b : R) : (a >? b) = true <-> b < a.
Proof. apply ltb_true. Qed.

Lemma gtb_false (a b : R) : (a >? b) = false <-> a <= b.
Proof. apply ltb_false. Qed.

Lemma geb_true (a b : R) : (a >=? b) = true <-> b <= a.
Proof. apply leb_true. Qed.

Lemma geb_false (a b : R) : (a >=? b) = false <-> a < b.
Proof. apply leb_false. Qed.

(** Case analysis on a comparison, leaving the order fact in the context. *)
Ltac cmp a b :=
  let H := fresh "Hcmp" in
  first
    [ destruct (a <? b) eqn:H;
      [ apply ltb_true in H | apply ltb_false in H ] ].

Ltac cmple a b :=
  let H := fresh "Hcmp" in
  destruct (a <=? b) eqn:H;
    [ apply leb_true in H | apply leb_false in H ].

Lemma PI_lower : 7 / 4 <= PI.
Proof. pose proof pi2_int as H. unfold PI. lra. Qed.

Lemma PI_upper : PI <= 4.
Proof. exact PI_4. Qed.

(** The remainder lies strictly within one modulus of zero and differs from
    the dividend by a whole multiple of the modulus. *)
Lemma rem_spec (a m : R) :
  0 < m ->
  - m < JS.rem a m < m /\ exists q : Z, JS.rem a m = a - m * IZR q.
Proof.
  intros Hm. unfold JS.rem, JS.trunc.
  assert (Ha : a = a / m * m) by (field; lra).
  set (u := a / m) in *.
  destruct (Rle_dec 0 u) as [Hu | Hu].
  - pose proof (Zfloor_bound u) as [H1 H2].
    assert (0 <= IZR (Zfloor u)).
    { apply IZR_le. apply Zfloor_lub. simpl. exact Hu. }
    split; [ | eexists; reflexivity ].
    split; nra.
  - pose proof (Zceil_bound u) as [H1 H2].
    split; [ | eexists; reflexivity ].
    split; nra.
Qed.

(** ** The shortest signed angle over the reals *)

(** Over the reals, where nothing rounds or overflows, [shortestAngleDiff]
    returns a value [d] with [-PI <= d <= PI] that differs from
    [target - current] by a whole number of turns, so that [current + d]
    is [target] up to whole turns. *)
Lemma shortestAngleDiff_real_range_and_congruence :
  forall current target : R,
    let d := shortestAngleDiff current target in
    - PI <= d <= PI
    /\ (exists k : Z, d = (target - current) + IZR k * (2 * PI))
    /\ (exists k : Z, current + d = target + IZR k * (2 * PI)).
Proof.
  intros current target d.
  assert (Hpi : 0 < PI * 2) by (pose proof PI_RGT_0; lra).
  destruct (rem_spec (target - current) (PI * 2) Hpi) as [[Hlo Hhi] [q Hq]].
  assert (Hk : - PI <= d <= PI
               /\ exists k : Z, d = (target - current) + IZR k * (2 * PI)).
  { unfold d, shortestAngleDiff. cbv zeta.
    destruct (JS.rem (target - current) (PI * 2) >? PI) eqn:H1.
    - apply gtb_true in H1. split; [ lra | ].
      exists (- q - 1)%Z. rewrite Hq, minus_IZR, opp_IZR. simpl. lra.
    - apply gtb_false in H1.
      destruct (JS.rem (target - current) (PI * 2) <? - PI) eqn:H2.
      + apply ltb_true in H2. split; [ lra | ].
        exists (- q + 1)%Z. rewrite Hq, plus_IZR, opp_IZR. simpl. lra.
      + apply ltb_false in H2. split; [ lra | ].
        exists (- q)%Z. rewrite Hq, opp_IZR. lra. }
  destruct Hk as [Hr [k Hk]].
  split; [ exact Hr | split ].
  - exists k. exact Hk.
  - exists k. rewrite Hk. lra.
Qed.

(** ** C10: the shortest signed angle *)

Section Binary64.
Import Double.

(** *** Powers of two and binary digits *)

Lemma bpow_pos (e : Z) : 0 < bpow e.
Proof. apply powerRZ_lt. lra. Qed.

Lemma bpow_add (a b : Z) : bpow (a + b) = bpow a * bpow b.
Proof. apply powerRZ_add. lra. Qed.

Lemma bpow_Z (k : Z) : (0 <= k)%Z -> bpow k = IZR (2 ^ k).
Proof.
  intros Hk. unfold bpow. destruct k as [ | p | p ].
  - reflexivity.
  - symmetry. apply (Zpower_pos_powerRZ 2 p).
  - lia.
Qed.

Lemma bpow_le (a b : Z) : (a <= b)%Z -> bpow a <= bpow b.
Proof.
  intros H. replace b with (a + (b - a))%Z by lia.
  rewrite bpow_add, (bpow_Z (b - a)) by lia.
  pose proof (bpow_pos a).
  assert (1 <= IZR (2 ^ (b - a))).
  { apply IZR_le.
    assert (0 < 2 ^ (b - a))%Z by (apply Z.pow_pos_nonneg; lia). lia. }
  nra.
Qed.

Lemma bpow_lt (a b : Z) : (a < b)%Z -> bpow a < bpow b.
Proof.
  intros H. replace b with (a + (b - a))%Z by lia.
  rewrite bpow_add, (bpow_Z (b - a)) by lia.
  pose proof (bpow_pos a).
  assert (2 <= IZR (2 ^ (b - a))).
  { apply IZR_le. replace (b - a)%Z with (Z.succ (b - a - 1)) by lia.
    rewrite Z.pow_succ_r by lia.
    assert (0 < 2 ^ (b - a - 1))%Z by (apply Z.pow_pos_nonneg; lia). lia. }
  nra.
Qed.

(** The number of binary digits. *)
Lemma digits2_pos_bounds (p : positive) :
  (2 ^ (Zpos (digits2_pos p) - 1) <= Zpos p < 2 ^ Zpos (digits2_pos p))%Z.
Proof.
  induction p as [ p IH | p IH | ]; cbn [digits2_pos].
  - rewrite Pos2Z.inj_succ.
    replace (Z.succ (Zpos (digits2_pos p)) - 1)%Z
      with (Z.succ (Zpos (digits2_pos p) - 1)) by lia.
    rewrite !Z.pow_succ_r by lia. lia.
  - rewrite Pos2Z.inj_succ.
    replace (Z.succ (Zpos (digits2_pos p)) - 1)%Z
      with (Z.succ (Zpos (digits2_pos p) - 1)) by lia.
    rewrite !Z.pow_succ_r by lia. lia.
  - cbn. lia.
Qed.

Lemma digits2_pos_le (p : positive) (n : Z) :
  (0 <= n)%Z -> (Zpos p < 2 ^ n)%Z -> (Zpos (digits2_pos p) <= n)%Z.
Proof.
  intros Hn Hp. pose proof (digits2_pos_bounds p) as [Hlo _].
  destruct (Z_lt_le_dec n (Zpos (digits2_pos p))) as [Hlt | Hle];
    [ | exact Hle ].
  exfalso.
  assert (2 ^ n <= 2 ^ (Zpos (digits2_pos p) - 1))%Z
    by (apply Z.pow_le_mono_r; lia).
  lia.
Qed.

Lemma shift_digits (m d : positive) :
  digits2_pos (Pos.iter xO m d) = (digits2_pos m + d)%positive.
Proof.
  revert m. induction d as [ | d IH ] using Pos.peano_ind; intros m.
  - cbn. lia.
  - rewrite Pos.iter_succ. cbn [digits2_pos]. rewrite IH. lia.
Qed.

Lemma shift_value (m d : positive) :
  Zpos (Pos.iter xO m d) = (Zpos m * 2 ^ Zpos d)%Z.
Proof.
  change (Pos.iter xO m d) with (shift_pos d m).
  rewrite shift_pos_correct. change (Zpower_pos 2 d) with (2 ^ Zpos d)%Z.
  apply Z.mul_comm.
Qed.

(** *** Numbers in canonical form and exact rounding *)

Lemma fexp_eq (x : Z) :
  fexp Double.prec Double.emax x = Z.max (x - 53) (-1074).
Proof. reflexivity. Qed.

Lemma bounded_inv (m : positive) (e : Z) :
  bounded Double.prec Double.emax m e = true ->
  (Zpos (digits2_pos m) <= 53 /\ -1074 <= e <= 971
   /\ (Zpos (digits2_pos m) = 53 \/ e = -1074))%Z.
Proof.
  unfold bounded, canonical_mantissa. rewrite fexp_eq.
  intros H. apply andb_true_iff in H. destruct H as [H1 H2].
  apply Z.eqb_eq in H1. apply Z.leb_le in H2.
  change (Double.emax - Double.prec)%Z with 971%Z in H2. lia.
Qed.

Lemma bounded_lt (m : positive) (e : Z) :
  bounded Double.prec Double.emax m e = true -> (Zpos m < 2 ^ 53)%Z.
Proof.
  intros H. apply bounded_inv in H. destruct H as (Hd & _).
  pose proof (digits2_pos_bounds m) as [_ Hhi].
  assert (2 ^ Zpos (digits2_pos m) <= 2 ^ 53)%Z
    by (apply Z.pow_le_mono_r; lia).
  lia.
Qed.

(** Rounding a number that is already in canonical form returns it. *)
Lemma binary_round_aux_canonical (s : bool) (m : positive) (e : Z) :
  bounded Double.prec Double.emax m e = true ->
  binary_round_aux Double.prec Double.emax s (Zpos m) e loc_Exact
  = S754_finite s m e.
Proof.
  intros Hb. unfold bounded, canonical_mantissa in Hb.
  apply andb_true_iff in Hb. destruct Hb as [Hc He].
  apply Z.eqb_eq in Hc.
  unfold binary_round_aux, shr_fexp. cbn [Zdigits2 shr_record_of_loc].
  rewrite Hc, Z.sub_diag.
  cbn [shr shr_m loc_of_shr_record round_nearest_even].
  cbn [Zdigits2 shr_record_of_loc]. rewrite Hc, Z.sub_diag.
  cbn [shr shr_m]. rewrite He. reflexivity.
Qed.

(** Rounding a number with at most 53 digits at a representable exponent
    is exact. *)
Lemma binary_round_small (s : bool) (m : positive) (e : Z) :
  (Zpos m < 2 ^ 53)%Z -> (-1074 <= e <= 971)%Z ->
  exists mz ez,
    binary_round Double.prec Double.emax s m e = S754_finite s mz ez
    /\ IZR (Zpos mz) * bpow ez = IZR (Zpos m) * bpow e
    /\ bounded Double.prec Double.emax mz ez = true.
Proof.
  intros Hm He.
  pose proof (digits2_pos_le m 53 ltac:(lia) Hm) as Hd.
  unfold binary_round, shl_align.
  set (t := fexp Double.prec Double.emax (Zpos (digits2_pos m) + e)).
  assert (Ht : t = Z.max (Zpos (digits2_pos m) + e - 53) (-1074))
    by (unfold t; apply fexp_eq).
  destruct (Z.sub t e) as [ | d | d ] eqn:Hsub.
  - assert (Hb : bounded Double.prec Double.emax m e = true).
    { unfold bounded, canonical_mantissa. fold t.
      apply andb_true_iff. split; [ apply Z.eqb_eq | apply Z.leb_le ].
      - lia.
      - change (Double.emax - Double.prec)%Z with 971%Z. lia. }
    exists m, e. rewrite binary_round_aux_canonical by exact Hb.
    repeat split. exact Hb.
  - lia.
  - assert (Hde : Zpos d = (e - t)%Z) by lia.
    assert (Hb : bounded Double.prec Double.emax (Pos.iter xO m d) t = true).
    { unfold bounded, canonical_mantissa. rewrite shift_digits.
      rewrite Pos2Z.inj_add, Hde.
      replace (Zpos (digits2_pos m) + (e - t) + t)%Z
        with (Zpos (digits2_pos m) + e)%Z by lia.
      fold t. apply andb_true_iff.
      split; [ apply Z.eqb_eq; reflexivity | apply Z.leb_le ].
      change (Double.emax - Double.prec)%Z with 971%Z. lia. }
    exists (Pos.iter xO m d), t.
    rewrite binary_round_aux_canonical by exact Hb.
    split; [ reflexivity | split; [ | exact Hb ] ].
    rewrite shift_value, mult_IZR, <- bpow_Z by lia.
    rewrite Rmult_assoc, <- bpow_add. f_equal. f_equal. lia.
Qed.

Lemma B2R_cond_Zopp (s : bool) (m : positive) (e : Z) :
  B2R (S754_finite s m e) = IZR (cond_Zopp s (Zpos m)) * bpow e.
Proof. reflexivity. Qed.

(** Normalising an integer of fewer than 54 bits at a representable
    exponent is exact and yields a valid number. *)
Lemma binary_normalize_small (M e : Z) (szero : bool) :
  (Z.abs M < 2 ^ 53)%Z -> (-1074 <= e <= 971)%Z ->
  let f := binary_normalize Double.prec Double.emax M e szero in
  B2R f = IZR M * bpow e /\ valid f /\ is_finite f = true.
Proof.
  intros HM He. cbv zeta. unfold binary_normalize.
  destruct M as [ | m | m ].
  - cbn. split; [ lra | split; reflexivity ].
  - destruct (binary_round_small false m e ltac:(lia) He)
      as (mz & ez & -> & Hv & Hb).
    split; [ exact Hv | split; [ exact Hb | reflexivity ] ].
  - destruct (binary_round_small true m e ltac:(lia) He)
      as (mz & ez & -> & Hv & Hb).
    split; [ | split; [ exact Hb | reflexivity ] ].
    cbn [B2R cond_Zopp]. change (Z.neg m) with (- Z.pos m)%Z.
    rewrite !opp_IZR. lra.
Qed.

(** *** What every rounded result satisfies *)

(** Fewer than 54 bits, at an exponent that is not below the least one:
    what every result of a rounding satisfies. *)
Definition weaklyBounded (f : spec_float) : Prop :=
  match f with
  | S754_finite _ m e => (Zpos m < 2 ^ 53 /\ -1074 <= e)%Z
  | _ => True
  end.

Lemma valid_weaklyBounded (f : spec_float) : valid f -> weaklyBounded f.
Proof.
  destruct f as [ | | | s m e ]; cbn; auto.
  intros H. split; [ exact (bounded_lt m e H) | ].
  apply bounded_inv in H. lia.
Qed.

Lemma digits_lt (m : positive) :
  (Zpos (digits2_pos m) <= 53)%Z -> (Zpos m < 2 ^ 53)%Z.
Proof.
  intros Hd. pose proof (digits2_pos_bounds m) as [_ Hhi].
  assert (2 ^ Zpos (digits2_pos m) <= 2 ^ 53)%Z
    by (apply Z.pow_le_mono_r; lia).
  lia.
Qed.

Lemma shr_1_digits (r : shr_record) :
  Zdigits2 (shr_m (shr_1 r)) = Z.max (Zdigits2 (shr_m r) - 1) 0.
Proof.
  destruct r as [m r s]. cbn [shr_1 shr_m].
  destruct m as [ | [ p | p | ] | [ p | p | ] ];
    cbn [shr_m Zdigits2 digits2_pos]; rewrite ?Pos2Z.inj_succ; lia.
Qed.

Lemma iter_shr_digits (p : positive) :
  forall r : shr_record,
    Zdigits2 (shr_m (iter_pos shr_1 p r))
    = Z.max (Zdigits2 (shr_m r) - Zpos p) 0.
Proof.
  induction p as [ p IH | p IH | ]; intros r; cbn [iter_pos].
  - rewrite !IH, shr_1_digits. lia.
  - rewrite !IH. lia.
  - apply shr_1_digits.
Qed.

Lemma Zdigits2_nonneg (m : Z) : (0 <= Zdigits2 m)%Z.
Proof. destruct m; cbn; lia. Qed.

Lemma binary_round_aux_weaklyBounded (s : bool) (mx ex : Z) (lx : location) :
  weaklyBounded (binary_round_aux Double.prec Double.emax s mx ex lx).
Proof.
  unfold binary_round_aux.
  destruct (shr_fexp Double.prec Double.emax mx ex lx) as [mrs' e'].
  set (m1 := round_nearest_even (shr_m mrs') (loc_of_shr_record mrs')).
  unfold shr_fexp. rewrite fexp_eq. cbn [shr_record_of_loc].
  destruct (Z.max (Zdigits2 m1 + e' - 53) (-1074) - e')%Z
    as [ | p | p ] eqn:Hn; cbn [shr shr_m].
  - destruct m1 as [ | m | m ] eqn:Hm1; cbn; auto.
    destruct (e' <=? 971)%Z; cbn; auto.
    split; [ apply digits_lt | ]; cbn [Zdigits2] in Hn; lia.
  - pose proof (iter_shr_digits p
                  {| shr_m := m1; shr_r := false; shr_s := false |}) as Hd.
    cbn [shr_m] in Hd.
    destruct (shr_m (iter_pos shr_1 p
                {| shr_m := m1; shr_r := false; shr_s := false |}))
      as [ | m | m ]; cbn; auto.
    destruct (e' + Z.pos p <=? 971)%Z; cbn; auto.
    cbn [Zdigits2] in Hd.
    split; [ apply digits_lt | ]; lia.
  - destruct m1 as [ | m | m ] eqn:Hm1; cbn; auto.
    destruct (e' <=? 971)%Z; cbn; auto.
    split; [ apply digits_lt | ]; cbn [Zdigits2] in Hn; lia.
Qed.

Lemma binary_normalize_weaklyBounded (M e : Z) (szero : bool) :
  weaklyBounded (binary_normalize Double.prec Double.emax M e szero).
Proof.
  unfold binary_normalize, binary_round.
  destruct M as [ | m | m ]; cbn [weaklyBounded]; auto;
    match goal with
    | |- context [shl_align ?a ?b ?c] => destruct (shl_align a b c)
    end; apply binary_round_aux_weaklyBounded.
Qed.

Lemma sub_weaklyBounded (a b : spec_float) :
  valid a -> valid b -> weaklyBounded (Double.sub a b).
Proof.
  intros Ha Hb. apply valid_weaklyBounded in Ha, Hb.
  unfold Double.sub, SFsub.
  destruct a as [ sa | sa | | sa ma ea ], b as [ sb | sb | | sb mb eb ];
    cbn [weaklyBounded] in *; auto;
    try (destruct sa, sb; cbn; auto; fail).
  apply binary_normalize_weaklyBounded.
Qed.

(** *** Comparison and alignment *)

Lemma IZR_pos_gt (m : positive) : 0 < IZR (Zpos m).
Proof. apply IZR_lt. lia. Qed.

(** Among numbers in canonical form the one with the larger exponent is
    the larger. *)
Lemma canonical_exponent_lt (m1 m2 : positive) (e1 e2 : Z) :
  bounded Double.prec Double.emax m1 e1 = true ->
  bounded Double.prec Double.emax m2 e2 = true ->
  (e1 < e2)%Z ->
  IZR (Zpos m1) * bpow e1 < IZR (Zpos m2) * bpow e2.
Proof.
  intros H1 H2 He.
  pose proof (bounded_lt m1 e1 H1) as Hm1.
  apply bounded_inv in H1. apply bounded_inv in H2.
  assert (Hd2 : Zpos (digits2_pos m2) = 53%Z) by lia.
  pose proof (digits2_pos_bounds m2) as [Hlo _]. rewrite Hd2 in Hlo.
  apply Rlt_le_trans with (IZR (2 ^ 53) * bpow e1).
  - apply Rmult_lt_compat_r; [ apply bpow_pos | apply IZR_lt; exact Hm1 ].
  - apply Rle_trans with (IZR (2 ^ (53 - 1)) * bpow e2).
    + rewrite <- !bpow_Z, <- !bpow_add by lia. apply bpow_le. lia.
    + apply Rmult_le_compat_r;
        [ apply Rlt_le, bpow_pos | apply IZR_le; exact Hlo ].
Qed.

Lemma compare_cont_Eq (m1 m2 : positive) :
  Pos.compare_cont Eq m1 m2 = (Zpos m1 ?= Zpos m2)%Z.
Proof. reflexivity. Qed.

Lemma ltb_spec (a b : spec_float) :
  valid a -> valid b -> is_finite a = true -> is_finite b = true ->
  (Double.ltb a b = true <-> B2R a < B2R b).
Proof.
  intros Ha Hb Fa Fb. unfold Double.ltb, SFltb.
  destruct a as [ sa | sa | | sa ma ea ]; try discriminate;
    destruct b as [ sb | sb | | sb mb eb ]; try discriminate;
    cbn [SFcompare B2R].
  - split; [ discriminate | lra ].
  - pose proof (IZR_pos_gt mb). pose proof (bpow_pos eb).
    destruct sb; cbn [cond_Zopp]; rewrite ?opp_IZR;
      (split; [ try discriminate; intros _; nra | try reflexivity; nra ]).
  - pose proof (IZR_pos_gt ma). pose proof (bpow_pos ea).
    destruct sa; cbn [cond_Zopp]; rewrite ?opp_IZR;
      (split; [ try discriminate; intros _; nra | try reflexivity; nra ]).
  - pose proof (IZR_pos_gt ma). pose proof (bpow_pos ea).
    pose proof (IZR_pos_gt mb). pose proof (bpow_pos eb).
    unfold valid in Ha, Hb. cbn [valid_binary] in Ha, Hb.
    destruct sa, sb; cbn [cond_Zopp]; rewrite ?opp_IZR.
    + (* both negative *)
      destruct (Z.compare_spec ea eb) as [Heq | Hlt | Hgt].
      * subst eb. rewrite compare_cont_Eq.
        destruct (Z.compare_spec (Zpos ma) (Zpos mb)) as [E | L | G];
          cbn [CompOpp].
        -- rewrite E. split; [ discriminate | lra ].
        -- apply IZR_lt in L. split; [ discriminate | nra ].
        -- apply IZR_lt in G. split; [ intros _; nra | reflexivity ].
      * pose proof (canonical_exponent_lt ma mb ea eb Ha Hb Hlt).
        split; [ discriminate | lra ].
      * pose proof (canonical_exponent_lt mb ma eb ea Hb Ha Hgt).
        split; [ intros _; lra | reflexivity ].
    + split; [ intros _; nra | reflexivity ].
    + split; [ discriminate | nra ].
    + destruct (Z.compare_spec ea eb) as [Heq | Hlt | Hgt].
      * subst eb. rewrite compare_cont_Eq.
        destruct (Z.compare_spec (Zpos ma) (Zpos mb)) as [E | L | G].
        -- rewrite E. split; [ discriminate | lra ].
        -- apply IZR_lt in L. split; [ intros _; nra | reflexivity ].
        -- apply IZR_lt in G. split; [ discriminate | nra ].
      * pose proof (canonical_exponent_lt ma mb ea eb Ha Hb Hlt).
        split; [ intros _; lra | reflexivity ].
      * pose proof (canonical_exponent_lt mb ma eb ea Hb Ha Hgt).
        split; [ discriminate | lra ].
Qed.

(** Aligning a mantissa at a lower exponent keeps the value. *)
Lemma shl_align_value (m : positive) (e e' : Z) :
  (e' <= e)%Z ->
  Zpos (fst (shl_align m e e')) = (Zpos m * 2 ^ (e - e'))%Z.
Proof.
  intros He. unfold shl_align.
  destruct (e' - e)%Z as [ | d | d ] eqn:Hsub; cbn [fst].
  - replace (e - e')%Z with 0%Z by lia. lia.
  - lia.
  - rewrite shift_value. f_equal. f_equal. lia.
Qed.

Lemma aligned_R (m : positive) (e e' : Z) :
  (e' <= e)%Z ->
  IZR (Zpos m * 2 ^ (e - e')) * bpow e' = IZR (Zpos m) * bpow e.
Proof.
  intros He. rewrite mult_IZR, <- bpow_Z by lia.
  rewrite Rmult_assoc, <- bpow_add. f_equal. f_equal. lia.
Qed.

(** *** Exact sums, differences and remainders *)

Lemma B2R_aligned (s : bool) (m : positive) (e e' : Z) :
  (e' <= e)%Z ->
  IZR (cond_Zopp s (Zpos (fst (shl_align m e e')))) * bpow e'
  = B2R (S754_finite s m e).
Proof.
  intros He. rewrite shl_align_value by exact He. cbn [B2R].
  pose proof (aligned_R m e e' He) as Hal.
  destruct s; cbn [cond_Zopp]; rewrite ?opp_IZR; lra.
Qed.

Lemma small_integer (M e : Z) (bound : R) :
  Rabs (IZR M * bpow e) < bound -> bound <= IZR (2 ^ 53) * bpow e ->
  (Z.abs M < 2 ^ 53)%Z.
Proof.
  intros Hlt Hle. pose proof (bpow_pos e) as He.
  apply lt_IZR. rewrite abs_IZR.
  rewrite Rabs_mult, (Rabs_pos_eq (bpow e)) in Hlt by lra.
  apply Rmult_lt_reg_r with (bpow e); [ exact He | lra ].
Qed.

(** A difference that fits into 53 bits at the smaller exponent is
    computed exactly. *)
Lemma sub_exact (sa sb : bool) (ma mb : positive) (ea eb : Z) :
  (-1074 <= ea)%Z -> (-1074 <= eb)%Z -> (Z.min ea eb <= 971)%Z ->
  let a := S754_finite sa ma ea in
  let b := S754_finite sb mb eb in
  Rabs (B2R a - B2R b) < IZR (2 ^ 53) * bpow (Z.min ea eb) ->
  B2R (Double.sub a b) = B2R a - B2R b
  /\ valid (Double.sub a b) /\ is_finite (Double.sub a b) = true.
Proof.
  intros Ha Hb Hmin a b Hfit. unfold Double.sub, a, b, SFsub.
  set (ez := Z.min ea eb) in *.
  set (M := (cond_Zopp sa (Zpos (fst (shl_align ma ea ez)))
             - cond_Zopp sb (Zpos (fst (shl_align mb eb ez))))%Z).
  assert (HM : IZR M * bpow ez
               = B2R (S754_finite sa ma ea) - B2R (S754_finite sb mb eb)).
  { unfold M. rewrite minus_IZR, Rmult_minus_distr_r.
    rewrite !B2R_aligned by (unfold ez; lia). reflexivity. }
  assert (Hsmall : (Z.abs M < 2 ^ 53)%Z).
  { apply (small_integer M ez (IZR (2 ^ 53) * bpow ez)); [ | lra ].
    rewrite HM. exact Hfit. }
  destruct (binary_normalize_small M ez false Hsmall ltac:(unfold ez; lia))
    as (Hv & Hvalid & Hfin).
  rewrite <- HM. repeat split; assumption.
Qed.

Lemma add_exact (sa sb : bool) (ma mb : positive) (ea eb : Z) :
  (-1074 <= ea)%Z -> (-1074 <= eb)%Z -> (Z.min ea eb <= 971)%Z ->
  let a := S754_finite sa ma ea in
  let b := S754_finite sb mb eb in
  Rabs (B2R a + B2R b) < IZR (2 ^ 53) * bpow (Z.min ea eb) ->
  B2R (Double.add a b) = B2R a + B2R b
  /\ valid (Double.add a b) /\ is_finite (Double.add a b) = true.
Proof.
  intros Ha Hb Hmin a b Hfit. unfold Double.add, a, b, SFadd.
  set (ez := Z.min ea eb) in *.
  set (M := (cond_Zopp sa (Zpos (fst (shl_align ma ea ez)))
             + cond_Zopp sb (Zpos (fst (shl_align mb eb ez))))%Z).
  assert (HM : IZR M * bpow ez
               = B2R (S754_finite sa ma ea) + B2R (S754_finite sb mb eb)).
  { unfold M. rewrite plus_IZR, Rmult_plus_distr_r.
    rewrite !B2R_aligned by (unfold ez; lia). reflexivity. }
  assert (Hsmall : (Z.abs M < 2 ^ 53)%Z).
  { apply (small_integer M ez (IZR (2 ^ 53) * bpow ez)); [ | lra ].
    rewrite HM. exact Hfit. }
  destruct (binary_normalize_small M ez false Hsmall ltac:(unfold ez; lia))
    as (Hv & Hvalid & Hfin).
  rewrite <- HM. repeat split; assumption.
Qed.

(** The remainder of a finite number by a positive finite one. *)
Lemma double_rem_spec (sn : bool) (mn md : positive) (en ed : Z) :
  (Zpos mn < 2 ^ 53)%Z -> (-1074 <= en)%Z ->
  bounded Double.prec Double.emax md ed = true ->
  let n := S754_finite sn mn en in
  let d := S754_finite false md ed in
  let r := Double.rem n d in
  valid r /\ is_finite r = true
  /\ Rabs (B2R r) < B2R d
  /\ exists k : Z, B2R r = B2R n + IZR k * B2R d.
Proof.
  intros Hmn Hen Hd n d r. subst r n d. unfold Double.rem.
  pose proof (bounded_lt md ed Hd) as Hmd.
  apply bounded_inv in Hd.
  set (e := Z.min en ed).
  set (N := (Zpos mn * 2 ^ (en - e))%Z).
  set (D := (Zpos md * 2 ^ (ed - e))%Z).
  assert (HNpos : (0 < N)%Z).
  { unfold N. apply Z.mul_pos_pos; [ lia | ].
    apply Z.pow_pos_nonneg; unfold e; lia. }
  assert (HDpos : (0 < D)%Z).
  { unfold D. apply Z.mul_pos_pos; [ lia | ].
    apply Z.pow_pos_nonneg; unfold e; lia. }
  pose proof (Z.rem_bound_pos N D ltac:(lia) HDpos) as [Hr0 HrD].
  pose proof (Z.rem_le N D ltac:(lia) HDpos) as HrN.
  pose proof (Z.quot_rem' N D) as Hqr.
  set (q := Z.quot N D) in *. set (rr := Z.rem N D) in *.
  assert (HNR : IZR N * bpow e = IZR (Zpos mn) * bpow en)
    by (unfold N; apply aligned_R; unfold e; lia).
  assert (HDR : IZR D * bpow e = IZR (Zpos md) * bpow ed)
    by (unfold D; apply aligned_R; unfold e; lia).
  assert (Hsmall : (Z.abs (cond_Zopp sn rr) < 2 ^ 53)%Z).
  { assert (rr < 2 ^ 53)%Z.
    { destruct (Z.min_spec en ed) as [[_ He] | [_ He]]; fold e in He.
      - assert (N = Zpos mn)
          by (unfold N; rewrite He, Z.sub_diag; cbn; lia).
        lia.
      - assert (D = Zpos md)
          by (unfold D; rewrite He, Z.sub_diag; cbn; lia).
        lia. }
    destruct sn; cbn [cond_Zopp]; lia. }
  destruct (binary_normalize_small (cond_Zopp sn rr) e sn Hsmall
              ltac:(unfold e; lia)) as (Hv & Hvalid & Hfin).
  pose proof (bpow_pos e) as Hbe.
  split; [ exact Hvalid | split; [ exact Hfin | split ] ].
  - rewrite Hv. cbn [B2R cond_Zopp]. rewrite <- HDR.
    rewrite Rabs_mult, (Rabs_pos_eq (bpow e)) by lra.
    apply Rmult_lt_compat_r; [ exact Hbe | ].
    rewrite <- abs_IZR. apply IZR_lt. destruct sn; cbn [cond_Zopp]; lia.
  - exists (cond_Zopp sn (- q))%Z. rewrite Hv. cbn [B2R].
    change (cond_Zopp false (Zpos md)) with (Zpos md).
    rewrite <- HDR.
    assert (Hrr : IZR rr = IZR N - IZR D * IZR q).
    { rewrite <- mult_IZR, <- minus_IZR. f_equal. lia. }
    destruct sn; cbn [cond_Zopp]; rewrite ?opp_IZR, ?Z.opp_involutive, Hrr;
      nra.
Qed.

(** *** The constants [Math.PI] and [Math.PI * 2] *)

Lemma M2PI_eq : M2PI = S754_finite false 7074237752028440 (-50).
Proof. reflexivity. Qed.

Lemma PI_bounded :
  bounded Double.prec Double.emax 7074237752028440 (-51) = true.
Proof. reflexivity. Qed.

Lemma M2PI_bounded :
  bounded Double.prec Double.emax 7074237752028440 (-50) = true.
Proof. reflexivity. Qed.

Lemma bpow_m50 : bpow (-50) = 2 * bpow (-51).
Proof.
  change (-50)%Z with (1 + -51)%Z. rewrite bpow_add. f_equal.
  exact (powerRZ_1 2).
Qed.

Lemma B2R_PI : B2R Double.Math_PI = 7074237752028440 * bpow (-51).
Proof. reflexivity. Qed.

Lemma B2R_M2PI : B2R M2PI = 2 * B2R Double.Math_PI.
Proof.
  rewrite M2PI_eq. cbn [B2R Double.Math_PI cond_Zopp]. rewrite bpow_m50.
  lra.
Qed.

(** A number beyond [Math.PI] in magnitude has an exponent of at least
    -51. *)
Lemma large_exponent (s : bool) (m : positive) (e : Z) :
  (Zpos m < 2 ^ 53)%Z ->
  B2R Double.Math_PI < Rabs (B2R (S754_finite s m e)) ->
  (-51 <= e)%Z.
Proof.
  intros Hm Hgt. destruct (Z_lt_le_dec e (-51)) as [Hlt | Hle];
    [ exfalso | exact Hle ].
  rewrite B2R_PI in Hgt. cbn [B2R] in Hgt.
  pose proof (bpow_pos (-51)) as Hu. pose proof (bpow_pos e) as He.
  assert (Hle : bpow e <= bpow (-52)) by (apply bpow_le; lia).
  assert (Hhalf : bpow (-51) = 2 * bpow (-52)).
  { change (-51)%Z with (1 + -52)%Z. rewrite bpow_add. f_equal.
    exact (powerRZ_1 2). }
  assert (Hm' : IZR (Zpos m) < 9007199254740992)
    by (apply IZR_lt; exact Hm).
  pose proof (IZR_pos_gt m) as Hmpos.
  rewrite Rabs_mult, (Rabs_pos_eq (bpow e)) in Hgt by lra.
  assert (Habs : Rabs (IZR (cond_Zopp s (Zpos m))) = IZR (Zpos m)).
  { destruct s; cbn [cond_Zopp]; rewrite ?opp_IZR, ?Rabs_Ropp;
      apply Rabs_pos_eq; lra. }
  rewrite Habs in Hgt. nra.
Qed.

(** *** The function on doubles *)

(** While the computed difference is finite the result is a finite double
    within [Math.PI] of zero, a whole number of turns of [Math.PI * 2]
    away from the computed difference: the remainder and the correction
    by one turn are exact.  Otherwise the result is [NaN]. *)
Lemma shortestAngleDiff_double :
  forall current target : spec_float,
    valid current -> valid target ->
    let s := Double.sub target current in
    let d := Double.shortestAngleDiff current target in
    (is_finite s = true ->
     valid d /\ is_finite d = true
     /\ - B2R Double.Math_PI <= B2R d <= B2R Double.Math_PI
     /\ exists k : Z, B2R d = B2R s + IZR k * B2R M2PI)
    /\ (is_finite s = false -> d = S754_nan).
Proof.
  intros current target Hc Ht s d.
  pose proof (sub_weaklyBounded target current Ht Hc) as Hwb. fold s in Hwb.
  assert (HPIpos : 0 < B2R Double.Math_PI).
  { rewrite B2R_PI. pose proof (bpow_pos (-51)). nra. }
  unfold d, Double.shortestAngleDiff. fold M2PI. fold s. rewrite M2PI_eq.
  destruct s as [ sz | si | | ss ms es ]; cbn [weaklyBounded] in Hwb.
  - (* the difference is a zero *)
    split; [ intros _ | discriminate ].
    cbn [Double.rem Double.gtb Double.ltb SFltb SFcompare Double.neg SFopp
         Double.Math_PI negb].
    split; [ reflexivity | split; [ reflexivity | ] ].
    cbn [B2R]. split; [ lra | ]. exists 0%Z. lra.
  - split; [ discriminate | reflexivity ].
  - split; [ discriminate | reflexivity ].
  - split; [ intros _ | discriminate ].
    destruct Hwb as [Hms Hes].
    destruct (double_rem_spec ss ms 7074237752028440 es (-50) Hms Hes
                M2PI_bounded)
      as (Hrv & Hrf & Hrabs & k & Hk).
    cbv zeta in Hrv, Hrf, Hrabs, Hk.
    set (r := Double.rem (S754_finite ss ms es)
                (S754_finite false 7074237752028440 (-50))) in *.
    assert (HM : B2R (S754_finite false 7074237752028440 (-50))
                 = 2 * B2R Double.Math_PI)
      by (rewrite <- M2PI_eq; apply B2R_M2PI).
    rewrite <- M2PI_eq in Hk. rewrite HM in Hrabs.
    assert (Hnegv : valid (Double.neg Double.Math_PI)) by reflexivity.
    assert (Hneg : B2R (Double.neg Double.Math_PI) = - B2R Double.Math_PI).
    { cbn [Double.neg Double.Math_PI SFopp B2R negb cond_Zopp].
      rewrite opp_IZR. lra. }
    pose proof (ltb_spec Double.Math_PI r PI_bounded Hrv eq_refl Hrf) as Hgt.
    pose proof (ltb_spec r (Double.neg Double.Math_PI) Hrv Hnegv Hrf eq_refl)
      as Hlt.
    rewrite Hneg in Hlt.
    assert (Hbpow : IZR (2 ^ 53) * bpow (-51)
                    = 4 * (2251799813685248 * bpow (-51))).
    { replace (IZR (2 ^ 53)) with (4 * 2251799813685248) by
        (change (2 ^ 53)%Z with 9007199254740992%Z; lra). ring. }
    unfold Double.gtb.
    change (SFltb Double.Math_PI r) with (Double.ltb Double.Math_PI r).
    destruct (Double.ltb Double.Math_PI r) eqn:Hc1.
    + (* above Math.PI: one turn is subtracted *)
      assert (Hbig : B2R Double.Math_PI < B2R r) by (apply Hgt; reflexivity).
      destruct r as [ sr | sr | | sr mr er ] eqn:Hr;
        [ cbn [B2R] in Hbig; lra | discriminate Hrf | discriminate Hrf | ].
      pose proof (bounded_lt mr er Hrv) as Hmr.
      pose proof (bounded_inv mr er Hrv) as (_ & Her & _).
      assert (Her51 : (-51 <= er)%Z).
      { apply (large_exponent sr mr er Hmr).
        rewrite Rabs_pos_eq by lra. exact Hbig. }
      assert (Hrlt : B2R (S754_finite sr mr er) < 2 * B2R Double.Math_PI).
      { apply Rle_lt_trans with (Rabs (B2R (S754_finite sr mr er)));
          [ apply Rle_abs | exact Hrabs ]. }
      destruct (sub_exact sr false mr 7074237752028440 er (-50)
                  ltac:(lia) ltac:(lia) ltac:(lia)) as (Hv & Hvalid & Hfin).
      { cbv zeta. rewrite HM.
        apply Rlt_le_trans with (B2R Double.Math_PI).
        - apply Rabs_def1; lra.
        - rewrite B2R_PI.
          apply Rle_trans with (IZR (2 ^ 53) * bpow (-51)).
          + pose proof (bpow_pos (-51)).
            change (2 ^ 53)%Z with 9007199254740992%Z. nra.
          + apply Rmult_le_compat_l; [ apply IZR_le; lia | ].
            apply bpow_le. lia. }
      cbv zeta in Hv, Hvalid, Hfin.
      split; [ exact Hvalid | split; [ exact Hfin | ] ].
      rewrite Hv, HM. split; [ lra | ].
      exists (k - 1)%Z. rewrite Hk, minus_IZR, B2R_M2PI. lra.
    + assert (Hnbig : B2R r <= B2R Double.Math_PI).
      { apply Rnot_lt_le. intros H. apply Hgt in H. congruence. }
      destruct (Double.ltb r (Double.neg Double.Math_PI)) eqn:Hc2.
      * (* below -Math.PI: one turn is added *)
        assert (Hsmall : B2R r < - B2R Double.Math_PI)
          by (apply Hlt; reflexivity).
        destruct r as [ sr | sr | | sr mr er ] eqn:Hr;
          [ cbn [B2R] in Hsmall; lra | discriminate Hrf | discriminate Hrf
          | ].
        pose proof (bounded_lt mr er Hrv) as Hmr.
        pose proof (bounded_inv mr er Hrv) as (_ & Her & _).
        assert (Her51 : (-51 <= er)%Z).
        { apply (large_exponent sr mr er Hmr).
          rewrite Rabs_left by lra. lra. }
        assert (Hrgt : - (2 * B2R Double.Math_PI)
                       < B2R (S754_finite sr mr er)).
        { apply Rabs_def2 in Hrabs. lra. }
        destruct (add_exact sr false mr 7074237752028440 er (-50)
                    ltac:(lia) ltac:(lia) ltac:(lia)) as (Hv & Hvalid & Hfin).
        { cbv zeta. rewrite HM.
          apply Rlt_le_trans with (B2R Double.Math_PI).
          - apply Rabs_def1; lra.
          - rewrite B2R_PI.
            apply Rle_trans with (IZR (2 ^ 53) * bpow (-51)).
            + pose proof (bpow_pos (-51)).
              change (2 ^ 53)%Z with 9007199254740992%Z. nra.
            + apply Rmult_le_compat_l; [ apply IZR_le; lia | ].
              apply bpow_le. lia. }
        cbv zeta in Hv, Hvalid, Hfin.
        split; [ exact Hvalid | split; [ exact Hfin | ] ].
        rewrite Hv, HM. split; [ lra | ].
        exists (k + 1)%Z. rewrite Hk, plus_IZR, B2R_M2PI. lra.
      * assert (Hnsmall : - B2R Double.Math_PI <= B2R r).
        { apply Rnot_lt_le. intros H. apply Hlt in H. congruence. }
        split; [ exact Hrv | split; [ exact Hrf | ] ].
        split; [ lra | ]. exists k. exact Hk.
Qed.

(** *** The remainder of the real-number model *)

(** Truncation of a quotient of integers is the truncating division. *)
Lemma Zfloor_div (N D : Z) :
  (0 <= N)%Z -> (0 < D)%Z -> Zfloor (IZR N / IZR D) = Z.quot N D.
Proof.
  intros HN HD. apply Zfloor_eq.
  pose proof (Z.quot_rem' N D) as Hqr.
  pose proof (Z.rem_bound_pos N D HN HD) as [Hr0 HrD].
  assert (HDR : 0 < IZR D) by (apply IZR_lt; exact HD).
  assert (HNR : IZR N = IZR D * IZR (Z.quot N D) + IZR (Z.rem N D)).
  { rewrite <- mult_IZR, <- plus_IZR. f_equal. exact Hqr. }
  assert (H0 : 0 <= IZR (Z.rem N D)) by (apply IZR_le; exact Hr0).
  assert (H1 : IZR (Z.rem N D) < IZR D) by (apply IZR_lt; exact HrD).
  replace (IZR N / IZR D)
    with (IZR (Z.quot N D) + IZR (Z.rem N D) / IZR D)
    by (rewrite HNR; field; lra).
  assert (0 <= IZR (Z.rem N D) / IZR D < 1).
  { split.
    - apply Rmult_le_pos; [ exact H0 | ].
      apply Rlt_le, Rinv_0_lt_compat, HDR.
    - apply Rmult_lt_reg_r with (IZR D); [ exact HDR | ].
      unfold Rdiv. rewrite Rmult_assoc, Rinv_l by lra. lra. }
  lra.
Qed.

Lemma trunc_quot (s : bool) (N D : Z) :
  (0 < N)%Z -> (0 < D)%Z ->
  JS.trunc (IZR (cond_Zopp s N) / IZR D) = cond_Zopp s (Z.quot N D).
Proof.
  intros HN HD. unfold JS.trunc.
  assert (HDR : 0 < IZR D) by (apply IZR_lt; exact HD).
  assert (HNR : 0 < IZR N) by (apply IZR_lt; exact HN).
  assert (Hpos : 0 < IZR N / IZR D)
    by (apply Rmult_lt_0_compat; [ | apply Rinv_0_lt_compat ]; assumption).
  destruct s; cbn [cond_Zopp].
  - rewrite opp_IZR.
    replace (- IZR N / IZR D) with (- (IZR N / IZR D)) by (field; lra).
    destruct (Rle_dec 0 (- (IZR N / IZR D))) as [H | H]; [ lra | ].
    rewrite ZceilN. f_equal. apply Zfloor_div; lia.
  - destruct (Rle_dec 0 (IZR N / IZR D)) as [H | H]; [ | lra ].
    apply Zfloor_div; lia.
Qed.

(** On finite doubles the remainder of the real-number model is the
    remainder the double operator computes: [%] does not round. *)
Lemma double_rem_is_JS_rem (sn : bool) (mn md : positive) (en ed : Z) :
  (Zpos mn < 2 ^ 53)%Z -> (-1074 <= en)%Z ->
  bounded Double.prec Double.emax md ed = true ->
  let n := S754_finite sn mn en in
  let d := S754_finite false md ed in
  B2R (Double.rem n d) = JS.rem (B2R n) (B2R d).
Proof.
  intros Hmn Hen Hd n d. subst n d. unfold Double.rem.
  pose proof (bounded_lt md ed Hd) as Hmd.
  apply bounded_inv in Hd.
  set (e := Z.min en ed).
  set (N := (Zpos mn * 2 ^ (en - e))%Z).
  set (D := (Zpos md * 2 ^ (ed - e))%Z).
  assert (HNpos : (0 < N)%Z).
  { unfold N. apply Z.mul_pos_pos; [ lia | ].
    apply Z.pow_pos_nonneg; unfold e; lia. }
  assert (HDpos : (0 < D)%Z).
  { unfold D. apply Z.mul_pos_pos; [ lia | ].
    apply Z.pow_pos_nonneg; unfold e; lia. }
  pose proof (Z.rem_bound_pos N D ltac:(lia) HDpos) as [Hr0 HrD].
  pose proof (Z.rem_le N D ltac:(lia) HDpos) as HrN.
  pose proof (Z.quot_rem' N D) as Hqr.
  assert (HNR : IZR N * bpow e = IZR (Zpos mn) * bpow en)
    by (unfold N; apply aligned_R; unfold e; lia).
  assert (HDR : IZR D * bpow e = IZR (Zpos md) * bpow ed)
    by (unfold D; apply aligned_R; unfold e; lia).
  assert (Hsmall : (Z.abs (cond_Zopp sn (Z.rem N D)) < 2 ^ 53)%Z).
  { assert (Z.rem N D < 2 ^ 53)%Z.
    { destruct (Z.min_spec en ed) as [[_ He] | [_ He]]; fold e in He.
      - assert (N = Zpos mn)
          by (unfold N; rewrite He, Z.sub_diag; cbn; lia).
        lia.
      - assert (D = Zpos md)
          by (unfold D; rewrite He, Z.sub_diag; cbn; lia).
        lia. }
    destruct sn; cbn [cond_Zopp]; lia. }
  destruct (binary_normalize_small (cond_Zopp sn (Z.rem N D)) e sn Hsmall
              ltac:(unfold e; lia)) as (Hv & _ & _).
  rewrite Hv. cbn [B2R]. change (cond_Zopp false (Zpos md)) with (Zpos md).
  pose proof (bpow_pos e) as Hbe.
  assert (Hn : IZR (cond_Zopp sn (Zpos mn)) * bpow en
               = IZR (cond_Zopp sn N) * bpow e).
  { destruct sn; cbn [cond_Zopp]; rewrite ?opp_IZR; lra. }
  rewrite Hn, <- HDR. unfold JS.rem.
  assert (HDR0 : 0 < IZR D) by (apply IZR_lt; exact HDpos).
  replace (IZR (cond_Zopp sn N) * bpow e / (IZR D * bpow e))
    with (IZR (cond_Zopp sn N) / IZR D) by (field; lra).
  rewrite trunc_quot by assumption.
  assert (Hrr : IZR (Z.rem N D) = IZR N - IZR D * IZR (Z.quot N D)).
  { rewrite <- mult_IZR, <- minus_IZR. f_equal. lia. }
  destruct sn; cbn [cond_Zopp]; rewrite ?opp_IZR, Hrr; ring.
Qed.

(** *** [Math.PI] against [PI] *)

(** [PI] to twenty-four decimal places. *)
Lemma PI_24_digits :
  3141592653589793238462643 / 1000000000000000000000000 < PI
  < 3141592653589793238462644 / 1000000000000000000000000.
Proof.
  pose proof (PI_2_3_7_ineq 12) as [Hlo Hhi].
  split.
  - apply Rlt_le_trans with (4 * sum_f_R0 (tg_alt PI_2_3_7_tg) (S (2 * 12)));
      [ | lra ].
    clear Hlo Hhi.
    unfold PI_2_3_7_tg, tg_alt, Ratan_seq.
    cbn [sum_f_R0 Nat.mul Nat.add].
    simpl INR. simpl pow.
    lra.
  - apply Rle_lt_trans with (4 * sum_f_R0 (tg_alt PI_2_3_7_tg) (2 * 12));
      [ lra | ].
    clear Hlo Hhi.
    unfold PI_2_3_7_tg, tg_alt, Ratan_seq.
    cbn [sum_f_R0 Nat.mul Nat.add].
    simpl INR. simpl pow.
    lra.
Qed.

Lemma bpow_m51 : bpow (-51) = / 2251799813685248.
Proof.
  unfold bpow. change (-51)%Z with (- (51))%Z. rewrite powerRZ_neg'.
  f_equal. change 51%Z with (Z.of_nat 51). rewrite <- pow_powerRZ.
  simpl. lra.
Qed.

Lemma bpow_m52 : bpow (-52) = / 4503599627370496.
Proof.
  unfold bpow. change (-52)%Z with (- (52))%Z. rewrite powerRZ_neg'.
  f_equal. change 52%Z with (Z.of_nat 52). rewrite <- pow_powerRZ.
  simpl. lra.
Qed.

(** [Math.PI] is the number [PI] rounded down to a double: [PI] lies
    strictly between [Math.PI] and the next double. *)
Lemma Math_PI_below_PI :
  B2R Double.Math_PI < PI < B2R Double.Math_PI + bpow (-51).
Proof.
  rewrite B2R_PI, bpow_m51. pose proof PI_24_digits. lra.
Qed.

(** *** Large angles *)

Lemma B2R_ten_to_22 : B2R Double.ten_to_22 = 10000000000000000000000.
Proof.
  cbn [B2R Double.ten_to_22 cond_Zopp]. rewrite bpow_Z by lia.
  change (2 ^ 21)%Z with 2097152%Z. lra.
Qed.

(** At [current = 0], [target = 1e22] the subtraction is exact, and the
    result, about 1.0634, is a whole number of turns of [Math.PI * 2] away
    from [1e22] but no whole number of turns of [2 * PI]: each of the
    1.59e21 turns removed is short of a full turn by some 2.4e-16. *)
Lemma shortestAngleDiff_loses_the_residue_of_1e22 :
  let difference := Double.sub Double.ten_to_22 Double.zero in
  let d := Double.shortestAngleDiff Double.zero Double.ten_to_22 in
  difference = Double.ten_to_22
  /\ d = S754_finite false 4789271131515200 (-52)
  /\ 1.0634 < B2R d < 1.0635
  /\ B2R d = B2R difference
             + IZR (-1591549430918953419730) * (2 * B2R Double.Math_PI)
  /\ forall k : Z, B2R d <> B2R difference + IZR k * (2 * PI).
Proof.
  intros difference d.
  assert (Hs : difference = Double.ten_to_22) by (vm_compute; reflexivity).
  assert (Hd : d = S754_finite false 4789271131515200 (-52))
    by (vm_compute; reflexivity).
  assert (Hv : B2R d = 4789271131515200 / 4503599627370496).
  { rewrite Hd. cbn [B2R cond_Zopp]. rewrite bpow_m52. lra. }
  split; [ exact Hs | split; [ exact Hd | ] ].
  rewrite Hs, B2R_ten_to_22, Hv.
  split; [ lra | split ].
  - rewrite B2R_PI, bpow_m51. lra.
  - intros k Hk. pose proof PI_24_digits as [Hlo Hhi].
    destruct (Z_lt_le_dec k (-1591549430918953357688)) as [Hlt | Hge].
    + destruct (Z_lt_le_dec (-1591549430918953357689) k) as [Hgt | Hle];
        [ lia | ].
      apply IZR_le in Hle.
      assert (0 <= (-1591549430918953357689 - IZR k) * PI)
        by (apply Rmult_le_pos; lra).
      lra.
    + apply IZR_le in Hge.
      assert (0 <= (IZR k - -1591549430918953357688) * PI)
        by (apply Rmult_le_pos; lra).
      lra.
Qed.

(** *** Range and congruence on doubles *)

(** C10. For all numbers [current] and [target], finite or not, let
    [difference] be the computed [target - current].  While [difference]
    is finite, [shortestAngleDiff(current, target)] is a finite number [d]
    with [-Math.PI <= d <= Math.PI], hence strictly between [-PI] and
    [PI], that differs from [difference] by a whole multiple of
    [Math.PI * 2].  When [difference] is not finite, because the
    subtraction overflowed or an argument was not finite, the result is
    [NaN]. *)
Theorem C10_shortestAngleDiff_on_doubles :
  forall current target : Double.number,
    valid current -> valid target ->
    let difference := Double.sub target current in
    let d := Double.shortestAngleDiff current target in
    (is_finite difference = true ->
     valid d /\ is_finite d = true
     /\ - B2R Double.Math_PI <= B2R d <= B2R Double.Math_PI
     /\ - PI < B2R d < PI
     /\ exists k : Z,
          B2R d = B2R difference + IZR k * (2 * B2R Double.Math_PI))
    /\ (is_finite difference = false -> d = S754_nan).
Proof.
  intros current target Hc Ht difference d.
  destruct (shortestAngleDiff_double current target Hc Ht) as [Hfin Hnan].
  split; [ intros Hf | exact Hnan ].
  destruct (Hfin Hf) as (Hv & Hdf & Hrange & k & Hk).
  pose proof Math_PI_below_PI as [Hpi _].
  split; [ exact Hv | split; [ exact Hdf | split; [ exact Hrange | ] ] ].
  split; [ subst d; cbv zeta in Hrange; lra | ].
  exists k. rewrite <- B2R_M2PI. exact Hk.
Qed.

(** From 0.5 to 7: the result is 0.21681469282041377, one turn below the
    difference 6.5. *)
Lemma C10_witness_half_to_seven :
  let d := Double.shortestAngleDiff Double.half Double.seven in
  valid Double.half /\ valid Double.seven
  /\ is_finite (Double.sub Double.seven Double.half) = true
  /\ d = S754_finite false 7811572558355712 (-55)
  /\ valid d /\ is_finite d = true
  /\ - B2R Double.Math_PI <= B2R d <= B2R Double.Math_PI
  /\ - PI < B2R d < PI
  /\ exists k : Z,
       B2R d = B2R (Double.sub Double.seven Double.half)
               + IZR k * (2 * B2R Double.Math_PI).
Proof.
  split; [ reflexivity | ].
  split; [ reflexivity | ].
  split; [ reflexivity | ].
  split; [ reflexivity | ].
  destruct (C10_shortestAngleDiff_on_doubles Double.half Double.seven
              eq_refl eq_refl) as [Hfinite _].
  apply Hfinite. reflexivity.
Defined.

(** The finite angles -1.7e308 and 1.7e308: their difference overflows to
    [Infinity], the remainder of [Infinity] is [NaN], both comparisons with
    [NaN] are false, and [NaN] is returned: no value between [-Math.PI]
    and [Math.PI]. *)
Lemma C10_counterexample_overflow_returns_NaN :
  let current := Double.neg Double.huge in
  let target := Double.huge in
  let d := Double.shortestAngleDiff current target in
  valid current /\ valid target
  /\ is_finite current = true /\ is_finite target = true
  /\ Double.sub target current = S754_infinity false
  /\ d = S754_nan
  /\ Double.leb (Double.neg Double.Math_PI) d = false
  /\ Double.leb d Double.Math_PI = false.
Proof.
  cbv zeta. repeat (split; [ vm_compute; reflexivity | ]).
  vm_compute; reflexivity.
Qed.

End Binary64.

(** ** C1: the merge of keyboard and joystick *)

Lemma sqrt2_sqr : sqrt 2 * sqrt 2 = 2.
Proof. apply sqrt_sqrt. lra. Qed.

Lemma sqrt2_pos : 0 < sqrt 2.
Proof. apply sqrt_lt_R0. lra. Qed.

Lemma eqb_refl_true (a : R) : JS.eqb a a = true.
Proof. unfold JS.eqb. destruct (Req_dec_T a a); congruence. Qed.

Lemma eqb_neq_false (a b : R) : a <> b -> JS.eqb a b = false.
Proof. unfold JS.eqb. destruct (Req_dec_T a b); congruence. Qed.

(** The keyboard signal is the zero input when no movement key is held and
    a unit vector otherwise (a diagonal is scaled to length one). *)
Lemma keyboard_signal_unit (pressedKeys : list string) :
  let kb := App.updateKeyboardMovementState pressedKeys in
  (App.active kb = false /\ App.x kb = 0 /\ App.y kb = 0)
  \/ (App.active kb = true
      /\ App.x kb * App.x kb + App.y kb * App.y kb = 1).
Proof.
  pose proof sqrt2_sqr as Hs. pose proof sqrt2_pos as Hp.
  assert (Hinv : / sqrt 2 * / sqrt 2 = / 2).
  { rewrite <- Rinv_mult, Hs. reflexivity. }
  assert (E1 : JS.eqb 1 0 = false) by (apply eqb_neq_false; lra).
  assert (E2 : JS.eqb (-1) 0 = false) by (apply eqb_neq_false; lra).
  assert (E0 : JS.eqb 0 0 = true) by apply eqb_refl_true.
  assert (S1 : 1 * 1 + 1 * 1 = 2) by lra.
  assert (S2 : -1 * -1 + 1 * 1 = 2) by lra.
  assert (S3 : 1 * 1 + -1 * -1 = 2) by lra.
  assert (S4 : -1 * -1 + -1 * -1 = 2) by lra.
  unfold App.updateKeyboardMovementState, JS.Math_sqrt.
  destruct (App.has pressedKeys "w"), (App.has pressedKeys "s"),
    (App.has pressedKeys "a"), (App.has pressedKeys "d");
    cbv zeta iota beta;
    rewrite ?E1, ?E2, ?E0; simpl negb; simpl andb; cbv iota;
    rewrite ?S1, ?S2, ?S3, ?S4; simpl;
    try (left; repeat split; reflexivity);
    right; (split; [ reflexivity | ]);
    unfold Rdiv; try nra.
Qed.

(** C1 (as the code has it). The keyboard is tested first: whenever the
    keyboard signal is active the merged input is the keyboard signal, even
    if the joystick is active too; if only the joystick is active the
    joystick signal is used; if neither is active the merged input is the
    zero input.  The keyboard signal itself is zero or of unit length. *)
Theorem C1_merge_keyboard_takes_precedence :
  forall keyboardMovement joystickData : App.JoystickOutput,
    (App.active keyboardMovement = true ->
     App.effectiveJoystickData keyboardMovement joystickData
     = keyboardMovement)
    /\ (App.active keyboardMovement = false ->
        App.active joystickData = true ->
        App.effectiveJoystickData keyboardMovement joystickData
        = joystickData)
    /\ (App.active keyboardMovement = false ->
        App.active joystickData = false ->
        App.effectiveJoystickData keyboardMovement joystickData
        = App.mkJoystickOutput 0 0 false)
    /\ (forall pressedKeys,
          keyboardMovement = App.updateKeyboardMovementState pressedKeys ->
          App.active keyboardMovement = true ->
          App.x keyboardMovement * App.x keyboardMovement
          + App.y keyboardMovement * App.y keyboardMovement = 1).
Proof.
  intros kb joy. unfold App.effectiveJoystickData.
  repeat split.
  - intros ->. reflexivity.
  - intros -> ->. reflexivity.
  - intros -> ->. reflexivity.
  - intros keys -> Hact.
    destruct (keyboard_signal_unit keys) as [[H _] | [_ H]];
      [ congruence | exact H ].
Qed.

(** Witness: the keys "w" and "d" held while the joystick is pushed. *)
Lemma C1_merge_witness :
  App.effectiveJoystickData (App.mkJoystickOutput 1 0 true)
    (App.mkJoystickOutput 0 1 true)
  = App.mkJoystickOutput 1 0 true.
Proof.
  apply (proj1 (C1_merge_keyboard_takes_precedence
                  (App.mkJoystickOutput 1 0 true)
                  (App.mkJoystickOutput 0 1 true))).
  reflexivity.
Defined.

(** Counterexample to C1 as stated: with both sources active the merged
    input is the keyboard's, not the joystick's. *)
Lemma C1_counterexample_joystick_loses :
  let keyboardMovement := App.mkJoystickOutput 1 0 true in
  let joystickData := App.mkJoystickOutput 0 1 true in
  App.active joystickData = true
  /\ App.effectiveJoystickData keyboardMovement joystickData
     = keyboardMovement
  /\ App.effectiveJoystickData keyboardMovement joystickData
     <> joystickData.
Proof.
  cbv zeta. repeat split.
  unfold App.effectiveJoystickData. simpl.
  intros H. injection H as H1 H2. lra.
Qed.

(** ** C6: the smoke-puff pool never exceeds its capacity *)

Section SmokePool.
Import SmokeHistory.

(** The active puffs use distinct meshes, all taken from the pool. *)
Definition poolInv (s : Smoke) : Prop :=
  NoDup (map mesh (activeSmokePuffs s))
  /\ incl (map mesh (activeSmokePuffs s)) (smokePuffsPool s)
  /\ smokePuffsPool s = seq 0 NUM_SMOKE_PUFFS.

Lemma isActive_true (active : list ActiveSmokePuff) (m : MeshId) :
  isActive active m = true <-> In m (map mesh active).
Proof.
  unfold isActive. rewrite existsb_exists, in_map_iff.
  split; intros [p [H1 H2]]; exists p.
  - apply Nat.eqb_eq in H2. auto.
  - split; [ exact H2 | apply Nat.eqb_eq; exact H1 ].
Qed.

Lemma isActive_false (active : list ActiveSmokePuff) (m : MeshId) :
  isActive active m = false <-> ~ In m (map mesh active).
Proof.
  rewrite <- isActive_true. destruct (isActive active m); split; congruence.
Qed.

Lemma emitLoop_inv (P : list MeshId) :
  forall pool puffsEmitted puffsToEmit position rnd k active meshes,
    NoDup (map mesh active) ->
    incl (map mesh active) P ->
    incl pool P ->
    let active' :=
      fst (fst (emitLoop pool puffsEmitted puffsToEmit position rnd k
                  active meshes)) in
    NoDup (map mesh active') /\ incl (map mesh active') P.
Proof.
  induction pool as [ | puffMesh rest IH ];
    intros emitted toEmit pos rnd k active meshes Hnd Hin Hpool; cbn.
  - auto.
  - destruct (INR emitted >=? toEmit); [ cbn; auto | ].
    assert (Hrest : incl rest P)
      by (intros a Ha; apply Hpool; right; exact Ha).
    destruct (isActive active puffMesh) eqn:Hact.
    + apply IH; assumption.
    + apply isActive_false in Hact. apply IH.
      * rewrite map_app. cbn.
        apply (NoDup_Add (a := puffMesh) (l := map mesh active ++ [])).
        -- apply Add_app.
        -- rewrite app_nil_r. auto.
      * rewrite map_app. apply incl_app; [ exact Hin | ].
        intros a [<- | []]. apply Hpool. left. reflexivity.
      * exact Hrest.
Qed.

Lemma updatePuffs_sub (delta : R) :
  forall active meshes,
    let kept := fst (updatePuffs delta active meshes) in
    (forall m, In m (map mesh kept) -> In m (map mesh active))
    /\ (NoDup (map mesh active) -> NoDup (map mesh kept)).
Proof.
  induction active as [ | puff rest IH ]; intros meshes; cbn.
  - auto.
  - destruct (lifetime puff - delta <=? 0).
    + destruct (IH (writeMesh meshes (mesh puff)
                      (mkPuffMesh false
                         (puff_position (meshes (mesh puff)))
                         (puff_opacity (meshes (mesh puff)))
                         (puff_scale (meshes (mesh puff))))))
        as [H1 H2].
      split.
      * intros m Hm. right. apply H1. exact Hm.
      * intros Hnd. apply H2. inversion Hnd; assumption.
    + match goal with
      | |- context [updatePuffs delta rest ?h] =>
          destruct (IH h) as [H1 H2];
          destruct (updatePuffs delta rest h) as [kept meshes'] eqn:E
      end.
      cbn in *. split.
      * intros m [Hm | Hm]; [ left; exact Hm | right; apply H1; exact Hm ].
      * intros Hnd. inversion Hnd as [ | ? ? Hni Hnd' ]; subst.
        constructor; [ | apply H2; exact Hnd' ].
        intros Hm. apply Hni. apply H1. exact Hm.
Qed.

Lemma emitSmokePuffs_inv position countMultiplier rnd k (s : Smoke) :
  poolInv s -> poolInv (fst (emitSmokePuffs position countMultiplier rnd k s)).
Proof.
  intros (Hnd & Hin & Hpool). unfold emitSmokePuffs.
  destruct (negb (smokeTexture s)); [ cbn; repeat split; assumption | ].
  match goal with
  | |- context [emitLoop ?p ?e ?t ?pos ?r ?k' ?a ?h] =>
      pose proof (emitLoop_inv (smokePuffsPool s) p e t pos r k' a h
                    Hnd Hin (incl_refl _)) as Hloop;
      destruct (emitLoop p e t pos r k' a h) as [[active' meshes'] k'']
  end.
  cbn in *. destruct Hloop as [H1 H2]. repeat split; assumption.
Qed.

Lemma smokeUpdate_inv delta (s : Smoke) :
  poolInv s -> poolInv (smokeUpdate delta s).
Proof.
  intros (Hnd & Hin & Hpool). unfold smokeUpdate.
  pose proof (updatePuffs_sub delta (activeSmokePuffs s) (puffMeshes s))
    as Hsub.
  destruct (updatePuffs delta (activeSmokePuffs s) (puffMeshes s))
    as [kept meshes'].
  cbn in *. destruct Hsub as [H1 H2]. repeat split.
  - apply H2. exact Hnd.
  - intros m Hm. apply Hin. apply H1. exact Hm.
  - exact Hpool.
Qed.

Lemma initialSmoke_inv : poolInv initialSmoke.
Proof.
  repeat split; cbn; [ constructor | intros a [] ].
Qed.

Lemma run_inv (ops : list Op) : poolInv (run ops).
Proof.
  unfold run. generalize initialSmoke initialSmoke_inv.
  induction ops as [ | op ops IH ]; intros s Hs; cbn.
  - exact Hs.
  - apply IH. destruct op; cbn.
    + apply emitSmokePuffs_inv. exact Hs.
    + apply smokeUpdate_inv. exact Hs.
Qed.

Lemma poolInv_bound (s : Smoke) :
  poolInv s -> (activeCount s <= NUM_SMOKE_PUFFS)%nat.
Proof.
  intros (Hnd & Hin & Hpool). unfold activeCount.
  rewrite <- (length_map mesh).
  replace NUM_SMOKE_PUFFS with (List.length (smokePuffsPool s))
    by (rewrite Hpool; apply length_seq).
  apply NoDup_incl_length; assumption.
Qed.

(** With every pool mesh active the loop changes nothing. *)
Lemma emitLoop_exhausted :
  forall pool puffsEmitted puffsToEmit position rnd k active meshes,
    (forall m, In m pool -> isActive active m = true) ->
    emitLoop pool puffsEmitted puffsToEmit position rnd k active meshes
    = (active, meshes, k).
Proof.
  induction pool as [ | puffMesh rest IH ];
    intros emitted toEmit pos rnd k active meshes Hall; cbn.
  - reflexivity.
  - destruct (INR emitted >=? toEmit); [ reflexivity | ].
    rewrite (Hall puffMesh) by (left; reflexivity).
    apply IH. intros m Hm. apply Hall. right. exact Hm.
Qed.

Lemma emit_on_full_pool position countMultiplier rnd k (s : Smoke) :
  poolInv s ->
  activeCount s = NUM_SMOKE_PUFFS ->
  emitSmokePuffs position countMultiplier rnd k s
  = (s, if smokeTexture s then S k else k).
Proof.
  intros (Hnd & Hin & Hpool) Hfull. unfold emitSmokePuffs.
  destruct s as [texture pool active meshes]; cbn in *.
  destruct texture; cbn; [ | reflexivity ].
  rewrite emitLoop_exhausted; [ reflexivity | ].
  assert (Hall : incl pool (map mesh active)).
  { apply NoDup_length_incl; [ exact Hnd | | exact Hin ].
    rewrite length_map. unfold activeCount in Hfull. cbn in Hfull.
    rewrite Hfull, Hpool. apply Nat.le_refl. }
  intros m Hm. apply isActive_true. apply Hall. exact Hm.
Qed.

(** One iteration of the scan, for evaluating the loop on a given pool. *)
Lemma emitLoop_cons_lt puffMesh rest puffsEmitted puffsToEmit position rnd k
    active meshes :
  INR puffsEmitted < puffsToEmit ->
  emitLoop (puffMesh :: rest) puffsEmitted puffsToEmit position rnd k
    active meshes
  = if isActive active puffMesh then
      emitLoop rest puffsEmitted puffsToEmit position rnd k active meshes
    else
      emitLoop rest (S puffsEmitted) puffsToEmit position rnd (k + 6)%nat
        (active
         ++ [mkActiveSmokePuff puffMesh
               (SMOKE_PUFF_LIFETIME * (0.8 + rnd (k + 5)%nat * 0.4))
               SMOKE_PUFF_LIFETIME
               (mkVector3 ((rnd (k + 2)%nat - 0.5) * 0.8)
                  (0.8 + rnd (k + 3)%nat * 0.7)
                  ((rnd (k + 4)%nat - 0.5) * 0.8))])
        (writeMesh meshes puffMesh
           (mkPuffMesh true
              (mkVector3 (x position + (rnd k - 0.5) * 0.5)
                 (y position + 0.2)
                 (z position + (rnd (k + 1)%nat - 0.5) * 0.5))
              SMOKE_PUFF_START_OPACITY SMOKE_PUFF_START_SCALE)).
Proof.
  intros H. cbn [emitLoop].
  replace (INR puffsEmitted >=? puffsToEmit) with false; [ reflexivity | ].
  symmetry. apply geb_false. exact H.
Qed.

Lemma emitLoop_cons_ge puffMesh rest puffsEmitted puffsToEmit position rnd k
    active meshes :
  puffsToEmit <= INR puffsEmitted ->
  emitLoop (puffMesh :: rest) puffsEmitted puffsToEmit position rnd k
    active meshes
  = (active, meshes, k).
Proof.
  intros H. cbn [emitLoop].
  replace (INR puffsEmitted >=? puffsToEmit) with true; [ reflexivity | ].
  symmetry. apply geb_true. exact H.
Qed.

Lemma burst_of_five :
  JS.Math_floor ((5 + JS.Math_floor (zeros 0%nat * 4)) * 1) = 5.
Proof.
  unfold JS.Math_floor, zeros.
  replace (0 * 4) with (IZR 0) by (simpl; lra). rewrite ZfloorZ.
  replace ((5 + 0) * 1) with (IZR 5) by (simpl; lra). rewrite ZfloorZ.
  reflexivity.
Qed.

Ltac scan_pool :=
  repeat first
    [ rewrite emitLoop_cons_lt by (simpl INR; lra);
      cbn [isActive existsb mesh Nat.eqb app orb]
    | rewrite emitLoop_cons_ge by (simpl INR; lra) ].

Lemma fillPool_full : activeCount (run fillPool) = NUM_SMOKE_PUFFS.
Proof.
  unfold run, fillPool, initialSmoke, NUM_SMOKE_PUFFS.
  cbn [fold_left apply seq].
  unfold emitSmokePuffs at 3. cbn [smokeTexture negb smokePuffsPool
                                    activeSmokePuffs puffMeshes].
  rewrite burst_of_five. scan_pool. cbn [fst].
  unfold emitSmokePuffs at 2. cbn [smokeTexture negb smokePuffsPool
                                    activeSmokePuffs puffMeshes].
  rewrite burst_of_five. scan_pool. cbn [fst].
  unfold emitSmokePuffs at 1. cbn [smokeTexture negb smokePuffsPool
                                    activeSmokePuffs puffMeshes].
  rewrite burst_of_five. scan_pool.
  reflexivity.
Qed.

End SmokePool.

(** C6. After any sequence of emit calls and frame updates the number of
    active smoke puffs is at most the pool capacity of 15; and an emit call
    made while 15 puffs are active returns the pool state unchanged: no puff
    is activated, nothing is added to the pool or kept for later, and the
    call returns normally. *)
Theorem C6_active_puffs_bounded_by_pool :
  forall ops : list SmokeHistory.Op,
    let s := SmokeHistory.run ops in
    (SmokeHistory.activeCount s <= 15)%nat
    /\ (SmokeHistory.activeCount s = 15%nat ->
        forall position countMultiplier rnd k,
          fst (emitSmokePuffs position countMultiplier rnd k s) = s).
Proof.
  intros ops s. pose proof (run_inv ops) as Hinv. fold s in Hinv. split.
  - apply poolInv_bound. exact Hinv.
  - intros Hfull position countMultiplier rnd k.
    rewrite emit_on_full_pool; [ reflexivity | exact Hinv | exact Hfull ].
Qed.

(** Witness: after three bursts of five the pool is full, and a further
    emit call leaves it as it is. *)
Lemma C6_full_pool_witness :
  SmokeHistory.activeCount (SmokeHistory.run SmokeHistory.fillPool) = 15%nat
  /\ fst (emitSmokePuffs SmokeHistory.origin 1 SmokeHistory.zeros 0
            (SmokeHistory.run SmokeHistory.fillPool))
     = SmokeHistory.run SmokeHistory.fillPool.
Proof.
  split.
  - exact fillPool_full.
  - apply (proj2 (C6_active_puffs_bounded_by_pool SmokeHistory.fillPool)).
    exact fillPool_full.
Defined.

(** ** C8: picking a roam target *)

Section RoamTarget.

Variable rnd : JS.Random.
Variable currentPos : Vector3.
Hypothesis rnd_unit : JS.in_unit rnd.

(** Whether the [j]-th candidate drawn from call [k] on is rejected. *)
Let rejected (k j : nat) : bool :=
  roamRejected mapRadius currentPos blueFountainPosition
    redFountainPosition (roamCandidate mapRadius rnd (k + 2 * j)).

Lemma roamLoop_spec (attempts : nat) :
  forall k,
    let r := roamLoop attempts mapRadius currentPos blueFountainPosition
               redFountainPosition rnd k in
    (exists i, (i < attempts)%nat
               /\ (forall j, (j < i)%nat -> rejected k j = true)
               /\ rejected k i = false
               /\ fst r = roamCandidate mapRadius rnd (k + 2 * i)
               /\ snd r = (k + 2 * i + 2)%nat)
    \/ ((forall j, (j < attempts)%nat -> rejected k j = true)
        /\ fst r = roamFallback mapRadius rnd (k + 2 * attempts)
        /\ snd r = (k + 2 * attempts + 2)%nat).
Proof.
  induction attempts as [ | n IH ]; intros k; cbn zeta.
  - right. cbn. rewrite Nat.add_0_r. repeat split. intros j Hj. lia.
  - cbn [roamLoop].
    destruct (roamRejected mapRadius currentPos blueFountainPosition
                redFountainPosition (roamCandidate mapRadius rnd k)) eqn:Hr.
    + assert (Hshift : forall j, rejected (k + 2) j = rejected k (S j)).
      { intros j. unfold rejected. f_equal. f_equal. lia. }
      destruct (IH (k + 2)%nat) as [(i & Hi & Hrej & Hacc & Ht & Hk)
                                   | (Hrej & Ht & Hk)].
      * left. exists (S i). repeat split.
        -- lia.
        -- intros [ | j ] Hj.
           ++ unfold rejected. rewrite Nat.mul_0_r, Nat.add_0_r. exact Hr.
           ++ rewrite <- Hshift. apply Hrej. lia.
        -- rewrite <- Hshift. exact Hacc.
        -- rewrite Ht. f_equal. lia.
        -- rewrite Hk. lia.
      * right. repeat split.
        -- intros [ | j ] Hj.
           ++ unfold rejected. rewrite Nat.mul_0_r, Nat.add_0_r. exact Hr.
           ++ rewrite <- Hshift. apply Hrej. lia.
        -- rewrite Ht. f_equal. lia.
        -- rewrite Hk. lia.
    + left. exists 0%nat. cbn [fst snd]. repeat split.
      * lia.
      * intros j Hj. lia.
      * unfold rejected. rewrite Nat.mul_0_r, Nat.add_0_r. exact Hr.
      * f_equal. lia.
      * lia.
Qed.

(** What acceptance of a candidate guarantees. *)
Lemma accepted_candidate (targetPos : Vector3) :
  roamRejected mapRadius currentPos blueFountainPosition
    redFountainPosition targetPos = false ->
  lengthSq targetPos <= 47.5 * 47.5
  /\ 10 * 10 <= distanceToSquared targetPos redFountainPosition
  /\ (0 < z currentPos ->
      15 * 15 <= distanceToSquared targetPos blueFountainPosition).
Proof.
  unfold roamRejected, roamBoundary, mapRadius. cbv zeta.
  destruct (lengthSq targetPos >? 50 * 0.95 * (50 * 0.95)) eqn:H1;
    [ discriminate | ].
  apply gtb_false in H1.
  destruct (distanceToSquared targetPos blueFountainPosition
              <? 50 * 0.3 * (50 * 0.3)) eqn:H2;
    destruct (z currentPos >? 0) eqn:H3; cbn [andb];
    try discriminate;
    destruct (distanceToSquared targetPos redFountainPosition
                <? 50 * 0.2 * (50 * 0.2)) eqn:H4;
    try discriminate; intros _;
    apply ltb_false in H4;
    try apply ltb_true in H2; try apply ltb_false in H2;
    try apply gtb_true in H3; try apply gtb_false in H3;
    repeat split; intros; lra.
Qed.

Lemma candidate_in_square (k : nat) :
  let t := roamCandidate mapRadius rnd k in
  y t = 0 /\ Rabs (x t) <= 47.5 /\ Rabs (z t) <= 47.5.
Proof.
  pose proof (rnd_unit k). pose proof (rnd_unit (S k)).
  unfold roamCandidate, roamBoundary, mapRadius. cbn.
  repeat split; try apply Rabs_le; lra.
Qed.

Lemma fallback_in_square (k : nat) :
  let t := roamFallback mapRadius rnd k in
  y t = 0 /\ Rabs (x t) <= 23.75 /\ Rabs (z t) <= 23.75.
Proof.
  pose proof (rnd_unit k). pose proof (rnd_unit (S k)).
  unfold roamFallback, roamBoundary, mapRadius. cbn.
  repeat split; try apply Rabs_le; lra.
Qed.

End RoamTarget.

(** C8 (as the code has it). Whenever the enemy picks a new roam target
    (a commit with [forceNewRoamTarget] set), the target is either the first
    of at most 10 sampled candidates that is not rejected, or, when all 10
    are rejected, an unconstrained fallback point.  An accepted candidate
    lies in the disc of radius 47.5 around the origin, at least 10 from the
    red fountain and, when the enemy stands at [z > 0], at least 15 from the
    blue fountain; the fallback lies in the square of half-side 23.75.  In
    either case the target lies on the ground within the square of half-side
    47.5 (which is not contained in the diamond arena), and the roam timer
    is reset in the same commit to 4 + 4 r for the next random number r, a
    value in [4, 8). *)
Theorem C8_roam_target_sampling_and_timer :
  forall (rnd : JS.Random) (k : nat) (d : Decision) (e : EnemyState),
    JS.in_unit rnd ->
    forceNewRoamTarget d = true ->
    let e' := fst (enemyCommit d rnd k e) in
    let target := currentTarget e' in
    let rejected j :=
      roamRejected mapRadius (enemy_position e) blueFountainPosition
        redFountainPosition (roamCandidate mapRadius rnd (k + 2 * j)) in
    ((exists i, (i < 10)%nat
                /\ (forall j, (j < i)%nat -> rejected j = true)
                /\ rejected i = false
                /\ target = roamCandidate mapRadius rnd (k + 2 * i)
                /\ lengthSq target <= 47.5 * 47.5
                /\ 10 * 10 <= distanceToSquared target redFountainPosition
                /\ (0 < z (enemy_position e) ->
                    15 * 15 <= distanceToSquared target blueFountainPosition)
                /\ roamTimer e' = 4 + rnd (k + 2 * i + 2)%nat * (8 - 4))
     \/ ((forall j, (j < 10)%nat -> rejected j = true)
         /\ target = roamFallback mapRadius rnd (k + 20)
         /\ Rabs (x target) <= 23.75 /\ Rabs (z target) <= 23.75
         /\ roamTimer e' = 4 + rnd (k + 22)%nat * (8 - 4)))
    /\ y target = 0
    /\ Rabs (x target) <= 47.5 /\ Rabs (z target) <= 47.5
    /\ 4 <= roamTimer e' < 8.
Proof.
  intros rnd k d e Hrnd Hforce e' target rejected.
  subst target rejected e'. cbv beta. unfold enemyCommit. rewrite Hforce.
  unfold getRandomRoamTarget.
  pose proof (roamLoop_spec rnd (enemy_position e) 10 k) as Hspec.
  cbv zeta in Hspec.
  destruct (roamLoop 10 mapRadius (enemy_position e) blueFountainPosition
              redFountainPosition rnd k) as [t k'] eqn:Hloop.
  cbn [fst snd currentTarget roamTimer] in *.
  unfold ENEMY_ROAM_TARGET_UPDATE_MIN_INTERVAL,
    ENEMY_ROAM_TARGET_UPDATE_MAX_INTERVAL.
  assert (Htimer : 4 <= 4 + rnd k' * (8 - 4) < 8)
    by (pose proof (Hrnd k'); lra).
  destruct Hspec as [(i & Hi & Hrej & Hacc & Ht & Hk) | (Hrej & Ht & Hk)].
  - destruct (accepted_candidate (enemy_position e) _ Hacc)
      as (Hlen & Hred & Hblue).
    destruct (candidate_in_square rnd Hrnd (k + 2 * i)) as (Hy & Hx & Hz).
    subst t k'.
    split; [ left; exists i; repeat split; auto | ].
    repeat split; auto; lra.
  - destruct (fallback_in_square rnd Hrnd (k + 20)) as (Hy & Hx & Hz).
    change (k + 2 * 10)%nat with (k + 20)%nat in *.
    replace (k + 20 + 2)%nat with (k + 22)%nat in * by lia.
    subst t k'.
    split; [ right; repeat split; auto | ].
    repeat split; auto; lra.
Qed.

(** Witness: with the oracle stuck at 1/2 the first candidate is the
    origin, and the timer is reset into [4, 8). *)
Lemma C8_roam_witness :
  let e' :=
    fst (enemyCommit (mkDecision ROAMING (mkVector3 0 0 0) true)
           (Scenario.always (1 / 2)) 0
           (Scenario.enemyAt redFountainPosition (mkVector3 0 0 0) ROAMING)) in
  Rabs (x (currentTarget e')) <= 47.5 /\ 4 <= roamTimer e' < 8.
Proof.
  assert (Hu : JS.in_unit (Scenario.always (1 / 2)))
    by (intros n; unfold Scenario.always; lra).
  pose proof (C8_roam_target_sampling_and_timer (Scenario.always (1 / 2)) 0
                (mkDecision ROAMING (mkVector3 0 0 0) true)
                (Scenario.enemyAt redFountainPosition (mkVector3 0 0 0)
                   ROAMING)
                Hu eq_refl) as H.
  cbv zeta in *. destruct H as (_ & _ & Hx & _ & Ht).
  split; assumption.
Defined.

(** Resolving the comparisons of a closed computation. *)
Ltac settle_comparisons :=
  repeat match goal with
    | |- context [JS.gtb ?a ?b] =>
        first [ replace (JS.gtb a b) with true
                  by (symmetry; apply gtb_true; lra)
              | replace (JS.gtb a b) with false
                  by (symmetry; apply gtb_false; lra) ]
    | |- context [JS.geb ?a ?b] =>
        first [ replace (JS.geb a b) with true
                  by (symmetry; apply geb_true; lra)
              | replace (JS.geb a b) with false
                  by (symmetry; apply geb_false; lra) ]
    | |- context [JS.ltb ?a ?b] =>
        first [ replace (JS.ltb a b) with true
                  by (symmetry; apply ltb_true; lra)
              | replace (JS.ltb a b) with false
                  by (symmetry; apply ltb_false; lra) ]
    | |- context [JS.leb ?a ?b] =>
        first [ replace (JS.leb a b) with true
                  by (symmetry; apply leb_true; lra)
              | replace (JS.leb a b) with false
                  by (symmetry; apply leb_false; lra) ]
    end.

(** Counterexample to C8 as stated: the first candidate (30, 0, 30) is
    accepted, yet it lies outside the diamond arena, whose boundary test is
    [|x| + |z| > 49]. *)
Lemma C8_counterexample_target_outside_arena :
  let target :=
    fst (getRandomRoamTarget mapRadius redFountainPosition
           blueFountainPosition redFountainPosition
           (Scenario.always (31 / 38)) 0) in
  target = mkVector3 30 0 30
  /\ outOfArena target = true
  /\ mapRadius * 0.98 < Rabs (x target) + Rabs (z target).
Proof.
  assert (Ht : fst (getRandomRoamTarget mapRadius redFountainPosition
                      blueFountainPosition redFountainPosition
                      (Scenario.always (31 / 38)) 0)
               = mkVector3 30 0 30).
  { unfold getRandomRoamTarget. cbn [roamLoop].
    unfold roamRejected, roamCandidate, roamBoundary, Scenario.always,
      blueFountainPosition, redFountainPosition, mapRadius,
      lengthSq, distanceToSquared.
    cbn [x y z]. settle_comparisons. cbn [andb fst].
    f_equal; lra. }
  cbv zeta. rewrite Ht.
  assert (Hout : mapRadius * 0.98 < Rabs 30 + Rabs 30).
  { unfold mapRadius. rewrite Rabs_pos_eq by lra. lra. }
  repeat split.
  - unfold outOfArena, JS.Math_abs. cbn [x z]. apply gtb_true. exact Hout.
  - cbn [x z]. exact Hout.
Qed.

(** ** C4 and C9: the camera drag handler *)

Lemma clamp_range (value lo hi : R) :
  lo <= hi -> lo <= MathUtils.clamp value lo hi <= hi.
Proof.
  intros H. unfold MathUtils.clamp, JS.Math_max, JS.Math_min, Rmax, Rmin.
  repeat destruct Rle_dec; lra.
Qed.

Lemma clamp_lower (value lo hi : R) :
  lo <= MathUtils.clamp value lo hi <= Rmax lo hi.
Proof.
  unfold MathUtils.clamp, JS.Math_max, JS.Math_min, Rmax, Rmin.
  repeat destruct Rle_dec; lra.
Qed.

Lemma clamp_inside (value lo hi : R) :
  lo <= value <= hi -> MathUtils.clamp value lo hi = value.
Proof.
  intros H. unfold MathUtils.clamp, JS.Math_max, JS.Math_min, Rmax, Rmin.
  repeat destruct Rle_dec; lra.
Qed.

(** The bound derived for the polar angle never exceeds [PI - 0.1]. *)
Lemma maxPhiForGround_upper (targetY radius : R) :
  maxPhiForGround targetY radius <= PI - 0.1.
Proof.
  unfold maxPhiForGround, MAX_PHI_ABS, JS.Math_min, Rmin.
  repeat match goal with
         | |- context [if ?b then _ else _] => destruct b
         end; lra.
Qed.

(** The three ways the bound is derived when the arccosine is not used. *)
Lemma maxPhiForGround_cases (targetY radius : R) :
  let cosVal := (MIN_CAMERA_Y_POSITION - targetY) / radius in
  (0.001 < radius -> 1 < cosVal ->
   maxPhiForGround targetY radius = PI / 2)
  /\ (0.001 < radius -> cosVal < -1 ->
      maxPhiForGround targetY radius = PI - 0.1)
  /\ (radius <= 0.001 -> maxPhiForGround targetY radius = PI - 0.1).
Proof.
  pose proof PI_lower as Hpi. cbv zeta. unfold maxPhiForGround, MAX_PHI_ABS.
  repeat split.
  - intros Hr Hc.
    replace (radius >? 0.001) with true by (symmetry; apply gtb_true; lra).
    replace ((MIN_CAMERA_Y_POSITION - targetY) / radius <=? 1) with false
      by (symmetry; apply leb_false; lra).
    rewrite andb_false_r.
    replace ((MIN_CAMERA_Y_POSITION - targetY) / radius >? 1) with true
      by (symmetry; apply gtb_true; lra).
    unfold JS.Math_min, Rmin. destruct Rle_dec; lra.
  - intros Hr Hc.
    replace (radius >? 0.001) with true by (symmetry; apply gtb_true; lra).
    replace ((MIN_CAMERA_Y_POSITION - targetY) / radius >=? -1) with false
      by (symmetry; apply geb_false; lra).
    cbn [andb].
    replace ((MIN_CAMERA_Y_POSITION - targetY) / radius >? 1) with false
      by (symmetry; apply gtb_false; lra).
    reflexivity.
  - intros Hr.
    replace (radius >? 0.001) with false by (symmetry; apply gtb_false; lra).
    reflexivity.
Qed.

(** C4 (as the code has it). On a pointer move of the captured pointer the
    polar angle is clamped into [0.1, PI - 0.1] whatever the geometry.  The
    fallback PI / 2 is used only when the orbit radius exceeds 0.001 and the
    ratio (minCameraHeight - targetHeight) / radius is above 1, and the polar
    angle then ends in [0.1, PI / 2]; when the ratio is below -1, or the
    radius is at most 0.001 (zero included), the bound stays PI - 0.1. *)
Theorem C4_polar_clamp_fallbacks :
  forall (event : PointerEvent) (c : CameraRig),
    cameraIsDragging c = true ->
    isActivePointer c event = true ->
    let c' := onWindowPointerMoveCallback event c in
    let radius := cameraRadius c in
    let cosVal := (MIN_CAMERA_Y_POSITION - y (cameraTarget c)) / radius in
    let maxPhi := maxPhiForGround (y (cameraTarget c)) radius in
    0.1 <= cameraPhi c' <= PI - 0.1
    /\ (0.001 < radius -> 1 < cosVal ->
        maxPhi = PI / 2 /\ 0.1 <= cameraPhi c' <= PI / 2)
    /\ (0.001 < radius -> cosVal < -1 -> maxPhi = PI - 0.1)
    /\ (radius <= 0.001 -> maxPhi = PI - 0.1).
Proof.
  intros event c Hdrag Hid c' radius cosVal maxPhi.
  pose proof PI_lower as Hpi.
  destruct (maxPhiForGround_cases (y (cameraTarget c)) radius)
    as (Hgt & Hlt & Hsmall).
  assert (Hphi : cameraPhi c'
                 = MathUtils.clamp
                     (cameraPhi c
                      - (clientY event - snd (cameraLastPointerPos c)) * 0.005)
                     MIN_PHI_ABS maxPhi).
  { unfold c', onWindowPointerMoveCallback. rewrite Hdrag, Hid. reflexivity. }
  pose proof (maxPhiForGround_upper (y (cameraTarget c)) radius) as Hup.
  fold maxPhi in Hup, Hgt, Hlt, Hsmall.
  assert (Hall : 0.1 <= cameraPhi c' <= PI - 0.1).
  { rewrite Hphi.
    pose proof (clamp_lower
                  (cameraPhi c
                   - (clientY event - snd (cameraLastPointerPos c)) * 0.005)
                  MIN_PHI_ABS maxPhi) as [H1 H2].
    unfold MIN_PHI_ABS, Rmax in *. destruct Rle_dec; lra. }
  split; [ exact Hall | ].
  split; [ | split; assumption ].
  intros Hr Hc. split; [ apply Hgt; assumption | ].
  rewrite Hphi, (Hgt Hr Hc).
  apply clamp_range. unfold MIN_PHI_ABS. lra.
Qed.

(** Witness: radius 0.2 under a target at height 0.2 gives the ratio 1.5;
    dragging down by 400 pixels from polar angle 1 ends at most at PI / 2. *)
Lemma C4_fallback_witness :
  0.1 <= cameraPhi (onWindowPointerMoveCallback
                      (Scenario.pointerAt 0 (-400))
                      (Scenario.draggingRig 1 0.2 0.2))
      <= PI / 2.
Proof.
  assert (H1 : 0.001 < 0.2) by lra.
  assert (H2 : 1 < (MIN_CAMERA_Y_POSITION - 0.2) / 0.2)
    by (unfold MIN_CAMERA_Y_POSITION; lra).
  exact (proj2 (proj1 (proj2 (C4_polar_clamp_fallbacks
                                (Scenario.pointerAt 0 (-400))
                                (Scenario.draggingRig 1 0.2 0.2)
                                eq_refl eq_refl)) H1 H2)).
Defined.

(** Counterexample to C4 as stated: with the ratio below -1 (radius 0.5
    under a target at height 1.3, ratio -1.6), and likewise with radius 0,
    the bound is PI - 0.1 and a drag from polar angle 1.5 up by 200 pixels
    ends above PI / 2. *)
Lemma C4_counterexample_no_fallback_below :
  let event := Scenario.pointerAt 0 (-200) in
  let low := Scenario.draggingRig 1.5 0.5 1.3 in
  let zero := Scenario.draggingRig 1.5 0 1.3 in
  (MIN_CAMERA_Y_POSITION - 1.3) / 0.5 < -1
  /\ maxPhiForGround 1.3 0.5 = PI - 0.1
  /\ PI / 2 < cameraPhi (onWindowPointerMoveCallback event low)
  /\ maxPhiForGround 1.3 0 = PI - 0.1
  /\ PI / 2 < cameraPhi (onWindowPointerMoveCallback event zero).
Proof.
  pose proof PI_lower as Hlo. pose proof PI_upper as Hhi.
  assert (Hr : (MIN_CAMERA_Y_POSITION - 1.3) / 0.5 < -1)
    by (unfold MIN_CAMERA_Y_POSITION; lra).
  destruct (maxPhiForGround_cases 1.3 0.5) as (_ & H1 & _).
  destruct (maxPhiForGround_cases 1.3 0) as (_ & _ & H2).
  assert (E1 : maxPhiForGround 1.3 0.5 = PI - 0.1) by (apply H1; lra).
  assert (E2 : maxPhiForGround 1.3 0 = PI - 0.1) by (apply H2; lra).
  cbv zeta. unfold onWindowPointerMoveCallback, Scenario.draggingRig,
    Scenario.pointerAt.
  cbn [cameraIsDragging isActivePointer activeCameraPointerId pointerId
       Z.eqb Pos.eqb negb orb cameraPhi cameraTarget cameraRadius y
       cameraLastPointerPos clientY snd].
  rewrite E1, E2.
  unfold MathUtils.clamp, MIN_PHI_ABS, JS.Math_max, JS.Math_min, Rmax, Rmin.
  repeat split; auto; repeat destruct Rle_dec; lra.
Qed.

(** The arccosine of a non-positive cosine is at least a right angle. *)
Lemma acos_nonpos (c : R) : -1 < c <= 0 -> PI / 2 <= acos c.
Proof.
  intros [Hlo Hhi]. unfold acos.
  destruct (Rle_dec c (-1)); [ lra | ].
  destruct (Rle_dec 1 c); [ lra | ].
  assert (Hs : 0 < sqrt (1 - c²)).
  { apply sqrt_lt_R0. unfold Rsqr. nra. }
  assert (Hq : c / sqrt (1 - c²) <= 0).
  { unfold Rdiv. apply Rinv_0_lt_compat in Hs. nra. }
  assert (Ha : atan (c / sqrt (1 - c²)) <= 0).
  { destruct Hq as [Hq | Hq].
    - apply Rlt_le. rewrite <- atan_0. apply atan_increasing. exact Hq.
    - rewrite Hq, atan_0. lra. }
  lra.
Qed.

(** The polar bound of the scene: orbit radius 18 around the player's
    head height. *)
Lemma scene_maxPhi :
  PI / 2 <= maxPhiForGround (CHARACTER_BASE_Y + 0.5) 18.
Proof.
  pose proof PI_lower as Hpi.
  unfold maxPhiForGround, CHARACTER_BASE_Y, MIN_CAMERA_Y_POSITION,
    MAX_PHI_ABS.
  settle_comparisons. cbn [andb].
  pose proof (acos_nonpos ((0.5 - (0.8 / 2 + 0.4 + 0.5)) / 18)) as H.
  unfold JS.Math_min, JS.Math_acos, Rmin. destruct Rle_dec; lra.
Qed.

(** What every reachable scene satisfies about its camera. *)
Definition cameraInv (c : CameraRig) : Prop :=
  cameraRadius c = 18
  /\ y (cameraTarget c) = CHARACTER_BASE_Y + 0.5
  /\ 0.1 <= cameraPhi c
     <= maxPhiForGround (y (cameraTarget c)) (cameraRadius c).

Lemma cameraUpdate_inv (playerPos : Vector3) (c : CameraRig) :
  cameraRadius c = 18 ->
  0.1 <= cameraPhi c <= maxPhiForGround (CHARACTER_BASE_Y + 0.5) 18 ->
  cameraInv (cameraUpdate playerPos c).
Proof.
  intros Hr Hphi. unfold cameraInv, cameraUpdate. cbn. rewrite Hr.
  repeat split; lra.
Qed.

Lemma pointerMove_inv (event : PointerEvent) (c : CameraRig) :
  cameraInv c -> cameraInv (onWindowPointerMoveCallback event c).
Proof.
  intros (Hr & Hy & Hphi). unfold onWindowPointerMoveCallback.
  destruct (negb (cameraIsDragging c) || negb (isActivePointer c event));
    [ exact (conj Hr (conj Hy Hphi)) | ].
  unfold cameraInv. cbn. split; [ exact Hr | split; [ exact Hy | ] ].
  apply clamp_range. rewrite Hr, Hy.
  pose proof scene_maxPhi. pose proof PI_lower. unfold MIN_PHI_ABS. lra.
Qed.

Lemma pointerDown_inv (event : PointerEvent) (captured : bool)
    (c : CameraRig) :
  cameraInv c -> cameraInv (handleCanvasPointerDown event captured c).
Proof.
  intros H. unfold handleCanvasPointerDown.
  repeat match goal with
         | |- context [if ?b then _ else _] => destruct b
         end; exact H.
Qed.

Lemma pointerUp_inv (event : PointerEvent) (c : CameraRig) :
  cameraInv c -> cameraInv (onWindowPointerUpOrCancelCallback event c).
Proof.
  intros H. unfold onWindowPointerUpOrCancelCallback.
  destruct (isActivePointer c event); exact H.
Qed.

Lemma reachable_cameraInv (rnd : JS.Random) (sc : Scene) :
  reachable rnd sc -> cameraInv (cameraRig sc).
Proof.
  induction 1 as [ k attackTrigger i | sc ev Hreach IH ].
  - unfold mountedScene, animate. cbn [cameraRig].
    apply cameraUpdate_inv; cbn; [ reflexivity | ].
    pose proof scene_maxPhi. pose proof PI_lower. pose proof PI_upper.
    split; [ lra | ].
    apply Rle_trans with (PI / 2); [ lra | assumption ].
  - destruct ev; cbn [step cameraRig].
    + destruct IH as (Hr & Hy & Hphi). unfold animate. cbn [cameraRig].
      apply cameraUpdate_inv; [ exact Hr | ].
      rewrite Hr, Hy in Hphi. exact Hphi.
    + exact IH.
    + apply pointerDown_inv. exact IH.
    + apply pointerMove_inv. exact IH.
    + apply pointerUp_inv. exact IH.
Qed.

(** C9. In any reachable scene, a pointer-move event of the captured
    pointer whose client coordinates differ from the last recorded ones by
    (100, 0) decreases the camera azimuth by exactly 0.5 (the sensitivity is
    0.005; the code does not wrap the angle) and leaves the polar angle
    unchanged. *)
Theorem C9_drag_100_0_turns_azimuth_only :
  forall (rnd : JS.Random) (sc : Scene) (event : PointerEvent),
    reachable rnd sc ->
    cameraIsDragging (cameraRig sc) = true ->
    isActivePointer (cameraRig sc) event = true ->
    clientX event - fst (cameraLastPointerPos (cameraRig sc)) = 100 ->
    clientY event - snd (cameraLastPointerPos (cameraRig sc)) = 0 ->
    let c' := cameraRig (step rnd sc (PointerMove event)) in
    cameraTheta c' = cameraTheta (cameraRig sc) - 0.5
    /\ cameraPhi c' = cameraPhi (cameraRig sc).
Proof.
  intros rnd sc event Hreach Hdrag Hid Hdx Hdy c'.
  destruct (reachable_cameraInv rnd sc Hreach) as (Hr & Hy & Hphi).
  subst c'. cbn [step cameraRig]. unfold onWindowPointerMoveCallback.
  rewrite Hdrag, Hid. cbn [negb orb cameraTheta cameraPhi].
  rewrite Hdx, Hdy. split; [ lra | ].
  replace (cameraPhi (cameraRig sc) - 0 * 0.005)
    with (cameraPhi (cameraRig sc)) by lra.
  apply clamp_inside. unfold MIN_PHI_ABS. lra.
Qed.

(** Witness: the freshly mounted scene, pointer 1 pressed at (0, 0) and
    then moved to (100, 0). *)
Lemma C9_drag_witness :
  let rnd := Scenario.always (1 / 2) in
  let sc :=
    step rnd (mountedScene rnd 0 0 Scenario.idleFrame)
      (PointerDown (Scenario.pointerAt 0 0) true) in
  let c' := cameraRig (step rnd sc (PointerMove (Scenario.pointerAt 100 0))) in
  cameraTheta c' = cameraTheta (cameraRig sc) - 0.5
  /\ cameraPhi c' = cameraPhi (cameraRig sc).
Proof.
  intros rnd sc.
  apply (C9_drag_100_0_turns_azimuth_only rnd sc (Scenario.pointerAt 100 0)).
  - apply reachable_step. apply reachable_mounted.
  - reflexivity.
  - reflexivity.
  - cbn. lra.
  - cbn. lra.
Defined.

(** ** The enemy's body across the phases before movement *)

(** Position, facing, walk phase, original colour and the facing of the
    mesh are the same. *)
Definition sameBody (e e' : EnemyState) : Prop :=
  enemy_position e' = enemy_position e
  /\ enemy_rotationY e' = enemy_rotationY e
  /\ walkAnimationTime e' = walkAnimationTime e
  /\ enemy_originalColor e' = enemy_originalColor e
  /\ mesh_rotation_y (enemy_mesh e') = mesh_rotation_y (enemy_mesh e).

Lemma sameBody_refl (e : EnemyState) : sameBody e e.
Proof. repeat split. Qed.

Lemma sameBody_trans (e1 e2 e3 : EnemyState) :
  sameBody e1 e2 -> sameBody e2 e3 -> sameBody e1 e3.
Proof.
  unfold sameBody. intros (A1 & A2 & A3 & A4 & A5) (B1 & B2 & B3 & B4 & B5).
  repeat split; congruence.
Qed.

Lemma enemyTimers_body delta e : sameBody e (enemyTimers delta e).
Proof. repeat split. Qed.

Lemma enemyAttackVisual_body delta e : sameBody e (enemyAttackVisual delta e).
Proof.
  unfold enemyAttackVisual.
  destruct (isAttackingVisual e); [ | apply sameBody_refl ].
  destruct (attackEffectTimer e + delta >=? ENEMY_ATTACK_EFFECT_DURATION);
    repeat split.
Qed.

Lemma enemyDecide_cases playerPos towers rnd k e s :
  let r := enemyDecide playerPos towers rnd k e s in
  let e' := snd (fst (fst r)) in
  e' = e \/ e' = startAttack e.
Proof.
  cbv zeta. unfold enemyDecide.
  destruct (towerThreat towers (enemy_position e)); [ left; reflexivity | ].
  destruct (AiState_eqb (aiState e) FLEEING_TOWER);
    repeat match goal with
      | |- context [emitSmokePuffs ?a ?b ?c ?d ?f] =>
          destruct (emitSmokePuffs a b c d f)
      | |- context [if ?b then _ else _] => destruct b
      end; cbn; auto.
Qed.

Lemma enemyDecide_body playerPos towers rnd k e s :
  sameBody e (snd (fst (fst (enemyDecide playerPos towers rnd k e s)))).
Proof.
  destruct (enemyDecide_cases playerPos towers rnd k e s) as [-> | ->];
    repeat split.
Qed.

Lemma enemySettle_body playerPos d e :
  sameBody e (snd (enemySettle playerPos d e)).
Proof.
  unfold enemySettle.
  repeat match goal with
    | |- context [if ?b then _ else _] => destruct b
    end; repeat split.
Qed.

Lemma enemyCommit_body d rnd k e : sameBody e (fst (enemyCommit d rnd k e)).
Proof.
  unfold enemyCommit. destruct (forceNewRoamTarget d).
  - destruct (getRandomRoamTarget mapRadius (enemy_position e)
                blueFountainPosition redFountainPosition rnd k).
    repeat split.
  - repeat split.
Qed.

Lemma enemyPlan_body delta playerPos towers rnd k e s :
  sameBody e (fst (fst (enemyPlan delta playerPos towers rnd k e s))).
Proof.
  unfold enemyPlan.
  pose proof (enemyDecide_body playerPos towers rnd k
                (enemyAttackVisual delta (enemyTimers delta e)) s) as Hd.
  destruct (enemyDecide playerPos towers rnd k
              (enemyAttackVisual delta (enemyTimers delta e)) s)
    as [[[d e2] s'] k1].
  pose proof (enemySettle_body playerPos d e2) as Hs.
  destruct (enemySettle playerPos d e2) as [d' e3].
  pose proof (enemyCommit_body d' rnd k1 e3) as Hc.
  destruct (enemyCommit d' rnd k1 e3) as [e4 k2].
  cbn [fst snd] in *.
  eapply sameBody_trans; [ | exact Hc ].
  eapply sameBody_trans; [ | exact Hs ].
  eapply sameBody_trans; [ | exact Hd ].
  eapply sameBody_trans; [ apply enemyTimers_body | ].
  apply enemyAttackVisual_body.
Qed.

(** ** C5: rollback at the arena boundary *)

Lemma outOfArena_true (position : Vector3) :
  outOfArena position = true
  <-> mapRadius * 0.98 < Rabs (x position) + Rabs (z position).
Proof. unfold outOfArena, JS.Math_abs. apply gtb_true. Qed.

Lemma playerLogic_rollback delta joyInput worldDirection up (p : PlayerRefs) :
  let player := playerState p in
  let steer :=
    playerSteering joyInput worldDirection up (player_rotationY player) in
  let tentative :=
    add (player_position player) (multiplyScalar (fst steer) (4.0 * delta)) in
  outOfArena tentative = true ->
  let player' := playerState (playerLogic delta joyInput worldDirection up p) in
  player_position player' = player_position player
  /\ player_rotationY player'
     = player_rotationY player
       + shortestAngleDiff (player_rotationY player) (snd steer)
         * (PI * 2) * delta.
Proof.
  cbv zeta. intros Hout. unfold playerLogic.
  destruct (playerSteering joyInput worldDirection up
              (player_rotationY (playerState p))) as [moveVector target].
  cbn [fst snd] in *. rewrite Hout.
  destruct (playerAttackEffectActive p);
    [ destruct (playerAttackEffectTimer p + delta
                >=? PLAYER_ATTACK_EFFECT_DURATION) | ];
    cbn; split; reflexivity.
Qed.

Lemma enemyMove_rollback delta (e : EnemyState) :
  let direction :=
    normalize (subVectors (currentTarget e) (enemy_position e)) in
  let tentative :=
    addScaledVector (enemy_position e) direction (ENEMY_MOVE_SPEED * delta) in
  outOfArena tentative = true ->
  enemy_position (enemyMove delta e) = enemy_position e
  /\ ((negb (AiState_eqb (aiState e) ATTACKING_PLAYER)
       || negb (isAttackingVisual e) = true) ->
      0.01 < lengthSq (subVectors (currentTarget e) (enemy_position e)) ->
      enemy_rotationY (enemyMove delta e)
      = enemy_rotationY e
        + shortestAngleDiff (enemy_rotationY e)
            (JS.Math_atan2 (x direction) (z direction))
          * ENEMY_ROTATION_SPEED * delta).
Proof.
  cbv zeta. intros Hout. unfold enemyMove.
  destruct (negb (AiState_eqb (aiState e) ATTACKING_PLAYER)
            || negb (isAttackingVisual e)).
  - destruct (lengthSq (subVectors (currentTarget e) (enemy_position e))
              >? 0.01) eqn:Hlen.
    + rewrite Hout. cbn. split; [ reflexivity | intros; reflexivity ].
    + apply gtb_false in Hlen. cbn. split; [ reflexivity | intros; lra ].
  - cbn. split; [ reflexivity | intros; discriminate ].
Qed.

(** C5. For the player and for the enemy, and for every frame: if the
    tentatively advanced position violates the diamond boundary
    [|x| + |z| > 0.98 * mapRadius], the actor's position after the frame is
    its position before the frame, in all coordinates, while the facing
    angle is still advanced by the usual interpolation step of that frame. *)
Theorem C5_boundary_violation_rolls_position_back :
  (forall delta joyInput worldDirection (p : PlayerRefs),
      let player := playerState p in
      let steer :=
        playerSteering joyInput worldDirection DEFAULT_UP
          (player_rotationY player) in
      let tentative :=
        add (player_position player)
          (multiplyScalar (fst steer) (4.0 * delta)) in
      mapRadius * 0.98 < Rabs (x tentative) + Rabs (z tentative) ->
      let player' :=
        playerState (playerLogic delta joyInput worldDirection DEFAULT_UP p) in
      player_position player' = player_position player
      /\ player_rotationY player'
         = player_rotationY player
           + shortestAngleDiff (player_rotationY player) (snd steer)
             * (PI * 2) * delta)
  /\ (forall delta playerPos towers rnd k (e : EnemyState) (s : Smoke),
         let planned :=
           fst (fst (enemyPlan delta playerPos towers rnd k e s)) in
         let direction :=
           normalize (subVectors (currentTarget planned) (enemy_position e)) in
         let tentative :=
           addScaledVector (enemy_position e) direction
             (ENEMY_MOVE_SPEED * delta) in
         mapRadius * 0.98 < Rabs (x tentative) + Rabs (z tentative) ->
         let e' :=
           fst (fst (enemyLogic delta playerPos towers rnd k e s)) in
         enemy_position e' = enemy_position e
         /\ ((negb (AiState_eqb (aiState planned) ATTACKING_PLAYER)
              || negb (isAttackingVisual planned) = true) ->
             0.01 < lengthSq (subVectors (currentTarget planned)
                                (enemy_position e)) ->
             enemy_rotationY e'
             = enemy_rotationY e
               + shortestAngleDiff (enemy_rotationY e)
                   (JS.Math_atan2 (x direction) (z direction))
                 * ENEMY_ROTATION_SPEED * delta)).
Proof.
  split.
  - intros delta joyInput worldDirection p player steer tentative Hout.
    apply outOfArena_true in Hout.
    exact (playerLogic_rollback delta joyInput worldDirection DEFAULT_UP p
             Hout).
  - intros delta playerPos towers rnd k e s planned direction tentative Hout.
    apply outOfArena_true in Hout.
    destruct (enemyPlan_body delta playerPos towers rnd k e s)
      as (Hpos & Hrot & _).
    fold planned in Hpos, Hrot.
    subst direction tentative. rewrite <- Hpos in Hout.
    pose proof (enemyMove_rollback delta planned Hout) as [H1 H2].
    unfold enemyLogic. cbn [fst]. fold planned.
    rewrite <- Hpos, <- Hrot. split; [ exact H1 | exact H2 ].
Qed.

(** *** Evaluating the frame on sample states *)

Ltac settle_max :=
  repeat match goal with
    | |- context [Rmax ?a ?b] =>
        first [ rewrite (Rmax_left a b) by lra
              | rewrite (Rmax_right a b) by lra ]
    end.

Ltac crunch :=
  cbn [fold_left tower_position x y z fst snd andb orb negb AiState_eqb
       enemy_mesh enemy_position enemy_rotationY enemy_originalColor
       currentTarget roamTimer isMoving walkAnimationTime aiState
       attackCooldownTimer isAttackingVisual attackEffectTimer
       newAiState newTarget forceNewRoamTarget].

Ltac settle := repeat (progress (settle_comparisons; crunch)).

Lemma normalize_unit (a : Vector3) : lengthSq a = 1 -> normalize a = a.
Proof.
  intros H. unfold normalize, length, JS.Math_sqrt. rewrite H, sqrt_1.
  rewrite eqb_neq_false by lra.
  destruct a as [ax ay az]. unfold divideScalar, multiplyScalar. cbn.
  f_equal; lra.
Qed.

(** The facing step of a player who faces +z and steers towards +x is a
    quarter turn. *)
Lemma quarter_turn_diff : shortestAngleDiff 0 (PI / 2) = PI / 2.
Proof.
  pose proof PI_lower as Hpi.
  unfold shortestAngleDiff, JS.rem, JS.trunc. cbv zeta.
  replace ((PI / 2 - 0) / (PI * 2)) with (1 / 4) by (field; lra).
  destruct (Rle_dec 0 (1 / 4)); [ | lra ].
  rewrite (Zfloor_eq 0) by (simpl; lra).
  replace (PI / 2 - 0 - PI * 2 * 0) with (PI / 2) by lra.
  settle_comparisons. reflexivity.
Qed.

Lemma steer_forward :
  playerSteering Scenario.joyForward Scenario.lookAlongX DEFAULT_UP 0
  = (mkVector3 1 0 0, PI / 2).
Proof.
  unfold playerSteering, Scenario.joyForward, Scenario.lookAlongX, DEFAULT_UP.
  cbn [x y z App.active App.x App.y].
  rewrite (normalize_unit (mkVector3 1 0 0)) by (unfold lengthSq; cbn; lra).
  assert (Hr : crossVectors (mkVector3 0 1 0) (mkVector3 1 0 0)
               = mkVector3 0 0 (-1)).
  { unfold crossVectors. cbn. f_equal; lra. }
  rewrite Hr.
  rewrite (normalize_unit (mkVector3 0 0 (-1))) by (unfold lengthSq; cbn; lra).
  assert (Hm : add (add (mkVector3 0 0 0)
                      (multiplyScalar (mkVector3 1 0 0) (- -1)))
                 (multiplyScalar (mkVector3 0 0 (-1)) (- 0))
               = mkVector3 1 0 0).
  { unfold add, multiplyScalar. cbn. f_equal; lra. }
  rewrite Hm.
  replace (lengthSq (mkVector3 1 0 0) >? 0.01) with true
    by (symmetry; apply gtb_true; unfold lengthSq; cbn; lra).
  rewrite (normalize_unit (mkVector3 1 0 0)) by (unfold lengthSq; cbn; lra).
  cbn [x z]. f_equal.
  unfold JS.Math_atan2.
  destruct (Rlt_dec 0 0); [ lra | ].
  destruct (Rlt_dec 0 1); [ reflexivity | lra ].
Qed.

Lemma no_threat_east :
  towerThreat towerDefinitions_blue (mkVector3 48.9 0 0) = None.
Proof.
  unfold towerThreat, closestTower, towerDefinitions_blue, mapRadius,
    TOWER_AVOIDANCE_RANGE_ENEMY_SQR, distanceToSquared.
  crunch. settle. reflexivity.
Qed.

Lemma plan_border :
  let planned :=
    fst (fst (enemyPlan 0.1 blueFountainPosition towerDefinitions_blue
                (Scenario.always (1 / 2)) 0 Scenario.borderEnemy
                initialSmoke)) in
  currentTarget planned = mkVector3 49.9 0 0
  /\ aiState planned = ROAMING
  /\ isAttackingVisual planned = false.
Proof.
  cbv zeta. unfold enemyPlan, enemyTimers, enemyAttackVisual,
    Scenario.borderEnemy, Scenario.enemyAt. crunch.
  unfold enemyDecide. crunch. rewrite no_threat_east.
  unfold blueFountainPosition, mapRadius, distanceToSquared,
    ENEMY_ATTACK_RANGE_SQR, ENEMY_DETECTION_RANGE_SQR,
    ENEMY_TARGET_REACH_THRESHOLD, JS.Math_max.
  crunch. settle_max. settle.
  unfold enemySettle, enemyCommit. crunch.
  repeat split.
Qed.

(** Witness: at the eastern tip of the arena, a player at (49, 0, 0) pushed
    along +x and an enemy at (48.9, 0, 0) heading for (49.9, 0, 0) both stay
    where they are after a frame of 0.1 s, and the player's facing has
    turned. *)
Lemma C5_rollback_witness :
  let player' :=
    playerState (playerLogic 0.1 Scenario.joyForward Scenario.lookAlongX
                   DEFAULT_UP Scenario.borderPlayer) in
  let e' :=
    fst (fst (enemyLogic 0.1 blueFountainPosition towerDefinitions_blue
                (Scenario.always (1 / 2)) 0 Scenario.borderEnemy
                initialSmoke)) in
  (player_position player' = mkVector3 49 0 0
   /\ player_rotationY player' = 0 + PI / 2 * (PI * 2) * 0.1
   /\ 0 < player_rotationY player')
  /\ enemy_position e' = mkVector3 48.9 0 0.
Proof.
  pose proof C5_boundary_violation_rolls_position_back as [Hplayer Henemy].
  split.
  - specialize (Hplayer 0.1 Scenario.joyForward Scenario.lookAlongX
                  Scenario.borderPlayer).
    cbv zeta in Hplayer.
    change (player_rotationY (playerState Scenario.borderPlayer)) with 0
      in Hplayer.
    rewrite steer_forward in Hplayer. cbn [fst snd] in Hplayer.
    rewrite quarter_turn_diff in Hplayer.
    destruct Hplayer as [Hpos Hrot].
    { unfold mapRadius, add, multiplyScalar. cbn.
      rewrite !Rabs_pos_eq by lra. lra. }
    cbv zeta. repeat split; [ exact Hpos | exact Hrot | ].
    rewrite Hrot. pose proof PI_lower. nra.
  - specialize (Henemy 0.1 blueFountainPosition towerDefinitions_blue
                  (Scenario.always (1 / 2)) 0%nat Scenario.borderEnemy
                  initialSmoke).
    cbv zeta in Henemy.
    destruct plan_border as (Ht & _ & _). cbv zeta in Ht.
    rewrite Ht in Henemy.
    change (enemy_position Scenario.borderEnemy) with (mkVector3 48.9 0 0)
      in Henemy.
    rewrite normalize_unit in Henemy
      by (unfold subVectors, sub, lengthSq; cbn; lra).
    apply Henemy.
    unfold mapRadius, addScaledVector, subVectors, sub, ENEMY_MOVE_SPEED. cbn.
    rewrite !Rabs_pos_eq by lra. lra.
Defined.

(** ** C2: the enemy stands still during its attack visual *)

(** While the attack visual plays, the enemy is in the attacking state, no
    tower is within the avoidance radius, and the visual has not run out. *)
Definition enemyInv (towers : list TowerInfo) (e : EnemyState) : Prop :=
  isAttackingVisual e = true ->
  aiState e = ATTACKING_PLAYER
  /\ towerThreat towers (enemy_position e) = None.

Lemma visual_phase delta (e : EnemyState) :
  let e1 := enemyAttackVisual delta (enemyTimers delta e) in
  aiState e1 = aiState e
  /\ enemy_position e1 = enemy_position e
  /\ (isAttackingVisual e1 = true ->
      isAttackingVisual e = true
      /\ attackEffectTimer e1 < ENEMY_ATTACK_EFFECT_DURATION).
Proof.
  cbv zeta. unfold enemyAttackVisual, enemyTimers.
  cbn [isAttackingVisual attackEffectTimer].
  destruct (isAttackingVisual e) eqn:Hflag.
  - destruct (attackEffectTimer e + delta >=? ENEMY_ATTACK_EFFECT_DURATION)
      eqn:Ht; cbn.
    + repeat split; discriminate.
    + apply geb_false in Ht. repeat split. exact Ht.
  - cbn. repeat split; try discriminate; rewrite Hflag in *; discriminate.
Qed.

Lemma AiState_eqb_eq (a b : AiState) : AiState_eqb a b = true <-> a = b.
Proof. destruct a, b; cbn; split; congruence. Qed.

(** The evaluation leaves a playing visual in the attacking state. *)
Lemma decide_during_visual playerPos towers rnd k (e1 : EnemyState) s :
  (isAttackingVisual e1 = true ->
   aiState e1 = ATTACKING_PLAYER
   /\ towerThreat towers (enemy_position e1) = None
   /\ attackEffectTimer e1 < ENEMY_ATTACK_EFFECT_DURATION) ->
  let r := enemyDecide playerPos towers rnd k e1 s in
  let d := fst (fst (fst r)) in
  let e2 := snd (fst (fst r)) in
  isAttackingVisual e2 = true ->
  newAiState d = ATTACKING_PLAYER
  /\ towerThreat towers (enemy_position e1) = None
  /\ attackEffectTimer e2 < ENEMY_ATTACK_EFFECT_DURATION.
Proof.
  intros Hinv. cbv zeta. unfold enemyDecide.
  destruct (towerThreat towers (enemy_position e1)) eqn:Hthreat.
  - cbn. intros Hflag. destruct (Hinv Hflag) as (_ & H & _). discriminate.
  - destruct (isAttackingVisual e1) eqn:Hflag.
    + destruct (Hinv eq_refl) as (Hst & _ & Ht). rewrite Hst. cbn.
      rewrite !andb_false_r. cbn. intros _. repeat split. exact Ht.
    + destruct (AiState_eqb (aiState e1) FLEEING_TOWER);
        repeat match goal with
          | |- context [emitSmokePuffs ?a ?b ?c ?d ?f] =>
              destruct (emitSmokePuffs a b c d f)
          | |- context [if ?b then _ else _] => destruct b
          end; cbn; rewrite ?Hflag; intros H; try discriminate;
        repeat split; unfold ENEMY_ATTACK_EFFECT_DURATION; lra.
Qed.

Lemma settle_during_visual playerPos (d : Decision) (e2 : EnemyState) :
  isAttackingVisual e2 = true ->
  newAiState d = ATTACKING_PLAYER ->
  attackEffectTimer e2 < ENEMY_ATTACK_EFFECT_DURATION ->
  let r := enemySettle playerPos d e2 in
  fst r = d /\ isAttackingVisual (snd r) = true
  /\ enemy_position (snd r) = enemy_position e2.
Proof.
  intros Hflag Hst Ht. cbv zeta. unfold enemySettle.
  rewrite Hst, Hflag. cbn [AiState_eqb andb].
  replace (attackEffectTimer e2 <? ENEMY_ATTACK_EFFECT_DURATION) with true
    by (symmetry; apply ltb_true; exact Ht).
  cbn. repeat split.
Qed.

Lemma settle_flag playerPos (d : Decision) (e2 : EnemyState) :
  isAttackingVisual (snd (enemySettle playerPos d e2)) = isAttackingVisual e2.
Proof.
  unfold enemySettle.
  repeat match goal with
    | |- context [if ?b then _ else _] => destruct b
    end; reflexivity.
Qed.

Lemma commit_state d rnd k (e : EnemyState) :
  let e' := fst (enemyCommit d rnd k e) in
  aiState e' = newAiState d
  /\ isAttackingVisual e' = isAttackingVisual e.
Proof.
  cbv zeta. unfold enemyCommit. destruct (forceNewRoamTarget d).
  - destruct (getRandomRoamTarget mapRadius (enemy_position e)
                blueFountainPosition redFountainPosition rnd k).
    split; reflexivity.
  - split; reflexivity.
Qed.

(** At movement time a playing visual means the attacking state. *)
Lemma plan_during_visual delta playerPos towers rnd k (e : EnemyState) s :
  enemyInv towers e ->
  let planned := fst (fst (enemyPlan delta playerPos towers rnd k e s)) in
  isAttackingVisual planned = true ->
  aiState planned = ATTACKING_PLAYER
  /\ towerThreat towers (enemy_position e) = None.
Proof.
  intros Hinv. cbv zeta. unfold enemyPlan.
  destruct (visual_phase delta e) as (Hst1 & Hpos1 & Hflag1).
  cbv zeta in Hst1, Hpos1, Hflag1.
  set (e1 := enemyAttackVisual delta (enemyTimers delta e)) in *.
  assert (Hinv1 : isAttackingVisual e1 = true ->
                  aiState e1 = ATTACKING_PLAYER
                  /\ towerThreat towers (enemy_position e1) = None
                  /\ attackEffectTimer e1 < ENEMY_ATTACK_EFFECT_DURATION).
  { intros H. destruct (Hflag1 H) as [Hf Ht].
    destruct (Hinv Hf) as [Ha Hb].
    rewrite Hst1, Hpos1. auto. }
  pose proof (decide_during_visual playerPos towers rnd k e1 s Hinv1) as Hd.
  cbv zeta in Hd.
  destruct (enemyDecide playerPos towers rnd k e1 s) as [[[d e2] s'] k1].
  cbn [fst snd] in Hd.
  pose proof (settle_during_visual playerPos d e2) as Hs.
  pose proof (settle_flag playerPos d e2) as Hsf.
  cbv zeta in Hs.
  destruct (enemySettle playerPos d e2) as [d' e3].
  cbn [fst snd] in Hs, Hsf.
  pose proof (commit_state d' rnd k1 e3) as Hc. cbv zeta in Hc.
  destruct (enemyCommit d' rnd k1 e3) as [e4 k2].
  cbn [fst snd] in *. destruct Hc as [Hc1 Hc2].
  intros Hflag. rewrite Hc2, Hsf in Hflag.
  destruct (Hd Hflag) as (Hnew & Hthreat & Ht).
  destruct (Hs Hflag Hnew Ht) as (Hd' & _ & _).
  rewrite Hc1, Hd', Hnew, <- Hpos1. auto.
Qed.

Lemma enemyMove_during_visual delta (e : EnemyState) :
  aiState e = ATTACKING_PLAYER ->
  isAttackingVisual e = true ->
  let e' := enemyMove delta e in
  enemy_position e' = enemy_position e
  /\ enemy_rotationY e' = enemy_rotationY e
  /\ mesh_rotation_y (enemy_mesh e') = mesh_rotation_y (enemy_mesh e)
  /\ walkAnimationTime e' = 0
  /\ isMoving e' = false
  /\ y (mesh_position (enemy_mesh e')) = CHARACTER_BASE_Y
  /\ aiState e' = aiState e
  /\ isAttackingVisual e' = isAttackingVisual e.
Proof.
  intros Hst Hflag. cbv zeta. unfold enemyMove. rewrite Hst, Hflag. cbn.
  repeat split.
Qed.

Lemma enemyMove_flag delta (e : EnemyState) :
  isAttackingVisual (enemyMove delta e) = isAttackingVisual e
  /\ aiState (enemyMove delta e) = aiState e.
Proof.
  unfold enemyMove.
  repeat match goal with
    | |- context [if ?b then _ else _] => destruct b
    end; split; reflexivity.
Qed.

Lemma enemyLogic_inv delta playerPos towers rnd k (e : EnemyState) s :
  enemyInv towers e ->
  enemyInv towers (fst (fst (enemyLogic delta playerPos towers rnd k e s))).
Proof.
  intros Hinv. unfold enemyLogic. cbn [fst].
  pose proof (plan_during_visual delta playerPos towers rnd k e s Hinv) as Hp.
  pose proof (enemyPlan_body delta playerPos towers rnd k e s) as (Hpos & _).
  cbv zeta in Hp.
  set (planned := fst (fst (enemyPlan delta playerPos towers rnd k e s))) in *.
  destruct (enemyMove_flag delta planned) as [Hf Ha].
  intros Hflag. rewrite Hf in Hflag.
  destruct (Hp Hflag) as [Hst Hthreat].
  destruct (enemyMove_during_visual delta planned Hst Hflag)
    as (Hpos' & _).
  rewrite Ha, Hpos', Hpos. auto.
Qed.

Lemma step_towers rnd sc ev : blueTowers (step rnd sc ev) = blueTowers sc.
Proof. destruct ev; reflexivity. Qed.

(** The enemy of a reachable scene has an enemy history. *)
Lemma scene_enemy_history (rnd : JS.Random) (sc : Scene) :
  reachable rnd sc ->
  EnemyHistory.reachable (blueTowers sc) (enemyState sc).
Proof.
  induction 1 as [ k attackTrigger i | sc ev Hreach IH ].
  - unfold mountedScene, animate. cbn [blueTowers enemyState].
    apply EnemyHistory.advanced. apply EnemyHistory.created. reflexivity.
  - destruct ev; cbn [step blueTowers enemyState]; try exact IH.
    unfold animate. cbn [blueTowers enemyState].
    apply EnemyHistory.advanced. exact IH.
Qed.

(** *** The tick that starts an attack *)

Lemma attack_start delta playerPos towers rnd k (e : EnemyState) (s : Smoke) :
  towerThreat towers (enemy_position e) = None ->
  distanceToSquared (enemy_position e) playerPos < ENEMY_ATTACK_RANGE_SQR ->
  0 <= delta ->
  attackCooldownTimer e <= 0 ->
  isAttackingVisual e = false ->
  let r := enemyLogic delta playerPos towers rnd k e s in
  let e' := fst (fst r) in
  let burst := emitSmokePuffs (enemy_position e) 0.8 rnd k s in
  aiState e' = ATTACKING_PLAYER
  /\ isAttackingVisual e' = true
  /\ attackEffectTimer e' = 0
  /\ attackCooldownTimer e' = ENEMY_ATTACK_COOLDOWN
  /\ snd (fst r) = fst burst
  /\ enemy_position e' = enemy_position e
  /\ (aiState e <> FLEEING_TOWER ->
      currentTarget e' = playerPos /\ snd r = snd burst)
  /\ (aiState e = FLEEING_TOWER ->
      currentTarget e'
      = fst (getRandomRoamTarget mapRadius (enemy_position e)
               blueFountainPosition redFountainPosition rnd (snd burst))).
Proof.
  destruct e as [m pos rot col target roam moving walk st cd flag timer].
  cbn [enemy_position attackCooldownTimer isAttackingVisual aiState].
  intros Hthreat Hdist Hdelta Hcd ->. cbv zeta.
  unfold enemyLogic, enemyPlan, enemyTimers, enemyAttackVisual, enemyDecide.
  cbn [enemy_mesh enemy_position enemy_rotationY enemy_originalColor
       currentTarget roamTimer isMoving walkAnimationTime aiState
       attackCooldownTimer isAttackingVisual attackEffectTimer].
  rewrite Hthreat.
  replace (distanceToSquared pos playerPos <? ENEMY_ATTACK_RANGE_SQR)
    with true by (symmetry; apply ltb_true; exact Hdist).
  replace (JS.Math_max 0 (cd - delta) <=? 0) with true
    by (symmetry; apply leb_true; unfold JS.Math_max;
        rewrite Rmax_left by lra; lra).
  destruct (emitSmokePuffs pos 0.8 rnd k s) as [s' k'] eqn:Hemit.
  assert (Hdur : (0 <? ENEMY_ATTACK_EFFECT_DURATION) = true)
    by (apply ltb_true; unfold ENEMY_ATTACK_EFFECT_DURATION; lra).
  destruct st; cbn [AiState_eqb negb andb];
    unfold enemySettle, startAttack;
    cbn [newAiState AiState_eqb andb enemy_mesh enemy_position
         enemy_rotationY enemy_originalColor currentTarget roamTimer isMoving
         walkAnimationTime aiState attackCooldownTimer isAttackingVisual
         attackEffectTimer];
    rewrite Hdur; unfold enemyCommit;
    cbn [forceNewRoamTarget newAiState newTarget enemy_mesh enemy_position
         enemy_rotationY enemy_originalColor currentTarget roamTimer isMoving
         walkAnimationTime aiState attackCooldownTimer isAttackingVisual
         attackEffectTimer];
    try destruct (getRandomRoamTarget mapRadius pos blueFountainPosition
                    redFountainPosition rnd k') as [target' k''] eqn:Hroam;
    unfold enemyMove;
    cbn [fst snd aiState isAttackingVisual AiState_eqb negb orb
         attackEffectTimer attackCooldownTimer enemy_position currentTarget];
    repeat split; intros; repeat split; try congruence;
    rewrite Hroam; reflexivity.
Qed.

Lemma no_threat_skirmish :
  towerThreat towerDefinitions_blue (mkVector3 0 0 (-14.9)) = None.
Proof.
  unfold towerThreat, closestTower, towerDefinitions_blue, mapRadius,
    TOWER_AVOIDANCE_RANGE_ENEMY_SQR, distanceToSquared.
  crunch. settle. reflexivity.
Qed.

(** C2. In every state the enemy can reach, and for every frame: if the
    attack-visual flag is set at movement time (the movement code does not
    change it, so this is the flag after the frame), then the frame leaves
    the enemy's position and facing angle, and the facing of its mesh, as
    they were, the walk phase is zero and the mesh rests at its base height.
    The state selected by the priority evaluation is then necessarily the
    attacking state: a tower-flee override cannot coincide with a playing
    visual, since the visual starts only with no tower in range and the
    enemy does not move until it ends. *)
Theorem C2_enemy_frozen_during_attack_visual :
  forall (towers : list TowerInfo) (e : EnemyState),
    EnemyHistory.reachable towers e ->
    forall delta playerPos rnd k s,
      let planned := fst (fst (enemyPlan delta playerPos towers rnd k e s)) in
      let e' := fst (fst (enemyLogic delta playerPos towers rnd k e s)) in
      isAttackingVisual planned = true ->
      isAttackingVisual e' = true
      /\ aiState e' = ATTACKING_PLAYER
      /\ enemy_position e' = enemy_position e
      /\ enemy_rotationY e' = enemy_rotationY e
      /\ mesh_rotation_y (enemy_mesh e') = mesh_rotation_y (enemy_mesh e)
      /\ walkAnimationTime e' = 0
      /\ isMoving e' = false
      /\ y (mesh_position (enemy_mesh e')) = CHARACTER_BASE_Y.
Proof.
  intros towers e Hreach.
  assert (Hinv : enemyInv towers e).
  { induction Hreach as [ e Hflag | e delta playerPos rnd k s Hreach IH ].
    - intros H. congruence.
    - apply enemyLogic_inv. exact IH. }
  intros delta playerPos rnd k s planned e' Hflag.
  destruct (plan_during_visual delta playerPos towers rnd k e s Hinv Hflag)
    as [Hst _].
  fold planned in Hst.
  destruct (enemyMove_during_visual delta planned Hst Hflag)
    as (Hpos & Hrot & Hmrot & Hwalk & Hmov & Hy & Hst' & Hflag').
  destruct (enemyPlan_body delta playerPos towers rnd k e s)
    as (Hpos0 & Hrot0 & _ & _ & Hmesh).
  fold planned in Hpos0, Hrot0, Hmesh.
  subst e'. unfold enemyLogic. cbn [fst]. fold planned.
  repeat split; congruence.
Qed.

(** Witness: an enemy two units from the player, out of tower range, with
    its cooldown expired, starts its attack in this frame and stays put. *)
Lemma C2_frozen_witness :
  let e := Scenario.skirmishEnemy ROAMING in
  let e' :=
    fst (fst (enemyLogic 0.1 Scenario.skirmishPlayerPos towerDefinitions_blue
                (Scenario.always (1 / 2)) 0 e initialSmoke)) in
  isAttackingVisual e' = true
  /\ enemy_position e' = mkVector3 0 0 (-14.9)
  /\ enemy_rotationY e' = PI
  /\ walkAnimationTime e' = 0.
Proof.
  intros e e'.
  assert (Hflag : isAttackingVisual
                    (fst (fst (enemyPlan 0.1 Scenario.skirmishPlayerPos
                                 towerDefinitions_blue
                                 (Scenario.always (1 / 2)) 0 e initialSmoke)))
                  = true).
  { assert (Hdist : distanceToSquared (enemy_position e)
                      Scenario.skirmishPlayerPos < ENEMY_ATTACK_RANGE_SQR).
    { unfold distanceToSquared, ENEMY_ATTACK_RANGE_SQR. cbn. lra. }
    assert (Hdelta : 0 <= 0.1) by lra.
    assert (Hcd : attackCooldownTimer e <= 0) by (cbn; lra).
    destruct (attack_start 0.1 Scenario.skirmishPlayerPos
                towerDefinitions_blue (Scenario.always (1 / 2)) 0 e
                initialSmoke no_threat_skirmish Hdist Hdelta Hcd eq_refl)
      as (_ & Hf & _).
    unfold enemyLogic in Hf. cbn [fst] in Hf.
    rewrite (proj1 (enemyMove_flag _ _)) in Hf. exact Hf. }
  destruct (C2_enemy_frozen_during_attack_visual towerDefinitions_blue e
              (EnemyHistory.created _ e eq_refl) 0.1
              Scenario.skirmishPlayerPos (Scenario.always (1 / 2)) 0%nat
              initialSmoke Hflag)
    as (H1 & _ & H2 & H3 & _ & H4 & _).
  repeat split; assumption.
Defined.

(** ** C3: the tick that starts an attack after a flight *)

Lemma roam_target_at_half (currentPos : Vector3) (k : nat) :
  fst (getRandomRoamTarget mapRadius currentPos blueFountainPosition
         redFountainPosition (Scenario.always (1 / 2)) k)
  = mkVector3 0 0 0.
Proof.
  unfold getRandomRoamTarget. cbn [roamLoop].
  unfold roamRejected, roamCandidate, roamBoundary, Scenario.always,
    blueFountainPosition, redFountainPosition, mapRadius,
    lengthSq, distanceToSquared.
  cbn [x y z]. settle_comparisons. cbn [andb fst].
  f_equal; lra.
Qed.

(** C3 at its failing input. The enemy fled from the blue mid tower on the
    previous tick and now stands just outside the avoidance radius, the
    player is two units away, the cooldown has expired and no visual plays.
    The tick starts the attack (state, visual timer, cooldown and one burst
    at the enemy's position are as claimed), but the retarget flag set for
    leaving the flight is still up when the target is stored: the current
    target becomes a fresh roam point, here the origin, not the player's
    position. *)
Theorem C3_attack_after_flight_targets_roam_point :
  let e := Scenario.skirmishEnemy FLEEING_TOWER in
  let playerPos := Scenario.skirmishPlayerPos in
  let rnd := Scenario.always (1 / 2) in
  let r := enemyLogic 0.1 playerPos towerDefinitions_blue rnd 0 e
             initialSmoke in
  let e' := fst (fst r) in
  (towerThreat towerDefinitions_blue (enemy_position e) = None
   /\ distanceToSquared (enemy_position e) playerPos < 4.84
   /\ attackCooldownTimer e <= 0
   /\ isAttackingVisual e = false)
  /\ aiState e' = ATTACKING_PLAYER
  /\ isAttackingVisual e' = true
  /\ attackEffectTimer e' = 0
  /\ attackCooldownTimer e' = 2.5
  /\ snd (fst r) = fst (emitSmokePuffs (enemy_position e) 0.8 rnd 0 initialSmoke)
  /\ currentTarget e' = mkVector3 0 0 0
  /\ currentTarget e' <> playerPos.
Proof.
  intros e playerPos rnd r e'.
  assert (Hdist : distanceToSquared (enemy_position e) playerPos
                  < ENEMY_ATTACK_RANGE_SQR).
  { unfold distanceToSquared, ENEMY_ATTACK_RANGE_SQR. cbn. lra. }
  assert (Hdelta : 0 <= 0.1) by lra.
  assert (Hcd : attackCooldownTimer e <= 0) by (cbn; lra).
  destruct (attack_start 0.1 playerPos towerDefinitions_blue rnd 0 e
              initialSmoke no_threat_skirmish Hdist Hdelta Hcd eq_refl)
    as (H1 & H2 & H3 & H4 & H5 & _ & _ & H6).
  cbv zeta in H1, H2, H3, H4, H5, H6.
  assert (Ht : currentTarget e' = mkVector3 0 0 0).
  { unfold e', r. rewrite H6 by reflexivity. apply roam_target_at_half. }
  fold r in H1, H2, H3, H4, H5. fold e' in H1, H2, H3, H4.
  split.
  - repeat split; try assumption; try exact no_threat_skirmish.
    unfold ENEMY_ATTACK_RANGE_SQR in Hdist. lra.
  - repeat split; try assumption.
    rewrite Ht. unfold playerPos, Scenario.skirmishPlayerPos.
    intros H. injection H as H. lra.
Qed.

(** ** C7: the attack visual returns the material to rest *)

Section AttackVisual.
Import Frames.

(** *** Player *)

Lemma playerLogic_visual delta joyInput worldDirection (p : PlayerRefs) :
  let p' := playerLogic delta joyInput worldDirection DEFAULT_UP p in
  let material := mesh_material (player_mesh (playerState p)) in
  let material' := mesh_material (player_mesh (playerState p')) in
  let original := player_originalColor (playerState p) in
  player_originalColor (playerState p') = original
  /\ (playerAttackEffectActive p = false ->
      playerAttackEffectActive p' = false /\ material' = material)
  /\ (playerAttackEffectActive p = true ->
      PLAYER_ATTACK_EFFECT_DURATION <= playerAttackEffectTimer p + delta ->
      playerAttackEffectActive p' = false
      /\ material' = restMaterial original)
  /\ (playerAttackEffectActive p = true ->
      playerAttackEffectTimer p + delta < PLAYER_ATTACK_EFFECT_DURATION ->
      playerAttackEffectActive p' = true
      /\ playerAttackEffectTimer p' = playerAttackEffectTimer p + delta
      /\ material' = material).
Proof.
  cbv zeta. unfold playerLogic.
  destruct (playerSteering joyInput worldDirection DEFAULT_UP
              (player_rotationY (playerState p))) as [moveVector target].
  destruct (playerAttackEffectActive p).
  - destruct (playerAttackEffectTimer p + delta
              >=? PLAYER_ATTACK_EFFECT_DURATION) eqn:Ht;
      [ apply geb_true in Ht | apply geb_false in Ht ];
      cbn; repeat split; intros; try discriminate; try reflexivity; lra.
  - cbn. repeat split; intros; try discriminate; reflexivity.
Qed.

Lemma after_cons rnd sc i frames :
  after rnd sc (i :: frames) = after rnd (animate rnd i sc) frames.
Proof. reflexivity. Qed.

Lemma playerRefs_animate rnd i sc :
  playerRefs (animate rnd i sc)
  = playerLogic (delta i) (joyInput i) (worldDirection i) DEFAULT_UP
      (playerRefs sc).
Proof. reflexivity. Qed.

(** Frames do not touch the material of a player whose flash is over. *)
Lemma player_rest_stays rnd frames :
  forall sc,
    playerAttackEffectActive (playerRefs sc) = false ->
    playerMaterial (after rnd sc frames) = playerMaterial sc
    /\ playerAttackEffectActive (playerRefs (after rnd sc frames)) = false.
Proof.
  induction frames as [ | i frames IH ]; intros sc Hoff.
  - split; [ reflexivity | exact Hoff ].
  - rewrite after_cons.
    destruct (playerLogic_visual (delta i) (joyInput i) (worldDirection i)
                (playerRefs sc)) as (_ & Hrest & _).
    cbv zeta in Hrest. destruct (Hrest Hoff) as [Hoff' Hmat].
    rewrite <- (playerRefs_animate rnd i sc) in Hoff', Hmat.
    destruct (IH (animate rnd i sc) Hoff') as [H1 H2].
    split; [ | exact H2 ].
    rewrite H1. unfold playerMaterial. exact Hmat.
Qed.

Lemma player_flash_ends rnd frames :
  forall sc,
    playerAttackEffectActive (playerRefs sc) = true ->
    PLAYER_ATTACK_EFFECT_DURATION
    <= playerAttackEffectTimer (playerRefs sc) + elapsed frames ->
    playerAttackEffectTimer (playerRefs sc)
    < PLAYER_ATTACK_EFFECT_DURATION ->
    playerMaterial (after rnd sc frames)
    = restMaterial (player_originalColor (playerState (playerRefs sc)))
    /\ playerAttackEffectActive (playerRefs (after rnd sc frames)) = false.
Proof.
  induction frames as [ | i frames IH ]; intros sc Hon Hsum Hrun.
  - cbn in Hsum. lra.
  - rewrite after_cons. cbn [elapsed fold_right] in Hsum.
    fold (elapsed frames) in Hsum.
    destruct (playerLogic_visual (delta i) (joyInput i) (worldDirection i)
                (playerRefs sc)) as (Hcol & _ & Hend & Hgo).
    cbv zeta in Hcol, Hend, Hgo.
    rewrite <- (playerRefs_animate rnd i sc) in Hcol, Hend, Hgo.
    destruct (Rle_lt_dec PLAYER_ATTACK_EFFECT_DURATION
                (playerAttackEffectTimer (playerRefs sc) + delta i))
      as [Hdone | Hnot].
    + destruct (Hend Hon Hdone) as [Hoff Hmat].
      destruct (player_rest_stays rnd frames (animate rnd i sc) Hoff)
        as [H1 H2].
      split; [ | exact H2 ].
      rewrite H1. unfold playerMaterial. exact Hmat.
    + destruct (Hgo Hon Hnot) as (Hon' & Ht & _).
      rewrite <- Hcol. apply IH.
      * exact Hon'.
      * rewrite Ht. lra.
      * rewrite Ht. exact Hnot.
Qed.

Lemma trigger_starts_flash rnd sc attackTrigger :
  lastAttackTrigger (playerRefs sc) < attackTrigger ->
  let sc' := step rnd sc (AttackTrigger attackTrigger) in
  playerAttackEffectActive (playerRefs sc') = true
  /\ playerAttackEffectTimer (playerRefs sc') = 0
  /\ player_originalColor (playerState (playerRefs sc'))
     = player_originalColor (playerState (playerRefs sc)).
Proof.
  intros Hlt. cbv zeta. cbn [step playerRefs]. unfold attackTriggerEffect.
  replace (attackTrigger >? lastAttackTrigger (playerRefs sc)) with true
    by (symmetry; apply gtb_true; exact Hlt).
  cbn. repeat split.
Qed.

Lemma trigger_flash_material rnd sc attackTrigger :
  lastAttackTrigger (playerRefs sc) < attackTrigger ->
  let original := player_originalColor (playerState (playerRefs sc)) in
  playerMaterial (step rnd sc (AttackTrigger attackTrigger))
  = mkMaterial (lerpColors original (setHex 0xffffff) 0.3) original 0.7.
Proof.
  intros Hlt. cbv zeta. unfold playerMaterial.
  cbn [step playerRefs]. unfold attackTriggerEffect.
  replace (attackTrigger >? lastAttackTrigger (playerRefs sc)) with true
    by (symmetry; apply gtb_true; exact Hlt).
  reflexivity.
Qed.

Lemma trigger_recorded rnd sc attackTrigger :
  lastAttackTrigger (playerRefs sc) < attackTrigger ->
  lastAttackTrigger (playerRefs (step rnd sc (AttackTrigger attackTrigger)))
  = attackTrigger.
Proof.
  intros Hlt. cbn [step playerRefs]. unfold attackTriggerEffect.
  replace (attackTrigger >? lastAttackTrigger (playerRefs sc)) with true
    by (symmetry; apply gtb_true; exact Hlt).
  reflexivity.
Qed.

Lemma playerLogic_trigger delta joyInput worldDirection (p : PlayerRefs) :
  lastAttackTrigger (playerLogic delta joyInput worldDirection DEFAULT_UP p)
  = lastAttackTrigger p.
Proof.
  unfold playerLogic.
  destruct (playerSteering joyInput worldDirection DEFAULT_UP
              (player_rotationY (playerState p))) as [moveVector target].
  repeat match goal with
    | |- context [if ?b then _ else _] => destruct b
    end; reflexivity.
Qed.

(** *** Enemy *)

(** Material, original colour, visual flag and visual timer agree. *)
Definition sameLook (e e' : EnemyState) : Prop :=
  mesh_material (enemy_mesh e') = mesh_material (enemy_mesh e)
  /\ enemy_originalColor e' = enemy_originalColor e
  /\ isAttackingVisual e' = isAttackingVisual e
  /\ attackEffectTimer e' = attackEffectTimer e.

Lemma sameLook_trans (e1 e2 e3 : EnemyState) :
  sameLook e1 e2 -> sameLook e2 e3 -> sameLook e1 e3.
Proof.
  unfold sameLook. intros (A1 & A2 & A3 & A4) (B1 & B2 & B3 & B4).
  repeat split; congruence.
Qed.

Lemma enemySettle_look playerPos d e :
  sameLook e (snd (enemySettle playerPos d e)).
Proof.
  unfold enemySettle.
  repeat match goal with
    | |- context [if ?b then _ else _] => destruct b
    end; repeat split.
Qed.

Lemma enemyCommit_look d rnd k e : sameLook e (fst (enemyCommit d rnd k e)).
Proof.
  unfold enemyCommit. destruct (forceNewRoamTarget d).
  - destruct (getRandomRoamTarget mapRadius (enemy_position e)
                blueFountainPosition redFountainPosition rnd k).
    repeat split.
  - repeat split.
Qed.

Lemma enemyMove_look delta e : sameLook e (enemyMove delta e).
Proof.
  unfold enemyMove.
  repeat match goal with
    | |- context [if ?b then _ else _] => destruct b
    end; repeat split.
Qed.

(** The evaluation never touches the material, and leaves a playing
    visual alone. *)
Lemma enemyDecide_look playerPos towers rnd k e s :
  let e' := snd (fst (fst (enemyDecide playerPos towers rnd k e s))) in
  mesh_material (enemy_mesh e') = mesh_material (enemy_mesh e)
  /\ enemy_originalColor e' = enemy_originalColor e
  /\ (isAttackingVisual e = true -> e' = e).
Proof.
  cbv zeta.
  destruct (enemyDecide_cases playerPos towers rnd k e s) as [He | He];
    cbv zeta in He.
  - rewrite He. repeat split.
  - repeat split; try (rewrite He; reflexivity).
    intros Hflag. revert He. unfold enemyDecide.
    destruct (towerThreat towers (enemy_position e)); [ cbn; congruence | ].
    rewrite Hflag.
    destruct (AiState_eqb (aiState e) FLEEING_TOWER);
      rewrite !andb_false_r;
      repeat match goal with
        | |- context [if ?b then _ else _] => destruct b
        end; cbn; congruence.
Qed.

Lemma enemyLogic_visual delta playerPos towers rnd k (e : EnemyState) s :
  let e' := fst (fst (enemyLogic delta playerPos towers rnd k e s)) in
  enemy_originalColor e' = enemy_originalColor e
  /\ (isAttackingVisual e = true ->
      ENEMY_ATTACK_EFFECT_DURATION <= attackEffectTimer e + delta ->
      mesh_material (enemy_mesh e')
      = restMaterial (enemy_originalColor e))
  /\ (isAttackingVisual e = true ->
      attackEffectTimer e + delta < ENEMY_ATTACK_EFFECT_DURATION ->
      isAttackingVisual e' = true
      /\ attackEffectTimer e' = attackEffectTimer e + delta).
Proof.
  cbv zeta. unfold enemyLogic, enemyPlan. cbn [fst].
  set (e1 := enemyAttackVisual delta (enemyTimers delta e)).
  pose proof (enemyDecide_look playerPos towers rnd k e1 s) as Hd.
  cbv zeta in Hd.
  destruct (enemyDecide playerPos towers rnd k e1 s) as [[[d e2] s'] k1].
  pose proof (enemySettle_look playerPos d e2) as Hs.
  destruct (enemySettle playerPos d e2) as [d' e3].
  pose proof (enemyCommit_look d' rnd k1 e3) as Hc.
  destruct (enemyCommit d' rnd k1 e3) as [e4 k2].
  cbn [fst snd] in *.
  pose proof (sameLook_trans _ _ _ Hs
                (sameLook_trans _ _ _ Hc (enemyMove_look delta e4)))
    as (Hmat & Hcol & Hflag & Htimer).
  destruct Hd as (Hmat2 & Hcol2 & Hkeep).
  assert (Hcol1 : enemy_originalColor e1 = enemy_originalColor e).
  { subst e1. unfold enemyAttackVisual, enemyTimers. cbn.
    repeat match goal with
      | |- context [if ?b then _ else _] => destruct b
      end; reflexivity. }
  split; [ congruence | split ].
  - intros Hon Hdone. rewrite Hmat, Hmat2. subst e1.
    unfold enemyAttackVisual, enemyTimers. cbn. rewrite Hon.
    replace (attackEffectTimer e + delta >=? ENEMY_ATTACK_EFFECT_DURATION)
      with true by (symmetry; apply geb_true; exact Hdone).
    reflexivity.
  - intros Hon Hnot.
    assert (H1 : isAttackingVisual e1 = true
                 /\ attackEffectTimer e1 = attackEffectTimer e + delta).
    { subst e1. unfold enemyAttackVisual, enemyTimers. cbn. rewrite Hon.
      replace (attackEffectTimer e + delta >=? ENEMY_ATTACK_EFFECT_DURATION)
        with false by (symmetry; apply geb_false; exact Hnot).
      split; reflexivity. }
    destruct H1 as [Hon1 Ht1].
    rewrite Hflag, Htimer, (Hkeep Hon1). split; assumption.
Qed.

Lemma enemyState_animate rnd i sc :
  enemyState (animate rnd i sc)
  = fst (fst (enemyLogic (delta i)
                (player_position
                   (playerState
                      (playerLogic (delta i) (joyInput i) (worldDirection i)
                         DEFAULT_UP (playerRefs sc))))
                (blueTowers sc) rnd (randomCalls sc) (enemyState sc)
                (smoke sc))).
Proof. reflexivity. Qed.

(** A playing visual ends within the frames that outlast it, and the
    frame that ends it leaves the material at rest. *)
Lemma enemy_visual_ends rnd frames :
  forall sc,
    isAttackingVisual (enemyState sc) = true ->
    attackEffectTimer (enemyState sc) < ENEMY_ATTACK_EFFECT_DURATION ->
    ENEMY_ATTACK_EFFECT_DURATION
    <= attackEffectTimer (enemyState sc) + elapsed frames ->
    exists n,
      (1 <= n <= List.length frames)%nat
      /\ (forall m, (m < n)%nat ->
            isAttackingVisual
              (enemyState (after rnd sc (firstn m frames))) = true)
      /\ enemyMaterial (after rnd sc (firstn n frames))
         = restMaterial (enemy_originalColor (enemyState sc)).
Proof.
  induction frames as [ | i frames IH ]; intros sc Hon Hrun Hsum.
  - cbn in Hsum. lra.
  - cbn [elapsed fold_right] in Hsum. fold (elapsed frames) in Hsum.
    pose proof (enemyLogic_visual (delta i)
                  (player_position
                     (playerState
                        (playerLogic (delta i) (joyInput i)
                           (worldDirection i) DEFAULT_UP (playerRefs sc))))
                  (blueTowers sc) rnd (randomCalls sc) (enemyState sc)
                  (smoke sc)) as (Hcol & Hend & Hgo).
    cbv zeta in Hcol, Hend, Hgo.
    rewrite <- (enemyState_animate rnd i sc) in Hcol, Hend, Hgo.
    destruct (Rle_lt_dec ENEMY_ATTACK_EFFECT_DURATION
                (attackEffectTimer (enemyState sc) + delta i))
      as [Hdone | Hnot].
    + exists 1%nat. repeat split.
      * lia.
      * cbn [List.length]. lia.
      * intros m Hm. replace m with 0%nat by lia. exact Hon.
      * cbn [firstn]. rewrite after_cons. unfold enemyMaterial.
        exact (Hend Hon Hdone).
    + destruct (Hgo Hon Hnot) as [Hon' Ht].
      destruct (IH (animate rnd i sc) Hon') as (n & Hn & Hbefore & Hmat).
      * rewrite Ht. exact Hnot.
      * rewrite Ht. lra.
      * exists (S n). repeat split.
        -- lia.
        -- cbn [List.length]. lia.
        -- intros [ | m ] Hm; [ exact Hon | ].
           cbn [firstn]. rewrite after_cons. apply Hbefore. lia.
        -- cbn [firstn]. rewrite after_cons, Hmat, Hcol. reflexivity.
Qed.

End AttackVisual.

(** C7 (as the code has it). Player: after an attack trigger, any frames
    that together last at least 0.3 s leave the player's material at rest:
    colour equal to the original colour, emissive colour black, emissive
    intensity 0, and the flash switched off.  Enemy: once its attack visual
    has started, among any frames that together last at least 0.45 s there
    is a first frame at which the visual is over, and that frame leaves the
    enemy's material at rest in the same sense.  In both cases the material
    equals the one held when the attack started whenever that material was
    the rest material. *)
Theorem C7_attack_visual_returns_material_to_rest :
  (forall rnd sc attackTrigger frames,
      lastAttackTrigger (playerRefs sc) < attackTrigger ->
      PLAYER_ATTACK_EFFECT_DURATION <= Frames.elapsed frames ->
      let original := player_originalColor (playerState (playerRefs sc)) in
      let final :=
        Frames.after rnd (step rnd sc (AttackTrigger attackTrigger)) frames in
      Frames.playerMaterial final = mkMaterial original (mkColor 0 0 0) 0
      /\ playerAttackEffectActive (playerRefs final) = false
      /\ (Frames.playerMaterial sc = mkMaterial original (mkColor 0 0 0) 0 ->
          Frames.playerMaterial final = Frames.playerMaterial sc))
  /\ (forall rnd sc frames,
         isAttackingVisual (enemyState sc) = true ->
         attackEffectTimer (enemyState sc) = 0 ->
         ENEMY_ATTACK_EFFECT_DURATION <= Frames.elapsed frames ->
         let original := enemy_originalColor (enemyState sc) in
         exists n,
           (1 <= n <= List.length frames)%nat
           /\ (forall m, (m < n)%nat ->
                 isAttackingVisual
                   (enemyState (Frames.after rnd sc (firstn m frames)))
                 = true)
           /\ Frames.enemyMaterial (Frames.after rnd sc (firstn n frames))
              = mkMaterial original (mkColor 0 0 0) 0
           /\ (Frames.enemyMaterial sc = mkMaterial original (mkColor 0 0 0) 0 ->
               Frames.enemyMaterial (Frames.after rnd sc (firstn n frames))
               = Frames.enemyMaterial sc)).
Proof.
  assert (Hblack : setHex 0 = mkColor 0 0 0).
  { unfold setHex. cbn. f_equal; lra. }
  split.
  - intros rnd sc attackTrigger frames Hlt Hsum original final.
    destruct (trigger_starts_flash rnd sc attackTrigger Hlt)
      as (Hon & Ht & Hcol).
    destruct (player_flash_ends rnd frames
                (step rnd sc (AttackTrigger attackTrigger)) Hon)
      as [Hmat Hoff].
    + rewrite Ht. lra.
    + rewrite Ht. unfold PLAYER_ATTACK_EFFECT_DURATION. lra.
    + fold final in Hmat, Hoff. rewrite Hcol in Hmat. fold original in Hmat.
      unfold restMaterial in Hmat. rewrite Hblack in Hmat.
      repeat split; [ exact Hmat | exact Hoff | ].
      intros Hrest. rewrite Hmat, Hrest. reflexivity.
  - intros rnd sc frames Hon Ht Hsum original.
    destruct (enemy_visual_ends rnd frames sc Hon) as (n & Hn & Hbefore & Hmat).
    + rewrite Ht. unfold ENEMY_ATTACK_EFFECT_DURATION. lra.
    + rewrite Ht. lra.
    + fold original in Hmat. unfold restMaterial in Hmat.
      rewrite Hblack in Hmat.
      exists n. repeat split; try lia; try assumption.
      intros Hrest. rewrite Hmat, Hrest. reflexivity.
Qed.

(** Witness: the player at rest attacks and idles for 0.3 s; an enemy that
    has just started its visual is left alone for 0.45 s. *)
Lemma C7_round_trip_witness :
  Frames.playerMaterial
    (Frames.after (Scenario.always (1 / 2))
       (step (Scenario.always (1 / 2)) Scenario.arena (AttackTrigger 1))
       [Scenario.idleFor 0.3])
  = Frames.playerMaterial Scenario.arena
  /\ exists n,
       Frames.enemyMaterial
         (Frames.after (Scenario.always (1 / 2)) Scenario.skirmish
            (firstn n [Scenario.idleFor 0.45]))
       = Frames.enemyMaterial Scenario.skirmish.
Proof.
  assert (Hblack : setHex 0 = mkColor 0 0 0).
  { unfold setHex. cbn. f_equal; lra. }
  destruct C7_attack_visual_returns_material_to_rest as [Hplayer Henemy].
  split.
  - apply Hplayer.
    + cbn. lra.
    + unfold PLAYER_ATTACK_EFFECT_DURATION. cbn. lra.
    + unfold Frames.playerMaterial. cbn. unfold restMaterial.
      rewrite Hblack. reflexivity.
  - destruct (Henemy (Scenario.always (1 / 2)) Scenario.skirmish
                [Scenario.idleFor 0.45])
      as (n & _ & _ & _ & Hsame).
    + reflexivity.
    + reflexivity.
    + unfold ENEMY_ATTACK_EFFECT_DURATION. cbn. lra.
    + exists n. apply Hsame.
      unfold Frames.enemyMaterial. cbn. unfold restMaterial.
      rewrite Hblack. reflexivity.
Defined.

(** Counterexample to C7 as stated: the player attacks, and 0.1 s later,
    with the flash still on, attacks again.  Immediately before the second
    attack starts the emissive intensity is 0.7 and the emissive colour is
    the original colour; 0.3 s after it the intensity is 0 and the emissive
    colour black, so the material does not return to the values it held
    immediately before that attack started. *)
Lemma C7_counterexample_retrigger_during_flash :
  let rnd := Scenario.always (1 / 2) in
  let first := step rnd Scenario.arena (AttackTrigger 1) in
  let before := Frames.after rnd first [Scenario.idleFor 0.1] in
  let second := step rnd before (AttackTrigger 2) in
  let final := Frames.after rnd second [Scenario.idleFor 0.3] in
  emissiveIntensity (Frames.playerMaterial before) = 0.7
  /\ emissiveIntensity (Frames.playerMaterial final) = 0
  /\ Frames.playerMaterial final <> Frames.playerMaterial before.
Proof.
  intros rnd first before second final.
  assert (H1 : lastAttackTrigger (playerRefs Scenario.arena) < 1)
    by (cbn; lra).
  destruct (trigger_starts_flash rnd Scenario.arena 1 H1) as (Hon & Ht & _).
  pose proof (trigger_flash_material rnd Scenario.arena 1 H1) as Hflash.
  fold first in Hon, Ht, Hflash. cbv zeta in Hflash.
  (* the flash is still on after 0.1 s *)
  destruct (playerLogic_visual 0.1 App.initialJoystickData
              (mkVector3 0 0 (-1)) (playerRefs first))
    as (_ & _ & _ & Hgo).
  cbv zeta in Hgo.
  destruct (Hgo Hon) as (_ & _ & Hmat).
  { rewrite Ht. unfold PLAYER_ATTACK_EFFECT_DURATION. lra. }
  assert (Hbefore : Frames.playerMaterial before
                    = Frames.playerMaterial first).
  { exact Hmat. }
  assert (Hi : emissiveIntensity (Frames.playerMaterial before) = 0.7).
  { rewrite Hbefore, Hflash. reflexivity. }
  (* the second attack, and 0.3 s of frames *)
  assert (H2 : lastAttackTrigger (playerRefs before) < 2).
  { unfold before, Frames.after. cbn [map run fold_left step].
    rewrite playerRefs_animate, playerLogic_trigger.
    unfold first. rewrite trigger_recorded by exact H1. lra. }
  destruct (trigger_starts_flash rnd before 2 H2) as (Hon2 & Ht2 & _).
  fold second in Hon2, Ht2.
  destruct (player_flash_ends rnd [Scenario.idleFor 0.3] second Hon2)
    as [Hend _].
  { rewrite Ht2. unfold PLAYER_ATTACK_EFFECT_DURATION. cbn. lra. }
  { rewrite Ht2. unfold PLAYER_ATTACK_EFFECT_DURATION. lra. }
  fold final in Hend.
  assert (Hf : emissiveIntensity (Frames.playerMaterial final) = 0).
  { rewrite Hend. reflexivity. }
  repeat split; try assumption.
  intros Heq. rewrite Heq in Hf. lra.
Qed.

(** The material [createCharacterMesh] builds has the default emissive
    intensity 1, so the first attack of a freshly mounted scene does not
    return to it either: it ends at intensity 0. *)
Lemma first_attack_from_mounted_scene :
  let rnd := Scenario.always (1 / 2) in
  let sc := mountedScene rnd 0 0 Scenario.idleFrame in
  let final :=
    Frames.after rnd (step rnd sc (AttackTrigger 1)) [Scenario.idleFor 0.3] in
  emissiveIntensity (Frames.playerMaterial sc) = 1
  /\ emissiveIntensity (Frames.playerMaterial final) = 0.
Proof.
  intros rnd sc final.
  assert (H1 : lastAttackTrigger (playerRefs sc) < 1) by (cbn; lra).
  destruct (trigger_starts_flash rnd sc 1 H1) as (Hon & Ht & _).
  destruct (player_flash_ends rnd [Scenario.idleFor 0.3]
              (step rnd sc (AttackTrigger 1)) Hon) as [Hend _].
  { rewrite Ht. unfold PLAYER_ATTACK_EFFECT_DURATION. cbn. lra. }
  { rewrite Ht. unfold PLAYER_ATTACK_EFFECT_DURATION. lra. }
  fold final in Hend. split.
  - reflexivity.
  - rewrite Hend. reflexivity.
Qed.

(** ** The pool bound in the running scene *)

Lemma enemyLogic_smoke delta playerPos towers rnd k (e : EnemyState) s :
  poolInv s ->
  poolInv (snd (fst (enemyLogic delta playerPos towers rnd k e s))).
Proof.
  intros Hs. unfold enemyLogic, enemyPlan. cbn [fst snd].
  set (e1 := enemyAttackVisual delta (enemyTimers delta e)).
  assert (Hd : poolInv (snd (fst (enemyDecide playerPos towers rnd k e1 s)))).
  { unfold enemyDecide.
    pose proof (emitSmokePuffs_inv (enemy_position e1) 0.8 rnd k s Hs) as He.
    destruct (emitSmokePuffs (enemy_position e1) 0.8 rnd k s) as [s' k'].
    cbn [fst] in He.
    destruct (towerThreat towers (enemy_position e1)); [ exact Hs | ].
    destruct (AiState_eqb (aiState e1) FLEEING_TOWER);
      repeat match goal with
        | |- context [if ?b then _ else _] => destruct b
        end; cbn; assumption. }
  destruct (enemyDecide playerPos towers rnd k e1 s) as [[[d e2] s'] k1].
  destruct (enemySettle playerPos d e2) as [d' e3].
  destruct (enemyCommit d' rnd k1 e3) as [e4 k2].
  exact Hd.
Qed.

Lemma attackTriggerEffect_smoke attackTrigger rnd k (p : PlayerRefs) s :
  poolInv s ->
  poolInv (snd (fst (attackTriggerEffect attackTrigger rnd k p s))).
Proof.
  intros Hs. unfold attackTriggerEffect.
  destruct (attackTrigger >? lastAttackTrigger p); [ | exact Hs ].
  cbn [fst snd]. apply emitSmokePuffs_inv. exact Hs.
Qed.

(** In every reachable scene at most 15 smoke puffs are active. *)
Lemma reachable_pool_bound (rnd : JS.Random) (sc : Scene) :
  reachable rnd sc ->
  (SmokeHistory.activeCount (smoke sc) <= NUM_SMOKE_PUFFS)%nat.
Proof.
  intros Hreach. apply poolInv_bound.
  induction Hreach as [ k attackTrigger i | sc ev Hreach IH ].
  - unfold mountedScene, animate. cbn [smoke].
    apply smokeUpdate_inv. apply enemyLogic_smoke. exact initialSmoke_inv.
  - destruct ev; cbn [step smoke]; try exact IH.
    + unfold animate. cbn [smoke].
      apply smokeUpdate_inv. apply enemyLogic_smoke. exact IH.
    + apply attackTriggerEffect_smoke. exact IH.
Qed.


(** * Further properties of the code *)

(** ** [shuffleArray] *)

Section ShuffleFacts.

Variable T : Type.

Lemma assign_length (i : nat) (v : T) (array : list T) :
  List.length (Shuffle.assign i v array) = List.length array.
Proof.
  revert i. induction array as [ | a rest IH ]; intros [ | i ]; cbn; auto.
Qed.

(** Writing [a] over an element [b] leaves a permutation once [b] is put
    back in front. *)
Lemma assign_perm (i : nat) (a b : T) (array : list T) :
  nth_error array i = Some b ->
  Permutation (b :: Shuffle.assign i a array) (a :: array).
Proof.
  revert i. induction array as [ | c rest IH ]; intros [ | i ] H; cbn in *;
    try discriminate.
  - injection H as ->. apply perm_swap.
  - apply perm_trans with (c :: b :: Shuffle.assign i a rest).
    + apply perm_swap.
    + apply perm_trans with (c :: a :: rest).
      * apply perm_skip. apply IH. exact H.
      * apply perm_swap.
Qed.

Lemma assign_assign_perm :
  forall (array : list T) (i j : nat) (ai aj : T),
    nth_error array i = Some ai ->
    nth_error array j = Some aj ->
    Permutation (Shuffle.assign j ai (Shuffle.assign i aj array)) array.
Proof.
  induction array as [ | c rest IH ]; intros [ | i ] [ | j ] ai aj Hi Hj;
    cbn in *; try discriminate.
  - injection Hi as ->. injection Hj as ->. apply Permutation_refl.
  - injection Hi as ->. apply assign_perm. exact Hj.
  - injection Hj as ->. apply assign_perm. exact Hi.
  - apply perm_skip. apply IH; assumption.
Qed.

Lemma swap_perm (i j : nat) (array : list T) :
  Permutation (Shuffle.swap i j array) array.
Proof.
  unfold Shuffle.swap.
  destruct (nth_error array i) as [ ai | ] eqn:Hi; [ | apply Permutation_refl ].
  destruct (nth_error array j) as [ aj | ] eqn:Hj; [ | apply Permutation_refl ].
  apply assign_assign_perm; assumption.
Qed.

Lemma shuffleLoop_spec (rnd : JS.Random) :
  forall (i : nat) (array : list T) (k : nat),
    Permutation (fst (Shuffle.shuffleLoop i array rnd k)) array
    /\ snd (Shuffle.shuffleLoop i array rnd k) = (k + i)%nat.
Proof.
  induction i as [ | i IH ]; intros array k; cbn [Shuffle.shuffleLoop].
  - split; [ apply Permutation_refl | cbn; lia ].
  - destruct (IH (Shuffle.swap (S i)
                    (Z.to_nat (Zfloor (rnd k * (INR (S i) + 1)))) array)
                (S k)) as [Hp Hk].
    split.
    + eapply perm_trans; [ exact Hp | apply swap_perm ].
    + rewrite Hk. lia.
Qed.

End ShuffleFacts.

(** The index drawn for position [i] is one of [0 .. i]. *)
Lemma shuffle_index_in_bounds (rnd : JS.Random) (k i : nat) :
  JS.in_unit rnd ->
  (Z.to_nat (Zfloor (rnd k * (INR i + 1))) <= i)%nat.
Proof.
  intros Hu. destruct (Hu k) as [H0 H1].
  pose proof (pos_INR i) as Hi.
  pose proof (Zfloor_bound (rnd k * (INR i + 1))) as [Hlo Hhi].
  assert (Hx : rnd k * (INR i + 1) < INR i + 1) by nra.
  assert (Hz : (Zfloor (rnd k * (INR i + 1)) < Z.of_nat i + 1)%Z).
  { apply lt_IZR. rewrite plus_IZR, <- INR_IZR_INZ. simpl. lra. }
  lia.
Qed.

(** X1. With [Math.random] in [0, 1), every index [shuffleArray] draws is
    within the bounds of the array, the result is a permutation of the
    input (nothing lost, nothing duplicated, same length), and exactly
    [length - 1] random numbers are consumed (none for an empty or
    one-element array). *)
Theorem X1_shuffleArray_is_a_permutation :
  forall (T : Type) (array : list T) (rnd : JS.Random) (k : nat),
    JS.in_unit rnd ->
    let r := Shuffle.shuffleArray array rnd k in
    Permutation (fst r) array
    /\ List.length (fst r) = List.length array
    /\ snd r = (k + (List.length array - 1))%nat
    /\ (forall k' i, (Z.to_nat (Zfloor (rnd k' * (INR i + 1))) <= i)%nat).
Proof.
  intros T array rnd k Hu r.
  destruct (shuffleLoop_spec T rnd (List.length array - 1) array k)
    as [Hp Hk].
  fold (Shuffle.shuffleArray array rnd k) in Hp, Hk. fold r in Hp, Hk.
  repeat split.
  - exact Hp.
  - apply Permutation_length. exact Hp.
  - exact Hk.
  - intros k' i. apply shuffle_index_in_bounds. exact Hu.
Qed.

(** Witness: three positions shuffled with the oracle stuck at 1/2. *)
Lemma X1_shuffle_witness :
  Permutation
    (fst (Shuffle.shuffleArray [1%nat; 2%nat; 3%nat]
            (Scenario.always (1 / 2)) 0))
    [1%nat; 2%nat; 3%nat].
Proof.
  apply (X1_shuffleArray_is_a_permutation nat [1%nat; 2%nat; 3%nat]
           (Scenario.always (1 / 2)) 0).
  intros n. unfold Scenario.always. lra.
Defined.

(** ** The movement keys of [App] *)

Lemma has_In (pressedKeys : list string) (key : string) :
  App.has pressedKeys key = true <-> In key pressedKeys.
Proof.
  unfold App.has. rewrite existsb_exists. split.
  - intros [k [Hin Heq]]. apply String.eqb_eq in Heq. subst. exact Hin.
  - intros Hin. exists key. split; [ exact Hin | apply String.eqb_refl ].
Qed.

Lemma has_not_In (pressedKeys : list string) (key : string) :
  App.has pressedKeys key = false <-> ~ In key pressedKeys.
Proof.
  rewrite <- has_In. destruct (App.has pressedKeys key); split; congruence.
Qed.

(** What the handlers keep true of the held keys and the signal. *)
Definition keysInv (st : AppKeyboard.State) : Prop :=
  AppKeyboard.keyboardMovement st
  = App.updateKeyboardMovementState (AppKeyboard.pressedKeys st)
  /\ NoDup (AppKeyboard.pressedKeys st)
  /\ (forall key, In key (AppKeyboard.pressedKeys st) ->
        AppKeyboard.isMovementKey key = true).

Lemma signal_of_no_keys :
  App.updateKeyboardMovementState [] = App.initialJoystickData.
Proof.
  unfold App.updateKeyboardMovementState. cbn [App.has existsb].
  rewrite eqb_refl_true. reflexivity.
Qed.

Lemma handle_keysInv (st : AppKeyboard.State) (ev : AppKeyboard.KeyEvent) :
  keysInv st -> keysInv (AppKeyboard.handle st ev).
Proof.
  intros (Hsig & Hnd & Hkeys).
  destruct ev as [ eventKey | eventKey ]; cbn [AppKeyboard.handle];
    unfold AppKeyboard.handleMovementKeyDown, AppKeyboard.handleMovementKeyUp;
    cbv zeta;
    destruct (AppKeyboard.isMovementKey (AppKeyboard.toLowerCase eventKey))
      eqn:Hmove; try (repeat split; assumption);
    destruct (App.has (AppKeyboard.pressedKeys st)
                (AppKeyboard.toLowerCase eventKey)) eqn:Hhas;
    cbn [negb]; try (repeat split; assumption).
  - (* a new key goes down *)
    unfold keysInv, AppKeyboard.add. rewrite Hhas. cbn.
    apply has_not_In in Hhas. repeat split.
    + apply (NoDup_Add (a := AppKeyboard.toLowerCase eventKey)
               (l := AppKeyboard.pressedKeys st ++ [])).
      * apply Add_app.
      * rewrite app_nil_r. auto.
    + intros key Hin. apply in_app_or in Hin.
      change (AppKeyboard.isMovementKey key = true).
      destruct Hin as [Hin | [<- | []]]; auto.
  - (* a held key goes up *)
    unfold keysInv, AppKeyboard.delete. cbn. repeat split.
    + apply NoDup_filter. exact Hnd.
    + intros key Hin. apply filter_In in Hin.
      change (AppKeyboard.isMovementKey key = true). apply Hkeys. tauto.
Qed.

Lemma run_keysInv (evs : list AppKeyboard.KeyEvent) :
  keysInv (AppKeyboard.run evs).
Proof.
  unfold AppKeyboard.run.
  assert (H0 : keysInv AppKeyboard.initialState).
  { repeat split.
    - cbn. symmetry. apply signal_of_no_keys.
    - constructor.
    - intros key []. }
  revert H0. generalize AppKeyboard.initialState.
  induction evs as [ | ev evs IH ]; intros st0 H0; cbn.
  - exact H0.
  - apply IH. apply handle_keysInv. exact H0.
Qed.

(** X2. After any sequence of key-down and key-up events the keyboard
    signal held by [App] is the one computed from the set of keys currently
    held; that set holds no key twice and only the movement keys w, a, s
    and d.  In particular auto-repeated key-downs and the keys of other
    names never change the signal. *)
Theorem X2_keyboard_signal_follows_held_keys :
  forall evs : list AppKeyboard.KeyEvent,
    let st := AppKeyboard.run evs in
    AppKeyboard.keyboardMovement st
    = App.updateKeyboardMovementState (AppKeyboard.pressedKeys st)
    /\ NoDup (AppKeyboard.pressedKeys st)
    /\ (forall key, In key (AppKeyboard.pressedKeys st) ->
          In key ["w"; "a"; "s"; "d"]%string).
Proof.
  intros evs st.
  destruct (run_keysInv evs) as (Hsig & Hnd & Hkeys).
  fold st in Hsig, Hnd, Hkeys. repeat split; try assumption.
  intros key Hin. apply Hkeys in Hin.
  unfold AppKeyboard.isMovementKey in Hin. apply existsb_exists in Hin.
  destruct Hin as [k [Hk Heq]]. apply String.eqb_eq in Heq. subst. exact Hk.
Qed.

(** X3. In the keyboard signal the later test wins on each axis: with "s"
    held the y component is positive whether or not "w" is held, with only
    "w" it is negative, with neither it is zero; likewise "d" beats "a" on
    the x axis.  The signal is active exactly when one of the four keys is
    held. *)
Theorem X3_opposite_keys_later_test_wins :
  forall pressedKeys : list string,
    let kb := App.updateKeyboardMovementState pressedKeys in
    let w := App.has pressedKeys "w" in
    let s := App.has pressedKeys "s" in
    let a := App.has pressedKeys "a" in
    let d := App.has pressedKeys "d" in
    (if s then 0 < App.y kb else if w then App.y kb < 0 else App.y kb = 0)
    /\ (if d then 0 < App.x kb else if a then App.x kb < 0 else App.x kb = 0)
    /\ App.active kb = w || s || a || d.
Proof.
  intros pressedKeys.
  pose proof sqrt2_pos as Hp.
  assert (Hinv : 0 < / sqrt 2) by (apply Rinv_0_lt_compat; exact Hp).
  assert (E1 : JS.eqb 1 0 = false) by (apply eqb_neq_false; lra).
  assert (E2 : JS.eqb (-1) 0 = false) by (apply eqb_neq_false; lra).
  assert (E0 : JS.eqb 0 0 = true) by apply eqb_refl_true.
  assert (S1 : 1 * 1 + 1 * 1 = 2) by lra.
  assert (S2 : -1 * -1 + 1 * 1 = 2) by lra.
  assert (S3 : 1 * 1 + -1 * -1 = 2) by lra.
  assert (S4 : -1 * -1 + -1 * -1 = 2) by lra.
  cbv zeta. unfold App.updateKeyboardMovementState, JS.Math_sqrt.
  destruct (App.has pressedKeys "w"), (App.has pressedKeys "s"),
    (App.has pressedKeys "a"), (App.has pressedKeys "d");
    cbv zeta iota beta;
    rewrite ?E1, ?E2, ?E0; simpl negb; simpl andb; cbv iota;
    rewrite ?S1, ?S2, ?S3, ?S4; cbn [App.x App.y App.active orb];
    unfold Rdiv; repeat split; try lra; nra.
Qed.

Lemma delete_add (pressedKeys : list string) (key : string) :
  ~ In key pressedKeys ->
  AppKeyboard.delete (AppKeyboard.add pressedKeys key) key = pressedKeys.
Proof.
  intros Hnot. unfold AppKeyboard.add.
  rewrite (proj2 (has_not_In pressedKeys key) Hnot).
  unfold AppKeyboard.delete. rewrite filter_app. cbn.
  rewrite String.eqb_refl. cbn. rewrite app_nil_r.
  induction pressedKeys as [ | k rest IH ]; cbn; [ reflexivity | ].
  destruct (String.eqb key k) eqn:Heq.
  - apply String.eqb_eq in Heq. subst. exfalso. apply Hnot. left. reflexivity.
  - cbn. f_equal. apply IH. intros Hin. apply Hnot. right. exact Hin.
Qed.

(** X4. Pressing a movement key that is not held and releasing it again
    restores the set of held keys and the keyboard signal, whatever happened
    before; and a key-down repeated while the key is held changes
    nothing. *)
Theorem X4_key_press_release_round_trip :
  forall (evs : list AppKeyboard.KeyEvent) (eventKey : string),
    let st := AppKeyboard.run evs in
    let key := AppKeyboard.toLowerCase eventKey in
    AppKeyboard.isMovementKey key = true ->
    ~ In key (AppKeyboard.pressedKeys st) ->
    let down := AppKeyboard.handle st (AppKeyboard.KeyDown eventKey) in
    In key (AppKeyboard.pressedKeys down)
    /\ AppKeyboard.handle down (AppKeyboard.KeyDown eventKey) = down
    /\ AppKeyboard.handle down (AppKeyboard.KeyUp eventKey) = st.
Proof.
  intros evs eventKey st key Hmove Hnot down.
  destruct (run_keysInv evs) as (Hsig & _ & _).
  fold st in Hsig.
  assert (Hhas : App.has (AppKeyboard.pressedKeys st) key = false)
    by (apply has_not_In; exact Hnot).
  assert (Hdown : down
                  = AppKeyboard.mkState
                      (AppKeyboard.add (AppKeyboard.pressedKeys st) key)
                      (App.updateKeyboardMovementState
                         (AppKeyboard.add (AppKeyboard.pressedKeys st) key))).
  { subst down. cbn [AppKeyboard.handle].
    unfold AppKeyboard.handleMovementKeyDown. cbv zeta. fold key.
    rewrite Hmove, Hhas. reflexivity. }
  assert (Hin : In key (AppKeyboard.add (AppKeyboard.pressedKeys st) key)).
  { unfold AppKeyboard.add. rewrite Hhas. apply in_or_app. right. left.
    reflexivity. }
  assert (Hhas' : App.has (AppKeyboard.add (AppKeyboard.pressedKeys st) key)
                    key = true) by (apply has_In; exact Hin).
  rewrite Hdown. cbn [AppKeyboard.pressedKeys AppKeyboard.handle].
  repeat split.
  - exact Hin.
  - unfold AppKeyboard.handleMovementKeyDown. cbv zeta. fold key.
    rewrite Hmove. cbn [AppKeyboard.pressedKeys]. rewrite Hhas'. reflexivity.
  - unfold AppKeyboard.handleMovementKeyUp. cbv zeta. fold key.
    rewrite Hmove. cbn [AppKeyboard.pressedKeys]. rewrite Hhas'.
    rewrite delete_add by exact Hnot. rewrite <- Hsig.
    destruct st. reflexivity.
Qed.

(** Witness: "W" with shift held, pressed and released on a fresh page. *)
Lemma X4_round_trip_witness :
  AppKeyboard.handle
    (AppKeyboard.handle (AppKeyboard.run []) (AppKeyboard.KeyDown "W"))
    (AppKeyboard.KeyUp "W")
  = AppKeyboard.run [].
Proof.
  apply (X4_key_press_release_round_trip [] "W").
  - reflexivity.
  - intros [].
Defined.

(** ** The joystick component *)

(** The scaled offset the joystick reports lies in the unit disc. *)
Lemma knob_output_bound (x y m : R) :
  0 < m ->
  let distance := JS.Math_sqrt (x * x + y * y) in
  let x' := if distance >? m then x / distance * m else x in
  let y' := if distance >? m then y / distance * m else y in
  (x' / m) * (x' / m) + (y' / m) * (y' / m) <= 1
  /\ x' * x' + y' * y' <= m * m
  /\ (distance <= m -> x' = x /\ y' = y)
  /\ (m < distance -> (x' / m) * (x' / m) + (y' / m) * (y' / m) = 1).
Proof.
  intros Hm. cbv zeta. unfold JS.Math_sqrt.
  assert (Hs : 0 <= x * x + y * y) by nra.
  pose proof (sqrt_pos (x * x + y * y)) as Hd0.
  pose proof (sqrt_sqrt (x * x + y * y) Hs) as Hdd.
  set (d := sqrt (x * x + y * y)) in *.
  destruct (d >? m) eqn:Hcmp.
  - apply gtb_true in Hcmp.
    assert (Hd : d <> 0) by lra.
    assert (E : x / d * m / m * (x / d * m / m)
                + y / d * m / m * (y / d * m / m) = 1).
    { replace (x / d * m / m * (x / d * m / m)
               + y / d * m / m * (y / d * m / m))
        with ((x * x + y * y) / (d * d)) by (field; lra).
      rewrite Hdd. field. nra. }
    assert (E2 : x / d * m * (x / d * m) + y / d * m * (y / d * m) = m * m).
    { replace (x / d * m * (x / d * m) + y / d * m * (y / d * m))
        with ((x * x + y * y) / (d * d) * (m * m)) by (field; lra).
      rewrite Hdd. field. nra. }
    repeat split; try lra.
  - apply gtb_false in Hcmp.
    assert (E : x / m * (x / m) + y / m * (y / m)
                = (d * d) / (m * m)).
    { rewrite Hdd. field. lra. }
    assert (Hle : d * d <= m * m) by nra.
    repeat split; try lra.
    rewrite E. apply Rmult_le_reg_r with (m * m); [ nra | ].
    replace (d * d / (m * m) * (m * m)) with (d * d) by (field; lra).
    lra.
Qed.

(** What holds between the component and the value its parent holds. *)
Definition joystickInv (p : Joystick.Props) (st : Joystick.State)
    (data : App.JoystickOutput) : Prop :=
  App.x data * App.x data + App.y data * App.y data <= 1
  /\ (App.active data = true ->
      Joystick.isDragging st = true
      /\ Joystick.knobPosition st
         = (App.x data * Joystick.maxOffset p,
            App.y data * Joystick.maxOffset p))
  /\ (App.active data = false ->
      data = App.initialJoystickData /\ Joystick.knobPosition st = (0, 0))
  /\ fst (Joystick.knobPosition st) * fst (Joystick.knobPosition st)
     + snd (Joystick.knobPosition st) * snd (Joystick.knobPosition st)
     <= Joystick.maxOffset p * Joystick.maxOffset p.

Lemma updateKnobPosition_inv p baseRect event isInitialTouch st data :
  0 < Joystick.maxOffset p ->
  Joystick.isDragging st = true ->
  joystickInv p st data ->
  let r := Joystick.updateKnobPosition p baseRect event isInitialTouch st in
  joystickInv p (fst r) (match snd r with Some out => out | None => data end)
  /\ Joystick.isDragging (fst r) = true.
Proof.
  intros Hm Hdrag Hinv. cbv zeta. unfold Joystick.updateKnobPosition.
  destruct baseRect as [ rect | ]; [ | split; assumption ].
  match goal with
  | |- context [match ?c with Some _ => _ | None => _ end] =>
      destruct c as [ [clientX clientY] | ] eqn:Hclient
  end; [ | split; assumption ].
  pose proof (knob_output_bound
                (clientX - (Joystick.left rect + Joystick.size p / 2))
                (clientY - (Joystick.top rect + Joystick.size p / 2))
                (Joystick.maxOffset p) Hm) as (Hb & Hk & _).
  cbv zeta in Hb, Hk. cbn [fst snd].
  split; [ | exact Hdrag ].
  unfold joystickInv.
  cbn [App.x App.y App.active Joystick.isDragging Joystick.knobPosition
       fst snd].
  repeat split.
  - exact Hb.
  - exact Hdrag.
  - f_equal; field; lra.
  - discriminate.
  - discriminate.
  - exact Hk.
Qed.

Lemma released_inv p :
  0 < Joystick.maxOffset p ->
  joystickInv p (fst Joystick.released) App.initialJoystickData.
Proof.
  intros Hm. unfold joystickInv. cbn.
  repeat split; try discriminate; nra.
Qed.

Lemma handle_joystickInv p st data ev st' out :
  0 < Joystick.maxOffset p ->
  joystickInv p st data ->
  Joystick.handle p st ev = Some (st', out) ->
  joystickInv p st' (match out with Some o => o | None => data end).
Proof.
  intros Hm Hinv Hev.
  assert (Hstart : forall knob id,
             knob = Joystick.knobPosition st ->
             joystickInv p (Joystick.mkState true knob id) data).
  { intros knob id ->. destruct Hinv as (H1 & H2 & H3 & H4).
    unfold joystickInv. cbn.
    split; [ exact H1 | ].
    split; [ intros Ha; split; [ reflexivity | apply (proj2 (H2 Ha)) ] | ].
    split; [ exact H3 | exact H4 ]. }
  destruct ev as [ baseRect ev | baseRect ev | changed | ];
    cbn [Joystick.handle] in Hev.
  - unfold Joystick.handleInteractionStart in Hev.
    destruct ev as [ cx cy | touches changed ].
    + injection Hev as Hr.
      pose proof (updateKnobPosition_inv p baseRect
                    (Joystick.MouseEvent cx cy) false
                    (Joystick.mkState true (Joystick.knobPosition st) None)
                    data Hm eq_refl (Hstart _ _ eq_refl)) as [H _].
      cbv zeta in H. rewrite Hr in H. exact H.
    + destruct changed as [ | first rest ]; [ discriminate | ].
      injection Hev as Hr.
      pose proof (updateKnobPosition_inv p baseRect
                    (Joystick.TouchEvent touches (first :: rest)) true
                    (Joystick.mkState true (Joystick.knobPosition st)
                       (Some (Joystick.identifier first)))
                    data Hm eq_refl (Hstart _ _ eq_refl)) as [H _].
      cbv zeta in H. rewrite Hr in H. exact H.
  - injection Hev as Hr. unfold Joystick.handleInteractionMove in Hr.
    destruct (Joystick.isDragging st) eqn:Hdrag; cbn [negb] in Hr.
    + pose proof (updateKnobPosition_inv p baseRect ev false st data Hm
                    Hdrag Hinv) as [H _].
      cbv zeta in H. rewrite Hr in H. exact H.
    + injection Hr as <- <-. exact Hinv.
  - injection Hev as Hr. unfold Joystick.globalTouchEndHandler in Hr.
    destruct (Joystick.isDragging st); cbn [negb] in Hr;
      [ | injection Hr as <- <-; exact Hinv ].
    destruct (Joystick.activeTouchIdRef st) as [ id | ];
      [ | injection Hr as <- <-; exact Hinv ].
    destruct (Joystick.findTouch changed (Some id));
      [ | injection Hr as <- <-; exact Hinv ].
    unfold Joystick.released in Hr. injection Hr as <- <-.
    apply (released_inv p Hm).
  - injection Hev as Hr. unfold Joystick.globalMouseUpHandler in Hr.
    destruct (Joystick.isDragging st); cbn [negb] in Hr;
      [ | injection Hr as <- <-; exact Hinv ].
    unfold Joystick.released in Hr. injection Hr as <- <-.
    apply (released_inv p Hm).
Qed.

Lemma run_joystickInv p :
  0 < Joystick.maxOffset p ->
  forall evs st data st' data',
    joystickInv p st data ->
    Joystick.run p st data evs = Some (st', data') ->
    joystickInv p st' data'.
Proof.
  intros Hm. induction evs as [ | ev evs IH ];
    intros st data st' data' Hinv Hrun.
  - cbn in Hrun. injection Hrun as <- <-. exact Hinv.
  - cbn [Joystick.run] in Hrun.
    destruct (Joystick.handle p st ev) as [ [st1 out] | ] eqn:Hev;
      [ | discriminate ].
    pose proof (handle_joystickInv p st data ev st1 out Hm Hinv Hev) as H1.
    destruct out as [ o | ]; eapply IH; eassumption.
Qed.

(** X5. For a joystick whose base is larger than its stick, after any
    sequence of start, move and release events (run from the initial state,
    the parent holding the inactive zero value): the value the parent holds
    has magnitude at most 1; while it is active the joystick is being
    dragged and the knob offset is that value times [maxOffset]; whenever
    the joystick is not being dragged the parent holds exactly the inactive
    zero value and the knob is centred; and the knob never leaves the circle
    of radius [maxOffset]. *)
Theorem X5_joystick_output_in_unit_disc_and_released_clean :
  forall (p : Joystick.Props) (evs : list Joystick.Event)
         (st : Joystick.State) (data : App.JoystickOutput),
    0 < Joystick.maxOffset p ->
    Joystick.run p Joystick.initialState App.initialJoystickData evs
    = Some (st, data) ->
    App.x data * App.x data + App.y data * App.y data <= 1
    /\ (App.active data = true ->
        Joystick.isDragging st = true
        /\ Joystick.knobPosition st
           = (App.x data * Joystick.maxOffset p,
              App.y data * Joystick.maxOffset p))
    /\ (Joystick.isDragging st = false ->
        data = App.mkJoystickOutput 0 0 false
        /\ Joystick.knobPosition st = (0, 0))
    /\ fst (Joystick.knobPosition st) * fst (Joystick.knobPosition st)
       + snd (Joystick.knobPosition st) * snd (Joystick.knobPosition st)
       <= Joystick.maxOffset p * Joystick.maxOffset p.
Proof.
  intros p evs st data Hm Hrun.
  assert (H0 : joystickInv p Joystick.initialState App.initialJoystickData).
  { unfold joystickInv. cbn. repeat split; try discriminate; nra. }
  destruct (run_joystickInv p Hm evs _ _ _ _ H0 Hrun) as (H1 & H2 & H3 & H4).
  repeat split; try assumption; try (apply H2; assumption).
  - destruct (App.active data) eqn:Ha.
    + destruct (H2 eq_refl) as [Hd _]. congruence.
    + apply (proj1 (H3 eq_refl)).
  - destruct (App.active data) eqn:Ha.
    + destruct (H2 eq_refl) as [Hd _]. congruence.
    + apply (proj2 (H3 eq_refl)).
Qed.

(** Witness: the default joystick, pressed with the mouse at the centre of
    its base and released. *)
Lemma X5_joystick_witness :
  let st := Joystick.mkState false (0, 0) None in
  let data := App.mkJoystickOutput 0 0 false in
  App.x data * App.x data + App.y data * App.y data <= 1
  /\ (Joystick.isDragging st = false ->
      data = App.mkJoystickOutput 0 0 false
      /\ Joystick.knobPosition st = (0, 0)).
Proof.
  intros st data.
  assert (Hm : 0 < Joystick.maxOffset Joystick.defaultProps)
    by (unfold Joystick.maxOffset; cbn; lra).
  destruct (X5_joystick_output_in_unit_disc_and_released_clean
              Joystick.defaultProps
              [Joystick.InteractionStart (Some (Joystick.mkDOMRect 0 0))
                 (Joystick.MouseEvent 60 60);
               Joystick.MouseUp]
              st data Hm eq_refl) as (H1 & _ & H3 & _).
  split; assumption.
Defined.

Lemma findTouch_none (list : list Joystick.Touch) (id : Z) :
  (forall t, In t list -> Joystick.identifier t <> id) ->
  Joystick.findTouch list (Some id) = None.
Proof.
  induction list as [ | t rest IH ]; intros H; cbn; [ reflexivity | ].
  destruct (Z.eqb (Joystick.identifier t) id) eqn:Heq.
  - apply Z.eqb_eq in Heq. exfalso.
    apply (H t); [ left; reflexivity | exact Heq ].
  - apply IH. intros t' Hin. apply H. right. exact Hin.
Qed.

Lemma findTouch_some (list : list Joystick.Touch) (id : Z) :
  (exists t, In t list /\ Joystick.identifier t = id) ->
  exists t, Joystick.findTouch list (Some id) = Some t
            /\ Joystick.identifier t = id.
Proof.
  induction list as [ | t rest IH ]; intros [t0 [Hin Hid]]; cbn.
  - destruct Hin.
  - destruct (Z.eqb (Joystick.identifier t) id) eqn:Heq.
    + exists t. split; [ reflexivity | apply Z.eqb_eq; exact Heq ].
    + destruct Hin as [-> | Hin].
      * apply Z.eqb_neq in Heq. contradiction.
      * apply IH. exists t0. split; assumption.
Qed.

(** X6. While the joystick is dragged by the touch with identifier [id],
    a touch-move that does not carry that touch, and a touch-end or
    touch-cancel of other touches only, change nothing and report nothing;
    a touch-end that does carry it releases the joystick: the state is
    reset and the inactive zero value is reported. *)
Theorem X6_joystick_follows_only_its_own_touch :
  forall (p : Joystick.Props) (baseRect : option Joystick.DOMRect)
         (touches changedTouches : list Joystick.Touch)
         (st : Joystick.State) (id : Z),
    Joystick.isDragging st = true ->
    Joystick.activeTouchIdRef st = Some id ->
    ((forall t, In t touches -> Joystick.identifier t <> id) ->
     Joystick.handleInteractionMove p baseRect
       (Joystick.TouchEvent touches changedTouches) st = (st, None))
    /\ ((forall t, In t changedTouches -> Joystick.identifier t <> id) ->
        Joystick.globalTouchEndHandler changedTouches st = (st, None))
    /\ ((exists t, In t changedTouches /\ Joystick.identifier t = id) ->
        Joystick.globalTouchEndHandler changedTouches st
        = (Joystick.mkState false (0, 0) None,
           Some (App.mkJoystickOutput 0 0 false))).
Proof.
  intros p baseRect touches changedTouches st id Hdrag Hid.
  repeat split.
  - intros Hother. unfold Joystick.handleInteractionMove.
    rewrite Hdrag. cbn [negb]. unfold Joystick.updateKnobPosition.
    destruct baseRect as [ rect | ]; [ | reflexivity ].
    rewrite Hid, (findTouch_none touches id Hother). reflexivity.
  - intros Hother. unfold Joystick.globalTouchEndHandler.
    rewrite Hdrag, Hid. cbn [negb].
    rewrite (findTouch_none changedTouches id Hother). reflexivity.
  - intros Hsome. unfold Joystick.globalTouchEndHandler.
    rewrite Hdrag, Hid. cbn [negb].
    destruct (findTouch_some changedTouches id Hsome) as [t [-> _]].
    reflexivity.
Qed.

(** Witness: the joystick is held by touch 7; touch 3 moves and ends. *)
Lemma X6_other_touch_witness :
  let st := Joystick.mkState true (5, 5) (Some 7%Z) in
  let other := Joystick.mkTouch 3 100 100 in
  Joystick.handleInteractionMove Joystick.defaultProps
    (Some (Joystick.mkDOMRect 0 0)) (Joystick.TouchEvent [other] [other]) st
  = (st, None)
  /\ Joystick.globalTouchEndHandler [other] st = (st, None).
Proof.
  intros st other.
  destruct (X6_joystick_follows_only_its_own_touch Joystick.defaultProps
              (Some (Joystick.mkDOMRect 0 0)) [other] [other] st 7%Z
              eq_refl eq_refl) as (H1 & H2 & _).
  assert (Hother : forall t, In t [other] -> Joystick.identifier t <> 7%Z).
  { intros t [<- | []]. cbn. discriminate. }
  split; [ apply H1 | apply H2 ]; exact Hother.
Defined.

(** ** The attack trigger *)

(** X7. The attack effect fires once per increase of the trigger counter:
    after the trigger value [n] has been delivered, delivering [n] again, or
    any value not above it, changes nothing in the scene: no second flash,
    no second burst of smoke, no random number consumed. *)
Theorem X7_attack_trigger_fires_once_per_increase :
  forall (rnd : JS.Random) (sc : Scene) (n m : R),
    m <= n ->
    let sc' := step rnd sc (AttackTrigger n) in
    step rnd sc' (AttackTrigger m) = sc'.
Proof.
  intros rnd sc n m Hle sc'.
  assert (Hlast : m <= lastAttackTrigger (playerRefs sc')).
  { subst sc'. cbn [step playerRefs]. unfold attackTriggerEffect.
    destruct (n >? lastAttackTrigger (playerRefs sc)) eqn:Hn.
    - cbn. exact Hle.
    - apply gtb_false in Hn. cbn. lra. }
  cbn [step]. unfold attackTriggerEffect.
  replace (m >? lastAttackTrigger (playerRefs sc')) with false
    by (symmetry; apply gtb_false; exact Hlast).
  cbn [fst snd]. destruct sc'. reflexivity.
Qed.

(** Witness: the trigger value 1 delivered twice to the resting arena. *)
Lemma X7_trigger_witness :
  let rnd := Scenario.always (1 / 2) in
  step rnd (step rnd Scenario.arena (AttackTrigger 1)) (AttackTrigger 1)
  = step rnd Scenario.arena (AttackTrigger 1).
Proof.
  intros rnd.
  apply (X7_attack_trigger_fires_once_per_increase rnd Scenario.arena 1 1).
  lra.
Defined.

(** ** More on the smoke-puff pool *)

Lemma isActive_app (active : list ActiveSmokePuff) (p : ActiveSmokePuff)
    (m : MeshId) :
  isActive (active ++ [p]) m = isActive active m || Nat.eqb (mesh p) m.
Proof.
  unfold isActive. rewrite existsb_app. cbn. rewrite orb_false_r. reflexivity.
Qed.

(** A mesh is visible exactly when it is active. *)
Definition visInv (active : list ActiveSmokePuff)
    (meshes : MeshId -> PuffMesh) : Prop :=
  forall m, puff_visible (meshes m) = isActive active m.

Lemma emitLoop_vis :
  forall pool puffsEmitted puffsToEmit position rnd k active meshes,
    visInv active meshes ->
    let r := emitLoop pool puffsEmitted puffsToEmit position rnd k active
               meshes in
    visInv (fst (fst r)) (snd (fst r)).
Proof.
  induction pool as [ | puffMesh rest IH ];
    intros emitted toEmit pos rnd k active meshes Hinv; cbn.
  - exact Hinv.
  - destruct (INR emitted >=? toEmit); [ exact Hinv | ].
    destruct (isActive active puffMesh) eqn:Hact.
    + apply IH. exact Hinv.
    + apply IH. intros m. rewrite isActive_app. unfold writeMesh. cbn [mesh].
      rewrite (Nat.eqb_sym puffMesh m).
      destruct (Nat.eqb m puffMesh) eqn:Heq.
      * cbn. rewrite orb_true_r. reflexivity.
      * rewrite orb_false_r. apply Hinv.
Qed.

Lemma updatePuffs_vis (delta : R) :
  forall active meshes,
    NoDup (map mesh active) ->
    (forall p, In p active -> puff_visible (meshes (mesh p)) = true) ->
    let r := updatePuffs delta active meshes in
    (forall m, In m (map mesh active) ->
       puff_visible (snd r m) = isActive (fst r) m)
    /\ (forall m, ~ In m (map mesh active) ->
          puff_visible (snd r m) = puff_visible (meshes m))
    /\ (forall m, isActive (fst r) m = true -> In m (map mesh active)).
Proof.
  induction active as [ | puff rest IH ]; intros meshes Hnd Hvis.
  - cbn. repeat split; try tauto. intros m H. discriminate.
  - inversion Hnd as [ | ? ? Hnotin Hnd' ]; subst.
    cbn [updatePuffs]. cbv zeta.
    destruct (lifetime puff - delta <=? 0).
    + (* the puff is returned to the pool *)
      set (h1 := writeMesh meshes (mesh puff)
                   (mkPuffMesh false
                      (puff_position (meshes (mesh puff)))
                      (puff_opacity (meshes (mesh puff)))
                      (puff_scale (meshes (mesh puff))))).
      assert (Hvis1 : forall p, In p rest ->
                puff_visible (h1 (mesh p)) = true).
      { intros p Hp. unfold h1, writeMesh.
        destruct (Nat.eqb (mesh p) (mesh puff)) eqn:Heq.
        - apply Nat.eqb_eq in Heq. exfalso. apply Hnotin. rewrite <- Heq.
          apply in_map. exact Hp.
        - apply Hvis. right. exact Hp. }
      destruct (IH h1 Hnd' Hvis1) as (H1 & H2 & H3).
      cbv zeta in H1, H2, H3. repeat split.
      * intros m [<- | Hin]; [ | apply H1; exact Hin ].
        rewrite (H2 _ Hnotin). unfold h1, writeMesh. rewrite Nat.eqb_refl.
        cbn. symmetry. apply not_true_is_false. intros Hact.
        apply Hnotin. apply H3. exact Hact.
      * intros m Hnot. rewrite H2 by (intros Hin; apply Hnot; right; exact Hin).
        unfold h1, writeMesh.
        destruct (Nat.eqb m (mesh puff)) eqn:Heq; [ | reflexivity ].
        apply Nat.eqb_eq in Heq. exfalso. apply Hnot. left. auto.
      * intros m Hact. right. apply H3. exact Hact.
    + (* the puff stays active *)
      match goal with
      | |- context [updatePuffs delta rest ?h] => set (h1 := h)
      end.
      assert (Hself : puff_visible (h1 (mesh puff)) = true).
      { unfold h1, writeMesh. rewrite Nat.eqb_refl. cbn.
        apply Hvis. left. reflexivity. }
      assert (Hvis1 : forall p, In p rest ->
                puff_visible (h1 (mesh p)) = true).
      { intros p Hp. unfold h1, writeMesh.
        destruct (Nat.eqb (mesh p) (mesh puff)) eqn:Heq.
        - apply Nat.eqb_eq in Heq. exfalso. apply Hnotin. rewrite <- Heq.
          apply in_map. exact Hp.
        - apply Hvis. right. exact Hp. }
      destruct (IH h1 Hnd' Hvis1) as (H1 & H2 & H3).
      cbv zeta in H1, H2, H3.
      destruct (updatePuffs delta rest h1) as [kept meshes'] eqn:E.
      cbn [fst snd] in *. repeat split.
      * intros m [<- | Hin].
        -- rewrite (H2 _ Hnotin), Hself. cbn. rewrite Nat.eqb_refl.
           reflexivity.
        -- rewrite (H1 _ Hin). cbn.
           destruct (Nat.eqb (mesh puff) m) eqn:Heq; [ | reflexivity ].
           apply Nat.eqb_eq in Heq. subst. contradiction.
      * intros m Hnot. rewrite H2 by (intros Hin; apply Hnot; right; exact Hin).
        unfold h1, writeMesh.
        destruct (Nat.eqb m (mesh puff)) eqn:Heq; [ | reflexivity ].
        apply Nat.eqb_eq in Heq. exfalso. apply Hnot. left. auto.
      * intros m Hact. cbn in Hact. apply orb_true_iff in Hact.
        destruct Hact as [Heq | Hact].
        -- left. apply Nat.eqb_eq in Heq. exact Heq.
        -- right. apply H3. exact Hact.
Qed.

Lemma run_visInv (ops : list SmokeHistory.Op) :
  visInv (activeSmokePuffs (SmokeHistory.run ops))
    (puffMeshes (SmokeHistory.run ops)).
Proof.
  unfold SmokeHistory.run.
  assert (H0 : poolInv initialSmoke
               /\ visInv (activeSmokePuffs initialSmoke)
                    (puffMeshes initialSmoke)).
  { split; [ exact initialSmoke_inv | intros m; reflexivity ]. }
  revert H0. generalize initialSmoke.
  induction ops as [ | op ops IH ]; intros s [Hpool Hvis]; cbn.
  - exact Hvis.
  - apply IH. destruct op as [ position mult rnd k | delta ];
      cbn [SmokeHistory.apply].
    + split; [ apply emitSmokePuffs_inv; exact Hpool | ].
      unfold emitSmokePuffs.
      destruct (negb (smokeTexture s)); [ exact Hvis | ].
      match goal with
      | |- context [emitLoop ?p ?e ?t ?pos ?r ?k' ?a ?h] =>
          pose proof (emitLoop_vis p e t pos r k' a h Hvis) as Hloop;
          destruct (emitLoop p e t pos r k' a h) as [[active' meshes'] k'']
      end.
      exact Hloop.
    + split; [ apply smokeUpdate_inv; exact Hpool | ].
      destruct Hpool as (Hnd & _ & _).
      unfold smokeUpdate.
      pose proof (updatePuffs_vis delta (activeSmokePuffs s) (puffMeshes s)
                    Hnd) as Hupd.
      destruct (updatePuffs delta (activeSmokePuffs s) (puffMeshes s))
        as [kept meshes'] eqn:E.
      cbn [fst snd activeSmokePuffs puffMeshes] in *.
      destruct Hupd as (H1 & H2 & H3).
      { intros p Hp. rewrite Hvis. apply isActive_true. apply in_map.
        exact Hp. }
      intros m.
      destruct (isActive (activeSmokePuffs s) m) eqn:Hact.
      * apply H1. apply isActive_true. exact Hact.
      * rewrite H2 by (apply isActive_false; exact Hact).
        rewrite Hvis, Hact. symmetry. apply not_true_is_false.
        intros Hk. apply H3 in Hk. apply isActive_true in Hk. congruence.
Qed.

(** X8. After any sequence of emit calls and frame updates a puff mesh is
    visible exactly when it is one of the active puffs: an expired puff is
    hidden in the frame that removes it, and no mesh is shown without being
    tracked. *)
Theorem X8_puff_visible_iff_active :
  forall (ops : list SmokeHistory.Op) (m : MeshId),
    let s := SmokeHistory.run ops in
    puff_visible (puffMeshes s m) = true
    <-> In m (map mesh (activeSmokePuffs s)).
Proof.
  intros ops m s. subst s. rewrite <- isActive_true.
  rewrite (run_visInv ops m). tauto.
Qed.

Lemma geb_INR_IZR (e : nat) (z : Z) :
  (INR e >=? IZR z) = true <-> (Z.to_nat z <= e)%nat.
Proof.
  rewrite geb_true, INR_IZR_INZ. split; intros H.
  - apply le_IZR in H. lia.
  - apply IZR_le. lia.
Qed.

Lemma emitLoop_count :
  forall pool e z position rnd k active meshes,
    NoDup pool ->
    List.length
      (fst (fst (emitLoop pool e (IZR z) position rnd k active meshes)))
    = (List.length active
       + Nat.min (Z.to_nat z - e) (SmokeHistory.freeMeshes pool active))%nat.
Proof.
  induction pool as [ | puffMesh rest IH ];
    intros e z0 pos rnd k active meshes Hnd.
  - cbn. unfold SmokeHistory.freeMeshes. cbn. lia.
  - inversion Hnd as [ | ? ? Hnotin Hnd' ]; subst.
    cbn [emitLoop].
    destruct (INR e >=? IZR z0) eqn:Hge.
    + apply geb_INR_IZR in Hge. cbn [fst].
      replace (Z.to_nat z0 - e)%nat with 0%nat by lia. cbn. lia.
    + assert (Hlt : (e < Z.to_nat z0)%nat).
      { destruct (le_lt_dec (Z.to_nat z0) e) as [Hle | Hlt];
          [ | exact Hlt ].
        apply geb_INR_IZR in Hle. congruence. }
      unfold SmokeHistory.freeMeshes. cbn [filter].
      destruct (isActive active puffMesh) eqn:Hact; cbn [negb].
      * rewrite IH by exact Hnd'. reflexivity.
      * cbv zeta. rewrite IH by exact Hnd'.
        rewrite length_app. cbn [List.length].
        assert (Hfree : SmokeHistory.freeMeshes rest
                  (active ++
                   [mkActiveSmokePuff puffMesh
                      (SMOKE_PUFF_LIFETIME * (0.8 + rnd (k + 5)%nat * 0.4))
                      SMOKE_PUFF_LIFETIME
                      (mkVector3 ((rnd (k + 2)%nat - 0.5) * 0.8)
                         (0.8 + rnd (k + 3)%nat * 0.7)
                         ((rnd (k + 4)%nat - 0.5) * 0.8))])
                = SmokeHistory.freeMeshes rest active).
        { unfold SmokeHistory.freeMeshes. f_equal. apply filter_ext_in.
          intros m Hm. rewrite isActive_app. cbn [mesh].
          destruct (Nat.eqb puffMesh m) eqn:Heq.
          - apply Nat.eqb_eq in Heq. subst. contradiction.
          - rewrite orb_false_r. reflexivity. }
        rewrite Hfree. unfold SmokeHistory.freeMeshes. lia.
Qed.

Lemma free_plus_active (s : Smoke) :
  poolInv s ->
  (SmokeHistory.freeMeshes (smokePuffsPool s) (activeSmokePuffs s)
   + SmokeHistory.activeCount s = NUM_SMOKE_PUFFS)%nat.
Proof.
  intros (Hnd & Hin & Hpool).
  assert (Hpnd : NoDup (smokePuffsPool s)).
  { rewrite Hpool. apply seq_NoDup. }
  pose proof (filter_length (isActive (activeSmokePuffs s))
                (smokePuffsPool s)) as Hlen.
  assert (Hact : List.length
                   (filter (isActive (activeSmokePuffs s)) (smokePuffsPool s))
                 = SmokeHistory.activeCount s).
  { unfold SmokeHistory.activeCount. rewrite <- (length_map mesh).
    apply Permutation_length. apply NoDup_Permutation.
    - apply NoDup_filter. exact Hpnd.
    - exact Hnd.
    - intros m. rewrite filter_In, isActive_true. split.
      + tauto.
      + intros H. split; [ apply Hin; exact H | exact H ]. }
  unfold SmokeHistory.freeMeshes.
  replace NUM_SMOKE_PUFFS with (List.length (smokePuffsPool s))
    by (rewrite Hpool; apply length_seq).
  lia.
Qed.

Lemma run_texture (ops : list SmokeHistory.Op) :
  smokeTexture (SmokeHistory.run ops) = true.
Proof.
  unfold SmokeHistory.run.
  assert (H0 : smokeTexture initialSmoke = true) by reflexivity.
  revert H0. generalize initialSmoke.
  induction ops as [ | op ops IH ]; intros s Hs; cbn.
  - exact Hs.
  - apply IH. destruct op as [ position mult rnd k | delta ];
      cbn [SmokeHistory.apply].
    + unfold emitSmokePuffs. rewrite Hs. cbn [negb].
      match goal with
      | |- context [emitLoop ?p ?e ?t ?pos ?r ?k' ?a ?h] =>
          destruct (emitLoop p e t pos r k' a h) as [[active' meshes'] k'']
      end.
      reflexivity.
    + unfold smokeUpdate.
      destruct (updatePuffs delta (activeSmokePuffs s) (puffMeshes s)).
      exact Hs.
Qed.

(** X9. After any sequence of emit calls and frame updates, one more call of
    [emitSmokePuffs] raises the number of active puffs by its quota
    [floor((5 + floor(random * 4)) * countMultiplier)] (nothing when that is
    not positive), capped at the 15 meshes of the pool. *)
Theorem X9_emit_adds_quota_up_to_pool_size :
  forall (ops : list SmokeHistory.Op) (position : Vector3)
         (countMultiplier : R) (rnd : JS.Random) (k : nat),
    let s := SmokeHistory.run ops in
    let quota :=
      Z.to_nat
        (Zfloor ((5 + IZR (Zfloor (rnd k * 4))) * countMultiplier)) in
    SmokeHistory.activeCount
      (fst (emitSmokePuffs position countMultiplier rnd k s))
    = Nat.min (SmokeHistory.activeCount s + quota) NUM_SMOKE_PUFFS.
Proof.
  intros ops position mult rnd k s quota.
  pose proof (run_inv ops) as Hinv. fold s in Hinv.
  pose proof (free_plus_active s Hinv) as Hfree.
  pose proof (run_texture ops) as Htex. fold s in Htex.
  assert (Hpnd : NoDup (smokePuffsPool s)).
  { destruct Hinv as (_ & _ & Hpool). rewrite Hpool. apply seq_NoDup. }
  unfold emitSmokePuffs. rewrite Htex. cbn [negb]. unfold JS.Math_floor.
  match goal with
  | |- context [emitLoop ?p ?e (IZR ?z0) ?pos ?r ?k' ?a ?h] =>
      pose proof (emitLoop_count p e z0 pos r k' a h Hpnd) as Hcount;
      destruct (emitLoop p e (IZR z0) pos r k' a h)
        as [[active' meshes'] k'']
  end.
  cbn [fst] in Hcount. unfold SmokeHistory.activeCount at 1.
  cbn [fst activeSmokePuffs]. rewrite Hcount.
  unfold SmokeHistory.activeCount in *. fold quota. lia.
Qed.

Definition lifetimesWithin (T : R) (active : list ActiveSmokePuff) : Prop :=
  forall p, In p active -> 0 < lifetime p <= T.

Lemma emitLoop_lifetimes :
  forall pool e toEmit position rnd k active meshes,
    JS.in_unit rnd ->
    lifetimesWithin (SMOKE_PUFF_LIFETIME * 1.2) active ->
    lifetimesWithin (SMOKE_PUFF_LIFETIME * 1.2)
      (fst (fst (emitLoop pool e toEmit position rnd k active meshes))).
Proof.
  induction pool as [ | puffMesh rest IH ];
    intros e toEmit pos rnd k active meshes Hrnd Hinv; cbn [emitLoop].
  - exact Hinv.
  - destruct (INR e >=? toEmit); [ exact Hinv | ].
    destruct (isActive active puffMesh); [ apply IH; assumption | ].
    cbv zeta. apply IH; [ exact Hrnd | ].
    intros p Hp. apply in_app_or in Hp. destruct Hp as [Hp | [<- | []]].
    + apply Hinv. exact Hp.
    + cbn [lifetime]. unfold SMOKE_PUFF_LIFETIME.
      pose proof (Hrnd (k + 5)%nat). split; nra.
Qed.

Lemma updatePuffs_lifetimes (delta T : R) :
  forall active meshes,
    (forall p, In p active -> lifetime p <= T) ->
    lifetimesWithin (T - delta) (fst (updatePuffs delta active meshes)).
Proof.
  induction active as [ | puff rest IH ]; intros meshes Hinv.
  - intros p [].
  - cbn [updatePuffs]. cbv zeta.
    destruct (lifetime puff - delta <=? 0) eqn:Hexp.
    + apply IH. intros p Hp. apply Hinv. right. exact Hp.
    + apply leb_false in Hexp.
      match goal with
      | |- context [updatePuffs delta rest ?h] =>
          pose proof (IH h (fun p Hp => Hinv p (or_intror Hp))) as Hrest;
          destruct (updatePuffs delta rest h) as [kept meshes']
      end.
      cbn [fst] in *. intros p [<- | Hp].
      * cbn [lifetime]. pose proof (Hinv puff (or_introl eq_refl)).
        split; lra.
      * apply Hrest. exact Hp.
Qed.

Lemma smokeUpdate_active (delta : R) (s : Smoke) :
  activeSmokePuffs (smokeUpdate delta s)
  = fst (updatePuffs delta (activeSmokePuffs s) (puffMeshes s)).
Proof.
  unfold smokeUpdate.
  destruct (updatePuffs delta (activeSmokePuffs s) (puffMeshes s)).
  reflexivity.
Qed.

Lemma run_lifetimes (ops : list SmokeHistory.Op) :
  Forall SmokeHistory.wellFormed ops ->
  lifetimesWithin (SMOKE_PUFF_LIFETIME * 1.2)
    (activeSmokePuffs (SmokeHistory.run ops)).
Proof.
  unfold SmokeHistory.run.
  assert (H0 : lifetimesWithin (SMOKE_PUFF_LIFETIME * 1.2)
                 (activeSmokePuffs initialSmoke)) by (intros p []).
  revert H0. generalize initialSmoke.
  induction ops as [ | op ops IH ]; intros s Hs Hwf; cbn.
  - exact Hs.
  - inversion Hwf as [ | ? ? Hop Hops ]; subst.
    apply IH; [ | exact Hops ].
    destruct op as [ position mult rnd k | delta ];
      cbn [SmokeHistory.apply SmokeHistory.wellFormed] in *.
    + unfold emitSmokePuffs.
      destruct (negb (smokeTexture s)); [ exact Hs | ].
      match goal with
      | |- context [emitLoop ?p ?e ?t ?pos ?r ?k' ?a ?h] =>
          pose proof (emitLoop_lifetimes p e t pos r k' a h Hop Hs) as Hloop;
          destruct (emitLoop p e t pos r k' a h) as [[active' meshes'] k'']
      end.
      exact Hloop.
    + rewrite smokeUpdate_active. intros p Hp.
      apply (updatePuffs_lifetimes delta (SMOKE_PUFF_LIFETIME * 1.2)) in Hp.
      * lra.
      * intros q Hq. apply Hs. exact Hq.
Qed.

Lemma frames_expire :
  forall (deltas : list R) (s : Smoke) (T : R),
    lifetimesWithin T (activeSmokePuffs s) ->
    T <= SmokeHistory.totalTime deltas ->
    activeSmokePuffs
      (fold_left SmokeHistory.apply (map SmokeHistory.Tick deltas) s) = [].
Proof.
  induction deltas as [ | delta rest IH ]; intros s T Hinv Hsum;
    unfold SmokeHistory.totalTime in Hsum; cbn in *.
  - destruct (activeSmokePuffs s) as [ | p ps ]; [ reflexivity | ].
    pose proof (Hinv p (or_introl eq_refl)). lra.
  - apply (IH _ (T - delta)); [ | unfold SmokeHistory.totalTime; lra ].
    rewrite smokeUpdate_active. apply updatePuffs_lifetimes.
    intros p Hp. apply Hinv. exact Hp.
Qed.

(** X10. If [Math.random] returns numbers of [[0, 1)] and frame times are
    not negative, every puff is given a lifetime below 1.2 * 1.2 seconds, so
    after any further frames whose times sum to at least 1.44 seconds no puff
    is active and every pool mesh is hidden. *)
Theorem X10_every_puff_expires_within_its_lifetime_bound :
  forall (ops : list SmokeHistory.Op) (deltas : list R),
    Forall SmokeHistory.wellFormed ops ->
    SMOKE_PUFF_LIFETIME * 1.2 <= SmokeHistory.totalTime deltas ->
    let s := SmokeHistory.run (ops ++ map SmokeHistory.Tick deltas) in
    activeSmokePuffs s = []
    /\ forall m, puff_visible (puffMeshes s m) = false.
Proof.
  intros ops deltas Hwf Hsum s.
  assert (Hempty : activeSmokePuffs s = []).
  { subst s. unfold SmokeHistory.run. rewrite fold_left_app.
    apply (frames_expire deltas _ (SMOKE_PUFF_LIFETIME * 1.2));
      [ | exact Hsum ].
    apply run_lifetimes. exact Hwf. }
  split; [ exact Hempty | ].
  intros m. subst s. rewrite (run_visInv _ m), Hempty. reflexivity.
Qed.

Lemma X10_expiry_witness :
  let s := SmokeHistory.run
             (SmokeHistory.fillPool
              ++ map SmokeHistory.Tick [1; 1 / 2]) in
  activeSmokePuffs s = []
  /\ forall m, puff_visible (puffMeshes s m) = false.
Proof.
  apply (X10_every_puff_expires_within_its_lifetime_bound
           SmokeHistory.fillPool [1; 1 / 2]).
  - unfold SmokeHistory.fillPool.
    repeat (apply Forall_cons;
            [ intros n; unfold SmokeHistory.zeros; lra | ]).
    apply Forall_nil.
  - unfold SMOKE_PUFF_LIFETIME, SmokeHistory.totalTime. cbn. lra.
Defined.

(** ** The player's step *)

Lemma lengthSq_nonneg (a : Vector3) : 0 <= lengthSq a.
Proof. unfold lengthSq. nra. Qed.

(** [normalize] yields a unit vector unless the vector is zero. *)
Lemma normalize_lengthSq (a : Vector3) :
  0 < lengthSq a -> lengthSq (normalize a) = 1.
Proof.
  intros Hpos. unfold normalize, length, JS.Math_sqrt.
  assert (Hs : 0 < sqrt (lengthSq a)) by (apply sqrt_lt_R0; exact Hpos).
  rewrite eqb_neq_false by lra.
  pose proof (sqrt_sqrt (lengthSq a) (Rlt_le _ _ Hpos)) as Hsq.
  revert Hs Hsq. generalize (sqrt (lengthSq a)). intros l Hs Hsq.
  unfold divideScalar, multiplyScalar, lengthSq in *. cbn [x y z] in *.
  replace (x a * (1 / l) * (x a * (1 / l)) + y a * (1 / l) * (y a * (1 / l))
           + z a * (1 / l) * (z a * (1 / l)))
    with ((x a * x a + y a * y a + z a * z a) / (l * l))
    by (field; lra).
  rewrite Hsq. field. lra.
Qed.

Lemma steering_lengthSq joyInput worldDirection up rotationY :
  lengthSq (fst (playerSteering joyInput worldDirection up rotationY)) <= 1.
Proof.
  unfold playerSteering.
  destruct (App.active joyInput);
    [ | cbn; unfold lengthSq; cbn; lra ].
  cbv zeta.
  match goal with
  | |- context [lengthSq ?v >? 0.01] =>
      generalize v; intros mv;
      destruct (lengthSq mv >? 0.01) eqn:Hdead; cbn [fst]
  end.
  - apply gtb_true in Hdead. rewrite normalize_lengthSq; lra.
  - apply gtb_false in Hdead. lra.
Qed.

Lemma playerLogic_position delta joyInput worldDirection up (p : PlayerRefs) :
  let moved :=
    add (player_position (playerState p))
      (multiplyScalar
         (fst (playerSteering joyInput worldDirection up
                 (player_rotationY (playerState p))))
         (4.0 * delta)) in
  player_position (playerState (playerLogic delta joyInput worldDirection up p))
  = if outOfArena moved then player_position (playerState p) else moved.
Proof.
  cbv zeta. unfold playerLogic.
  destruct (playerSteering joyInput worldDirection up
              (player_rotationY (playerState p))) as [moveVector target].
  cbn [fst].
  destruct (playerAttackEffectActive p);
    [ destruct (playerAttackEffectTimer p + delta
                >=? PLAYER_ATTACK_EFFECT_DURATION) | ];
    reflexivity.
Qed.

(** X11. Whatever the joystick reading, the camera heading and the up
    vector, one frame moves the player by at most [moveSpeed * delta]
    = 4 * delta: outside the dead zone the move vector is normalised, inside
    it the vector is shorter than 0.1, and a step across the border is
    undone. *)
Theorem X11_player_step_at_most_move_speed :
  forall (delta : R) (joyInput : App.JoystickOutput)
         (worldDirection up : Vector3) (p : PlayerRefs),
    let p' := playerLogic delta joyInput worldDirection up p in
    distanceToSquared (player_position (playerState p'))
      (player_position (playerState p))
    <= (4 * delta) * (4 * delta).
Proof.
  intros delta joyInput worldDirection up p p'. subst p'.
  rewrite playerLogic_position.
  pose proof (steering_lengthSq joyInput worldDirection up
                (player_rotationY (playerState p))) as Hlen.
  destruct (playerSteering joyInput worldDirection up
              (player_rotationY (playerState p))) as [mv target].
  cbn [fst] in *.
  destruct (outOfArena _).
  - unfold distanceToSquared. cbv zeta. nra.
  - unfold distanceToSquared, add, multiplyScalar, lengthSq in *.
    cbn [x y z] in *.
    replace ((x (player_position (playerState p)) + x mv * (4.0 * delta)
              - x (player_position (playerState p)))
             * (x (player_position (playerState p)) + x mv * (4.0 * delta)
                - x (player_position (playerState p)))
             + (y (player_position (playerState p)) + y mv * (4.0 * delta)
                - y (player_position (playerState p)))
               * (y (player_position (playerState p)) + y mv * (4.0 * delta)
                  - y (player_position (playerState p)))
             + (z (player_position (playerState p)) + z mv * (4.0 * delta)
                - z (player_position (playerState p)))
               * (z (player_position (playerState p)) + z mv * (4.0 * delta)
                  - z (player_position (playerState p))))
      with ((x mv * x mv + y mv * y mv + z mv * z mv)
            * ((4 * delta) * (4 * delta))) by lra.
    assert (0 <= (4 * delta) * (4 * delta)) by nra. nra.
Qed.

Lemma idle_position delta joyInput worldDirection up (p : PlayerRefs) :
  App.active joyInput = false ->
  player_position (playerState (playerLogic delta joyInput worldDirection up p))
  = player_position (playerState p).
Proof.
  intros Hidle. rewrite playerLogic_position.
  unfold playerSteering. rewrite Hidle. cbn [fst].
  assert (Hpos : add (player_position (playerState p))
                   (multiplyScalar (mkVector3 0 0 0) (4.0 * delta))
                 = player_position (playerState p)).
  { destruct (player_position (playerState p)) as [px py pz].
    unfold add, multiplyScalar. cbn. f_equal; lra. }
  rewrite Hpos. destruct (outOfArena _); reflexivity.
Qed.

Lemma shortestAngleDiff_same (a : R) : shortestAngleDiff a a = 0.
Proof.
  pose proof PI_lower as Hpi.
  unfold shortestAngleDiff, JS.rem, JS.trunc. cbv zeta.
  replace ((a - a) / (PI * 2)) with 0 by (field; lra).
  destruct (Rle_dec 0 0); [ | lra ].
  rewrite (Zfloor_eq 0) by (simpl; lra).
  replace (a - a - PI * 2 * 0) with 0 by lra.
  replace (0 >? PI) with false by (symmetry; apply gtb_false; lra).
  replace (0 <? - PI) with false by (symmetry; apply ltb_false; lra).
  reflexivity.
Qed.

(** X12. With an inactive input the player logic leaves the player where
    it stands and facing where it faces (the shortest difference of equal
    angles is 0), resets the walk phase to 0 and draws the mesh at base
    height at the player's position, facing the same way. *)
Theorem X12_idle_player_stands_still :
  forall (delta : R) (joyInput : App.JoystickOutput)
         (worldDirection up : Vector3) (p : PlayerRefs),
    App.active joyInput = false ->
    let p' := playerLogic delta joyInput worldDirection up p in
    player_position (playerState p') = player_position (playerState p)
    /\ player_rotationY (playerState p') = player_rotationY (playerState p)
    /\ playerWalkAnimationTime p' = 0
    /\ mesh_position (player_mesh (playerState p'))
       = mkVector3 (x (player_position (playerState p))) CHARACTER_BASE_Y
           (z (player_position (playerState p)))
    /\ mesh_rotation_y (player_mesh (playerState p'))
       = player_rotationY (playerState p).
Proof.
  intros delta joyInput worldDirection up p Hidle p'. subst p'.
  unfold playerLogic, playerSteering. rewrite Hidle. cbv zeta.
  rewrite shortestAngleDiff_same.
  assert (Hpos : add (player_position (playerState p))
                   (multiplyScalar (mkVector3 0 0 0) (4.0 * delta))
                 = player_position (playerState p)).
  { destruct (player_position (playerState p)) as [px py pz].
    unfold add, multiplyScalar. cbn. f_equal; lra. }
  rewrite Hpos.
  destruct (outOfArena (player_position (playerState p)));
    (destruct (playerAttackEffectActive p);
     [ destruct (playerAttackEffectTimer p + delta
                 >=? PLAYER_ATTACK_EFFECT_DURATION) | ]);
    cbn; repeat split; try reflexivity; try lra; f_equal; lra.
Qed.

Lemma X12_idle_witness :
  let p := Scenario.playerAt (mkVector3 1 0 2) in
  let p' := playerLogic (1 / 60) App.initialJoystickData Scenario.lookAlongX
              DEFAULT_UP p in
  player_position (playerState p') = player_position (playerState p)
  /\ player_rotationY (playerState p') = player_rotationY (playerState p)
  /\ playerWalkAnimationTime p' = 0
  /\ mesh_position (player_mesh (playerState p'))
     = mkVector3 (x (player_position (playerState p))) CHARACTER_BASE_Y
         (z (player_position (playerState p)))
  /\ mesh_rotation_y (player_mesh (playerState p'))
     = player_rotationY (playerState p).
Proof.
  apply (X12_idle_player_stands_still (1 / 60) App.initialJoystickData
           Scenario.lookAlongX DEFAULT_UP
           (Scenario.playerAt (mkVector3 1 0 2))).
  reflexivity.
Defined.

(** ** The tower scan of the enemy *)

Lemma closestTower_acc (enemyPos : Vector3) :
  forall (towers : list TowerInfo) (acc : option (R * Vector3)),
    let scan :=
      fold_left
        (fun acc tower =>
           let distSq := distanceToSquared enemyPos (tower_position tower) in
           match acc with
           | None => Some (distSq, tower_position tower)
           | Some (closest, _) =>
               if distSq <? closest then Some (distSq, tower_position tower)
               else acc
           end)
        towers acc in
    match scan with
    | None => acc = None /\ towers = []
    | Some (d, t) =>
        (acc = Some (d, t)
         \/ exists tower, In tower towers /\ t = tower_position tower
                          /\ d = distanceToSquared enemyPos t)
        /\ (forall tower, In tower towers ->
              d <= distanceToSquared enemyPos (tower_position tower))
        /\ (forall d0 t0, acc = Some (d0, t0) -> d <= d0)
    end.
Proof.
  induction towers as [ | tw rest IH ]; intros acc; cbn [fold_left].
  - destruct acc as [[d t] | ].
    + split; [ left; reflexivity | ]. split.
      * intros tower [].
      * intros d0 t0 H. injection H as <- <-. lra.
    + split; reflexivity.
  - cbv zeta in IH.
    match goal with
    | |- context [fold_left ?f rest ?a] =>
        specialize (IH a); set (acc' := a) in *;
        destruct (fold_left f rest acc') as [[d t] | ]
    end.
    + destruct IH as (Hsrc & Hmin & Hacc).
      assert (Htw : d <= distanceToSquared enemyPos (tower_position tw)
                    /\ (forall d0 t0, acc = Some (d0, t0) -> d <= d0)
                    /\ (acc' = Some (d, t) ->
                        acc = Some (d, t)
                        \/ (t = tower_position tw
                            /\ d = distanceToSquared enemyPos t))).
      { subst acc'. destruct acc as [[c t0] | ].
        - destruct (distanceToSquared enemyPos (tower_position tw) <? c)
            eqn:Hlt.
          + apply ltb_true in Hlt.
            pose proof (Hacc _ _ eq_refl). repeat split.
            * lra.
            * intros d0 t1 H1. injection H1 as <- <-. lra.
            * intros H1. injection H1 as <- <-. right. split; reflexivity.
          + apply ltb_false in Hlt.
            pose proof (Hacc _ _ eq_refl). repeat split.
            * lra.
            * intros d0 t1 H1. injection H1 as <- <-. lra.
            * intros H1. left. exact H1.
        - pose proof (Hacc _ _ eq_refl). repeat split.
          + lra.
          + intros d0 t1 H1. discriminate.
          + intros H1. injection H1 as <- <-. right. split; reflexivity. }
      destruct Htw as (Hle & Hacc0 & Hfrom).
      split; [ | split ].
      * destruct Hsrc as [Heq | (tower & Hin & Ht & Hd)].
        -- destruct (Hfrom Heq) as [Ha | [Ht Hd]].
           ++ left. exact Ha.
           ++ right. exists tw. repeat split; auto. left. reflexivity.
        -- right. exists tower. repeat split; auto. right. exact Hin.
      * intros tower [<- | Hin]; [ exact Hle | apply Hmin; exact Hin ].
      * exact Hacc0.
    + destruct IH as [Hnone _]. subst acc'.
      destruct acc as [[c t0] | ]; [ | discriminate ].
      destruct (distanceToSquared enemyPos (tower_position tw) <? c);
        discriminate.
Qed.

Lemma towerThreat_some (towers : list TowerInfo) (enemyPos t : Vector3) :
  towerThreat towers enemyPos = Some t ->
  (exists tower, In tower towers /\ t = tower_position tower)
  /\ distanceToSquared enemyPos t < TOWER_AVOIDANCE_RANGE_ENEMY_SQR
  /\ forall tower, In tower towers ->
       distanceToSquared enemyPos t
       <= distanceToSquared enemyPos (tower_position tower).
Proof.
  unfold towerThreat, closestTower.
  pose proof (closestTower_acc enemyPos towers None) as Hscan.
  cbv zeta in Hscan.
  destruct (fold_left _ towers None) as [[d t'] | ]; [ | discriminate ].
  destruct (d <? TOWER_AVOIDANCE_RANGE_ENEMY_SQR) eqn:Hlt; [ | discriminate ].
  intros H. injection H as <-. apply ltb_true in Hlt.
  destruct Hscan as ([Habs | (tower & Hin & Ht & Hd)] & Hmin & _);
    [ discriminate | ].
  subst d. repeat split.
  - exists tower. auto.
  - exact Hlt.
  - exact Hmin.
Qed.

Lemma towerThreat_none (towers : list TowerInfo) (enemyPos : Vector3) :
  towerThreat towers enemyPos = None ->
  forall tower, In tower towers ->
    TOWER_AVOIDANCE_RANGE_ENEMY_SQR
    <= distanceToSquared enemyPos (tower_position tower).
Proof.
  unfold towerThreat, closestTower.
  pose proof (closestTower_acc enemyPos towers None) as Hscan.
  cbv zeta in Hscan.
  destruct (fold_left _ towers None) as [[d t'] | ].
  - destruct (d <? TOWER_AVOIDANCE_RANGE_ENEMY_SQR) eqn:Hlt;
      [ discriminate | ].
    apply ltb_false in Hlt. intros _ tower Hin.
    destruct Hscan as (_ & Hmin & _). specialize (Hmin tower Hin). lra.
  - destruct Hscan as [_ ->]. intros _ tower [].
Qed.

(** X16. The tower scan of the enemy logic: a threat is reported exactly
    when some tower is closer than the avoidance range (squared distance
    below 10 * 10); the reported position is that of a tower of the list at
    minimal distance. With no tower that close, none is reported. *)
Theorem X16_tower_threat_is_the_nearest_tower_in_range :
  forall (towers : list TowerInfo) (enemyPos : Vector3),
    match towerThreat towers enemyPos with
    | Some t =>
        (exists tower, In tower towers /\ t = tower_position tower)
        /\ distanceToSquared enemyPos t < (50 * 0.20) * (50 * 0.20)
        /\ forall tower, In tower towers ->
             distanceToSquared enemyPos t
             <= distanceToSquared enemyPos (tower_position tower)
    | None =>
        forall tower, In tower towers ->
          (50 * 0.20) * (50 * 0.20)
          <= distanceToSquared enemyPos (tower_position tower)
    end.
Proof.
  intros towers enemyPos.
  destruct (towerThreat towers enemyPos) as [t | ] eqn:Hthreat.
  - apply towerThreat_some. exact Hthreat.
  - apply towerThreat_none. exact Hthreat.
Qed.

(** What the movement phase leaves alone. *)
Lemma enemyMove_keeps delta (e : EnemyState) :
  let e' := enemyMove delta e in
  aiState e' = aiState e
  /\ currentTarget e' = currentTarget e
  /\ attackCooldownTimer e' = attackCooldownTimer e
  /\ isAttackingVisual e' = isAttackingVisual e
  /\ attackEffectTimer e' = attackEffectTimer e
  /\ mesh_material (enemy_mesh e') = mesh_material (enemy_mesh e).
Proof.
  cbv zeta. unfold enemyMove.
  repeat match goal with
    | |- context [if ?b then _ else _] => destruct b
    end; cbn; repeat split.
Qed.

Lemma visual_keeps delta (e : EnemyState) :
  let e1 := enemyAttackVisual delta (enemyTimers delta e) in
  enemy_position e1 = enemy_position e
  /\ currentTarget e1 = currentTarget e
  /\ aiState e1 = aiState e
  /\ attackCooldownTimer e1 = JS.Math_max 0 (attackCooldownTimer e - delta)
  /\ roamTimer e1 = JS.Math_max 0 (roamTimer e - delta).
Proof.
  cbv zeta. unfold enemyAttackVisual, enemyTimers.
  cbn [isAttackingVisual attackEffectTimer].
  destruct (isAttackingVisual e);
    [ destruct (attackEffectTimer e + delta >=? ENEMY_ATTACK_EFFECT_DURATION)
    | ]; cbn; repeat split.
Qed.

Lemma square_nonneg (a : R) : 0 <= a * a.
Proof. nra. Qed.

Lemma square_diff_pos (a b : R) : a <> b -> 0 < (a - b) * (a - b).
Proof.
  intros H. destruct (Rtotal_order a b) as [Hlt | [Heq | Hgt]];
    [ nra | contradiction | nra ].
Qed.

(** X17. A tower within the avoidance range overrides everything else in
    the tick: whatever the previous state, the player's position and the
    timers, the enemy ends the tick in FLEEING_TOWER, heading for the point
    [FLEE_DISTANCE_FROM_TOWER] = 5 away from where it stands, straight away
    from the tower; no attack starts (the cooldown just counts down, the
    smoke pool is untouched) and no random number is drawn. *)
Theorem X17_tower_in_range_forces_flight :
  forall (delta : R) (playerPos : Vector3) (towers : list TowerInfo)
         (rnd : JS.Random) (k : nat) (e : EnemyState) (s : Smoke)
         (t : Vector3),
    towerThreat towers (enemy_position e) = Some t ->
    let r := enemyLogic delta playerPos towers rnd k e s in
    let e' := fst (fst r) in
    aiState e' = FLEEING_TOWER
    /\ currentTarget e'
       = addScaledVector (enemy_position e)
           (normalize (sub (enemy_position e) t)) FLEE_DISTANCE_FROM_TOWER
    /\ (enemy_position e <> t ->
        distanceToSquared (currentTarget e') (enemy_position e) = 5 * 5)
    /\ attackCooldownTimer e'
       = JS.Math_max 0 (attackCooldownTimer e - delta)
    /\ snd (fst r) = s
    /\ snd r = k.
Proof.
  intros delta playerPos towers rnd k e s t Hthreat r e'.
  destruct (visual_keeps delta e) as (Hpos & Htarget & Hstate & Hcd & _).
  cbv zeta in Hpos, Htarget, Hstate, Hcd.
  assert (Hplan :
    let e1 := enemyAttackVisual delta (enemyTimers delta e) in
    enemyPlan delta playerPos towers rnd k e s
    = (mkEnemyState (enemy_mesh e1) (enemy_position e1) (enemy_rotationY e1)
         (enemy_originalColor e1)
         (addScaledVector (enemy_position e)
            (normalize (sub (enemy_position e) t)) FLEE_DISTANCE_FROM_TOWER)
         (roamTimer e1) (isMoving e1) (walkAnimationTime e1) FLEEING_TOWER
         (attackCooldownTimer e1) (isAttackingVisual e1)
         (attackEffectTimer e1), s, k)).
  { cbv zeta. unfold enemyPlan, enemyDecide. rewrite Hpos, Hthreat.
    unfold enemySettle. cbn [newAiState AiState_eqb andb].
    unfold enemyCommit. cbn [forceNewRoamTarget newAiState newTarget].
    rewrite Hpos. reflexivity. }
  cbv zeta in Hplan.
  subst e' r. unfold enemyLogic. rewrite Hplan. cbn [fst snd].
  destruct (enemyMove_keeps delta
              (mkEnemyState
                 (enemy_mesh (enemyAttackVisual delta (enemyTimers delta e)))
                 (enemy_position
                    (enemyAttackVisual delta (enemyTimers delta e)))
                 (enemy_rotationY
                    (enemyAttackVisual delta (enemyTimers delta e)))
                 (enemy_originalColor
                    (enemyAttackVisual delta (enemyTimers delta e)))
                 (addScaledVector (enemy_position e)
                    (normalize (sub (enemy_position e) t))
                    FLEE_DISTANCE_FROM_TOWER)
                 (roamTimer (enemyAttackVisual delta (enemyTimers delta e)))
                 (isMoving (enemyAttackVisual delta (enemyTimers delta e)))
                 (walkAnimationTime
                    (enemyAttackVisual delta (enemyTimers delta e)))
                 FLEEING_TOWER
                 (attackCooldownTimer
                    (enemyAttackVisual delta (enemyTimers delta e)))
                 (isAttackingVisual
                    (enemyAttackVisual delta (enemyTimers delta e)))
                 (attackEffectTimer
                    (enemyAttackVisual delta (enemyTimers delta e)))))
    as (Ks & Kt & Kc & _).
  cbv zeta in Ks, Kt, Kc. cbn [aiState currentTarget attackCooldownTimer] in *.
  rewrite Ks, Kt, Kc, Hcd. repeat split.
  intros Hne.
  assert (Hlen : 0 < lengthSq (sub (enemy_position e) t)).
  { destruct (enemy_position e) as [px py pz]. destruct t as [tx ty tz].
    unfold lengthSq, sub. cbn [x y z].
    destruct (Req_dec px tx) as [Hx | Hx];
      [ destruct (Req_dec py ty) as [Hy | Hy];
        [ destruct (Req_dec pz tz) as [Hz | Hz];
          [ exfalso; apply Hne; subst; reflexivity | ] | ] | ].
    - pose proof (square_diff_pos pz tz Hz).
      pose proof (square_nonneg (px - tx)).
      pose proof (square_nonneg (py - ty)). lra.
    - pose proof (square_diff_pos py ty Hy).
      pose proof (square_nonneg (px - tx)).
      pose proof (square_nonneg (pz - tz)). lra.
    - pose proof (square_diff_pos px tx Hx).
      pose proof (square_nonneg (py - ty)).
      pose proof (square_nonneg (pz - tz)). lra. }
  pose proof (normalize_lengthSq _ Hlen) as Hunit.
  revert Hunit. generalize (normalize (sub (enemy_position e) t)).
  intros n Hunit. unfold distanceToSquared, addScaledVector, lengthSq,
    FLEE_DISTANCE_FROM_TOWER in *. cbn [x y z] in *. cbv zeta. nra.
Qed.

Lemma threat_mid_tower :
  towerThreat towerDefinitions_blue (mkVector3 0 0 (-20))
  = Some (mkVector3 0 0 (- mapRadius * 0.5)).
Proof.
  unfold towerThreat, closestTower, towerDefinitions_blue, mapRadius,
    TOWER_AVOIDANCE_RANGE_ENEMY_SQR, distanceToSquared.
  crunch. settle. reflexivity.
Qed.

Lemma X17_flight_witness :
  let e := Scenario.enemyAt (mkVector3 0 0 (-20)) (mkVector3 0 0 0)
             CHASING_PLAYER in
  let t := mkVector3 0 0 (- mapRadius * 0.5) in
  let r := enemyLogic (1 / 60) (mkVector3 0 0 (-19)) towerDefinitions_blue
             (Scenario.always (1 / 2)) 0 e initialSmoke in
  let e' := fst (fst r) in
  aiState e' = FLEEING_TOWER
  /\ currentTarget e'
     = addScaledVector (enemy_position e)
         (normalize (sub (enemy_position e) t)) FLEE_DISTANCE_FROM_TOWER
  /\ (enemy_position e <> t ->
      distanceToSquared (currentTarget e') (enemy_position e) = 5 * 5)
  /\ attackCooldownTimer e'
     = JS.Math_max 0 (attackCooldownTimer e - 1 / 60)
  /\ snd (fst r) = initialSmoke
  /\ snd r = 0%nat.
Proof.
  apply (X17_tower_in_range_forces_flight (1 / 60) (mkVector3 0 0 (-19))
           towerDefinitions_blue (Scenario.always (1 / 2)) 0
           (Scenario.enemyAt (mkVector3 0 0 (-20)) (mkVector3 0 0 0)
              CHASING_PLAYER)
           initialSmoke (mkVector3 0 0 (- mapRadius * 0.5))).
  exact threat_mid_tower.
Defined.

(** ** Where the actors are *)

Lemma normalize_y (a : Vector3) : y a = 0 -> y (normalize a) = 0.
Proof.
  intros H. unfold normalize, divideScalar, multiplyScalar. cbn [y].
  rewrite H. lra.
Qed.

Lemma steering_y joyInput worldDirection rotationY :
  y (fst (playerSteering joyInput worldDirection DEFAULT_UP rotationY)) = 0.
Proof.
  unfold playerSteering.
  destruct (App.active joyInput); [ | reflexivity ].
  cbv zeta.
  assert (Hmv :
    y (add
         (add (mkVector3 0 0 0)
            (multiplyScalar
               (normalize
                  (mkVector3 (x worldDirection) 0 (z worldDirection)))
               (- App.y joyInput)))
         (multiplyScalar
            (normalize
               (crossVectors DEFAULT_UP
                  (normalize
                     (mkVector3 (x worldDirection) 0 (z worldDirection)))))
            (- App.x joyInput))) = 0).
  { unfold add, multiplyScalar. cbn [y].
    rewrite (normalize_y (mkVector3 (x worldDirection) 0 (z worldDirection)))
      by reflexivity.
    rewrite normalize_y; [ lra | ].
    unfold crossVectors, DEFAULT_UP. cbn [x y z]. lra. }
  destruct (lengthSq _ >? 0.01); cbn [fst].
  - apply normalize_y. exact Hmv.
  - exact Hmv.
Qed.

(** The vertical bob of a walking character. *)
Lemma bob_bound (a amplitude : R) :
  0 <= amplitude ->
  Rabs (CHARACTER_BASE_Y + JS.Math_sin a * amplitude - CHARACTER_BASE_Y)
  <= amplitude.
Proof.
  intros Ha. unfold JS.Math_sin. pose proof (SIN_bound a) as [Hlo Hhi].
  apply Rabs_le. split; nra.
Qed.

Lemma rest_bound (amplitude : R) :
  0 <= amplitude ->
  Rabs (CHARACTER_BASE_Y - CHARACTER_BASE_Y) <= amplitude.
Proof.
  intros Ha. replace (CHARACTER_BASE_Y - CHARACTER_BASE_Y) with 0 by lra.
  rewrite Rabs_R0. exact Ha.
Qed.

(** A character on the ground inside the arena whose mesh is drawn where
    it stands and faces where it faces. *)
Definition placed (amplitude : R) (position : Vector3) (rotationY : R)
    (m : Mesh) : Prop :=
  outOfArena position = false
  /\ y position = 0
  /\ x (mesh_position m) = x position
  /\ z (mesh_position m) = z position
  /\ Rabs (y (mesh_position m) - CHARACTER_BASE_Y) <= amplitude
  /\ mesh_rotation_y m = rotationY.

Lemma playerLogic_placed delta joyInput worldDirection (p : PlayerRefs) :
  outOfArena (player_position (playerState p)) = false ->
  y (player_position (playerState p)) = 0 ->
  let p' := playerState
              (playerLogic delta joyInput worldDirection DEFAULT_UP p) in
  placed 0.08 (player_position p') (player_rotationY p') (player_mesh p').
Proof.
  intros Hin Hy. cbv zeta. unfold playerLogic.
  pose proof (steering_y joyInput worldDirection
                (player_rotationY (playerState p))) as Hmv.
  destruct (playerSteering joyInput worldDirection DEFAULT_UP
              (player_rotationY (playerState p))) as [moveVector target].
  cbn [fst] in Hmv.
  assert (Hpos :
    let moved := add (player_position (playerState p))
                   (multiplyScalar moveVector (4.0 * delta)) in
    let position := if outOfArena moved
                    then player_position (playerState p) else moved in
    outOfArena position = false /\ y position = 0).
  { cbv zeta.
    destruct (outOfArena (add (player_position (playerState p))
                            (multiplyScalar moveVector (4.0 * delta))))
      eqn:Hout.
    - split; assumption.
    - split; [ exact Hout | ]. unfold add, multiplyScalar. cbn [y].
      rewrite Hy, Hmv. lra. }
  cbv zeta in Hpos. destruct Hpos as [Hpin Hpy].
  assert (Hbob :
    Rabs (CHARACTER_BASE_Y
          + (if App.active joyInput
             then JS.Math_sin
                    (if App.active joyInput
                     then playerWalkAnimationTime p + delta * 8 else 0)
                  * 0.08
             else 0) - CHARACTER_BASE_Y) <= 0.08).
  { destruct (App.active joyInput).
    - apply bob_bound. lra.
    - replace (CHARACTER_BASE_Y + 0 - CHARACTER_BASE_Y) with 0 by lra.
      rewrite Rabs_R0. lra. }
  destruct (playerAttackEffectActive p);
    [ destruct (playerAttackEffectTimer p + delta
                >=? PLAYER_ATTACK_EFFECT_DURATION) | ];
    cbn [playerState player_position player_rotationY player_mesh
         mesh_position mesh_rotation_y x y z];
    (split; [ exact Hpin | split; [ exact Hpy | ] ]);
    (split; [ reflexivity | split; [ reflexivity | ] ]);
    (split; [ exact Hbob | reflexivity ]).
Qed.

Lemma roamLoop_y (attempts : nat) :
  forall mapRadius currentPos blueFountainPos redFountainPos rnd k,
    y (fst (roamLoop attempts mapRadius currentPos blueFountainPos
              redFountainPos rnd k)) = 0.
Proof.
  induction attempts as [ | n IH ]; intros; cbn [roamLoop].
  - reflexivity.
  - cbv zeta. destruct (roamRejected _ _ _ _ _); [ apply IH | reflexivity ].
Qed.

Definition onGround (towers : list TowerInfo) : Prop :=
  forall tower, In tower towers -> y (tower_position tower) = 0.

(** The target the enemy heads for is on the ground. *)
Lemma enemyPlan_target_y delta playerPos towers rnd k (e : EnemyState) s :
  onGround towers ->
  y playerPos = 0 ->
  y (enemy_position e) = 0 ->
  y (currentTarget e) = 0 ->
  y (currentTarget (fst (fst (enemyPlan delta playerPos towers rnd k e s))))
  = 0.
Proof.
  intros Htowers Hpy Hey Hty.
  destruct (visual_keeps delta e) as (Hpos & Htarget & _).
  cbv zeta in Hpos, Htarget.
  unfold enemyPlan.
  set (e1 := enemyAttackVisual delta (enemyTimers delta e)) in *.
  assert (Hd : let r := enemyDecide playerPos towers rnd k e1 s in
               y (newTarget (fst (fst (fst r)))) = 0
               /\ y (currentTarget (snd (fst (fst r)))) = 0).
  { cbv zeta. unfold enemyDecide.
    destruct (towerThreat towers (enemy_position e1)) as [t | ] eqn:Hthreat.
    - cbn [fst snd newTarget]. split; [ | congruence ].
      apply towerThreat_some in Hthreat.
      destruct Hthreat as ((tower & Hin & ->) & _).
      unfold addScaledVector. cbn [y].
      rewrite normalize_y.
      + rewrite Hpos. lra.
      + unfold sub. cbn [y]. rewrite Hpos, (Htowers tower Hin). lra.
    - destruct (AiState_eqb (aiState e1) FLEEING_TOWER);
        repeat match goal with
          | |- context [emitSmokePuffs ?a ?b ?c ?d ?f] =>
              destruct (emitSmokePuffs a b c d f)
          | |- context [if ?b then _ else _] => destruct b
          end; cbn [fst snd newTarget startAttack currentTarget];
        split; congruence. }
  cbv zeta in Hd.
  destruct (enemyDecide playerPos towers rnd k e1 s) as [[[d e2] s'] k1].
  cbn [fst snd] in Hd. destruct Hd as [Hdy He2].
  assert (Hs : y (newTarget (fst (enemySettle playerPos d e2))) = 0).
  { unfold enemySettle.
    repeat match goal with
      | |- context [if ?b then _ else _] => destruct b
      end; cbn [fst newTarget]; assumption. }
  destruct (enemySettle playerPos d e2) as [d' e3]. cbn [fst] in Hs.
  unfold enemyCommit. destruct (forceNewRoamTarget d').
  - pose proof (roamLoop_y 10 mapRadius (enemy_position e3)
                  blueFountainPosition redFountainPosition rnd k1) as Hr.
    unfold getRandomRoamTarget.
    destruct (roamLoop 10 mapRadius (enemy_position e3) blueFountainPosition
                redFountainPosition rnd k1) as [target k'].
    cbn [fst currentTarget] in *. exact Hr.
  - cbn [fst currentTarget]. exact Hs.
Qed.

Lemma enemyLogic_placed delta playerPos towers rnd k (e : EnemyState) s :
  onGround towers ->
  y playerPos = 0 ->
  placed 0.07 (enemy_position e) (enemy_rotationY e) (enemy_mesh e) ->
  y (currentTarget e) = 0 ->
  let e' := fst (fst (enemyLogic delta playerPos towers rnd k e s)) in
  placed 0.07 (enemy_position e') (enemy_rotationY e') (enemy_mesh e')
  /\ y (currentTarget e') = 0.
Proof.
  intros Htowers Hpy Hplaced Hty. cbv zeta. unfold enemyLogic. cbn [fst].
  pose proof Hplaced as (Hin & Hy & Hmx & Hmz & Hmy & Hrot).
  pose proof (enemyPlan_target_y delta playerPos towers rnd k e s Htowers
                Hpy Hy Hty) as Hplan_t.
  destruct (enemyPlan_body delta playerPos towers rnd k e s)
    as (Bpos & Brot & _ & _ & Bmrot).
  set (e4 := fst (fst (enemyPlan delta playerPos towers rnd k e s))) in *.
  destruct (enemyMove_keeps delta e4) as (_ & Kt & _).
  cbv zeta in Kt.
  split; [ | rewrite Kt; exact Hplan_t ].
  unfold enemyMove.
  destruct (negb (AiState_eqb (aiState e4) ATTACKING_PLAYER)
            || negb (isAttackingVisual e4)).
  - destruct (lengthSq (subVectors (currentTarget e4) (enemy_position e4))
              >? 0.01).
    + cbv zeta.
      set (direction :=
             normalize (subVectors (currentTarget e4) (enemy_position e4))).
      assert (Hdy : y direction = 0).
      { apply normalize_y. unfold subVectors, sub. cbn [y].
        rewrite Bpos. lra. }
      set (moved := addScaledVector (enemy_position e4) direction
                      (ENEMY_MOVE_SPEED * delta)).
      assert (Hpos : outOfArena (if outOfArena moved
                                 then enemy_position e4 else moved) = false
                     /\ y (if outOfArena moved
                           then enemy_position e4 else moved) = 0).
      { destruct (outOfArena moved) eqn:Hout.
        - rewrite Bpos. split; assumption.
        - split; [ exact Hout | ]. unfold moved, addScaledVector.
          cbn [y]. rewrite Bpos, Hy, Hdy. lra. }
      destruct Hpos as [Hpin Hpy'].
      unfold placed.
      cbn [enemy_position enemy_rotationY enemy_mesh mesh_position
           mesh_rotation_y x y z].
      repeat split; try assumption; try reflexivity.
      apply bob_bound. lra.
    + unfold placed.
      cbn [enemy_position enemy_rotationY enemy_mesh mesh_position
           mesh_rotation_y x y z].
      rewrite Bpos, Brot, Bmrot.
      repeat split; try assumption; try reflexivity.
      apply rest_bound. lra.
  - unfold placed.
    cbn [enemy_position enemy_rotationY enemy_mesh mesh_position
         mesh_rotation_y x y z].
    rewrite Bpos, Brot, Bmrot.
    repeat split; try assumption; try reflexivity.
    apply rest_bound. lra.
Qed.

Definition sceneGround (sc : Scene) : Prop :=
  let p := playerState (playerRefs sc) in
  let e := enemyState sc in
  placed 0.08 (player_position p) (player_rotationY p) (player_mesh p)
  /\ placed 0.07 (enemy_position e) (enemy_rotationY e) (enemy_mesh e)
  /\ y (currentTarget e) = 0
  /\ onGround (blueTowers sc).

Lemma fountains_inside :
  outOfArena blueFountainPosition = false
  /\ outOfArena redFountainPosition = false.
Proof.
  unfold outOfArena, blueFountainPosition, redFountainPosition, mapRadius,
    JS.Math_abs. cbn [x z]. rewrite Rabs_R0.
  split; apply gtb_false.
  - rewrite Rabs_left by lra. lra.
  - rewrite Rabs_right by lra. lra.
Qed.

Lemma towers_onGround : onGround towerDefinitions_blue.
Proof.
  intros tower Hin. unfold towerDefinitions_blue in Hin. cbn in Hin.
  repeat destruct Hin as [<- | Hin]; try reflexivity. contradiction.
Qed.

Lemma setupScene_ground rnd k attackTrigger :
  sceneGround (setupScene rnd k attackTrigger).
Proof.
  destruct fountains_inside as [Hblue Hred].
  unfold sceneGround, setupScene. cbv zeta.
  cbn [playerRefs playerState enemyState blueTowers player_position
       player_rotationY player_mesh enemy_position enemy_rotationY
       enemy_mesh currentTarget].
  split; [ | split; [ | split ] ].
  - unfold placed. cbn [mesh_position mesh_rotation_y x y z].
    repeat split; try assumption; try reflexivity.
    apply rest_bound. lra.
  - unfold placed. cbn [mesh_position mesh_rotation_y x y z].
    repeat split; try assumption; try reflexivity.
    apply rest_bound. lra.
  - apply roamLoop_y.
  - exact towers_onGround.
Qed.

Lemma animate_ground rnd i sc :
  sceneGround sc -> sceneGround (animate rnd i sc).
Proof.
  intros (Hp & He & Ht & Htowers). unfold sceneGround, animate. cbv zeta.
  cbn [playerRefs enemyState blueTowers].
  pose proof Hp as (Hpin & Hpy & _).
  pose proof (playerLogic_placed (delta i) (joyInput i) (worldDirection i)
                (playerRefs sc) Hpin Hpy) as Hp'.
  cbv zeta in Hp'. split; [ exact Hp' | ].
  destruct Hp' as (_ & Hpy' & _).
  pose proof (enemyLogic_placed (delta i)
                (player_position
                   (playerState
                      (playerLogic (delta i) (joyInput i) (worldDirection i)
                         DEFAULT_UP (playerRefs sc))))
                (blueTowers sc) rnd (randomCalls sc) (enemyState sc)
                (smoke sc) Htowers Hpy' He Ht) as He'.
  cbv zeta in He'. destruct He' as [He1 He2].
  split; [ exact He1 | split; [ exact He2 | exact Htowers ] ].
Qed.

Lemma attackTriggerEffect_player attackTrigger rnd k (p : PlayerRefs) s :
  let p' :=
    playerState (fst (fst (attackTriggerEffect attackTrigger rnd k p s))) in
  player_position p' = player_position (playerState p)
  /\ player_rotationY p' = player_rotationY (playerState p)
  /\ mesh_position (player_mesh p')
     = mesh_position (player_mesh (playerState p))
  /\ mesh_rotation_y (player_mesh p')
     = mesh_rotation_y (player_mesh (playerState p)).
Proof.
  cbv zeta. unfold attackTriggerEffect.
  destruct (attackTrigger >? lastAttackTrigger p); cbn; repeat split.
Qed.

Lemma step_ground rnd sc ev : sceneGround sc -> sceneGround (step rnd sc ev).
Proof.
  intros H. destruct ev; cbn [step]; try exact H.
  - apply animate_ground. exact H.
  - destruct H as (Hp & He & Ht & Htowers).
    unfold sceneGround. cbn [playerRefs enemyState blueTowers].
    destruct (attackTriggerEffect_player attackTrigger rnd (randomCalls sc)
                (playerRefs sc) (smoke sc)) as (A1 & A2 & A3 & A4).
    cbv zeta in A1, A2, A3, A4.
    split; [ | split; [ exact He | split; [ exact Ht | exact Htowers ] ] ].
    unfold placed in *. rewrite A1, A2, A3, A4. exact Hp.
Qed.

Lemma reachable_ground rnd sc : reachable rnd sc -> sceneGround sc.
Proof.
  induction 1 as [ k attackTrigger i | sc ev Hreach IH ].
  - unfold mountedScene. apply animate_ground. apply setupScene_ground.
  - apply step_ground. exact IH.
Qed.

(** X13. In every scene reachable from the mounted scene both actors are
    inside the diamond arena, [|x| + |z| <= 0.98 * mapRadius], and on the
    ground plane [y = 0]: a step that would leave the diamond is undone, and
    every direction the code moves along is horizontal. *)
Theorem X13_actors_stay_inside_the_arena_on_the_ground :
  forall (rnd : JS.Random) (sc : Scene),
    reachable rnd sc ->
    let p := player_position (playerState (playerRefs sc)) in
    let e := enemy_position (enemyState sc) in
    Rabs (x p) + Rabs (z p) <= mapRadius * 0.98 /\ y p = 0
    /\ Rabs (x e) + Rabs (z e) <= mapRadius * 0.98 /\ y e = 0.
Proof.
  intros rnd sc Hreach p e.
  destruct (reachable_ground rnd sc Hreach)
    as ((Hpin & Hpy & _) & (Hein & Hey & _) & _).
  unfold outOfArena, JS.Math_abs in Hpin, Hein.
  apply gtb_false in Hpin. apply gtb_false in Hein.
  subst p e. repeat split; assumption.
Qed.

Lemma X13_arena_witness :
  let rnd := Scenario.always (1 / 2) in
  let sc :=
    step rnd (mountedScene rnd 0 0 Scenario.idleFrame)
      (Frame (mkFrameInput 1 Scenario.joyForward Scenario.lookAlongX)) in
  let p := player_position (playerState (playerRefs sc)) in
  let e := enemy_position (enemyState sc) in
  Rabs (x p) + Rabs (z p) <= mapRadius * 0.98 /\ y p = 0
  /\ Rabs (x e) + Rabs (z e) <= mapRadius * 0.98 /\ y e = 0.
Proof.
  intros rnd sc.
  apply (X13_actors_stay_inside_the_arena_on_the_ground rnd sc).
  apply reachable_step. apply reachable_mounted.
Defined.

(** X14. In every reachable scene each character mesh is drawn at the x
    and z of its actor's position and faces the actor's [rotationY]; its
    height differs from the base height by at most the bob amplitude, 0.08
    for the player and 0.07 for the enemy. *)
Theorem X14_meshes_are_drawn_where_the_actors_stand :
  forall (rnd : JS.Random) (sc : Scene),
    reachable rnd sc ->
    let p := playerState (playerRefs sc) in
    let e := enemyState sc in
    (x (mesh_position (player_mesh p)) = x (player_position p)
     /\ z (mesh_position (player_mesh p)) = z (player_position p)
     /\ Rabs (y (mesh_position (player_mesh p)) - CHARACTER_BASE_Y) <= 0.08
     /\ mesh_rotation_y (player_mesh p) = player_rotationY p)
    /\ (x (mesh_position (enemy_mesh e)) = x (enemy_position e)
        /\ z (mesh_position (enemy_mesh e)) = z (enemy_position e)
        /\ Rabs (y (mesh_position (enemy_mesh e)) - CHARACTER_BASE_Y) <= 0.07
        /\ mesh_rotation_y (enemy_mesh e) = enemy_rotationY e).
Proof.
  intros rnd sc Hreach p e.
  destruct (reachable_ground rnd sc Hreach)
    as ((_ & _ & P1 & P2 & P3 & P4) & (_ & _ & E1 & E2 & E3 & E4) & _).
  subst p e. repeat split; assumption.
Qed.

Lemma X14_mesh_witness :
  let rnd := Scenario.always (1 / 2) in
  let sc :=
    step rnd (mountedScene rnd 0 0 Scenario.idleFrame)
      (Frame (mkFrameInput 1 Scenario.joyForward Scenario.lookAlongX)) in
  let p := playerState (playerRefs sc) in
  let e := enemyState sc in
  (x (mesh_position (player_mesh p)) = x (player_position p)
   /\ z (mesh_position (player_mesh p)) = z (player_position p)
   /\ Rabs (y (mesh_position (player_mesh p)) - CHARACTER_BASE_Y) <= 0.08
   /\ mesh_rotation_y (player_mesh p) = player_rotationY p)
  /\ (x (mesh_position (enemy_mesh e)) = x (enemy_position e)
      /\ z (mesh_position (enemy_mesh e)) = z (enemy_position e)
      /\ Rabs (y (mesh_position (enemy_mesh e)) - CHARACTER_BASE_Y) <= 0.07
      /\ mesh_rotation_y (enemy_mesh e) = enemy_rotationY e).
Proof.
  intros rnd sc.
  apply (X14_meshes_are_drawn_where_the_actors_stand rnd sc).
  apply reachable_step. apply reachable_mounted.
Defined.

(** ** The orbit camera *)

(** The polar bound of the scene is at most the angle at which the eye
    reaches the minimum height. *)
Lemma scene_maxPhi_acos :
  maxPhiForGround (CHARACTER_BASE_Y + 0.5) 18
  <= acos ((MIN_CAMERA_Y_POSITION - (CHARACTER_BASE_Y + 0.5)) / 18).
Proof.
  unfold maxPhiForGround, CHARACTER_BASE_Y, MIN_CAMERA_Y_POSITION,
    MAX_PHI_ABS.
  settle_comparisons. cbn [andb].
  unfold JS.Math_min, JS.Math_acos. apply Rmin_r.
Qed.

Definition eyeInv (playerPos : Vector3) (c : CameraRig) : Prop :=
  cameraTarget c
  = mkVector3 (x playerPos) (CHARACTER_BASE_Y + 0.5) (z playerPos)
  /\ distanceToSquared (cameraPosition c) (cameraTarget c)
     = cameraRadius c * cameraRadius c
  /\ MIN_CAMERA_Y_POSITION <= y (cameraPosition c).

Lemma cameraUpdate_eye (playerPos : Vector3) (c : CameraRig) :
  cameraRadius c = 18 ->
  0.1 <= cameraPhi c <= maxPhiForGround (CHARACTER_BASE_Y + 0.5) 18 ->
  eyeInv playerPos (cameraUpdate playerPos c).
Proof.
  intros Hr [Hlo Hhi]. unfold eyeInv, cameraUpdate. cbv zeta.
  cbn [cameraTarget cameraPosition cameraRadius x y z].
  split; [ reflexivity | split ].
  - unfold distanceToSquared. cbn [x y z]. cbv zeta.
    pose proof (sin2_cos2 (cameraPhi c)) as Hphi.
    pose proof (sin2_cos2 (cameraTheta c)) as Htheta.
    unfold Rsqr in Hphi, Htheta.
    set (sp := sin (cameraPhi c)) in *. set (cp := cos (cameraPhi c)) in *.
    set (st := sin (cameraTheta c)) in *. set (ct := cos (cameraTheta c)) in *.
    set (rad := cameraRadius c).
    replace ((x playerPos + rad * sp * st - x playerPos)
             * (x playerPos + rad * sp * st - x playerPos)
             + (CHARACTER_BASE_Y + 0.5 + rad * cp
                - (CHARACTER_BASE_Y + 0.5))
               * (CHARACTER_BASE_Y + 0.5 + rad * cp
                  - (CHARACTER_BASE_Y + 0.5))
             + (z playerPos + rad * sp * ct - z playerPos)
               * (z playerPos + rad * sp * ct - z playerPos))
      with (rad * rad * (sp * sp * (st * st + ct * ct) + cp * cp)) by ring.
    rewrite Htheta. rewrite Rmult_1_r, Hphi. ring.
  - rewrite Hr.
    pose proof scene_maxPhi_acos as Hmax.
    set (c0 := (MIN_CAMERA_Y_POSITION - (CHARACTER_BASE_Y + 0.5)) / 18) in *.
    pose proof (acos_bound c0) as [Ha0 Ha1].
    assert (Hc0 : -1 <= c0 <= 1).
    { unfold c0, MIN_CAMERA_Y_POSITION, CHARACTER_BASE_Y. lra. }
    pose proof (cos_decr_1 (cameraPhi c) (acos c0)) as Hcos.
    rewrite (cos_acos c0 Hc0) in Hcos.
    assert (Hge : c0 <= cos (cameraPhi c)) by (apply Hcos; lra).
    unfold c0, MIN_CAMERA_Y_POSITION, CHARACTER_BASE_Y in *. lra.
Qed.

Lemma pointer_handlers_keep_eye (c : CameraRig) :
  (forall event,
     cameraPosition (onWindowPointerMoveCallback event c) = cameraPosition c
     /\ cameraTarget (onWindowPointerMoveCallback event c) = cameraTarget c
     /\ cameraRadius (onWindowPointerMoveCallback event c) = cameraRadius c)
  /\ (forall event,
        cameraPosition (onWindowPointerUpOrCancelCallback event c)
        = cameraPosition c
        /\ cameraTarget (onWindowPointerUpOrCancelCallback event c)
           = cameraTarget c
        /\ cameraRadius (onWindowPointerUpOrCancelCallback event c)
           = cameraRadius c)
  /\ (forall event captured,
        cameraPosition (handleCanvasPointerDown event captured c)
        = cameraPosition c
        /\ cameraTarget (handleCanvasPointerDown event captured c)
           = cameraTarget c
        /\ cameraRadius (handleCanvasPointerDown event captured c)
           = cameraRadius c).
Proof.
  repeat split;
    unfold onWindowPointerMoveCallback, onWindowPointerUpOrCancelCallback,
      handleCanvasPointerDown;
    repeat match goal with
      | |- context [if ?b then _ else _] => destruct b
      end; reflexivity.
Qed.

Lemma reachable_eye rnd sc :
  reachable rnd sc ->
  eyeInv (player_position (playerState (playerRefs sc))) (cameraRig sc).
Proof.
  induction 1 as [ k attackTrigger i | sc ev Hreach IH ].
  - unfold mountedScene, animate. cbn [cameraRig playerRefs].
    apply cameraUpdate_eye; cbn; [ reflexivity | ].
    pose proof scene_maxPhi. pose proof PI_lower. pose proof PI_upper.
    split; [ lra | ].
    apply Rle_trans with (PI / 2); [ lra | assumption ].
  - destruct (pointer_handlers_keep_eye (cameraRig sc))
      as (Hmove & Hup & Hdown).
    destruct ev as [ i | attackTrigger | event captured | event | event ];
      cbn [step cameraRig playerRefs].
    + destruct (reachable_cameraInv rnd sc Hreach) as (Hr & Hy & Hphi).
      unfold animate. cbn [cameraRig playerRefs].
      apply cameraUpdate_eye; [ exact Hr | ].
      rewrite Hr, Hy in Hphi. exact Hphi.
    + destruct (attackTriggerEffect_player attackTrigger rnd (randomCalls sc)
                  (playerRefs sc) (smoke sc)) as (A1 & _).
      cbv zeta in A1. rewrite A1. exact IH.
    + destruct (Hdown event captured) as (E1 & E2 & E3).
      unfold eyeInv. rewrite E1, E2, E3. exact IH.
    + destruct (Hmove event) as (E1 & E2 & E3).
      unfold eyeInv. rewrite E1, E2, E3. exact IH.
    + destruct (Hup event) as (E1 & E2 & E3).
      unfold eyeInv. rewrite E1, E2, E3. exact IH.
Qed.

(** X15. In every reachable scene the camera target is the player's
    position at head height ([CHARACTER_BASE_Y + 0.5]), the eye is at
    distance 18 (the orbit radius) from the target, and the eye is never
    below [MIN_CAMERA_Y_POSITION] = 0.5, whatever pointer drags occurred. *)
Theorem X15_camera_eye_orbits_the_player_above_the_ground :
  forall (rnd : JS.Random) (sc : Scene),
    reachable rnd sc ->
    let c := cameraRig sc in
    let p := player_position (playerState (playerRefs sc)) in
    cameraTarget c = mkVector3 (x p) (CHARACTER_BASE_Y + 0.5) (z p)
    /\ distanceToSquared (cameraPosition c) (cameraTarget c) = 18 * 18
    /\ MIN_CAMERA_Y_POSITION <= y (cameraPosition c).
Proof.
  intros rnd sc Hreach c p.
  destruct (reachable_eye rnd sc Hreach) as (Ht & Hd & Hy).
  destruct (reachable_cameraInv rnd sc Hreach) as (Hr & _).
  subst c p. rewrite Hr in Hd. repeat split; assumption.
Qed.

Lemma X15_eye_witness :
  let sc := step (Scenario.always (1 / 2))
              (mountedScene (Scenario.always (1 / 2)) 0 0 Scenario.idleFrame)
              (PointerMove (Scenario.pointerAt 100 40)) in
  let c := cameraRig sc in
  let p := player_position (playerState (playerRefs sc)) in
  cameraTarget c = mkVector3 (x p) (CHARACTER_BASE_Y + 0.5) (z p)
  /\ distanceToSquared (cameraPosition c) (cameraTarget c) = 18 * 18
  /\ MIN_CAMERA_Y_POSITION <= y (cameraPosition c).
Proof.
  apply (X15_camera_eye_orbits_the_player_above_the_ground
           (Scenario.always (1 / 2))
           (step (Scenario.always (1 / 2))
              (mountedScene (Scenario.always (1 / 2)) 0 0 Scenario.idleFrame)
              (PointerMove (Scenario.pointerAt 100 40)))).
  apply reachable_step. apply reachable_mounted.
Defined.

(** ** Pointer moves of one drag *)

Lemma move_of_captured (event : PointerEvent) (c : CameraRig) :
  cameraIsDragging c = true ->
  isActivePointer c event = true ->
  let c' := onWindowPointerMoveCallback event c in
  cameraIsDragging c' = true
  /\ activeCameraPointerId c' = activeCameraPointerId c
  /\ cameraLastPointerPos c' = (clientX event, clientY event)
  /\ cameraTheta c'
     = cameraTheta c
       - (clientX event - fst (cameraLastPointerPos c)) * 0.005.
Proof.
  intros Hdrag Hact. cbv zeta. unfold onWindowPointerMoveCallback.
  rewrite Hdrag, Hact. cbn. repeat split. 
Qed.

Lemma last_cons_default {A : Type} (l : list A) :
  forall a d, last (a :: l) d = last l a.
Proof.
  induction l as [ | b l IH ]; intros a d; [ reflexivity | ].
  change (last (a :: b :: l) d) with (last (b :: l) d).
  rewrite (IH b d), (IH b a). reflexivity.
Qed.

(** X18. Over any sequence of pointer moves of the captured pointer
    during a drag, the azimuth changes by -0.005 times the total horizontal
    travel of the pointer: it depends on the first and last position only,
    not on the path in between. The recorded pointer position is that of
    the last event. *)
Theorem X18_azimuth_depends_on_total_horizontal_travel :
  forall (events : list PointerEvent) (c : CameraRig),
    cameraIsDragging c = true ->
    (forall event, In event events -> isActivePointer c event = true) ->
    let c' := fold_left (fun c event => onWindowPointerMoveCallback event c)
                events c in
    cameraTheta c'
    = cameraTheta c
      - (fst (cameraLastPointerPos c') - fst (cameraLastPointerPos c))
        * 0.005
    /\ cameraLastPointerPos c'
       = last (map (fun event => (clientX event, clientY event)) events)
           (cameraLastPointerPos c).
Proof.
  induction events as [ | event rest IH ]; intros c Hdrag Hact; cbn [fold_left].
  - cbn. split; [ lra | reflexivity ].
  - destruct (move_of_captured event c Hdrag (Hact event (or_introl eq_refl)))
      as (Hd & Hid & Hlast & Htheta).
    cbv zeta in Hd, Hid, Hlast, Htheta.
    assert (Hact' : forall ev, In ev rest ->
              isActivePointer (onWindowPointerMoveCallback event c) ev = true).
    { intros ev Hin. unfold isActivePointer. rewrite Hid.
      apply (Hact ev). right. exact Hin. }
    destruct (IH (onWindowPointerMoveCallback event c) Hd Hact')
      as [IHtheta IHlast].
    cbv zeta. split.
    + rewrite IHtheta, Htheta, Hlast. cbn [fst]. lra.
    + rewrite IHlast, Hlast. cbn [map]. symmetry. apply last_cons_default.
Qed.

Lemma X18_drag_witness :
  let c := Scenario.draggingRig (PI / 3.5) 18 (CHARACTER_BASE_Y + 0.5) in
  let events := [Scenario.pointerAt 10 0; Scenario.pointerAt 30 5;
                 Scenario.pointerAt 25 5] in
  let c' := fold_left (fun c event => onWindowPointerMoveCallback event c)
              events c in
  cameraTheta c'
  = cameraTheta c
    - (fst (cameraLastPointerPos c') - fst (cameraLastPointerPos c)) * 0.005
  /\ cameraLastPointerPos c'
     = last (map (fun event => (clientX event, clientY event)) events)
         (cameraLastPointerPos c).
Proof.
  apply (X18_azimuth_depends_on_total_horizontal_travel
           [Scenario.pointerAt 10 0; Scenario.pointerAt 30 5;
            Scenario.pointerAt 25 5]
           (Scenario.draggingRig (PI / 3.5) 18 (CHARACTER_BASE_Y + 0.5))).
  - reflexivity.
  - intros event [<- | [<- | [<- | []]]]; reflexivity.
Defined.

(** The drag flag is set exactly while a pointer id is recorded. *)
Definition dragInv (c : CameraRig) : Prop :=
  cameraIsDragging c
  = match activeCameraPointerId c with Some _ => true | None => false end.

Lemma pointer_handlers_dragInv (c : CameraRig) :
  dragInv c ->
  (forall event, dragInv (onWindowPointerMoveCallback event c))
  /\ (forall event, dragInv (onWindowPointerUpOrCancelCallback event c))
  /\ (forall event captured,
        dragInv (handleCanvasPointerDown event captured c)).
Proof.
  intros H. repeat split; intros;
    unfold onWindowPointerMoveCallback, onWindowPointerUpOrCancelCallback,
      handleCanvasPointerDown;
    repeat match goal with
      | |- context [if ?b then _ else _] => destruct b
      end; try exact H; reflexivity.
Qed.

Lemma reachable_dragInv rnd sc : reachable rnd sc -> dragInv (cameraRig sc).
Proof.
  induction 1 as [ k attackTrigger i | sc ev Hreach IH ].
  - reflexivity.
  - destruct (pointer_handlers_dragInv (cameraRig sc) IH)
      as (Hmove & Hup & Hdown).
    destruct ev as [ i | attackTrigger | event captured | event | event ];
      cbn [step cameraRig].
    + exact IH.
    + exact IH.
    + apply Hdown.
    + apply Hmove.
    + apply Hup.
Qed.

Lemma scene_eta (sc : Scene) :
  mkScene (playerRefs sc) (enemyState sc) (blueTowers sc) (cameraRig sc)
    (smoke sc) (randomCalls sc) = sc.
Proof. destruct sc. reflexivity. Qed.

(** X19. In every reachable scene the drag flag is set exactly when a
    pointer id is recorded. Move and release events of any pointer other
    than the recorded one leave the scene unchanged, a press by another
    pointer during a drag is ignored, and with no drag on every move and
    release event is ignored. *)
Theorem X19_camera_follows_one_pointer_at_a_time :
  forall (rnd : JS.Random) (sc : Scene),
    reachable rnd sc ->
    let c := cameraRig sc in
    (cameraIsDragging c = true
     <-> exists id, activeCameraPointerId c = Some id)
    /\ (forall event,
          isActivePointer c event = false ->
          step rnd sc (PointerMove event) = sc
          /\ step rnd sc (PointerUpOrCancel event) = sc)
    /\ (forall event captured,
          cameraIsDragging c = true ->
          isActivePointer c event = false ->
          step rnd sc (PointerDown event captured) = sc)
    /\ (cameraIsDragging c = false ->
        forall event,
          step rnd sc (PointerMove event) = sc
          /\ step rnd sc (PointerUpOrCancel event) = sc).
Proof.
  intros rnd sc Hreach c.
  pose proof (reachable_dragInv rnd sc Hreach) as Hinv.
  unfold dragInv in Hinv. fold c in Hinv.
  assert (Hignored : forall event,
            isActivePointer c event = false ->
            step rnd sc (PointerMove event) = sc
            /\ step rnd sc (PointerUpOrCancel event) = sc).
  { intros event Hother. cbn [step].
    unfold onWindowPointerMoveCallback, onWindowPointerUpOrCancelCallback.
    fold c. rewrite Hother. cbn [negb]. rewrite orb_true_r.
    split; apply scene_eta. }
  split; [ | split; [ exact Hignored | split ] ].
  - rewrite Hinv. destruct (activeCameraPointerId c) as [ id | ].
    + split; [ intros _; exists id; reflexivity | reflexivity ].
    + split; [ discriminate | intros [id Hid]; discriminate ].
  - intros event captured Hdrag Hother. cbn [step].
    unfold handleCanvasPointerDown. fold c. rewrite Hdrag, Hother.
    cbn [negb andb].
    destruct (isMouse event && negb (Z.eqb (button event) 0));
      apply scene_eta.
  - intros Hidle event. apply Hignored.
    unfold isActivePointer. rewrite Hidle in Hinv.
    destruct (activeCameraPointerId c); [ discriminate | reflexivity ].
Qed.

Lemma X19_pointer_witness :
  let rnd := Scenario.always (1 / 2) in
  let sc := step rnd (mountedScene rnd 0 0 Scenario.idleFrame)
              (PointerDown (Scenario.pointerAt 10 10) true) in
  let c := cameraRig sc in
  (cameraIsDragging c = true
   <-> exists id, activeCameraPointerId c = Some id)
  /\ (forall event,
        isActivePointer c event = false ->
        step rnd sc (PointerMove event) = sc
        /\ step rnd sc (PointerUpOrCancel event) = sc)
  /\ (forall event captured,
        cameraIsDragging c = true ->
        isActivePointer c event = false ->
        step rnd sc (PointerDown event captured) = sc)
  /\ (cameraIsDragging c = false ->
      forall event,
        step rnd sc (PointerMove event) = sc
        /\ step rnd sc (PointerUpOrCancel event) = sc).
Proof.
  apply (X19_camera_follows_one_pointer_at_a_time (Scenario.always (1 / 2))
           (step (Scenario.always (1 / 2))
              (mountedScene (Scenario.always (1 / 2)) 0 0 Scenario.idleFrame)
              (PointerDown (Scenario.pointerAt 10 10) true))).
  apply reachable_step. apply reachable_mounted.
Defined.

(** ** When the enemy attacks *)

(** The priority evaluation either leaves the enemy as it is or starts an
    attack, and it starts one only with no tower in range, the player in
    attack range and the cooldown run out. *)
Lemma enemyDecide_attack playerPos towers rnd k (e1 : EnemyState) s :
  let r := enemyDecide playerPos towers rnd k e1 s in
  let e2 := snd (fst (fst r)) in
  (e2 = e1 /\ snd (fst r) = s)
  \/ (e2 = startAttack e1
      /\ snd (fst r) = fst (emitSmokePuffs (enemy_position e1) 0.8 rnd k s)
      /\ newAiState (fst (fst (fst r))) = ATTACKING_PLAYER
      /\ towerThreat towers (enemy_position e1) = None
      /\ distanceToSquared (enemy_position e1) playerPos
         < ENEMY_ATTACK_RANGE_SQR
      /\ attackCooldownTimer e1 <= 0
      /\ isAttackingVisual e1 = false).
Proof.
  cbv zeta. unfold enemyDecide.
  destruct (towerThreat towers (enemy_position e1));
    [ left; split; reflexivity | ].
  destruct (AiState_eqb (aiState e1) FLEEING_TOWER) eqn:Hfl;
    cbn [negb AiState_eqb andb]; rewrite ?Hfl; cbn [negb andb];
    (destruct (distanceToSquared (enemy_position e1) playerPos
               <? ENEMY_ATTACK_RANGE_SQR) eqn:Hd; cbn [andb];
     [ destruct (attackCooldownTimer e1 <=? 0) eqn:Hc; cbn [andb];
       [ destruct (isAttackingVisual e1) eqn:Hf; cbn [negb andb] | ] | ]);
    try (right;
         destruct (emitSmokePuffs (enemy_position e1) 0.8 rnd k s);
         cbn [fst snd newAiState];
         apply ltb_true in Hd; apply leb_true in Hc;
         repeat split; assumption);
    repeat match goal with
      | |- context [if ?b then _ else _] => destruct b
      end; left; split; reflexivity.
Qed.

Lemma enemySettle_keeps playerPos d (e : EnemyState) :
  let e' := snd (enemySettle playerPos d e) in
  isAttackingVisual e' = isAttackingVisual e
  /\ attackCooldownTimer e' = attackCooldownTimer e
  /\ attackEffectTimer e' = attackEffectTimer e
  /\ enemy_position e' = enemy_position e.
Proof.
  cbv zeta. unfold enemySettle.
  repeat match goal with
    | |- context [if ?b then _ else _] => destruct b
    end; repeat split.
Qed.

Lemma enemyCommit_keeps d rnd k (e : EnemyState) :
  let e' := fst (enemyCommit d rnd k e) in
  isAttackingVisual e' = isAttackingVisual e
  /\ attackCooldownTimer e' = attackCooldownTimer e
  /\ attackEffectTimer e' = attackEffectTimer e
  /\ enemy_position e' = enemy_position e
  /\ aiState e' = newAiState d.
Proof.
  cbv zeta. unfold enemyCommit. destruct (forceNewRoamTarget d).
  - destruct (getRandomRoamTarget mapRadius (enemy_position e)
                blueFountainPosition redFountainPosition rnd k).
    repeat split.
  - repeat split.
Qed.

(** The visual flag, the two attack timers and the smoke pool after a tick,
    in terms of what the evaluation did. *)
Lemma enemyLogic_attack delta playerPos towers rnd k (e : EnemyState) s :
  let e1 := enemyAttackVisual delta (enemyTimers delta e) in
  let r := enemyLogic delta playerPos towers rnd k e s in
  let e' := fst (fst r) in
  (isAttackingVisual e' = isAttackingVisual e1
   /\ attackCooldownTimer e' = attackCooldownTimer e1
   /\ attackEffectTimer e' = attackEffectTimer e1
   /\ snd (fst r) = s)
  \/ (isAttackingVisual e' = true
      /\ attackCooldownTimer e' = ENEMY_ATTACK_COOLDOWN
      /\ attackEffectTimer e' = 0
      /\ snd (fst r) = fst (emitSmokePuffs (enemy_position e) 0.8 rnd k s)
      /\ towerThreat towers (enemy_position e) = None
      /\ distanceToSquared (enemy_position e) playerPos
         < ENEMY_ATTACK_RANGE_SQR
      /\ attackCooldownTimer e1 <= 0
      /\ isAttackingVisual e1 = false).
Proof.
  cbv zeta. unfold enemyLogic, enemyPlan.
  destruct (visual_keeps delta e) as (Hpos & _).
  cbv zeta in Hpos.
  set (e1 := enemyAttackVisual delta (enemyTimers delta e)) in *.
  pose proof (enemyDecide_attack playerPos towers rnd k e1 s) as Hd.
  cbv zeta in Hd.
  destruct (enemyDecide playerPos towers rnd k e1 s) as [[[d e2] s'] k1].
  cbn [fst snd] in Hd.
  destruct (enemySettle_keeps playerPos d e2) as (S1 & S2 & S3 & _).
  cbv zeta in S1, S2, S3.
  destruct (enemySettle playerPos d e2) as [d' e3]. cbn [fst snd] in *.
  destruct (enemyCommit_keeps d' rnd k1 e3) as (C1 & C2 & C3 & _).
  cbv zeta in C1, C2, C3.
  destruct (enemyCommit d' rnd k1 e3) as [e4 k2]. cbn [fst snd] in *.
  destruct (enemyMove_keeps delta e4) as (_ & _ & M2 & M1 & M3 & _).
  cbv zeta in M1, M2, M3.
  rewrite M1, M2, M3, C1, C2, C3, S1, S2, S3.
  destruct Hd as [[-> ->] | (-> & -> & _ & Hthreat & Hdist & Hcd & Hflag)].
  - left. repeat split.
  - right. rewrite Hpos in *. cbn [startAttack isAttackingVisual
      attackCooldownTimer attackEffectTimer]. repeat split; assumption.
Qed.

Lemma visual_idle delta (e : EnemyState) :
  isAttackingVisual e = false ->
  isAttackingVisual (enemyAttackVisual delta (enemyTimers delta e)) = false.
Proof.
  intros Hidle. unfold enemyAttackVisual, enemyTimers.
  cbn [isAttackingVisual]. rewrite Hidle. cbn [isAttackingVisual].
  reflexivity.
Qed.

(** X20. The attack visual of an enemy with no visual playing comes on in
    a tick only if no tower is within the avoidance range, the player is
    within attack range (squared distance below 2.2 * 2.2) and the cooldown
    has run out by the end of the frame; the tick then sets the cooldown to
    2.5, the effect timer to 0, emits one burst of smoke at the enemy and
    does not move the enemy. *)
Theorem X20_attack_starts_only_when_ready :
  forall (delta : R) (playerPos : Vector3) (towers : list TowerInfo)
         (rnd : JS.Random) (k : nat) (e : EnemyState) (s : Smoke),
    isAttackingVisual e = false ->
    let r := enemyLogic delta playerPos towers rnd k e s in
    let e' := fst (fst r) in
    isAttackingVisual e' = true ->
    towerThreat towers (enemy_position e) = None
    /\ distanceToSquared (enemy_position e) playerPos < 2.2 * 2.2
    /\ attackCooldownTimer e <= delta
    /\ attackCooldownTimer e' = 2.5
    /\ attackEffectTimer e' = 0
    /\ enemy_position e' = enemy_position e
    /\ snd (fst r) = fst (emitSmokePuffs (enemy_position e) 0.8 rnd k s).
Proof.
  intros delta playerPos towers rnd k e s Hidle r e' Hrise.
  destruct (visual_keeps delta e) as (_ & _ & _ & Hcd1 & _).
  cbv zeta in Hcd1.
  pose proof (visual_idle delta e Hidle) as Hflag1.
  destruct (enemyLogic_attack delta playerPos towers rnd k e s)
    as [(Hsame & _) | (_ & Hcd & Htimer & Hsmoke & Hthreat & Hdist & Hready
                       & _)];
    cbv zeta in *.
  - subst e' r. rewrite Hsame, Hflag1 in Hrise. discriminate.
  - rewrite Hcd1 in Hready. unfold JS.Math_max in Hready.
    assert (Hle : attackCooldownTimer e - delta <= 0).
    { apply Rle_trans with (Rmax 0 (attackCooldownTimer e - delta));
        [ apply Rmax_r | exact Hready ]. }
    assert (Hpos : enemy_position e' = enemy_position e).
    { subst e' r. unfold enemyLogic. cbn [fst].
      destruct (enemyPlan_body delta playerPos towers rnd k e s)
        as (Bpos & _).
      set (e4 := fst (fst (enemyPlan delta playerPos towers rnd k e s))) in *.
      assert (Hst : aiState e4 = ATTACKING_PLAYER
                    /\ isAttackingVisual e4 = true).
      { destruct (enemyMove_keeps delta e4) as (_ & _ & _ & M1 & _).
        cbv zeta in M1. unfold enemyLogic in Hrise. cbn [fst] in Hrise.
        fold e4 in Hrise. rewrite M1 in Hrise. split; [ | exact Hrise ].
        assert (Hinv : enemyInv towers e)
          by (intros H; rewrite Hidle in H; discriminate).
        destruct (plan_during_visual delta playerPos towers rnd k e s Hinv
                    Hrise) as [Hs _].
        exact Hs. }
      destruct Hst as [Hst Hfl].
      destruct (enemyMove_during_visual delta e4 Hst Hfl) as (Hp & _).
      rewrite Hp. exact Bpos. }
    subst e' r. unfold ENEMY_ATTACK_RANGE_SQR, ENEMY_ATTACK_COOLDOWN in *.
    repeat split; try assumption. lra.
Qed.

(** The cooldown falls by at most the frame time. *)
Lemma cooldown_step delta playerPos towers rnd k (e : EnemyState) s :
  attackCooldownTimer e - delta
  <= attackCooldownTimer (fst (fst (enemyLogic delta playerPos towers rnd k
                                      e s))).
Proof.
  destruct (visual_keeps delta e) as (_ & _ & _ & Hcd1 & _).
  cbv zeta in Hcd1. unfold JS.Math_max in Hcd1.
  pose proof (Rmax_r 0 (attackCooldownTimer e - delta)) as Hmax.
  destruct (enemyLogic_attack delta playerPos towers rnd k e s)
    as [(_ & Hcd & _) | (_ & Hcd & _ & _ & _ & _ & Hready & _)];
    cbv zeta in *; rewrite Hcd.
  - rewrite Hcd1. exact Hmax.
  - rewrite Hcd1 in Hready. unfold ENEMY_ATTACK_COOLDOWN. lra.
Qed.

Lemma frames_cooldown rnd (frames : list FrameInput) :
  forall sc,
    attackCooldownTimer (enemyState sc) - Frames.elapsed frames
    <= attackCooldownTimer (enemyState (Frames.after rnd sc frames)).
Proof.
  induction frames as [ | i frames IH ]; intros sc.
  - cbn. lra.
  - change (Frames.after rnd sc (i :: frames))
      with (Frames.after rnd (animate rnd i sc) frames).
    specialize (IH (animate rnd i sc)).
    pose proof (cooldown_step (delta i)
                  (player_position
                     (playerState
                        (playerLogic (delta i) (joyInput i)
                           (worldDirection i) DEFAULT_UP (playerRefs sc))))
                  (blueTowers sc) rnd (randomCalls sc) (enemyState sc)
                  (smoke sc)) as Hstep.
    change (attackCooldownTimer (enemyState sc) - delta i
            <= attackCooldownTimer (enemyState (animate rnd i sc))) in Hstep.
    cbn [Frames.elapsed fold_right].
    change (fold_right (fun i t => delta i + t) 0 frames)
      with (Frames.elapsed frames).
    lra.
Qed.

(** What a frame that raises the visual flag tells. *)
Lemma animate_rise rnd i sc :
  isAttackingVisual (enemyState sc) = false ->
  isAttackingVisual (enemyState (animate rnd i sc)) = true ->
  attackCooldownTimer (enemyState sc) <= delta i
  /\ attackCooldownTimer (enemyState (animate rnd i sc))
     = ENEMY_ATTACK_COOLDOWN.
Proof.
  intros Hidle Hrise.
  set (playerPos := player_position
                      (playerState
                         (playerLogic (delta i) (joyInput i)
                            (worldDirection i) DEFAULT_UP (playerRefs sc)))).
  change (enemyState (animate rnd i sc))
    with (fst (fst (enemyLogic (delta i) playerPos (blueTowers sc) rnd
                      (randomCalls sc) (enemyState sc) (smoke sc)))) in *.
  destruct (visual_keeps (delta i) (enemyState sc)) as (_ & _ & _ & Hcd1 & _).
  cbv zeta in Hcd1. unfold JS.Math_max in Hcd1.
  pose proof (visual_idle (delta i) (enemyState sc) Hidle) as Hflag1.
  destruct (enemyLogic_attack (delta i) playerPos (blueTowers sc) rnd
              (randomCalls sc) (enemyState sc) (smoke sc))
    as [(Hsame & _) | (_ & Hcd & _ & _ & _ & _ & Hready & _)];
    cbv zeta in *.
  - rewrite Hsame, Hflag1 in Hrise. discriminate.
  - split; [ | exact Hcd ].
    rewrite Hcd1 in Hready.
    pose proof (Rmax_r 0 (attackCooldownTimer (enemyState sc) - delta i)).
    lra.
Qed.

(** X21. Two attack starts are at least [ENEMY_ATTACK_COOLDOWN] = 2.5
    seconds of frame time apart: if a frame raises the visual flag, and
    after further frames another frame raises it again, the times of the
    frames after the first, up to and including the second, sum to at least
    2.5. *)
Theorem X21_attacks_are_a_cooldown_apart :
  forall (rnd : JS.Random) (sc0 : Scene) (i0 : FrameInput)
         (frames : list FrameInput) (i : FrameInput),
    isAttackingVisual (enemyState sc0) = false ->
    let sc := animate rnd i0 sc0 in
    isAttackingVisual (enemyState sc) = true ->
    let sc1 := Frames.after rnd sc frames in
    isAttackingVisual (enemyState sc1) = false ->
    isAttackingVisual (enemyState (animate rnd i sc1)) = true ->
    ENEMY_ATTACK_COOLDOWN <= Frames.elapsed frames + delta i.
Proof.
  intros rnd sc0 i0 frames i Hidle0 sc Hrise0 sc1 Hidle1 Hrise1.
  destruct (animate_rise rnd i0 sc0 Hidle0 Hrise0) as [_ Hcd0].
  destruct (animate_rise rnd i sc1 Hidle1 Hrise1) as [Hcd1 _].
  pose proof (frames_cooldown rnd frames sc) as Hframes.
  fold sc1 in Hframes. fold sc in Hcd0. rewrite Hcd0 in Hframes. lra.
Qed.

Ltac enemy_fields :=
  cbn [enemy_mesh enemy_position enemy_rotationY enemy_originalColor
       currentTarget roamTimer isMoving walkAnimationTime aiState
       attackCooldownTimer isAttackingVisual attackEffectTimer
       newAiState newTarget forceNewRoamTarget fst snd
       AiState_eqb negb andb orb setMaterial mesh_position mesh_rotation_y
       mesh_material].

(** X22. The tick in which the attack visual runs out, for an attacking
    enemy with no tower in range: the material is back at rest and the
    effect timer at 0. If the cooldown is over by the end of the frame and
    the player is in attack range, the attack restarts in the same tick
    (flag set again, cooldown 2.5, enemy not moved). Otherwise the flag is
    cleared, no smoke is emitted, and the enemy chases the player (target =
    player position, no random draw) when the player is within detection
    range, or roams to a freshly drawn target when it is not. *)
Theorem X22_enemy_after_the_attack_visual :
  forall (delta : R) (playerPos : Vector3) (towers : list TowerInfo)
         (rnd : JS.Random) (k : nat) (e : EnemyState) (s : Smoke),
    isAttackingVisual e = true ->
    aiState e = ATTACKING_PLAYER ->
    ENEMY_ATTACK_EFFECT_DURATION <= attackEffectTimer e + delta ->
    towerThreat towers (enemy_position e) = None ->
    let r := enemyLogic delta playerPos towers rnd k e s in
    let e' := fst (fst r) in
    let distanceToPlayerSq := distanceToSquared (enemy_position e) playerPos in
    let ready := attackCooldownTimer e <= delta
                 /\ distanceToPlayerSq < ENEMY_ATTACK_RANGE_SQR in
    attackEffectTimer e' = 0
    /\ mesh_material (enemy_mesh e') = restMaterial (enemy_originalColor e)
    /\ (ready ->
        isAttackingVisual e' = true
        /\ aiState e' = ATTACKING_PLAYER
        /\ attackCooldownTimer e' = ENEMY_ATTACK_COOLDOWN
        /\ enemy_position e' = enemy_position e)
    /\ (~ ready ->
        isAttackingVisual e' = false
        /\ snd (fst r) = s
        /\ (distanceToPlayerSq < ENEMY_DETECTION_RANGE_SQR ->
            aiState e' = CHASING_PLAYER /\ currentTarget e' = playerPos
            /\ snd r = k)
        /\ (ENEMY_DETECTION_RANGE_SQR <= distanceToPlayerSq ->
            aiState e' = ROAMING
            /\ currentTarget e'
               = fst (getRandomRoamTarget mapRadius (enemy_position e)
                        blueFountainPosition redFountainPosition rnd k))).
Proof.
  intros delta playerPos towers rnd k e s.
  destruct e as [m pos rot col target roam moving walk st cd flag timer].
  enemy_fields. intros -> -> Hover Hthreat. cbv zeta.
  assert (Hmove : forall e4 : EnemyState,
            let e5 := enemyMove delta e4 in
            attackEffectTimer e5 = attackEffectTimer e4
            /\ mesh_material (enemy_mesh e5) = mesh_material (enemy_mesh e4)
            /\ isAttackingVisual e5 = isAttackingVisual e4
            /\ aiState e5 = aiState e4
            /\ attackCooldownTimer e5 = attackCooldownTimer e4
            /\ currentTarget e5 = currentTarget e4).
  { intros e4. destruct (enemyMove_keeps delta e4) as (A & B & C & D & E & F).
    cbv zeta in *. repeat split; assumption. }
  unfold enemyLogic, enemyPlan, enemyTimers, enemyAttackVisual. enemy_fields.
  replace (timer + delta >=? ENEMY_ATTACK_EFFECT_DURATION) with true
    by (symmetry; apply geb_true; exact Hover).
  unfold enemyDecide. enemy_fields. rewrite Hthreat.
  destruct (distanceToSquared pos playerPos <? ENEMY_ATTACK_RANGE_SQR)
    eqn:Hrange;
    [ destruct (JS.Math_max 0 (cd - delta) <=? 0) eqn:Hcd | ];
    enemy_fields.
  - (* the attack restarts in the tick that ended the visual *)
    apply ltb_true in Hrange. apply leb_true in Hcd.
    destruct (emitSmokePuffs pos 0.8 rnd k s) as [s' k'].
    unfold enemySettle, startAttack. enemy_fields.
    replace (0 <? ENEMY_ATTACK_EFFECT_DURATION) with true
      by (symmetry; apply ltb_true; unfold ENEMY_ATTACK_EFFECT_DURATION; lra).
    unfold enemyCommit. enemy_fields.
    match goal with
    | |- context [enemyMove delta ?e4] =>
        destruct (Hmove e4) as (M1 & M2 & M3 & M4 & M5 & M6);
        pose proof (enemyMove_during_visual delta e4 eq_refl eq_refl)
          as (Mpos & _)
    end.
    cbv zeta in *. enemy_fields. rewrite M1, M2, M3, M4, M5, Mpos.
    enemy_fields.
    split; [ reflexivity | split; [ reflexivity | split ] ].
    + intros _. repeat split.
    + intros Hnot. exfalso. apply Hnot. split; [ | exact Hrange ].
      unfold JS.Math_max in Hcd.
      pose proof (Rmax_r 0 (cd - delta)). lra.
  - apply ltb_true in Hrange. apply leb_false in Hcd.
    assert (Hnready : ~ (cd <= delta
                         /\ distanceToSquared pos playerPos
                            < ENEMY_ATTACK_RANGE_SQR)).
    { intros [Hc _]. unfold JS.Math_max in Hcd.
      rewrite Rmax_left in Hcd by lra. lra. }
    replace (distanceToSquared pos playerPos <? ENEMY_DETECTION_RANGE_SQR)
      with true
      by (symmetry; apply ltb_true;
          unfold ENEMY_DETECTION_RANGE_SQR, ENEMY_ATTACK_RANGE_SQR in *; lra).
    unfold enemySettle. enemy_fields.
    replace (distanceToSquared pos playerPos <? ENEMY_DETECTION_RANGE_SQR)
      with true
      by (symmetry; apply ltb_true;
          unfold ENEMY_DETECTION_RANGE_SQR, ENEMY_ATTACK_RANGE_SQR in *; lra).
    unfold enemyCommit. enemy_fields.
    match goal with
    | |- context [enemyMove delta ?e4] =>
        destruct (Hmove e4) as (M1 & M2 & M3 & M4 & M5 & M6)
    end.
    cbv zeta in *. enemy_fields. rewrite M1, M2, M3, M4, M6.
    enemy_fields.
    split; [ reflexivity | split; [ reflexivity | split ] ].
    + intros Hready. contradiction.
    + intros _. split; [ reflexivity | split; [ reflexivity | split ] ].
      * intros _. repeat split.
      * intros Hfar. exfalso.
        unfold ENEMY_DETECTION_RANGE_SQR, ENEMY_ATTACK_RANGE_SQR in *. lra.
  - apply ltb_false in Hrange.
    assert (Hnready : ~ (cd <= delta
                         /\ distanceToSquared pos playerPos
                            < ENEMY_ATTACK_RANGE_SQR)) by (intros [_ H]; lra).
    unfold enemySettle. enemy_fields.
    destruct (distanceToSquared pos playerPos <? ENEMY_DETECTION_RANGE_SQR)
      eqn:Hdet; unfold enemyCommit; enemy_fields.
    + apply ltb_true in Hdet.
      match goal with
      | |- context [enemyMove delta ?e4] =>
          destruct (Hmove e4) as (M1 & M2 & M3 & M4 & M5 & M6)
      end.
      cbv zeta in *. enemy_fields. rewrite M1, M2, M3, M4, M6.
      enemy_fields.
      split; [ reflexivity | split; [ reflexivity | split ] ].
      * intros Hready. contradiction.
      * intros _. split; [ reflexivity | split; [ reflexivity | split ] ].
        -- intros _. repeat split.
        -- intros Hfar. exfalso. lra.
    + apply ltb_false in Hdet.
      destruct (getRandomRoamTarget mapRadius pos blueFountainPosition
                  redFountainPosition rnd k) as [target' k'] eqn:Hroam.
      enemy_fields.
      match goal with
      | |- context [enemyMove delta ?e4] =>
          destruct (Hmove e4) as (M1 & M2 & M3 & M4 & M5 & M6)
      end.
      cbv zeta in *. enemy_fields. rewrite M1, M2, M3, M4, M6.
      enemy_fields.
      split; [ reflexivity | split; [ reflexivity | split ] ].
      * intros Hready. contradiction.
      * intros _. split; [ reflexivity | split; [ reflexivity | split ] ].
        -- intros Hnear. exfalso. lra.
        -- intros _. split; reflexivity.
Qed.

(** ** The enemy's step *)

(** Where the enemy stands after a tick, in terms of the state and target
    the same tick stored. *)
Lemma enemyLogic_moves delta playerPos towers rnd k (e : EnemyState) s :
  let e' := fst (fst (enemyLogic delta playerPos towers rnd k e s)) in
  let direction := subVectors (currentTarget e') (enemy_position e) in
  let moved :=
    addScaledVector (enemy_position e) (normalize direction)
      (ENEMY_MOVE_SPEED * delta) in
  enemy_position e'
  = if (negb (AiState_eqb (aiState e') ATTACKING_PLAYER)
        || negb (isAttackingVisual e'))
       && (lengthSq direction >? 0.01)
       && negb (outOfArena moved)
    then moved else enemy_position e.
Proof.
  cbv zeta. unfold enemyLogic. cbn [fst].
  destruct (enemyPlan_body delta playerPos towers rnd k e s) as (Bpos & _).
  set (e4 := fst (fst (enemyPlan delta playerPos towers rnd k e s))) in *.
  destruct (enemyMove_keeps delta e4) as (Ks & Kt & _ & Kf & _).
  cbv zeta in Ks, Kt, Kf. rewrite Ks, Kt, Kf, <- Bpos.
  unfold enemyMove.
  destruct (negb (AiState_eqb (aiState e4) ATTACKING_PLAYER)
            || negb (isAttackingVisual e4)); cbn [andb];
    [ | reflexivity ].
  destruct (lengthSq (subVectors (currentTarget e4) (enemy_position e4))
            >? 0.01); cbn [andb]; [ | reflexivity ].
  cbv zeta. cbn [enemy_position].
  destruct (outOfArena _); reflexivity.
Qed.

(** X24. In one tick the enemy either stays where it is or moves by
    exactly [ENEMY_MOVE_SPEED * delta] = 3.2 * delta; it moves only towards
    a target more than 0.1 away and never while it is in ATTACKING_PLAYER
    with the visual playing. *)
Theorem X24_enemy_moves_at_full_speed_or_not_at_all :
  forall (delta : R) (playerPos : Vector3) (towers : list TowerInfo)
         (rnd : JS.Random) (k : nat) (e : EnemyState) (s : Smoke),
    let e' := fst (fst (enemyLogic delta playerPos towers rnd k e s)) in
    enemy_position e' = enemy_position e
    \/ (distanceToSquared (enemy_position e') (enemy_position e)
        = (ENEMY_MOVE_SPEED * delta) * (ENEMY_MOVE_SPEED * delta)
        /\ 0.01 < distanceToSquared (currentTarget e') (enemy_position e)
        /\ (aiState e' <> ATTACKING_PLAYER \/ isAttackingVisual e' = false)).
Proof.
  intros delta playerPos towers rnd k e s e'.
  pose proof (enemyLogic_moves delta playerPos towers rnd k e s) as Hpos.
  cbv zeta in Hpos. fold e' in Hpos. rewrite Hpos.
  destruct (negb (AiState_eqb (aiState e') ATTACKING_PLAYER)
            || negb (isAttackingVisual e')) eqn:Hfree; cbn [andb];
    [ | left; reflexivity ].
  destruct (lengthSq (subVectors (currentTarget e') (enemy_position e))
            >? 0.01) eqn:Hfar; cbn [andb]; [ | left; reflexivity ].
  destruct (outOfArena _); cbn [negb]; [ left; reflexivity | ].
  right. apply gtb_true in Hfar.
  assert (Hdist : distanceToSquared (currentTarget e') (enemy_position e)
                  = lengthSq (subVectors (currentTarget e')
                               (enemy_position e))).
  { unfold distanceToSquared, lengthSq, subVectors, sub. cbn [x y z].
    cbv zeta. reflexivity. }
  split; [ | split ].
  - assert (Hunit : lengthSq (normalize (subVectors (currentTarget e')
                                           (enemy_position e))) = 1)
      by (apply normalize_lengthSq; lra).
    revert Hunit.
    generalize (normalize (subVectors (currentTarget e') (enemy_position e))).
    intros n Hunit.
    unfold distanceToSquared, addScaledVector, lengthSq in *.
    cbn [x y z] in *. cbv zeta.
    replace ((x (enemy_position e) + x n * (ENEMY_MOVE_SPEED * delta)
              - x (enemy_position e))
             * (x (enemy_position e) + x n * (ENEMY_MOVE_SPEED * delta)
                - x (enemy_position e))
             + (y (enemy_position e) + y n * (ENEMY_MOVE_SPEED * delta)
                - y (enemy_position e))
               * (y (enemy_position e) + y n * (ENEMY_MOVE_SPEED * delta)
                  - y (enemy_position e))
             + (z (enemy_position e) + z n * (ENEMY_MOVE_SPEED * delta)
                - z (enemy_position e))
               * (z (enemy_position e) + z n * (ENEMY_MOVE_SPEED * delta)
                  - z (enemy_position e)))
      with ((x n * x n + y n * y n + z n * z n)
            * (ENEMY_MOVE_SPEED * delta * (ENEMY_MOVE_SPEED * delta)))
      by ring.
    rewrite Hunit. ring.
  - rewrite Hdist. exact Hfar.
  - apply orb_true_iff in Hfree. destruct Hfree as [Hst | Hfl].
    + left. intros Heq. rewrite Heq in Hst. discriminate.
    + right. destruct (isAttackingVisual e'); [ discriminate | reflexivity ].
Qed.

(** ** Two attacks in the standoff scenario *)

(** With no tower in range, the player in attack range, the cooldown over
    by the end of the frame and no visual playing, the tick starts an
    attack. *)
Lemma attack_rises delta playerPos towers rnd k (e : EnemyState) s :
  towerThreat towers (enemy_position e) = None ->
  distanceToSquared (enemy_position e) playerPos < ENEMY_ATTACK_RANGE_SQR ->
  attackCooldownTimer e <= delta ->
  isAttackingVisual e = false ->
  isAttackingVisual (fst (fst (enemyLogic delta playerPos towers rnd k e s)))
  = true.
Proof.
  intros Hthreat Hdist Hcd Hidle.
  destruct (visual_keeps delta e) as (Hpos & _ & _ & Hcd1 & _).
  cbv zeta in Hpos, Hcd1.
  pose proof (visual_idle delta e Hidle) as Hflag1.
  unfold enemyLogic, enemyPlan. cbn [fst].
  set (e1 := enemyAttackVisual delta (enemyTimers delta e)) in *.
  assert (Hd : snd (fst (fst (enemyDecide playerPos towers rnd k e1 s)))
               = startAttack e1).
  { unfold enemyDecide. rewrite Hpos, Hthreat, Hflag1, Hcd1.
    replace (distanceToSquared (enemy_position e) playerPos
             <? ENEMY_ATTACK_RANGE_SQR) with true
      by (symmetry; apply ltb_true; exact Hdist).
    replace (JS.Math_max 0 (attackCooldownTimer e - delta) <=? 0) with true
      by (symmetry; apply leb_true; unfold JS.Math_max;
          rewrite Rmax_left by lra; lra).
    destruct (AiState_eqb (aiState e1) FLEEING_TOWER) eqn:Hfl;
      cbn [negb AiState_eqb andb]; rewrite ?Hfl; cbn [negb andb];
      destruct (emitSmokePuffs (enemy_position e) 0.8 rnd k s);
      reflexivity. }
  destruct (enemyDecide playerPos towers rnd k e1 s) as [[[d e2] s'] k1].
  cbn [fst snd] in Hd. subst e2.
  destruct (enemySettle_keeps playerPos d (startAttack e1)) as (S1 & _).
  cbv zeta in S1.
  destruct (enemySettle playerPos d (startAttack e1)) as [d' e3].
  cbn [fst snd] in *.
  destruct (enemyCommit_keeps d' rnd k1 e3) as (C1 & _).
  cbv zeta in C1.
  destruct (enemyCommit d' rnd k1 e3) as [e4 k2]. cbn [fst snd] in *.
  destruct (enemyMove_keeps delta e4) as (_ & _ & _ & M1 & _).
  cbv zeta in M1. rewrite M1, C1, S1. reflexivity.
Qed.

(** An enemy whose visual plays after a tick is attacking and has not
    moved in it, provided no visual played before. *)
Lemma risen_state delta playerPos towers rnd k (e : EnemyState) s :
  isAttackingVisual e = false ->
  let e' := fst (fst (enemyLogic delta playerPos towers rnd k e s)) in
  isAttackingVisual e' = true ->
  aiState e' = ATTACKING_PLAYER /\ enemy_position e' = enemy_position e.
Proof.
  intros Hidle e' Hrise. subst e'. unfold enemyLogic in *. cbn [fst] in *.
  destruct (enemyPlan_body delta playerPos towers rnd k e s) as (Bpos & _).
  set (e4 := fst (fst (enemyPlan delta playerPos towers rnd k e s))) in *.
  destruct (enemyMove_keeps delta e4) as (Ks & _ & _ & M1 & _).
  cbv zeta in Ks, M1. rewrite M1 in Hrise.
  assert (Hinv : enemyInv towers e)
    by (intros H; rewrite Hidle in H; discriminate).
  destruct (plan_during_visual delta playerPos towers rnd k e s Hinv Hrise)
    as [Hs _].
  destruct (enemyMove_during_visual delta e4 Hs Hrise) as (Hp & _).
  rewrite Ks, Hp. split; [ exact Hs | exact Bpos ].
Qed.

(** The tick in which the visual runs out while the cooldown still runs:
    the enemy takes up the chase of a player within detection range. *)
Lemma chase_after_visual delta playerPos towers rnd k (e : EnemyState) s :
  isAttackingVisual e = true ->
  aiState e = ATTACKING_PLAYER ->
  ENEMY_ATTACK_EFFECT_DURATION <= attackEffectTimer e + delta ->
  towerThreat towers (enemy_position e) = None ->
  delta < attackCooldownTimer e ->
  distanceToSquared (enemy_position e) playerPos
  < ENEMY_DETECTION_RANGE_SQR ->
  let e' := fst (fst (enemyLogic delta playerPos towers rnd k e s)) in
  isAttackingVisual e' = false
  /\ aiState e' = CHASING_PLAYER
  /\ currentTarget e' = playerPos
  /\ attackCooldownTimer e' = attackCooldownTimer e - delta.
Proof.
  destruct e as [m pos rot col target roam moving walk st cd flag timer].
  enemy_fields. intros -> -> Hover Hthreat Hcd Hdet. cbv zeta.
  unfold enemyLogic, enemyPlan, enemyTimers, enemyAttackVisual. enemy_fields.
  replace (timer + delta >=? ENEMY_ATTACK_EFFECT_DURATION) with true
    by (symmetry; apply geb_true; exact Hover).
  unfold enemyDecide. enemy_fields. rewrite Hthreat.
  replace (JS.Math_max 0 (cd - delta) <=? 0) with false
    by (symmetry; apply leb_false; unfold JS.Math_max;
        rewrite Rmax_right by lra; lra).
  rewrite andb_false_r. enemy_fields.
  unfold enemySettle. enemy_fields.
  replace (distanceToSquared pos playerPos <? ENEMY_DETECTION_RANGE_SQR)
    with true by (symmetry; apply ltb_true; exact Hdet).
  unfold enemyCommit. enemy_fields.
  match goal with
  | |- context [enemyMove delta ?e4] =>
      destruct (enemyMove_keeps delta e4) as (M1 & M2 & M3 & M4 & _)
  end.
  cbv zeta in *. rewrite M1, M2, M3, M4. enemy_fields.
  unfold JS.Math_max. rewrite Rmax_right by lra. repeat split.
Qed.

(** The enemy of a scene after an idle frame. *)
Lemma idle_frame_enemy rnd seconds sc :
  enemyState (animate rnd (Scenario.idleFor seconds) sc)
  = fst (fst (enemyLogic seconds
                (player_position (playerState (playerRefs sc)))
                (blueTowers sc) rnd (randomCalls sc) (enemyState sc)
                (smoke sc)))
  /\ player_position
       (playerState (playerRefs (animate rnd (Scenario.idleFor seconds) sc)))
     = player_position (playerState (playerRefs sc))
  /\ blueTowers (animate rnd (Scenario.idleFor seconds) sc) = blueTowers sc.
Proof.
  unfold animate. cbn [enemyState playerRefs blueTowers].
  cbn [Scenario.idleFor delta joyInput worldDirection].
  rewrite idle_position by reflexivity. repeat split.
Qed.

Lemma skirmish_distance :
  distanceToSquared (mkVector3 0 0 (-14.9)) Scenario.skirmishPlayerPos
  < ENEMY_ATTACK_RANGE_SQR.
Proof.
  unfold distanceToSquared, Scenario.skirmishPlayerPos,
    ENEMY_ATTACK_RANGE_SQR. cbn. lra.
Qed.

Lemma afterFirstAttack_enemy :
  let e := enemyState Scenario.afterFirstAttack in
  isAttackingVisual e = true
  /\ aiState e = ATTACKING_PLAYER
  /\ attackCooldownTimer e = ENEMY_ATTACK_COOLDOWN
  /\ attackEffectTimer e = 0
  /\ enemy_position e = mkVector3 0 0 (-14.9).
Proof.
  cbv zeta. unfold Scenario.afterFirstAttack.
  destruct (idle_frame_enemy (Scenario.always (1 / 2)) (1 / 10)
              Scenario.standoff)
    as (-> & _ & _).
  cbn [Scenario.standoff playerRefs enemyState blueTowers randomCalls smoke
       Scenario.playerAt playerState player_position].
  assert (Hrise : isAttackingVisual
            (fst (fst (enemyLogic (1 / 10) Scenario.skirmishPlayerPos
                         towerDefinitions_blue (Scenario.always (1 / 2)) 0
                         (Scenario.skirmishEnemy ROAMING) initialSmoke)))
          = true).
  { apply attack_rises.
    - exact no_threat_skirmish.
    - exact skirmish_distance.
    - cbn. lra.
    - reflexivity. }
  destruct (risen_state (1 / 10) Scenario.skirmishPlayerPos
              towerDefinitions_blue (Scenario.always (1 / 2)) 0
              (Scenario.skirmishEnemy ROAMING) initialSmoke eq_refl Hrise)
    as [Hst Hpos].
  destruct (enemyLogic_attack (1 / 10) Scenario.skirmishPlayerPos
              towerDefinitions_blue (Scenario.always (1 / 2)) 0
              (Scenario.skirmishEnemy ROAMING) initialSmoke)
    as [(Hsame & _) | (_ & Hcd & Htimer & _)]; cbv zeta in *.
  - rewrite Hsame in Hrise. cbn in Hrise. discriminate.
  - repeat split; assumption.
Qed.

Lemma afterFirstAttack_scene :
  player_position (playerState (playerRefs Scenario.afterFirstAttack))
  = Scenario.skirmishPlayerPos
  /\ blueTowers Scenario.afterFirstAttack = towerDefinitions_blue.
Proof.
  unfold Scenario.afterFirstAttack.
  destruct (idle_frame_enemy (Scenario.always (1 / 2)) (1 / 10)
              Scenario.standoff)
    as (_ & -> & ->).
  split; reflexivity.
Qed.

Lemma normalize_along_z (a : R) :
  0 < a -> normalize (mkVector3 0 0 a) = mkVector3 0 0 1.
Proof.
  intros Ha. unfold normalize, length, JS.Math_sqrt, lengthSq. cbn [x y z].
  replace (0 * 0 + 0 * 0 + a * a) with (a * a) by ring.
  rewrite sqrt_square by lra. rewrite eqb_neq_false by lra.
  unfold divideScalar, multiplyScalar. cbn [x y z].
  f_equal; field; lra.
Qed.

Lemma no_threat_chasing :
  towerThreat towerDefinitions_blue (mkVector3 0 0 (-13.3)) = None.
Proof.
  unfold towerThreat, closestTower, towerDefinitions_blue, mapRadius,
    TOWER_AVOIDANCE_RANGE_ENEMY_SQR, distanceToSquared.
  crunch. settle. reflexivity.
Qed.

Lemma chasing_enemy :
  let e := enemyState Scenario.chasing in
  isAttackingVisual e = false
  /\ attackCooldownTimer e = 2
  /\ enemy_position e = mkVector3 0 0 (-13.3).
Proof.
  cbv zeta. unfold Scenario.chasing.
  destruct (idle_frame_enemy (Scenario.always (1 / 2)) (1 / 2)
              Scenario.afterFirstAttack) as (-> & _ & _).
  destruct afterFirstAttack_scene as [-> ->].
  destruct afterFirstAttack_enemy as (Hflag & Hst & Hcd & Htimer & Hpos).
  cbv zeta in *.
  set (e := enemyState Scenario.afterFirstAttack) in *.
  assert (Hthreat : towerThreat towerDefinitions_blue (enemy_position e)
                    = None) by (rewrite Hpos; exact no_threat_skirmish).
  assert (Hdist : distanceToSquared (enemy_position e)
                    Scenario.skirmishPlayerPos = 4).
  { rewrite Hpos. unfold distanceToSquared, Scenario.skirmishPlayerPos.
    cbn. lra. }
  destruct (chase_after_visual (1 / 2) Scenario.skirmishPlayerPos
              towerDefinitions_blue (Scenario.always (1 / 2))
              (randomCalls Scenario.afterFirstAttack) e
              (smoke Scenario.afterFirstAttack)
              Hflag Hst)
    as (Cflag & Cst & Ctarget & Ccd).
  { rewrite Htimer. unfold ENEMY_ATTACK_EFFECT_DURATION. lra. }
  { exact Hthreat. }
  { rewrite Hcd. unfold ENEMY_ATTACK_COOLDOWN. lra. }
  { rewrite Hdist. unfold ENEMY_DETECTION_RANGE_SQR. lra. }
  cbv zeta in *.
  split; [ exact Cflag | split ].
  - rewrite Ccd, Hcd. unfold ENEMY_ATTACK_COOLDOWN. lra.
  - rewrite enemyLogic_moves. cbv zeta. rewrite Cst, Ctarget, Hpos.
    cbn [AiState_eqb negb orb andb].
    assert (Hdir : subVectors Scenario.skirmishPlayerPos
                     (mkVector3 0 0 (-14.9)) = mkVector3 0 0 2).
    { unfold subVectors, sub, Scenario.skirmishPlayerPos. cbn.
      f_equal; lra. }
    rewrite Hdir, (normalize_along_z 2) by lra.
    assert (Hmoved : addScaledVector (mkVector3 0 0 (-14.9))
                       (mkVector3 0 0 1) (ENEMY_MOVE_SPEED * (1 / 2))
                     = mkVector3 0 0 (-13.3)).
    { unfold addScaledVector, ENEMY_MOVE_SPEED. cbn. f_equal; lra. }
    rewrite Hmoved.
    replace (lengthSq (mkVector3 0 0 2) >? 0.01) with true
      by (symmetry; apply gtb_true; unfold lengthSq; cbn; lra).
    replace (outOfArena (mkVector3 0 0 (-13.3))) with false.
    + reflexivity.
    + symmetry. unfold outOfArena, JS.Math_abs, mapRadius. cbn [x z].
      apply gtb_false. rewrite Rabs_R0, Rabs_left by lra. lra.
Qed.

Lemma chasing_scene :
  player_position (playerState (playerRefs Scenario.chasing))
  = Scenario.skirmishPlayerPos
  /\ blueTowers Scenario.chasing = towerDefinitions_blue.
Proof.
  unfold Scenario.chasing.
  destruct (idle_frame_enemy (Scenario.always (1 / 2)) (1 / 2)
              Scenario.afterFirstAttack) as (_ & -> & ->).
  exact afterFirstAttack_scene.
Qed.

Lemma second_attack :
  isAttackingVisual
    (enemyState (animate (Scenario.always (1 / 2)) (Scenario.idleFor 2)
                   Scenario.chasing)) = true.
Proof.
  destruct (idle_frame_enemy (Scenario.always (1 / 2)) 2 Scenario.chasing)
    as (-> & _ & _).
  destruct chasing_scene as [-> ->].
  destruct chasing_enemy as (Hflag & Hcd & Hpos). cbv zeta in *.
  apply attack_rises.
  - rewrite Hpos. exact no_threat_chasing.
  - rewrite Hpos. unfold distanceToSquared, Scenario.skirmishPlayerPos,
      ENEMY_ATTACK_RANGE_SQR. cbn. lra.
  - rewrite Hcd. lra.
  - exact Hflag.
Qed.

Lemma X21_two_attacks_witness :
  ENEMY_ATTACK_COOLDOWN
  <= Frames.elapsed [Scenario.idleFor (1 / 2)] + delta (Scenario.idleFor 2).
Proof.
  apply (X21_attacks_are_a_cooldown_apart (Scenario.always (1 / 2))
           Scenario.standoff
           (Scenario.idleFor (1 / 10)) [Scenario.idleFor (1 / 2)]
           (Scenario.idleFor 2)).
  - reflexivity.
  - exact (proj1 afterFirstAttack_enemy).
  - exact (proj1 chasing_enemy).
  - exact second_attack.
Defined.

Lemma X20_attack_witness :
  let e := Scenario.skirmishEnemy ROAMING in
  let r := enemyLogic (1 / 10) Scenario.skirmishPlayerPos
             towerDefinitions_blue (Scenario.always (1 / 2)) 0 e
             initialSmoke in
  let e' := fst (fst r) in
  towerThreat towerDefinitions_blue (enemy_position e) = None
  /\ distanceToSquared (enemy_position e) Scenario.skirmishPlayerPos
     < 2.2 * 2.2
  /\ attackCooldownTimer e <= 1 / 10
  /\ attackCooldownTimer e' = 2.5
  /\ attackEffectTimer e' = 0
  /\ enemy_position e' = enemy_position e
  /\ snd (fst r)
     = fst (emitSmokePuffs (enemy_position e) 0.8 (Scenario.always (1 / 2))
              0 initialSmoke).
Proof.
  apply (X20_attack_starts_only_when_ready (1 / 10)
           Scenario.skirmishPlayerPos towerDefinitions_blue
           (Scenario.always (1 / 2)) 0 (Scenario.skirmishEnemy ROAMING)
           initialSmoke).
  - reflexivity.
  - apply attack_rises.
    + exact no_threat_skirmish.
    + exact skirmish_distance.
    + cbn. lra.
    + reflexivity.
Defined.

Lemma X22_restart_witness :
  let e := startAttack (Scenario.skirmishEnemy ATTACKING_PLAYER) in
  let playerPos := Scenario.skirmishPlayerPos in
  let r := enemyLogic (1 / 2) playerPos towerDefinitions_blue
             (Scenario.always (1 / 2)) 0 e initialSmoke in
  let e' := fst (fst r) in
  let distanceToPlayerSq := distanceToSquared (enemy_position e) playerPos in
  let ready := attackCooldownTimer e <= 1 / 2
               /\ distanceToPlayerSq < ENEMY_ATTACK_RANGE_SQR in
  attackEffectTimer e' = 0
  /\ mesh_material (enemy_mesh e') = restMaterial (enemy_originalColor e)
  /\ (ready ->
      isAttackingVisual e' = true
      /\ aiState e' = ATTACKING_PLAYER
      /\ attackCooldownTimer e' = ENEMY_ATTACK_COOLDOWN
      /\ enemy_position e' = enemy_position e)
  /\ (~ ready ->
      isAttackingVisual e' = false
      /\ snd (fst r) = initialSmoke
      /\ (distanceToPlayerSq < ENEMY_DETECTION_RANGE_SQR ->
          aiState e' = CHASING_PLAYER /\ currentTarget e' = playerPos
          /\ snd r = 0%nat)
      /\ (ENEMY_DETECTION_RANGE_SQR <= distanceToPlayerSq ->
          aiState e' = ROAMING
          /\ currentTarget e'
             = fst (getRandomRoamTarget mapRadius (enemy_position e)
                      blueFountainPosition redFountainPosition
                      (Scenario.always (1 / 2)) 0))).
Proof.
  apply (X22_enemy_after_the_attack_visual (1 / 2)
           Scenario.skirmishPlayerPos towerDefinitions_blue
           (Scenario.always (1 / 2)) 0
           (startAttack (Scenario.skirmishEnemy ATTACKING_PLAYER))
           initialSmoke).
  - reflexivity.
  - reflexivity.
  - unfold ENEMY_ATTACK_EFFECT_DURATION. cbn. lra.
  - exact no_threat_skirmish.
Defined.

(** X23. While the attack visual plays (effect timer after the frame in
    [[0, 0.45)]) the tick writes the pulse material: the colour is the
    original colour blended towards 0xffcc66 by
    [0.7 * sin(timer / 0.45 * PI)], a factor within [[0, 0.7]]; the emissive
    colour is 0xffaa33 and the emissive intensity, 1.5 times the factor,
    lies within [[0, 1.05]]. The flag stays set and the timer advances by
    the frame time. *)
Theorem X23_attack_pulse_stays_in_range :
  forall (delta : R) (playerPos : Vector3) (towers : list TowerInfo)
         (rnd : JS.Random) (k : nat) (e : EnemyState) (s : Smoke),
    isAttackingVisual e = true ->
    0 <= attackEffectTimer e + delta < ENEMY_ATTACK_EFFECT_DURATION ->
    let e' := fst (fst (enemyLogic delta playerPos towers rnd k e s)) in
    let lerpFactor :=
      JS.Math_sin ((attackEffectTimer e + delta)
                   / ENEMY_ATTACK_EFFECT_DURATION * PI) * 0.7 in
    mesh_material (enemy_mesh e')
    = mkMaterial
        (lerpColors (enemy_originalColor e) (setHex 0xffcc66) lerpFactor)
        (setHex 0xffaa33) (lerpFactor * 1.5)
    /\ 0 <= lerpFactor <= 0.7
    /\ 0 <= emissiveIntensity (mesh_material (enemy_mesh e')) <= 1.05
    /\ isAttackingVisual e' = true
    /\ attackEffectTimer e' = attackEffectTimer e + delta.
Proof.
  intros delta playerPos towers rnd k e s Hon [Hlo Hhi] e' lerpFactor.
  assert (Hf : 0 <= lerpFactor <= 0.7).
  { subst lerpFactor. unfold JS.Math_sin, ENEMY_ATTACK_EFFECT_DURATION in *.
    pose proof PI_lower as Hpi. pose proof PI_upper as Hpi4.
    set (a := (attackEffectTimer e + delta) / 0.45 * PI).
    assert (Ha : 0 <= a <= PI).
    { unfold a.
      assert (Hq : 0 <= (attackEffectTimer e + delta) / 0.45 <= 1)
        by (split; [ apply Rmult_le_pos; lra
                   | apply Rmult_le_reg_r with 0.45; [ lra | ];
                     unfold Rdiv; rewrite Rmult_assoc, Rinv_l by lra; lra ]).
      split; nra. }
    pose proof (sin_ge_0 a (proj1 Ha) (proj2 Ha)).
    pose proof (SIN_bound a) as [_ Hle]. split; lra. }
  destruct (enemyLogic_visual delta playerPos towers rnd k e s)
    as (_ & _ & Hplay).
  cbv zeta in Hplay. destruct (Hplay Hon Hhi) as [Hflag Htimer].
  assert (Hmat : mesh_material (enemy_mesh e')
                 = mkMaterial
                     (lerpColors (enemy_originalColor e) (setHex 0xffcc66)
                        lerpFactor)
                     (setHex 0xffaa33) (lerpFactor * 1.5)).
  { subst e'. unfold enemyLogic, enemyPlan. cbn [fst].
    set (e1 := enemyAttackVisual delta (enemyTimers delta e)).
    pose proof (enemyDecide_look playerPos towers rnd k e1 s) as Hd.
    cbv zeta in Hd.
    destruct (enemyDecide playerPos towers rnd k e1 s) as [[[d e2] s'] k1].
    pose proof (enemySettle_look playerPos d e2) as Hs.
    destruct (enemySettle playerPos d e2) as [d' e3].
    pose proof (enemyCommit_look d' rnd k1 e3) as Hc.
    destruct (enemyCommit d' rnd k1 e3) as [e4 k2].
    cbn [fst snd] in *.
    pose proof (sameLook_trans _ _ _ Hs
                  (sameLook_trans _ _ _ Hc (enemyMove_look delta e4)))
      as (Hm & _).
    destruct Hd as (Hm2 & _).
    rewrite Hm, Hm2. subst e1.
    unfold enemyAttackVisual, enemyTimers. cbn. rewrite Hon.
    replace (attackEffectTimer e + delta >=? ENEMY_ATTACK_EFFECT_DURATION)
      with false by (symmetry; apply geb_false; exact Hhi).
    reflexivity. }
  split; [ exact Hmat | split; [ exact Hf | split; [ | split ] ] ].
  - rewrite Hmat. cbn [emissiveIntensity]. lra.
  - exact Hflag.
  - exact Htimer.
Qed.

Lemma X23_pulse_witness :
  let e := startAttack (Scenario.skirmishEnemy ATTACKING_PLAYER) in
  let e' := fst (fst (enemyLogic (1 / 10) Scenario.skirmishPlayerPos
                        towerDefinitions_blue (Scenario.always (1 / 2)) 0 e
                        initialSmoke)) in
  let lerpFactor :=
    JS.Math_sin ((attackEffectTimer e + 1 / 10)
                 / ENEMY_ATTACK_EFFECT_DURATION * PI) * 0.7 in
  mesh_material (enemy_mesh e')
  = mkMaterial
      (lerpColors (enemy_originalColor e) (setHex 0xffcc66) lerpFactor)
      (setHex 0xffaa33) (lerpFactor * 1.5)
  /\ 0 <= lerpFactor <= 0.7
  /\ 0 <= emissiveIntensity (mesh_material (enemy_mesh e')) <= 1.05
  /\ isAttackingVisual e' = true
  /\ attackEffectTimer e' = attackEffectTimer e + 1 / 10.
Proof.
  apply (X23_attack_pulse_stays_in_range (1 / 10)
           Scenario.skirmishPlayerPos towerDefinitions_blue
           (Scenario.always (1 / 2)) 0
           (startAttack (Scenario.skirmishEnemy ATTACKING_PLAYER))
           initialSmoke).
  - reflexivity.
  - unfold ENEMY_ATTACK_EFFECT_DURATION. cbn. lra.
Defined.

(** ** How a puff fades *)

(** The lifetime a puff starts with is up to 1.2 times the lifetime its
    fade is computed from, so the fade starts before its nominal begin:
    the opacity may exceed the start opacity and the scale may be below the
    start scale. *)
Definition fading (p : ActiveSmokePuff) (m : PuffMesh) : Prop :=
  initialLifetime p = SMOKE_PUFF_LIFETIME
  /\ 0 < lifetime p <= SMOKE_PUFF_LIFETIME * 1.2
  /\ 0 < puff_opacity m <= SMOKE_PUFF_START_OPACITY * 1.2
  /\ SMOKE_PUFF_START_SCALE - 0.2 * (SMOKE_PUFF_END_SCALE
                                     - SMOKE_PUFF_START_SCALE)
     <= puff_scale m <= SMOKE_PUFF_END_SCALE.

Definition fadeInv (active : list ActiveSmokePuff)
    (meshes : MeshId -> PuffMesh) : Prop :=
  forall p, In p active -> fading p (meshes (mesh p)).

Lemma emitLoop_fade :
  forall pool puffsEmitted puffsToEmit position rnd k active meshes,
    JS.in_unit rnd ->
    fadeInv active meshes ->
    let r := emitLoop pool puffsEmitted puffsToEmit position rnd k active
               meshes in
    fadeInv (fst (fst r)) (snd (fst r)).
Proof.
  induction pool as [ | puffMesh rest IH ];
    intros emitted toEmit pos rnd k active meshes Hrnd Hinv; cbn [emitLoop].
  - exact Hinv.
  - destruct (INR emitted >=? toEmit); [ exact Hinv | ].
    destruct (isActive active puffMesh) eqn:Hact.
    + apply IH; assumption.
    + cbv zeta. apply IH; [ exact Hrnd | ].
      intros p Hp. apply in_app_or in Hp. destruct Hp as [Hp | [<- | []]].
      * unfold writeMesh.
        destruct (Nat.eqb (mesh p) puffMesh) eqn:Heq.
        -- apply Nat.eqb_eq in Heq.
           assert (Habs : isActive active puffMesh = true).
           { apply isActive_true. rewrite <- Heq. apply in_map. exact Hp. }
           congruence.
        -- apply Hinv. exact Hp.
      * unfold writeMesh, fading. cbn [mesh]. rewrite Nat.eqb_refl.
        cbn [initialLifetime lifetime puff_opacity puff_scale].
        pose proof (Hrnd (k + 5)%nat).
        unfold SMOKE_PUFF_LIFETIME, SMOKE_PUFF_START_OPACITY,
          SMOKE_PUFF_START_SCALE, SMOKE_PUFF_END_SCALE.
        repeat split; try lra; nra.
Qed.

Lemma updatePuffs_fade (delta : R) :
  0 <= delta ->
  forall active meshes,
    NoDup (map mesh active) ->
    (forall p, In p active ->
       initialLifetime p = SMOKE_PUFF_LIFETIME
       /\ lifetime p <= SMOKE_PUFF_LIFETIME * 1.2) ->
    let r := updatePuffs delta active meshes in
    fadeInv (fst r) (snd r)
    /\ (forall m, ~ In m (map mesh active) -> snd r m = meshes m)
    /\ (forall m, In m (map mesh (fst r)) -> In m (map mesh active)).
Proof.
  intros Hdelta.
  induction active as [ | puff rest IH ]; intros meshes Hnd Hinv.
  - cbn. split; [ intros p [] | split; [ reflexivity | tauto ] ].
  - inversion Hnd as [ | ? ? Hnotin Hnd' ]; subst.
    assert (Hrest : forall p, In p rest ->
              initialLifetime p = SMOKE_PUFF_LIFETIME
              /\ lifetime p <= SMOKE_PUFF_LIFETIME * 1.2)
      by (intros p Hp; apply Hinv; right; exact Hp).
    cbn [updatePuffs]. cbv zeta.
    destruct (lifetime puff - delta <=? 0) eqn:Hexp.
    + match goal with
      | |- context [updatePuffs delta rest ?h] =>
          destruct (IH h Hnd' Hrest) as (H1 & H2 & H3)
      end.
      cbv zeta in H1, H2, H3. split; [ exact H1 | split ].
      * intros m Hnot.
        rewrite H2 by (intros Hin; apply Hnot; right; exact Hin).
        unfold writeMesh.
        destruct (Nat.eqb m (mesh puff)) eqn:Heq; [ | reflexivity ].
        apply Nat.eqb_eq in Heq. exfalso. apply Hnot. left. auto.
      * intros m Hm. right. apply H3. exact Hm.
    + apply leb_false in Hexp.
      match goal with
      | |- context [updatePuffs delta rest ?h] =>
          set (h1 := h); destruct (IH h1 Hnd' Hrest) as (H1 & H2 & H3)
      end.
      cbv zeta in H1, H2, H3.
      destruct (updatePuffs delta rest h1) as [kept meshes'] eqn:E.
      cbn [fst snd] in *.
      destruct (Hinv puff (or_introl eq_refl)) as [Hinit Hlife].
      split; [ | split ].
      * intros q [<- | Hq]; [ | apply H1; exact Hq ].
        cbn [mesh]. rewrite (H2 _ Hnotin). unfold h1, writeMesh.
        rewrite Nat.eqb_refl. unfold fading.
        cbn [initialLifetime lifetime puff_opacity puff_scale].
        rewrite Hinit. unfold MathUtils.lerp.
        unfold SMOKE_PUFF_LIFETIME, SMOKE_PUFF_START_OPACITY,
          SMOKE_PUFF_START_SCALE, SMOKE_PUFF_END_SCALE in *.
        repeat split; lra.
      * intros m Hnot.
        rewrite H2 by (intros Hin; apply Hnot; right; exact Hin).
        unfold h1, writeMesh.
        destruct (Nat.eqb m (mesh puff)) eqn:Heq; [ | reflexivity ].
        apply Nat.eqb_eq in Heq. exfalso. apply Hnot. left. auto.
      * intros m [Hm | Hm]; [ left; exact Hm | right; apply H3; exact Hm ].
Qed.

Lemma run_fadeInv (ops : list SmokeHistory.Op) :
  Forall SmokeHistory.wellFormed ops ->
  fadeInv (activeSmokePuffs (SmokeHistory.run ops))
    (puffMeshes (SmokeHistory.run ops)).
Proof.
  unfold SmokeHistory.run.
  assert (H0 : poolInv initialSmoke
               /\ fadeInv (activeSmokePuffs initialSmoke)
                    (puffMeshes initialSmoke)).
  { split; [ exact initialSmoke_inv | intros p [] ]. }
  revert H0. generalize initialSmoke.
  induction ops as [ | op ops IH ]; intros s [Hpool Hfade] Hwf; cbn.
  - exact Hfade.
  - inversion Hwf as [ | ? ? Hop Hops ]; subst.
    apply IH; [ | exact Hops ].
    destruct op as [ position mult rnd k | delta ];
      cbn [SmokeHistory.apply SmokeHistory.wellFormed] in *.
    + split; [ apply emitSmokePuffs_inv; exact Hpool | ].
      unfold emitSmokePuffs.
      destruct (negb (smokeTexture s)); [ exact Hfade | ].
      match goal with
      | |- context [emitLoop ?p ?e ?t ?pos ?r ?k' ?a ?h] =>
          pose proof (emitLoop_fade p e t pos r k' a h Hop Hfade) as Hloop;
          destruct (emitLoop p e t pos r k' a h) as [[active' meshes'] k'']
      end.
      exact Hloop.
    + split; [ apply smokeUpdate_inv; exact Hpool | ].
      destruct Hpool as (Hnd & _ & _).
      unfold smokeUpdate.
      pose proof (updatePuffs_fade delta Hop (activeSmokePuffs s)
                    (puffMeshes s) Hnd) as Hupd.
      destruct (updatePuffs delta (activeSmokePuffs s) (puffMeshes s))
        as [kept meshes'] eqn:E.
      cbn [fst snd activeSmokePuffs puffMeshes] in *.
      apply Hupd. intros p Hp. destruct (Hfade p Hp) as (Hi & [_ Hl] & _).
      split; assumption.
Qed.

(** X25. In a history in which [Math.random] returns numbers of [[0, 1)]
    and frame times are not negative, every active puff has an initial
    lifetime of 1.2 and a remaining lifetime in (0, 1.44]; its mesh has an
    opacity in (0, 0.72] and a scale in [[-0.06, 1.5]]. The opacity can exceed
    the start opacity 0.6 and the scale can be below the start scale 0.2,
    because a puff may start with more lifetime than the 1.2 its fade is
    computed from. *)
Theorem X25_puff_fade_bounds :
  forall (ops : list SmokeHistory.Op) (p : ActiveSmokePuff),
    Forall SmokeHistory.wellFormed ops ->
    In p (activeSmokePuffs (SmokeHistory.run ops)) ->
    let m := puffMeshes (SmokeHistory.run ops) (mesh p) in
    initialLifetime p = 1.2
    /\ 0 < lifetime p <= 1.44
    /\ 0 < puff_opacity m <= 0.72
    /\ -0.06 <= puff_scale m <= 1.5.
Proof.
  intros ops p Hwf Hp m.
  destruct (run_fadeInv ops Hwf p Hp) as (Hi & Hl & Ho & Hs).
  fold m in Ho, Hs.
  unfold SMOKE_PUFF_LIFETIME, SMOKE_PUFF_START_OPACITY,
    SMOKE_PUFF_START_SCALE, SMOKE_PUFF_END_SCALE in *.
  repeat split; lra.
Qed.

Ltac scan :=
  repeat first
    [ rewrite emitLoop_cons_lt by (simpl INR; lra);
      cbn [isActive existsb mesh Nat.eqb app orb]
    | rewrite emitLoop_cons_ge by (simpl INR; lra) ].

Lemma burst_of_one :
  JS.Math_floor
    ((5 + JS.Math_floor (SmokeHistory.almostOne 0%nat * 4)) * (1 / 5)) = 1.
Proof.
  unfold JS.Math_floor, SmokeHistory.almostOne.
  rewrite (Zfloor_eq 3 (99 / 100 * 4)) by (simpl; lra).
  rewrite (Zfloor_eq 1) by (simpl; lra).
  reflexivity.
Qed.

(** A puff that was given a long lifetime is, a hundredth of a second
    later, more opaque than the start opacity and has a negative scale. *)
Lemma long_lived_puff_overshoots :
  let s := SmokeHistory.run
             [SmokeHistory.Emit SmokeHistory.origin (1 / 5)
                SmokeHistory.almostOne 0;
              SmokeHistory.Tick (1 / 100)] in
  isActive (activeSmokePuffs s) 0%nat = true
  /\ SMOKE_PUFF_START_OPACITY < puff_opacity (puffMeshes s 0%nat)
  /\ puff_scale (puffMeshes s 0%nat) < 0.
Proof.
  cbv zeta. unfold SmokeHistory.run, initialSmoke, NUM_SMOKE_PUFFS.
  cbn [fold_left SmokeHistory.apply seq].
  unfold emitSmokePuffs. cbn [smokeTexture negb smokePuffsPool
                              activeSmokePuffs puffMeshes].
  rewrite burst_of_one. scan. cbn [fst].
  unfold smokeUpdate, SmokeHistory.almostOne, SMOKE_PUFF_LIFETIME.
  cbn [activeSmokePuffs puffMeshes updatePuffs lifetime mesh].
  settle_comparisons.
  cbn [activeSmokePuffs puffMeshes isActive existsb mesh Nat.eqb orb].
  split; [ reflexivity | ].
  unfold writeMesh. cbn [Nat.eqb puff_opacity puff_scale initialLifetime].
  unfold MathUtils.lerp, SMOKE_PUFF_START_OPACITY, SMOKE_PUFF_START_SCALE,
    SMOKE_PUFF_END_SCALE.
  split; lra.
Qed.

Lemma X25_fade_witness :
  let ops := [SmokeHistory.Emit SmokeHistory.origin (1 / 5)
                SmokeHistory.almostOne 0] in
  let p :=
    mkActiveSmokePuff 0%nat (SMOKE_PUFF_LIFETIME * (0.8 + 99 / 100 * 0.4))
      SMOKE_PUFF_LIFETIME
      (mkVector3 ((99 / 100 - 0.5) * 0.8) (0.8 + 99 / 100 * 0.7)
         ((99 / 100 - 0.5) * 0.8)) in
  let m := puffMeshes (SmokeHistory.run ops) (mesh p) in
  initialLifetime p = 1.2
  /\ 0 < lifetime p <= 1.44
  /\ 0 < puff_opacity m <= 0.72
  /\ -0.06 <= puff_scale m <= 1.5.
Proof.
  intros ops p.
  apply (X25_puff_fade_bounds ops p).
  - apply Forall_cons; [ | apply Forall_nil ].
    intros n. unfold SmokeHistory.almostOne. lra.
  - unfold ops, p, SmokeHistory.run, initialSmoke, NUM_SMOKE_PUFFS.
    cbn [fold_left SmokeHistory.apply seq].
    unfold emitSmokePuffs. cbn [smokeTexture negb smokePuffsPool
                                activeSmokePuffs puffMeshes].
    rewrite burst_of_one. scan. cbn [fst activeSmokePuffs app].
    left. reflexivity.
Defined.
